(** * SU2 -- construction of the local FEM mesh (CMeshFEM)

    A shallow embedding of [Common/src/fem_geometry_structure.cpp]:
    the record types with their comparison operators, the standard
    algorithms the constructor calls ([std::sort], [std::unique],
    [std::lower_bound], [std::binary_search]), the walks over the flat
    communication buffers, the halo request/answer round trip, and the
    reconciliation of the halo points.

    Integers are [Z] with the conversions between the C++ integer types
    written out; vectors are lists read through [readAt], which is
    undefined out of range as [operator[]] is; [std::map] is a [gmap]. *)

From Stdlib Require Import ZArith List Bool String Lia Reals Lra RNsatz.
From Stdlib Require Import Floats.PrimFloat.
From stdpp Require Import base decidable option list sorting countable gmap.

Local Open Scope Z_scope.

(** ** Outcomes of a fragment of the constructor *)

(** A fragment either runs to its end, or prints a diagnostic and stops
    the whole run ([exit(EXIT_FAILURE)], [MPI_Abort]), or steps outside
    what C++ defines (an [operator[]] out of range, the dereference of
    an [end()] iterator). *)
Inductive outcome (A : Type) : Type :=
| Ok (a : A)
| Abort (printed : list Z) (diagnostic : string)
| Undefined.
Arguments Ok {A} a.
Arguments Abort {A} printed diagnostic.
Arguments Undefined {A}.

Definition obind {A B} (m : outcome A) (k : A → outcome B) : outcome B :=
  match m with
  | Ok a => k a
  | Abort p d => Abort p d
  | Undefined => Undefined
  end.

Notation "'let*' x ':=' m 'in' k" := (obind m (fun x => k))
  (at level 10, x name, m at level 100, k at level 200).
Notation "'let*' ' p ':=' m 'in' k" := (obind m (fun p => k))
  (at level 10, p pattern, m at level 100, k at level 200).

Definition is_abort {A} (o : outcome A) : bool :=
  match o with Abort _ _ => true | _ => false end.

Definition is_ok {A} (o : outcome A) : bool :=
  match o with Ok _ => true | _ => false end.

(** [v[i]] on a [std::vector]. *)
Definition readAt {A} (v : list A) (i : nat) : outcome A :=
  match v !! i with
  | Some x => Ok x
  | None => Undefined
  end.

(** [v[i] = x] on a [std::vector]. *)
Definition writeAt {A} (v : list A) (i : nat) (x : A) : outcome (list A) :=
  if decide (i < length v)%nat then Ok (<[i := x]> v) else Undefined.

(** ** The integer types *)

Definition ULONG_MOD : Z := 2 ^ 64.
Definition ULONG_MAX : Z := ULONG_MOD - 1.
Definition SHRT_MAX : Z := 32767.

(** Conversion to [unsigned long]. *)
Definition to_ulong (z : Z) : Z := z mod ULONG_MOD.

(** Conversion to [long] (two's complement). *)
Definition to_long (z : Z) : Z :=
  let u := z mod ULONG_MOD in
  if u <? 2 ^ 63 then u else u - ULONG_MOD.

(** Conversion to [unsigned short]. *)
Definition to_ushort (z : Z) : Z := z mod 2 ^ 16.

(** Conversion to [short] (two's complement). *)
Definition to_short (z : Z) : Z :=
  let u := z mod 2 ^ 16 in
  if u <? 2 ^ 15 then u else u - 2 ^ 16.

(** Conversion to [int] (two's complement). *)
Definition to_int (z : Z) : Z :=
  let u := z mod 2 ^ 32 in
  if u <? 2 ^ 31 then u else u - 2 ^ 32.

Definition is_long (z : Z) : Prop := - 2 ^ 63 <= z < 2 ^ 63.
Definition is_ulong (z : Z) : Prop := 0 <= z < ULONG_MOD.
Definition is_short (z : Z) : Prop := - 2 ^ 15 <= z < 2 ^ 15.
Definition is_ushort (z : Z) : Prop := 0 <= z < 2 ^ 16.

(** ** The standard algorithms *)

(** The requirement [Compare] of the standard library on the [operator<]
    handed to [std::sort] and the binary searches. *)
Class StrictWeakOrder {A} (lt : A → A → bool) : Prop := {
  swo_irrefl x : lt x x = false;
  swo_trans x y z : lt x y = true → lt y z = true → lt x z = true;
  swo_negtrans x y z : lt x z = true → lt x y = true ∨ lt y z = true
}.

(** [operator==] agrees with the equivalence induced by [operator<]. *)
Class EqOfOrder {A} (lt eqb : A → A → bool) : Prop :=
  eqb_equiv x y : eqb x y = true ↔ lt x y = false ∧ lt y x = false.

Section std_algorithms.
Context {A : Type} (lt : A → A → bool) (eqb : A → A → bool).

(** [!(y < x)] *)
Definition not_gt (x y : A) : Prop := lt y x = false.
Definition lt_true (x y : A) : Prop := lt x y = true.

#[global] Instance not_gt_dec x y : Decision (not_gt x y).
Proof. unfold not_gt. apply _. Defined.

#[global] Instance lt_true_dec x y : Decision (lt_true x y).
Proof. unfold lt_true. apply _. Defined.

(** [std::sort(v.begin(), v.end())]. The standard leaves the algorithm
    open and asks for a permutation of the range in nondecreasing order;
    merge sort stands for it. *)
Definition sort (l : list A) : list A := merge_sort not_gt l.

(** [std::unique]: [kept] is the last element written; an element equal
    to it is skipped. *)
Fixpoint unique_from (kept : A) (l : list A) : list A :=
  match l with
  | [] => []
  | y :: l' => if eqb kept y then unique_from kept l'
               else y :: unique_from y l'
  end.

(** [v.erase(std::unique(v.begin(), v.end()), v.end())] *)
Definition unique (l : list A) : list A :=
  match l with
  | [] => []
  | x :: l' => x :: unique_from x l'
  end.

(** [std::lower_bound]: the loop over [first] and [count]. *)
Fixpoint lower_bound_loop (fuel : nat) (l : list A) (first count : nat)
    (value : A) : nat :=
  match fuel with
  | O => first
  | S fuel' =>
      if (count =? 0)%nat then first
      else
        let step := (count / 2)%nat in
        let it := (first + step)%nat in
        match l !! it with
        | Some x =>
            if lt x value
            then lower_bound_loop fuel' l (S it) (count - (step + 1)) value
            else lower_bound_loop fuel' l first step value
        | None => first
        end
  end.

Definition lower_bound (l : list A) (value : A) : nat :=
  lower_bound_loop (length l) l 0 (length l) value.

(** [std::binary_search]:
    [first = lower_bound(..); return first != last && !(value < *first)]. *)
Definition binary_search (l : list A) (value : A) : bool :=
  match l !! lower_bound l value with
  | Some x => negb (lt value x)
  | None => false
  end.

(** sort followed by unique and erase *)
Definition dedup (l : list A) : list A := unique (sort l).

End std_algorithms.

(** ** The record types and their operators *)

(** Modelled from the spec: the class [unsignedLong2T] is declared in a
    header outside the translated files. It holds two [unsigned long]
    values, is ordered on the first and then on the second, and is equal
    when both are. *)
Record unsignedLong2T : Type := mkUL2 { long0 : Z; long1 : Z }.

(** The constructor [unsignedLong2T(a, b)]: both arguments are converted
    to [unsigned long]. *)
Definition UL2 (a b : Z) : unsignedLong2T := mkUL2 (to_ulong a) (to_ulong b).

Definition ul2_lt (a b : unsignedLong2T) : bool :=
  if negb (long0 a =? long0 b) then long0 a <? long0 b
  else if negb (long1 a =? long1 b) then long1 a <? long1 b
  else false.

Definition ul2_eqb (a b : unsignedLong2T) : bool :=
  (long0 a =? long0 b) && (long1 a =? long1 b).

#[global] Instance unsignedLong2T_eq_dec : EqDecision unsignedLong2T.
Proof. solve_decision. Defined.

#[global] Instance unsignedLong2T_countable : Countable unsignedLong2T.
Proof.
  apply (inj_countable' (λ p, (long0 p, long1 p)) (λ q, mkUL2 q.1 q.2)).
  by intros [].
Defined.

(** The floating point type [su2double] is a type definition of the
    build (a [double], or a type of an algorithmic differentiation
    tool); the code below is written over its operations. *)
Class Su2Order (T : Type) : Type := {
  su2_sub : T → T → T;
  su2_fabs : T → T;
  su2_ltb : T → T → bool
}.

Class Su2Arith (T : Type) : Type := {
  su2_zero : T;
  su2_add : T → T → T;
  su2_mul : T → T → T;
  su2_opp : T → T;
  su2_sqrt : T → T;
  su2_cos : T → T;
  su2_sin : T → T;
  su2_1em4 : T;
  su2_1ep10 : T
}.

(** [std::min(a, b)] is [(b < a) ? b : a]. *)
Definition su2_min {T} `{Su2Order T} (a b : T) : T :=
  if su2_ltb b a then b else a.

(** [a > b] *)
Definition su2_gtb {T} `{Su2Order T} (a b : T) : bool := su2_ltb b a.

(** [su2double] as [double]: the binary64 floating point numbers. *)
#[global] Instance float_order : Su2Order float := {
  su2_sub := PrimFloat.sub;
  su2_fabs := PrimFloat.abs;
  su2_ltb := PrimFloat.ltb
}.

Module CPointCompare.
(** [coor] is an array of three entries, of which the first [nDim] are
    set and compared; the list holds at least these. *)
Record t (T : Type) : Type := mk {
  nDim : nat;
  nodeID : Z;
  tolForMatching : T;
  coor : list T
}.
Arguments mk {T}. Arguments nDim {T}. Arguments nodeID {T}.
Arguments tolForMatching {T}. Arguments coor {T}.
End CPointCompare.

Section point_compare.
Context {T : Type} `{Su2Order T}.

(** The loop of [CPointCompare::operator<] over the first [n]
    coordinates. *)
Fixpoint lessCoor (tol : T) (n : nat) (a b : list T) : bool :=
  match n, a, b with
  | S n', x :: a', y :: b' =>
      if su2_gtb (su2_fabs (su2_sub x y)) tol then su2_ltb x y
      else lessCoor tol n' a' b'
  | _, _, _ => false
  end.

(** [CPointCompare::operator<] *)
Definition pointCompare_lt (p other : CPointCompare.t T) : bool :=
  if negb (CPointCompare.nDim p =? CPointCompare.nDim other)%nat
  then (CPointCompare.nDim p <? CPointCompare.nDim other)%nat
  else
    let tol := su2_min (CPointCompare.tolForMatching p)
                       (CPointCompare.tolForMatching other) in
    lessCoor tol (CPointCompare.nDim p)
      (CPointCompare.coor p) (CPointCompare.coor other).
End point_compare.

Module CPointFEM.
(** [globalID] is an [unsigned long], [periodIndexToDonor] a [short],
    [coor] an array of three entries. *)
Record t (T : Type) : Type := mk {
  globalID : Z;
  periodIndexToDonor : Z;
  coor : list T
}.
Arguments mk {T}. Arguments globalID {T}.
Arguments periodIndexToDonor {T}. Arguments coor {T}.
End CPointFEM.

(** [CPointFEM::operator<] *)
Definition pointFEM_lt {T} (p other : CPointFEM.t T) : bool :=
  if negb (CPointFEM.periodIndexToDonor p =? CPointFEM.periodIndexToDonor other)
  then CPointFEM.periodIndexToDonor p <? CPointFEM.periodIndexToDonor other
  else CPointFEM.globalID p <? CPointFEM.globalID other.

(** [CPointFEM::operator==] *)
Definition pointFEM_eqb {T} (p other : CPointFEM.t T) : bool :=
  (CPointFEM.globalID p =? CPointFEM.globalID other)
  && (CPointFEM.periodIndexToDonor p =? CPointFEM.periodIndexToDonor other).

(** *** The comparison of points as the specification words it *)

Section point_compare_spec.
Context {T : Type} `{Su2Order T}.

(** The coordinate pair differs by more than the tolerance. *)
Definition beyondTol (tol x y : T) : bool :=
  su2_gtb (su2_fabs (su2_sub x y)) tol.

(** Every pair of the first [n] coordinates differs by no more than
    the tolerance. *)
Fixpoint allWithinTol (tol : T) (n : nat) (a b : list T) : bool :=
  match n, a, b with
  | S n', x :: a', y :: b' => negb (beyondTol tol x y) && allWithinTol tol n' a' b'
  | _, _, _ => true
  end.

(** The lexicographic comparison of the first [n] coordinates: the
    first pair of different coordinates decides. *)
Fixpoint spec_lexicographic_less (n : nat) (a b : list T) : bool :=
  match n, a, b with
  | S n', x :: a', y :: b' =>
      if su2_ltb x y then true
      else if su2_ltb y x then false
      else spec_lexicographic_less n' a' b'
  | _, _, _ => false
  end.

(** The comparison as the specification states it: lexicographic,
    except that points within the tolerance in every coordinate are
    not less than each other. *)
Definition spec_pointCompare_lt (p other : CPointCompare.t T) : bool :=
  let tol := su2_min (CPointCompare.tolForMatching p)
                     (CPointCompare.tolForMatching other) in
  if allWithinTol tol (CPointCompare.nDim p)
       (CPointCompare.coor p) (CPointCompare.coor other)
  then false
  else spec_lexicographic_less (CPointCompare.nDim p)
         (CPointCompare.coor p) (CPointCompare.coor other).
End point_compare_spec.

(** Points of dimension one and two over [double]. *)
Definition point1 (tol x : float) : CPointCompare.t float :=
  CPointCompare.mk 1 0 tol [x; 0%float; 0%float].

Definition point2 (tol x y : float) : CPointCompare.t float :=
  CPointCompare.mk 2 0 tol [x; y; 0%float].

(** No two elements of the vector are equal under [operator==]. *)
Definition duplicate_free {A} (eqb : A → A → bool) (l : list A) : Prop :=
  ∀ i j x y, (i < j)%nat → l !! i = Some x → l !! j = Some y → eqb x y = false.

(** ** The source mesh *)

Definition b2z (b : bool) : Z := if b then 1 else 0.

(** The cast [(bool) x] *)
Definition z2b (z : Z) : bool := negb (z =? 0).

Module CPrimalGrid.
(** Modelled from the spec: the elements of the source mesh are read
    through the accessors of [CPrimalGrid], declared outside the
    translated files. A face carries the global ID of the neighbouring
    element (a [long], -1 on a boundary of the domain), its periodic
    index (a [short], -1 for none) and its constant Jacobian flag. *)
Record face : Type := mkFace {
  Neighbor_Elements : Z;
  PeriodicIndex : Z;
  JacobianConstantFace : bool
}.

(** The counts are [unsigned short], the IDs and the nodes
    [unsigned long]; [NDOFsGrid] nodes and [nFaces] faces are stored. *)
Record t : Type := mk {
  VTK_Type : Z;
  NPolyGrid : Z;
  NPolySol : Z;
  NDOFsSol : Z;
  JacobianConsideredConstant : bool;
  GlobalElemID : Z;
  GlobalOffsetDOFsSol : Z;
  Color : Z;
  Nodes : list Z;
  Faces : list face
}.

Definition NDOFsGrid (e : t) : Z := Z.of_nat (length (Nodes e)).
Definition nFaces (e : t) : Z := Z.of_nat (length (Faces e)).

(** The values lie in the ranges of their C++ types. *)
Record wf (e : t) : Prop := mkWf {
  wf_VTK_Type : is_ushort (VTK_Type e);
  wf_NPolyGrid : is_ushort (NPolyGrid e);
  wf_NPolySol : is_ushort (NPolySol e);
  wf_NDOFsSol : is_ushort (NDOFsSol e);
  wf_NDOFsGrid : is_ushort (NDOFsGrid e);
  wf_nFaces : is_ushort (nFaces e);
  wf_GlobalElemID : is_ulong (GlobalElemID e);
  wf_GlobalOffsetDOFsSol : is_ulong (GlobalOffsetDOFsSol e);
  wf_Nodes : Forall is_ulong (Nodes e);
  wf_Neighbor : Forall (λ f, is_long (Neighbor_Elements f)) (Faces e);
  wf_Periodic : Forall (λ f, is_short (PeriodicIndex f)) (Faces e)
}.
End CPrimalGrid.

(** ** Step 1: the buffers of the first exchange *)

(** What the sender appends to [shortSendBuf] for one element: seven
    values of the element, then two values per face. *)
Definition elemHeaderShort (e : CPrimalGrid.t) : list Z :=
  [to_short (CPrimalGrid.VTK_Type e);
   to_short (CPrimalGrid.NPolyGrid e);
   to_short (CPrimalGrid.NPolySol e);
   to_short (CPrimalGrid.NDOFsGrid e);
   to_short (CPrimalGrid.NDOFsSol e);
   to_short (CPrimalGrid.nFaces e);
   b2z (CPrimalGrid.JacobianConsideredConstant e)].

Definition faceShorts (fs : list CPrimalGrid.face) : list Z :=
  flat_map (λ f, [CPrimalGrid.PeriodicIndex f;
                  b2z (CPrimalGrid.JacobianConstantFace f)]) fs.

Definition packElemShort (e : CPrimalGrid.t) : list Z :=
  elemHeaderShort e ++ faceShorts (CPrimalGrid.Faces e).

(** What the sender appends to [longSendBuf] for one element. *)
Definition packElemLong (e : CPrimalGrid.t) : list Z :=
  [to_long (CPrimalGrid.GlobalElemID e);
   to_long (CPrimalGrid.GlobalOffsetDOFsSol e)]
  ++ map to_long (CPrimalGrid.Nodes e)
  ++ map CPrimalGrid.Neighbor_Elements (CPrimalGrid.Faces e).

(** The short and the long buffer of one sender. *)
Record elemBuf : Type := mkElemBuf { shortBuf : list Z; longBuf : list Z }.

(** The buffers of a sender that packed the elements [es]: the long
    buffer starts with their number; the data of the nodes and of the
    boundary elements follows the elements in both buffers. *)
Definition packElems (es : list CPrimalGrid.t) (restS restL : list Z) : elemBuf :=
  mkElemBuf (flat_map packElemShort es ++ restS)
            (Z.of_nat (length es) :: flat_map packElemLong es ++ restL).

(** A loop over the receive buffers of the ranks. *)
Fixpoint forEachBuf {A B} (f : B → A → outcome B) (bufs : list A) (acc : B)
    : outcome B :=
  match bufs with
  | [] => Ok acc
  | b :: bufs' => let* acc' := f acc b in forEachBuf f bufs' acc'
  end.

(** The number of passes of [for(unsigned long j=0; j<buf[0]; ++j)]. *)
Definition elemCount (L : list Z) : outcome nat :=
  let* n := readAt L 0 in Ok (Z.to_nat (to_ulong n)).

(** The global IDs of the elements in one receive buffer. The loop of
    the source goes on to add up the numbers of nodes and of boundary
    elements that follow the elements; that part is left out. *)
Fixpoint collectGlobalElemID_loop (S L : list Z) (n indS indL : nat)
    (globalElemID : list Z) : outcome (list Z) :=
  match n with
  | O => Ok globalElemID
  | S n' =>
      let* g := readAt L indL in
      let* d := readAt S (indS + 3) in
      let* f := readAt S (indS + 5) in
      let nDOFsGrid := Z.to_nat (to_ushort d) in
      let nFaces := Z.to_nat (to_ushort f) in
      collectGlobalElemID_loop S L n' (indS + (2 * nFaces + 7))
        (indL + (nDOFsGrid + nFaces + 2)) (globalElemID ++ [to_ulong g])
  end.

Definition collectGlobalElemID (globalElemID : list Z) (b : elemBuf)
    : outcome (list Z) :=
  let* n := elemCount (longBuf b) in
  collectGlobalElemID_loop (shortBuf b) (longBuf b) n 0 1 globalElemID.

(** The sorted global IDs of the elements stored on this rank. *)
Definition ownedGlobalElemID (bufs : list elemBuf) : outcome (list Z) :=
  let* ids := forEachBuf collectGlobalElemID bufs [] in Ok (sort Z.ltb ids).

(** The loop over the faces of one element in the search for halos. *)
Fixpoint findHalos_faces (S L globalElemID : list Z) (k indS indL : nat)
    (haloElements : list unsignedLong2T)
    : outcome (nat * nat * list unsignedLong2T) :=
  match k with
  | O => Ok (indS, indL, haloElements)
  | S k' =>
      let* nb := readAt L indL in
      if negb (nb =? -1) then
        let* per := readAt S indS in
        let neighborIsInternal :=
          if per =? -1
          then binary_search Z.ltb globalElemID (to_ulong nb)
          else false in
        findHalos_faces S L globalElemID k' (indS + 2) (indL + 1)
          (if negb neighborIsInternal
           then haloElements ++ [UL2 nb (per + 1)]
           else haloElements)
      else findHalos_faces S L globalElemID k' (indS + 2) (indL + 1)
             haloElements
  end.

Fixpoint findHalos_loop (S L globalElemID : list Z) (n indS indL : nat)
    (haloElements : list unsignedLong2T) : outcome (list unsignedLong2T) :=
  match n with
  | O => Ok haloElements
  | S n' =>
      let* d := readAt S (indS + 3) in
      let* f := readAt S (indS + 5) in
      let nDOFsGrid := Z.to_nat (to_ushort d) in
      let nFaces := Z.to_nat (to_ushort f) in
      let* '(indS', indL', halo') :=
        findHalos_faces S L globalElemID nFaces (indS + 7)
          (indL + (nDOFsGrid + 2)) haloElements in
      findHalos_loop S L globalElemID n' indS' indL' halo'
  end.

Definition findHalos (globalElemID : list Z)
    (haloElements : list unsignedLong2T) (b : elemBuf)
    : outcome (list unsignedLong2T) :=
  let* n := elemCount (longBuf b) in
  findHalos_loop (shortBuf b) (longBuf b) globalElemID n 0 1 haloElements.

(** The halo descriptors of this rank, sorted and without doubles. *)
Definition haloElementsOf (globalElemID : list Z) (bufs : list elemBuf)
    : outcome (list unsignedLong2T) :=
  let* halos := forEachBuf (findHalos globalElemID) bufs [] in
  Ok (dedup ul2_lt ul2_eqb halos).

(** The descriptor a face gives rise to, if any. *)
Definition haloOfFace (globalElemID : list Z) (f : CPrimalGrid.face)
    : list unsignedLong2T :=
  let nb := CPrimalGrid.Neighbor_Elements f in
  let per := CPrimalGrid.PeriodicIndex f in
  if negb (nb =? -1) &&
     negb ((per =? -1) && binary_search Z.ltb globalElemID (to_ulong nb))
  then [UL2 nb (per + 1)]
  else [].

(** ** Step 2: the maps from global to local numbering *)

(** [for(i = 0; i < v.size(); ++i) m[v[i]] = base + i;] *)
Fixpoint fillIndexMap `{Countable K} (v : list K) (base i : nat)
    (m : gmap K nat) : gmap K nat :=
  match v with
  | [] => m
  | k :: v' => fillIndexMap v' base (S i) (<[k := (base + i)%nat]> m)
  end.

Definition mapGlobalElemIDToInd (globalElemID : list Z) : gmap Z nat :=
  fillIndexMap globalElemID 0 0 ∅.

Definition mapGlobalHaloElemToInd (nVolElemOwned : nat)
    (haloElements : list unsignedLong2T) : gmap unsignedLong2T nat :=
  fillIndexMap haloElements nVolElemOwned 0 ∅.

(** [m.find(k)->second], without a test against [m.end()]. *)
Definition findSecond `{Countable K} {V} (m : gmap K V) (k : K) : outcome V :=
  match m !! k with
  | Some v => Ok v
  | None => Undefined
  end.

Module CVolumeElementFEM.
Record t : Type := mk {
  elemIsOwned : bool;
  rankOriginal : Z;
  periodIndexToDonor : Z;
  VTK_Type : Z;
  nPolyGrid : Z;
  nPolySol : Z;
  nDOFsGrid : Z;
  nDOFsSol : Z;
  nFaces : Z;
  JacIsConsideredConstant : bool;
  elemIDGlobal : Z;
  offsetDOFsSolGlobal : Z;
  offsetDOFsSolLocal : Z;
  nodeIDsGrid : list Z;
  JacFacesIsConsideredConstant : list bool
}.
End CVolumeElementFEM.

(** [volElem.resize(nVolElemTot)] on the empty vector; [fresh] is the
    element the constructor of the class, declared in the header,
    makes. *)
Definition allocVolElem (fresh : CVolumeElementFEM.t)
    (nVolElemOwned nHalo : nat) : list CVolumeElementFEM.t :=
  replicate (nVolElemOwned + nHalo) fresh.

(** [for(k = 0; k < n; ++k) dst[k] = L[indL++];] *)
Fixpoint readRange_gen {A} (L : list A) (indL n : nat) : outcome (list A) :=
  match n with
  | O => Ok []
  | S n' =>
      let* x := readAt L indL in
      let* xs := readRange_gen L (S indL) n' in
      Ok (x :: xs)
  end.

Definition readRange (L : list Z) (indL n : nat) : outcome (list Z) :=
  readRange_gen L indL n.

(** [for(k = 0; k < n; ++k) { ++indS; dst[k] = (bool) S[indS++]; }] *)
Fixpoint readJacFaces (S : list Z) (indS n : nat) : outcome (list bool) :=
  match n with
  | O => Ok []
  | S n' =>
      let* x := readAt S (indS + 1) in
      let* xs := readJacFaces S (indS + 2) n' in
      Ok (z2b x :: xs)
  end.

(** The copy of the owned elements of one receive buffer into
    [volElem]. The nodes and the boundary elements that follow in the
    buffer are copied by loops that are left out. *)
Fixpoint storeOwned_loop (rank : Z) (m : gmap Z nat) (S L : list Z)
    (n indS indL : nat) (volElem : list CVolumeElementFEM.t)
    : outcome (nat * nat * list CVolumeElementFEM.t) :=
  match n with
  | O => Ok (indS, indL, volElem)
  | S n' =>
      let* g := readAt L indL in
      let elemID := to_ulong g in
      let* ind := findSecond m elemID in
      let* old := readAt volElem ind in
      let* vtk := readAt S indS in
      let* pg := readAt S (indS + 1) in
      let* ps := readAt S (indS + 2) in
      let* dg := readAt S (indS + 3) in
      let* ds := readAt S (indS + 4) in
      let* nf := readAt S (indS + 5) in
      let* jac := readAt S (indS + 6) in
      let* off := readAt L (indL + 1) in
      let nDOFsGrid := Z.to_nat (to_ushort dg) in
      let nFaces := Z.to_nat (to_ushort nf) in
      let* nodes := readRange L (indL + 2) nDOFsGrid in
      let* jacFaces := readJacFaces S (indS + 7) nFaces in
      let new := CVolumeElementFEM.mk true rank (-1)
                   (to_ushort vtk) (to_ushort pg) (to_ushort ps)
                   (to_ushort dg) (to_ushort ds) (to_ushort nf)
                   (z2b jac) elemID (to_ulong off)
                   (CVolumeElementFEM.offsetDOFsSolLocal old)
                   (map to_ulong nodes) jacFaces in
      let* volElem' := writeAt volElem ind new in
      storeOwned_loop rank m S L n' (indS + 7 + 2 * nFaces)
        (indL + 2 + nDOFsGrid + nFaces) volElem'
  end.

Definition storeOwned (rank : Z) (m : gmap Z nat)
    (volElem : list CVolumeElementFEM.t) (b : elemBuf)
    : outcome (list CVolumeElementFEM.t) :=
  let* n := elemCount (longBuf b) in
  let* '(_, _, volElem') :=
    storeOwned_loop rank m (shortBuf b) (longBuf b) n 0 1 volElem in
  Ok volElem'.

(** A rank that sent elements to this rank in the first exchange, with
    what follows the elements in its two buffers. *)
Record sender : Type := mkSender {
  sentElems : list CPrimalGrid.t;
  restShort : list Z;
  restLong : list Z
}.

Definition recvBufOf (s : sender) : elemBuf :=
  packElems (sentElems s) (restShort s) (restLong s).

Definition wf_sender (s : sender) : Prop :=
  Forall CPrimalGrid.wf (sentElems s)
  ∧ Z.of_nat (length (sentElems s)) < 2 ^ 63.

(** The descriptors the faces of the elements give rise to. *)
Definition halosOfElems (ids : list Z) (es : list CPrimalGrid.t)
    : list unsignedLong2T :=
  flat_map (λ e, flat_map (haloOfFace ids) (CPrimalGrid.Faces e)) es.

(** The volume element the first exchange stores for an element of the
    source mesh; [offsetDOFsSolLocal] is not set by the constructor. *)
Definition ownedElem (rank : Z) (e : CPrimalGrid.t)
    (old : CVolumeElementFEM.t) : CVolumeElementFEM.t :=
  CVolumeElementFEM.mk true rank (-1)
    (CPrimalGrid.VTK_Type e) (CPrimalGrid.NPolyGrid e)
    (CPrimalGrid.NPolySol e) (CPrimalGrid.NDOFsGrid e)
    (CPrimalGrid.NDOFsSol e) (CPrimalGrid.nFaces e)
    (CPrimalGrid.JacobianConsideredConstant e)
    (CPrimalGrid.GlobalElemID e) (CPrimalGrid.GlobalOffsetDOFsSol e)
    (CVolumeElementFEM.offsetDOFsSolLocal old)
    (CPrimalGrid.Nodes e)
    (map CPrimalGrid.JacobianConstantFace (CPrimalGrid.Faces e)).

(** What the loop over the elements [es] did to the array: a slot holds
    what was stored for an element mapped to it, or is untouched when no
    element is mapped to it. *)
Definition stored_from (rank : Z) (m : gmap Z nat) (es : list CPrimalGrid.t)
    (before after : list CVolumeElementFEM.t) : Prop :=
  length after = length before
  ∧ ∀ i v, after !! i = Some v →
      (∃ e old, e ∈ es ∧ m !! CPrimalGrid.GlobalElemID e = Some i
                ∧ v = ownedElem rank e old)
      ∨ ((∀ e, e ∈ es → m !! CPrimalGrid.GlobalElemID e ≠ Some i)
         ∧ before !! i = Some v).

(** ** Step 3: the request for the halo elements and its answer *)

Module CGeometry.
(** Modelled from the spec: the class [CGeometry] of the source mesh is
    declared outside the translated files. The constructor reads the
    nodes with their global index and coordinates, the elements, and the
    tables of the original partitioning of the elements over the ranks:
    the first global element ID of every rank, the one past the last,
    and the number of elements of every rank. *)
Record node (T : Type) : Type := mkNode {
  GlobalIndex : Z;
  Coord : list T
}.
Arguments mkNode {T}. Arguments GlobalIndex {T}. Arguments Coord {T}.

Record t (T : Type) : Type := mk {
  nDim : nat;
  nodes : list (node T);
  elem : list CPrimalGrid.t;
  starting_node : list Z;
  ending_node : list Z;
  npoint_procs : list Z;
  Global_nPoint : Z
}.
Arguments mk {T}. Arguments nDim {T}. Arguments nodes {T}.
Arguments elem {T}. Arguments starting_node {T}. Arguments ending_node {T}.
Arguments npoint_procs {T}. Arguments Global_nPoint {T}.
End CGeometry.

(** [globalPointIDToLocalInd], filled from the nodes of the source mesh *)
Definition globalPointIDToLocalInd {T} (geometry : CGeometry.t T) : gmap Z nat :=
  fillIndexMap (map CGeometry.GlobalIndex (CGeometry.nodes geometry)) 0 0 ∅.

(** [nElemPerRankOr]: the first element of every rank, closed by the end
    of the last rank. *)
Definition nElemPerRankOr {T} (geometry : CGeometry.t T) (nRank : nat)
    : outcome (list Z) :=
  let* firsts := readRange (CGeometry.starting_node geometry) 0 nRank in
  let* last := readAt (CGeometry.ending_node geometry) (nRank - 1) in
  Ok (firsts ++ [last]).

(** The rank that stored the halo element with global ID [g] in the
    original partitioning: [low - begin - 1], one more when [*low == g]. *)
Definition rankOfHalo (table : list Z) (g : Z) : outcome nat :=
  let low := lower_bound Z.ltb table g in
  let* x := readAt table low in
  Ok (Z.to_nat (to_ulong (Z.of_nat low - 1 + (if x =? g then 1 else 0)))).

(** [sendToRank[rankHalo] = 1] for every halo element *)
Fixpoint markRanks (table : list Z) (haloElements : list unsignedLong2T)
    (sendToRank : list bool) : outcome (list bool) :=
  match haloElements with
  | [] => Ok sendToRank
  | h :: hs =>
      let* r := rankOfHalo table (long0 h) in
      let* sendToRank' := writeAt sendToRank r true in
      markRanks table hs sendToRank'
  end.

(** [rankToIndCommBuf]: the marked ranks, numbered in increasing order *)
Fixpoint rankToIndCommBuf_from (sendToRank : list bool) (i : nat)
    (m : gmap nat nat) : gmap nat nat :=
  match sendToRank with
  | [] => m
  | b :: rest =>
      rankToIndCommBuf_from rest (S i) (if b then <[i := size m]> m else m)
  end.

Definition rankToIndCommBuf (sendToRank : list bool) : gmap nat nat :=
  rankToIndCommBuf_from sendToRank 0 ∅.

(** [bufs[ind].push_back(..)] for the values [vals] *)
Definition pushTo (bufs : list (list Z)) (ind : nat) (vals : list Z)
    : outcome (list (list Z)) :=
  let* b := readAt bufs ind in
  Ok (<[ind := b ++ vals]> bufs).

(** The three values sent for a halo element: its global ID, its
    periodic index and the slot of [volElem] it is stored in. *)
Definition requestOf (h : unsignedLong2T) (slot : nat) : list Z :=
  [to_long (long0 h); to_long (long1 h - 1); to_long (Z.of_nat slot)].

Fixpoint fillRequests (table : list Z) (comm : gmap nat nat)
    (haloMap : gmap unsignedLong2T nat) (haloElements : list unsignedLong2T)
    (longSendBuf : list (list Z)) : outcome (list (list Z)) :=
  match haloElements with
  | [] => Ok longSendBuf
  | h :: hs =>
      let* r := rankOfHalo table (long0 h) in
      let* ind := findSecond comm r in
      let* slot := findSecond haloMap h in
      let* longSendBuf' := pushTo longSendBuf ind (requestOf h slot) in
      fillRequests table comm haloMap hs longSendBuf'
  end.

(** The long buffers this rank sends to the ranks that own its halo
    elements, one per rank in increasing order of the rank. *)
Definition haloRequests {T} (geometry : CGeometry.t T) (nRank : nat)
    (haloMap : gmap unsignedLong2T nat) (haloElements : list unsignedLong2T)
    : outcome (list (list Z)) :=
  let* table := nElemPerRankOr geometry nRank in
  let* sendToRank := markRanks table haloElements (replicate nRank false) in
  let comm := rankToIndCommBuf sendToRank in
  fillRequests table comm haloMap haloElements (replicate (size comm) []).

Definition invalidLocalElem : string :=
  "Invalid local element ID in function CMeshFEM::CMeshFEM".

Definition entryNotFound : string :=
  "Entry not found in map in function CMeshFEM::CMeshFEM".

(** The buffers an owner sends back. *)
Record answerBuf (T : Type) : Type := mkAnswer {
  ansShort : list Z;
  ansLong : list Z;
  ansDouble : list T
}.
Arguments mkAnswer {T}. Arguments ansShort {T}.
Arguments ansLong {T}. Arguments ansDouble {T}.

(** The local index in the original partitioning of a requested global
    element ID: [long locElemInd = id - starting_node[rank]], a
    subtraction of [unsigned long] values. *)
Definition locElemIndOf (g start : Z) : Z := to_long (to_ulong g - start).

(** [locElemInd < 0 || locElemInd >= npoint_procs[rank]], the second
    comparison being one of [unsigned long] values. *)
Definition invalidLocElemInd (locElemInd np : Z) : bool :=
  (locElemInd <? 0) || (np <=? to_ulong locElemInd).

(** What the owner appends to the short buffer for a requested element. *)
Definition answerElemShort (perIndex : Z) (e : CPrimalGrid.t) : list Z :=
  [perIndex;
   to_short (CPrimalGrid.VTK_Type e);
   to_short (CPrimalGrid.NPolyGrid e);
   to_short (CPrimalGrid.NPolySol e);
   to_short (CPrimalGrid.NDOFsGrid e);
   to_short (CPrimalGrid.NDOFsSol e);
   to_short (CPrimalGrid.nFaces e)].

(** What the owner appends to the long buffer for a requested element. *)
Definition answerElemLong (g slot : Z) (e : CPrimalGrid.t) : list Z :=
  [g; slot; to_long (CPrimalGrid.Color e)]
  ++ map to_long (CPrimalGrid.Nodes e).

(** The loop of the owner over the requested elements. *)
Fixpoint answerElems {T} (geometry : CGeometry.t T) (rank : nat)
    (req : list Z) (n indL : nat) (S L : list Z)
    (nodeIDs : list unsignedLong2T)
    : outcome (list Z * list Z * list unsignedLong2T) :=
  match n with
  | O => Ok (S, L, nodeIDs)
  | Datatypes.S n' =>
      let* g := readAt req indL in
      let* start := readAt (CGeometry.starting_node geometry) rank in
      let locElemInd := locElemIndOf g start in
      let* np := readAt (CGeometry.npoint_procs geometry) rank in
      if invalidLocElemInd locElemInd np
      then Abort [locElemInd; np] invalidLocalElem
      else
        let* p := readAt req (indL + 1) in
        let perIndex := to_short p in
        let* slot := readAt req (indL + 2) in
        let* e := readAt (CGeometry.elem geometry) (Z.to_nat locElemInd) in
        answerElems geometry rank req n' (indL + 3)
          (S ++ answerElemShort perIndex e)
          (L ++ answerElemLong g slot e)
          (nodeIDs ++ map (λ nd, UL2 (to_long nd) (perIndex + 1))
                          (CPrimalGrid.Nodes e))
  end.

(** The lookup of a node of the source mesh when the buffers are packed:
    here the miss is tested for. *)
Definition findLocalNode (m : gmap Z nat) (nodeID : Z) : outcome nat :=
  match m !! nodeID with
  | None => Abort [] entryNotFound
  | Some ind => Ok ind
  end.

(** The coordinates of the nodes sent back. *)
Fixpoint answerCoords {T} (geometry : CGeometry.t T)
    (nodeIDs : list unsignedLong2T) (D : list T) : outcome (list T) :=
  match nodeIDs with
  | [] => Ok D
  | nd :: rest =>
      let* ind := findLocalNode (globalPointIDToLocalInd geometry) (long0 nd) in
      let* node := readAt (CGeometry.nodes geometry) ind in
      let* xs := readRange_gen (CGeometry.Coord node) 0
                   (CGeometry.nDim geometry) in
      answerCoords geometry rest (D ++ xs)
  end.

(** The answer of the owner [rank] to one received request buffer. *)
Definition answerRequests {T} (geometry : CGeometry.t T) (rank : nat)
    (req : list Z) : outcome (answerBuf T) :=
  let nElemBuf := (length req / 3)%nat in
  let* '(shorts, longs, nodeIDs) :=
    answerElems geometry rank req nElemBuf 0 [] [Z.of_nat nElemBuf] [] in
  let nodeIDs := dedup ul2_lt ul2_eqb nodeIDs in
  let longs' := longs ++ [Z.of_nat (length nodeIDs)]
                  ++ map (λ nd, to_long (long0 nd)) nodeIDs in
  let shorts' :=
    shorts ++ map (λ nd, to_short (to_short (long1 nd) - 1)) nodeIDs in
  let* D := answerCoords geometry nodeIDs [] in
  Ok (mkAnswer shorts' longs' D).

(** ** Step 4: the halo elements and the halo points *)

(** The halo element stored from an answer; the constant Jacobian flags
    of the faces are not set for a halo. *)
Definition haloElem (globElemID rk per vtk pg ps dg ds nf : Z)
    (nodes : list Z) (old : CVolumeElementFEM.t) : CVolumeElementFEM.t :=
  CVolumeElementFEM.mk false (to_int rk) per
    (to_ushort vtk) (to_ushort pg) (to_ushort ps)
    (to_ushort dg) (to_ushort ds) (to_ushort nf)
    false (to_ulong globElemID) ULONG_MAX
    (CVolumeElementFEM.offsetDOFsSolLocal old)
    (map to_ulong nodes)
    (CVolumeElementFEM.JacFacesIsConsideredConstant old).

(** The loop over the halo elements of one answer. *)
Fixpoint storeHalo_loop (S L : list Z) (n indS indL : nat)
    (volElem : list CVolumeElementFEM.t)
    : outcome (nat * nat * list CVolumeElementFEM.t) :=
  match n with
  | O => Ok (indS, indL, volElem)
  | Datatypes.S n' =>
      let* globElemID := readAt L indL in
      let* indV := readAt L (indL + 1) in
      let slot := Z.to_nat (to_ulong indV) in
      let* old := readAt volElem slot in
      let* rk := readAt L (indL + 2) in
      let* per := readAt S indS in
      let* vtk := readAt S (indS + 1) in
      let* pg := readAt S (indS + 2) in
      let* ps := readAt S (indS + 3) in
      let* dg := readAt S (indS + 4) in
      let* ds := readAt S (indS + 5) in
      let* nf := readAt S (indS + 6) in
      let nDOFsGrid := Z.to_nat (to_ushort dg) in
      let* nodes := readRange L (indL + 3) nDOFsGrid in
      let* volElem' :=
        writeAt volElem slot
          (haloElem globElemID rk per vtk pg ps dg ds nf nodes old) in
      storeHalo_loop S L n' (indS + 7) (indL + 3 + nDOFsGrid) volElem'
  end.

(** The loop over the halo points of one answer; [coor0] holds the three
    coordinates the constructor of [CPointFEM], declared in the header,
    leaves in a new point. *)
Fixpoint storeHaloPoints_loop {T} (nDim : nat) (coor0 : list T)
    (S L : list Z) (D : list T) (n indS indL indD : nat)
    (haloPoints : list (CPointFEM.t T)) : outcome (list (CPointFEM.t T)) :=
  match n with
  | O => Ok haloPoints
  | Datatypes.S n' =>
      let* g := readAt L indL in
      let* per := readAt S indS in
      let* xs := readRange_gen D indD nDim in
      storeHaloPoints_loop nDim coor0 S L D n' (indS + 1) (indL + 1)
        (indD + nDim)
        (haloPoints ++ [CPointFEM.mk (to_ulong g) per (xs ++ drop nDim coor0)])
  end.

(** The number of passes of [for(long j=0; j<n; ++j)]. *)
Definition signedCount (n : Z) : nat := Z.to_nat n.

(** What this rank does with one answer. *)
Definition storeHalo {T} (nDim : nat) (coor0 : list T)
    (acc : list CVolumeElementFEM.t * list (CPointFEM.t T))
    (b : answerBuf T)
    : outcome (list CVolumeElementFEM.t * list (CPointFEM.t T)) :=
  let '(volElem, haloPoints) := acc in
  let* n := readAt (ansLong b) 0 in
  let* '(indS, indL, volElem') :=
    storeHalo_loop (ansShort b) (ansLong b) (signedCount n) 0 1 volElem in
  let* nPointsThisRank := readAt (ansLong b) indL in
  let* haloPoints' :=
    storeHaloPoints_loop nDim coor0 (ansShort b) (ansLong b) (ansDouble b)
      (signedCount nPointsThisRank) indS (indL + 1) 0 haloPoints in
  Ok (volElem', haloPoints').

(** *** Request buffers and their answers, element by element *)

(** A request: global element ID, periodic index, slot of the caller. *)
Abbreviation request := (Z * Z * Z)%type.

Definition requestTriples (items : list request) : list Z :=
  flat_map (λ '(g, p, s), [g; p; s]) items.

Definition answeredShort (xs : list (request * CPrimalGrid.t)) : list Z :=
  flat_map (λ '((g, p, s), e), answerElemShort (to_short p) e) xs.

Definition answeredLong (xs : list (request * CPrimalGrid.t)) : list Z :=
  flat_map (λ '((g, p, s), e), answerElemLong g s e) xs.

Definition answeredNodeIDs (xs : list (request * CPrimalGrid.t))
    : list unsignedLong2T :=
  flat_map (λ '((g, p, s), e),
              map (λ nd, UL2 (to_long nd) (to_short p + 1))
                  (CPrimalGrid.Nodes e)) xs.

(** The request passes the test of the owner and names an element of
    its source mesh. *)
Definition answerable {T} (geometry : CGeometry.t T) (start np : Z)
    (it : request) (e : CPrimalGrid.t) : Prop :=
  invalidLocElemInd (locElemIndOf it.1.1 start) np = false
  ∧ CGeometry.elem geometry !! Z.to_nat (locElemIndOf it.1.1 start) = Some e.

(** The local index of the request lies in the element range of the
    owner. *)
Definition inLocalRange (start np : Z) (it : request) : Prop :=
  0 <= locElemIndOf it.1.1 start < np.

(** *** A small source mesh: two quadrilaterals side by side, periodic
    from the right edge of the second to the left edge of the first *)

Definition quad_left : CPrimalGrid.t :=
  CPrimalGrid.mk 9 1 1 4 true 0 0 0 [0; 1; 3; 4]
    [CPrimalGrid.mkFace (-1) (-1) true; CPrimalGrid.mkFace 1 (-1) true;
     CPrimalGrid.mkFace (-1) (-1) true; CPrimalGrid.mkFace 1 0 true].

Definition quad_right : CPrimalGrid.t :=
  CPrimalGrid.mk 9 1 1 4 true 1 4 0 [1; 2; 4; 5]
    [CPrimalGrid.mkFace (-1) (-1) true; CPrimalGrid.mkFace 0 1 true;
     CPrimalGrid.mkFace (-1) (-1) true; CPrimalGrid.mkFace 0 (-1) true].

Definition two_quads : CGeometry.t float :=
  CGeometry.mk 2
    [CGeometry.mkNode 0 [0; 0]%float; CGeometry.mkNode 1 [1; 0]%float;
     CGeometry.mkNode 2 [2; 0]%float; CGeometry.mkNode 3 [0; 1]%float;
     CGeometry.mkNode 4 [1; 1]%float; CGeometry.mkNode 5 [2; 1]%float]
    [quad_left; quad_right] [0] [2] [2] 6.

(** The slot of [volElem] a request names. *)
Definition slotOf (x : request * CPrimalGrid.t) : nat :=
  Z.to_nat (to_ulong x.1.2).

(** The halo element stored from the answer to a request. *)
Definition haloElemOf (x : request * CPrimalGrid.t)
    (old : CVolumeElementFEM.t) : CVolumeElementFEM.t :=
  let '((g, p, _), e) := x in
  haloElem g (to_long (CPrimalGrid.Color e)) (to_short p)
    (to_short (CPrimalGrid.VTK_Type e)) (to_short (CPrimalGrid.NPolyGrid e))
    (to_short (CPrimalGrid.NPolySol e)) (to_short (CPrimalGrid.NDOFsGrid e))
    (to_short (CPrimalGrid.NDOFsSol e)) (to_short (CPrimalGrid.nFaces e))
    (map to_long (CPrimalGrid.Nodes e)) old.

(** What the loop over the answered requests [xs] did to the array. *)
Definition halo_stored_from (xs : list (request * CPrimalGrid.t))
    (before after : list CVolumeElementFEM.t) : Prop :=
  length after = length before
  ∧ ∀ j v, after !! j = Some v →
      (∃ x old, x ∈ xs ∧ slotOf x = j ∧ v = haloElemOf x old)
      ∨ ((∀ x, x ∈ xs → slotOf x ≠ j) ∧ before !! j = Some v).

(** ** The elements of the local mesh *)

(** The part of the constructor that fills [volElem], from the buffers
    of the first exchange and the answers to the requests for the halo
    elements. It returns the sorted owned IDs, the halo descriptors, the
    array and the halo points. *)
Definition assembleElements {T} (rank : Z) (fresh : CVolumeElementFEM.t)
    (nDim : nat) (coor0 : list T) (bufs : list elemBuf)
    (received : list (answerBuf T))
    : outcome (list Z * list unsignedLong2T * list CVolumeElementFEM.t
               * list (CPointFEM.t T)) :=
  let* globalElemID := ownedGlobalElemID bufs in
  let* haloElements := haloElementsOf globalElemID bufs in
  let nVolElemOwned := length globalElemID in
  let volElem0 := allocVolElem fresh nVolElemOwned (length haloElements) in
  let* volElem1 :=
    forEachBuf (storeOwned rank (mapGlobalElemIDToInd globalElemID))
      bufs volElem0 in
  let* '(volElem2, haloPoints) :=
    forEachBuf (storeHalo nDim coor0) received (volElem1, []) in
  Ok (globalElemID, haloElements, volElem2, haloPoints).

(** The request sent for the halo descriptor [h] stored in [slot]. *)
Definition requestItem (h : unsignedLong2T) (slot : nat) : request :=
  (to_long (long0 h), to_long (long1 h - 1), to_long (Z.of_nat slot)).

(** A request buffer with the answer some owner of a mesh of dimension
    [nDim], with elements in the ranges of their types, gave to it. *)
Definition answered_by_owner {T} (nDim : nat)
    (x : list Z * answerBuf T) : Prop :=
  ∃ (geometry : CGeometry.t T) (rank : nat),
    answerRequests geometry rank x.1 = Ok x.2
    ∧ CGeometry.nDim geometry = nDim
    ∧ Forall CPrimalGrid.wf (CGeometry.elem geometry).

(** ** Step 4, continued: the points of the halo elements *)

Module CSurfaceElementFEM.
Record t : Type := mk {
  VTK_Type : Z;
  nPolyGrid : Z;
  nDOFsGrid : Z;
  volElemID : Z;
  boundElemIDGlobal : Z;
  nodeIDsGrid : list Z
}.
End CSurfaceElementFEM.

Module CBoundaryFEM.
Record t : Type := mk {
  markerTag : string;
  surfElem : list CSurfaceElementFEM.t
}.
End CBoundaryFEM.

Module CConfig.
(** Modelled from the spec: the configuration gives, for the marker with
    a given index, the centre of rotation, the angles of rotation about
    the x, y and z axes and the translation of its periodic
    transformation, each an array of three values; the class is declared
    outside the translated files. *)
Record periodic (T : Type) : Type := mkPeriodic {
  center : T * T * T;
  angles : T * T * T;
  trans : T * T * T
}.
Arguments mkPeriodic {T}. Arguments center {T}.
Arguments angles {T}. Arguments trans {T}.

Definition t (T : Type) : Type := Z → periodic T.
End CConfig.

Definition InvalidPointID (Global_nPoint : Z) : Z := to_ulong (Global_nPoint + 10).
Definition InvalidPerInd : Z := SHRT_MAX.

Section halo_points.
Context {T : Type}.

(** The halo point is marked as invalid. *)
Definition invalidated (invalidID : Z) (p : CPointFEM.t T) : CPointFEM.t T :=
  CPointFEM.mk invalidID InvalidPerInd (CPointFEM.coor p).

(** The search of the nonperiodic halo points in the local points: the
    loop stops at the first point with a periodic index; it returns the
    halo points and the number of points it has marked as invalid. *)
Fixpoint markLocalHaloPoints (meshPoints : list (CPointFEM.t T))
    (invalidID : Z) (haloPoints : list (CPointFEM.t T))
    : list (CPointFEM.t T) * nat :=
  match haloPoints with
  | [] => ([], 0%nat)
  | p :: rest =>
      if negb (CPointFEM.periodIndexToDonor p =? -1) then (p :: rest, 0%nat)
      else
        let '(rest', k) := markLocalHaloPoints meshPoints invalidID rest in
        if binary_search pointFEM_lt meshPoints p
        then (invalidated invalidID p :: rest', S k)
        else (p :: rest', k)
  end.

(** The leading halo points without a periodic index. *)
Fixpoint nonPeriodicHaloPoints (haloPoints : list (CPointFEM.t T))
    : list (CPointFEM.t T) :=
  match haloPoints with
  | [] => []
  | p :: rest =>
      if negb (CPointFEM.periodIndexToDonor p =? -1) then []
      else p :: nonPeriodicHaloPoints rest
  end.

(** The halo points are made unique, those without a periodic index that
    the rank stores already are marked, sorted to the end and cut off,
    and the other ones without a periodic index are added to the local
    points. It returns the halo points and the local points. *)
Definition addNonPeriodicHaloPoints (Global_nPoint : Z)
    (meshPoints haloPoints : list (CPointFEM.t T))
    : list (CPointFEM.t T) * list (CPointFEM.t T) :=
  let haloPoints1 := dedup pointFEM_lt pointFEM_eqb haloPoints in
  let '(haloPoints2, nInvalid) :=
    markLocalHaloPoints meshPoints (InvalidPointID Global_nPoint) haloPoints1 in
  let nHaloPoints := (length haloPoints1 - nInvalid)%nat in
  let haloPoints3 := take nHaloPoints (sort pointFEM_lt haloPoints2) in
  (haloPoints3, meshPoints ++ nonPeriodicHaloPoints haloPoints3).

(** The key of a point in [mapGlobalPointIDToInd]. *)
Definition pointKey (p : CPointFEM.t T) : unsignedLong2T :=
  UL2 (CPointFEM.globalID p) (CPointFEM.periodIndexToDonor p + 1).

Definition mapGlobalPointIDToInd (meshPoints : list (CPointFEM.t T))
    : gmap unsignedLong2T nat :=
  fillIndexMap (map pointKey meshPoints) 0 0 ∅.

End halo_points.

(** The loop [for(j = 0; j < n; ++j) nodeIDsGrid[j] = m.find(..)->second]
    with the search item (nodeIDsGrid[j], perPlus1). *)
Fixpoint translateNodes (m : gmap unsignedLong2T nat) (perPlus1 : Z)
    (n j : nat) (nodeIDsGrid : list Z) : outcome (list Z) :=
  match n with
  | O => Ok nodeIDsGrid
  | S n' =>
      let* x := readAt nodeIDsGrid j in
      let* ind := findSecond m (UL2 x perPlus1) in
      let* nodeIDsGrid' := writeAt nodeIDsGrid j (Z.of_nat ind) in
      translateNodes m perPlus1 n' (S j) nodeIDsGrid'
  end.

(** The conversion of a boundary element to the local numbering. *)
Definition translateSurfElem (mElem : gmap Z nat)
    (mPoint : gmap unsignedLong2T nat) (s : CSurfaceElementFEM.t)
    : outcome CSurfaceElementFEM.t :=
  let* vol := findSecond mElem (CSurfaceElementFEM.volElemID s) in
  let* nodes := translateNodes mPoint 0
                  (Z.to_nat (CSurfaceElementFEM.nDOFsGrid s)) 0
                  (CSurfaceElementFEM.nodeIDsGrid s) in
  Ok (CSurfaceElementFEM.mk (CSurfaceElementFEM.VTK_Type s)
        (CSurfaceElementFEM.nPolyGrid s) (CSurfaceElementFEM.nDOFsGrid s)
        (Z.of_nat vol) (CSurfaceElementFEM.boundElemIDGlobal s) nodes).

(** A loop that replaces every element of a vector. *)
Fixpoint forEachElem {A} (f : A → outcome A) (v : list A) : outcome (list A) :=
  match v with
  | [] => Ok []
  | x :: v' =>
      let* y := f x in
      let* w := forEachElem f v' in
      Ok (y :: w)
  end.

Definition translateBoundary (mElem : gmap Z nat)
    (mPoint : gmap unsignedLong2T nat) (b : CBoundaryFEM.t)
    : outcome CBoundaryFEM.t :=
  let* ses := forEachElem (translateSurfElem mElem mPoint)
                (CBoundaryFEM.surfElem b) in
  Ok (CBoundaryFEM.mk (CBoundaryFEM.markerTag b) ses).

(** The conversion of the boundary connectivities to the local numbering. *)
Definition translateBoundaries (mElem : gmap Z nat)
    (mPoint : gmap unsignedLong2T nat) (boundaries : list CBoundaryFEM.t)
    : outcome (list CBoundaryFEM.t) :=
  forEachElem (translateBoundary mElem mPoint) boundaries.

(** The conversion of the nodes of a volume element to the local
    numbering, with the search item (node, periodIndexToDonor + 1). *)
Definition translateVolElem (mPoint : gmap unsignedLong2T nat)
    (v : CVolumeElementFEM.t) : outcome CVolumeElementFEM.t :=
  let* nodes := translateNodes mPoint
                  (CVolumeElementFEM.periodIndexToDonor v + 1)
                  (Z.to_nat (CVolumeElementFEM.nDOFsGrid v)) 0
                  (CVolumeElementFEM.nodeIDsGrid v) in
  Ok (CVolumeElementFEM.mk
        (CVolumeElementFEM.elemIsOwned v) (CVolumeElementFEM.rankOriginal v)
        (CVolumeElementFEM.periodIndexToDonor v) (CVolumeElementFEM.VTK_Type v)
        (CVolumeElementFEM.nPolyGrid v) (CVolumeElementFEM.nPolySol v)
        (CVolumeElementFEM.nDOFsGrid v) (CVolumeElementFEM.nDOFsSol v)
        (CVolumeElementFEM.nFaces v)
        (CVolumeElementFEM.JacIsConsideredConstant v)
        (CVolumeElementFEM.elemIDGlobal v)
        (CVolumeElementFEM.offsetDOFsSolGlobal v)
        (CVolumeElementFEM.offsetDOFsSolLocal v)
        nodes
        (CVolumeElementFEM.JacFacesIsConsideredConstant v)).

(** The conversion of the global node numbering in the elements. *)
Definition translateVolElems (mPoint : gmap unsignedLong2T nat)
    (volElem : list CVolumeElementFEM.t) : outcome (list CVolumeElementFEM.t) :=
  forEachElem (translateVolElem mPoint) volElem.


(** *** The periodic halo points *)

Definition LINE : Z := 3.
Definition TRIANGLE : Z := 5.
Definition QUADRILATERAL : Z := 9.

Definition lengthScaleDiagnostic : string :=
  "CSurfaceElementFEM::DetermineLengthScale: This should not happen.".

Section periodic.
Context {T : Type} `{Su2Order T} `{Su2Arith T}.

(** The length of the edge between the points [n0] and [n1], over the
    first [nDim] coordinates. *)
Fixpoint edgeLengthSq (nDim l : nat) (c0 c1 : list T) (len : T) : outcome T :=
  match nDim with
  | O => Ok len
  | S nDim' =>
      let* x1 := readAt c1 l in
      let* x0 := readAt c0 l in
      let ds := su2_sub x1 x0 in
      edgeLengthSq nDim' (S l) c0 c1 (su2_add len (su2_mul ds ds))
  end.

Definition edgeLength (nDim : nat) (meshPoints : list (CPointFEM.t T))
    (edge : Z * Z) : outcome T :=
  let* p1 := readAt meshPoints (Z.to_nat edge.2) in
  let* p0 := readAt meshPoints (Z.to_nat edge.1) in
  let* len := edgeLengthSq nDim 0 (CPointFEM.coor p0) (CPointFEM.coor p1)
                su2_zero in
  Ok (su2_sqrt len).

Fixpoint minEdgeLength (nDim : nat) (meshPoints : list (CPointFEM.t T))
    (edges : list (Z * Z)) (lenScale : T) : outcome T :=
  match edges with
  | [] => Ok lenScale
  | e :: rest =>
      let* len := edgeLength nDim meshPoints e in
      minEdgeLength nDim meshPoints rest (su2_min lenScale len)
  end.

(** [CSurfaceElementFEM::DetermineLengthScale] *)
Definition DetermineLengthScale (s : CSurfaceElementFEM.t)
    (meshPoints : list (CPointFEM.t T)) : outcome T :=
  let nodes := CSurfaceElementFEM.nodeIDsGrid s in
  let nPoly := Z.to_nat (CSurfaceElementFEM.nPolyGrid s) in
  let front := readAt nodes 0 in
  let back := readAt nodes (length nodes - 1) in
  let* '(nDim, edges) :=
    if CSurfaceElementFEM.VTK_Type s =? LINE then
      let* f := front in let* b := back in Ok (2%nat, [(f, b)])
    else if CSurfaceElementFEM.VTK_Type s =? TRIANGLE then
      let* f := front in let* m := readAt nodes nPoly in let* b := back in
      Ok (3%nat, [(f, m); (m, b); (b, f)])
    else if CSurfaceElementFEM.VTK_Type s =? QUADRILATERAL then
      let* f := front in let* m := readAt nodes nPoly in let* b := back in
      let* q := readAt nodes (nPoly * (nPoly + 1)) in
      Ok (3%nat, [(f, m); (m, b); (b, q); (q, f)])
    else Abort [] lengthScaleDiagnostic in
  match edges with
  | [] => Ok su2_zero
  | e :: rest =>
      let* len := edgeLength nDim meshPoints e in
      minEdgeLength nDim meshPoints rest len
  end.

(** The nodes of one surface element are added to [pointsBoundary], or
    the tolerance of the points it holds already is lowered. *)
Fixpoint addBoundaryNodes (nDim : nat) (meshPoints : list (CPointFEM.t T))
    (tolElem : T) (nodeIDsGrid : list Z) (n k : nat)
    (acc : list Z * list (CPointCompare.t T))
    : outcome (list Z * list (CPointCompare.t T)) :=
  match n with
  | O => Ok acc
  | S n' =>
      let '(indInPointsBoundary, pointsBoundary) := acc in
      let* nn := readAt nodeIDsGrid k in
      let* ind := readAt indInPointsBoundary (Z.to_nat nn) in
      if ind =? -1 then
        let* ind' := writeAt indInPointsBoundary (Z.to_nat nn)
                       (Z.of_nat (length pointsBoundary)) in
        let* p := readAt meshPoints (Z.to_nat nn) in
        let* xs := readRange_gen (CPointFEM.coor p) 0 nDim in
        addBoundaryNodes nDim meshPoints tolElem nodeIDsGrid n' (S k)
          (ind', pointsBoundary ++ [CPointCompare.mk nDim nn tolElem xs])
      else
        let* q := readAt pointsBoundary (Z.to_nat ind) in
        let q' := CPointCompare.mk (CPointCompare.nDim q)
                    (CPointCompare.nodeID q)
                    (su2_min (CPointCompare.tolForMatching q) tolElem)
                    (CPointCompare.coor q) in
        let* pointsBoundary' := writeAt pointsBoundary (Z.to_nat ind) q' in
        addBoundaryNodes nDim meshPoints tolElem nodeIDsGrid n' (S k)
          (indInPointsBoundary, pointsBoundary')
  end.

Fixpoint collectBoundaryPoints (nDim : nat) (meshPoints : list (CPointFEM.t T))
    (surfElem : list CSurfaceElementFEM.t)
    (acc : list Z * list (CPointCompare.t T))
    : outcome (list Z * list (CPointCompare.t T)) :=
  match surfElem with
  | [] => Ok acc
  | s :: rest =>
      let* len := DetermineLengthScale s meshPoints in
      let tolElem := su2_mul su2_1em4 len in
      let* acc' := addBoundaryNodes nDim meshPoints tolElem
                     (CSurfaceElementFEM.nodeIDsGrid s)
                     (Z.to_nat (CSurfaceElementFEM.nDOFsGrid s)) 0 acc in
      collectBoundaryPoints nDim meshPoints rest acc'
  end.

(** The points of the periodic boundary, sorted for the searches. The
    sort is merge sort here too, although [CPointCompare::operator<] does
    not meet the requirement of [std::sort]. *)
Definition pointsBoundaryOf (nDim : nat) (meshPoints : list (CPointFEM.t T))
    (surfElem : list CSurfaceElementFEM.t)
    : outcome (list (CPointCompare.t T)) :=
  let* '(_, pointsBoundary) :=
    collectBoundaryPoints nDim meshPoints surfElem
      (replicate (length meshPoints) (-1), []) in
  Ok (sort pointCompare_lt pointsBoundary).

(** The rotation matrix of the transformation from the donor. *)
Definition rotMatrix (angles : T * T * T)
    : (T * T * T) * (T * T * T) * (T * T * T) :=
  let '(theta, phi, psi) := angles in
  let cosTheta := su2_cos theta in let cosPhi := su2_cos phi in
  let cosPsi := su2_cos psi in
  let sinTheta := su2_sin theta in let sinPhi := su2_sin phi in
  let sinPsi := su2_sin psi in
  ((su2_mul cosPhi cosPsi, su2_mul cosPhi sinPsi, su2_opp sinPhi),
   (su2_sub (su2_mul (su2_mul sinTheta sinPhi) cosPsi) (su2_mul cosTheta sinPsi),
    su2_add (su2_mul (su2_mul sinTheta sinPhi) sinPsi) (su2_mul cosTheta cosPsi),
    su2_mul sinTheta cosPhi),
   (su2_add (su2_mul (su2_mul cosTheta sinPhi) cosPsi) (su2_mul sinTheta sinPsi),
    su2_sub (su2_mul (su2_mul cosTheta sinPhi) sinPsi) (su2_mul sinTheta cosPsi),
    su2_mul cosTheta cosPhi)).

(** [center - trans] *)
Definition translationOf (per : CConfig.periodic T) : T * T * T :=
  let '(c0, c1, c2) := CConfig.center per in
  let '(t0, t1, t2) := CConfig.trans per in
  (su2_sub c0 t0, su2_sub c1 t1, su2_sub c2 t2).

(** The periodic transformation applied to the coordinates of a halo
    point. *)
Definition transformCoor (nDim : nat) (per : CConfig.periodic T)
    (coor : T * T * T) : T * T * T :=
  let '(x, y, z) := coor in
  let '(c0, c1, c2) := CConfig.center per in
  let '(t0, t1, t2) := translationOf per in
  let '((r00, r01, r02), (r10, r11, r12), (r20, r21, r22)) :=
    rotMatrix (CConfig.angles per) in
  let dx := su2_sub x c0 in
  let dy := su2_sub y c1 in
  let dz := if (nDim =? 3)%nat then su2_sub z c2 else su2_zero in
  (su2_add (su2_add (su2_add (su2_mul r00 dx) (su2_mul r01 dy))
                    (su2_mul r02 dz)) t0,
   su2_add (su2_add (su2_add (su2_mul r10 dx) (su2_mul r11 dy))
                    (su2_mul r12 dz)) t1,
   su2_add (su2_add (su2_add (su2_mul r20 dx) (su2_mul r21 dy))
                    (su2_mul r22 dz)) t2).

(** The coordinates of a point the transformation reads: the third one
    only in three dimensions. *)
Definition coor3 (nDim : nat) (coor : list T) : outcome (T * T * T) :=
  let* x := readAt coor 0 in
  let* y := readAt coor 1 in
  let* z := if (nDim =? 3)%nat then readAt coor 2 else Ok su2_zero in
  Ok (x, y, z).

(** One halo point of a periodic group: it is transformed, searched in
    the points of the boundary, and either mapped to the point found or
    added to the local points. *)
Definition matchHaloPoint (nDim : nat) (per : CConfig.periodic T)
    (pointsBoundary : list (CPointCompare.t T))
    (acc : list (CPointFEM.t T) * gmap unsignedLong2T nat)
    (p : CPointFEM.t T)
    : outcome (list (CPointFEM.t T) * gmap unsignedLong2T nat) :=
  let '(meshPoints, m) := acc in
  let* c := coor3 nDim (CPointFEM.coor p) in
  let '(x, y, z) := transformCoor nDim per c in
  let p' := CPointFEM.mk (CPointFEM.globalID p)
              (CPointFEM.periodIndexToDonor p) [x; y; z] in
  let* xs := readRange_gen (CPointFEM.coor p') 0 nDim in
  let thisPoint := CPointCompare.mk nDim ULONG_MAX su2_1ep10 xs in
  if binary_search pointCompare_lt pointsBoundary thisPoint then
    let* periodicLow :=
      readAt pointsBoundary (lower_bound pointCompare_lt pointsBoundary thisPoint) in
    Ok (meshPoints,
        <[pointKey p' := Z.to_nat (CPointCompare.nodeID periodicLow)]> m)
  else
    Ok (meshPoints ++ [p'], <[pointKey p' := length meshPoints]> m).

(** The halo points with one periodic index. *)
Definition matchHaloGroup (nDim : nat) (config : CConfig.t T)
    (boundaries : list CBoundaryFEM.t)
    (acc : list (CPointFEM.t T) * gmap unsignedLong2T nat)
    (group : list (CPointFEM.t T))
    : outcome (list (CPointFEM.t T) * gmap unsignedLong2T nat) :=
  match group with
  | [] => Ok acc
  | first :: _ =>
      let perIndex := CPointFEM.periodIndexToDonor first in
      if perIndex =? -1 then Ok acc
      else
        let* b := readAt boundaries (Z.to_nat (to_ulong perIndex)) in
        let* pointsBoundary :=
          pointsBoundaryOf nDim acc.1 (CBoundaryFEM.surfElem b) in
        forEachBuf (matchHaloPoint nDim (config perIndex) pointsBoundary)
          group acc
  end.

(** The runs of halo points with equal periodic index. *)
Fixpoint periodicGroups (haloPoints : list (CPointFEM.t T))
    : list (list (CPointFEM.t T)) :=
  match haloPoints with
  | [] => []
  | p :: rest =>
      match periodicGroups rest with
      | (q :: g) :: gs =>
          if CPointFEM.periodIndexToDonor q =? CPointFEM.periodIndexToDonor p
          then (p :: q :: g) :: gs
          else [p] :: (q :: g) :: gs
      | gs => [p] :: gs
      end
  end.

(** The periodic halo points are matched with the local points. *)
Definition matchPeriodicHaloPoints (nDim : nat) (config : CConfig.t T)
    (boundaries : list CBoundaryFEM.t)
    (meshPoints haloPoints : list (CPointFEM.t T))
    (m : gmap unsignedLong2T nat)
    : outcome (list (CPointFEM.t T) * gmap unsignedLong2T nat) :=
  forEachBuf (matchHaloGroup nDim config boundaries)
    (periodicGroups haloPoints) (meshPoints, m).

(** The reconciliation of the halo points and the conversion to the
    local numbering: the end of the constructor. *)
Definition reconcile (nDim : nat) (config : CConfig.t T) (Global_nPoint : Z)
    (mElem : gmap Z nat)
    (volElem : list CVolumeElementFEM.t)
    (boundaries : list CBoundaryFEM.t)
    (meshPoints haloPoints : list (CPointFEM.t T))
    : outcome (list CVolumeElementFEM.t * list CBoundaryFEM.t
               * list (CPointFEM.t T)) :=
  let '(haloPoints', meshPoints1) :=
    addNonPeriodicHaloPoints Global_nPoint meshPoints haloPoints in
  let m1 := mapGlobalPointIDToInd meshPoints1 in
  let* boundaries' := translateBoundaries mElem m1 boundaries in
  let* '(meshPoints2, m2) :=
    matchPeriodicHaloPoints nDim config boundaries' meshPoints1 haloPoints' m1 in
  let* volElem' := translateVolElems m2 volElem in
  Ok (volElem', boundaries', meshPoints2).

End periodic.

(** *** The periodic transformation over the real numbers *)

(** The arithmetic of [su2double] taken exactly. *)
#[global] Instance R_order : Su2Order R := {
  su2_sub := Rminus;
  su2_fabs := Rabs;
  su2_ltb x y := if Rlt_dec x y then true else false
}.

#[global] Instance R_arith : Su2Arith R := {
  su2_zero := 0%R;
  su2_add := Rplus;
  su2_mul := Rmult;
  su2_opp := Ropp;
  su2_sqrt := R_sqrt.sqrt;
  su2_cos := cos;
  su2_sin := sin;
  su2_1em4 := (1 / 10000)%R;
  su2_1ep10 := (10 ^ 10)%R
}.

Abbreviation vec3 := (R * R * R)%type.
Abbreviation mat3 := (vec3 * vec3 * vec3)%type.

Definition vsub (a b : vec3) : vec3 :=
  let '(a0, a1, a2) := a in let '(b0, b1, b2) := b in
  (a0 - b0, a1 - b1, a2 - b2)%R.


Definition dot (a b : vec3) : R :=
  let '(a0, a1, a2) := a in let '(b0, b1, b2) := b in
  (a0 * b0 + a1 * b1 + a2 * b2)%R.









(** The difference to the centre the code rotates: its third component
    is zero unless the mesh has three dimensions. *)
Definition centred (nDim : nat) (per : CConfig.periodic R) (c : vec3) : vec3 :=
  let '(x, y, z) := c in
  let '(c0, c1, c2) := CConfig.center per in
  (x - c0, y - c1, if (nDim =? 3)%nat then z - c2 else 0)%R.

(** A periodic marker that only has a centre of rotation off the plane. *)
Definition centre_off_plane : CConfig.periodic R :=
  CConfig.mkPeriodic (0, 0, 1)%R (0, 0, 0)%R (0, 0, 0)%R.


(** *** A boundary face with a node its element does not have *)

(** The map of three local points, none of them periodic. *)
Definition three_points_map : gmap unsignedLong2T nat :=
  mapGlobalPointIDToInd
    [CPointFEM.mk 0 (-1) [0; 0; 0]%float; CPointFEM.mk 1 (-1) [1; 0; 0]%float;
     CPointFEM.mk 2 (-1) [0; 1; 0]%float].

(** A triangle on the nodes 0, 1, 2, with its nodes still in the global
    numbering. *)
Definition triangle_012 : CVolumeElementFEM.t :=
  CVolumeElementFEM.mk true 0 (-1) 5 1 1 3 3 3 true 0 0 0 [0; 1; 2]
    [true; true; true].

(** The same element, but with the node 7, for which no point arrived. *)
Definition triangle_017 : CVolumeElementFEM.t :=
  CVolumeElementFEM.mk true 0 (-1) 5 1 1 3 3 3 true 0 0 0 [0; 1; 7]
    [true; true; true].

(** A line of the boundary between the node 0 and the node 7. *)
Definition boundary_line_07 : CBoundaryFEM.t :=
  CBoundaryFEM.mk "wall" [CSurfaceElementFEM.mk 3 1 2 0 0 [0; 7]].

(** The nonperiodic halo point is stored on this rank already: the
    binary search finds it in the local points. *)
Definition isLocalPoint {T} (meshPoints : list (CPointFEM.t T))
    (p : CPointFEM.t T) : bool :=
  (CPointFEM.periodIndexToDonor p =? -1)
  && binary_search pointFEM_lt meshPoints p.

(** The periodic index of a halo point is -1 or the index of a marker. *)
Definition validPeriodicIndex {T} (p : CPointFEM.t T) : Prop :=
  -1 <= CPointFEM.periodIndexToDonor p < SHRT_MAX.

(** The local points grew by periodic halo points only. *)
Definition grown_by_periodic {T} {M : Type}
    (acc acc' : list (CPointFEM.t T) * M) : Prop :=
  ∃ extra, acc'.1 = acc.1 ++ extra
           ∧ Forall (λ q, CPointFEM.periodIndexToDonor q ≠ -1) extra.

(** *** Local points and halo points of a rank *)

Definition local_points_sample : list (CPointFEM.t R) :=
  [CPointFEM.mk 2 (-1) [2; 0; 0]%R; CPointFEM.mk 0 (-1) [0; 0; 0]%R;
   CPointFEM.mk 1 (-1) [1; 0; 0]%R; CPointFEM.mk 2 (-1) [2; 0; 0]%R].

Definition halo_points_sample : list (CPointFEM.t R) :=
  [CPointFEM.mk 0 0 [3; 0; 0]%R; CPointFEM.mk 2 (-1) [2; 0; 0]%R;
   CPointFEM.mk 3 (-1) [3; 0; 0]%R; CPointFEM.mk 0 0 [3; 0; 0]%R].

(** The two quadrilaterals on one rank: what the rank receives from
    itself, what it requests and what it answers. *)
Definition two_quads_sender : sender :=
  mkSender [quad_left; quad_right] [] [6; 0; 1; 2; 3; 4; 5; 0; 0].

Definition two_quads_requests : list (list Z) := [[0; 1; 2; 1; 0; 3]].

Definition two_quads_answer : answerBuf float :=
  match answerRequests two_quads 0 [0; 1; 2; 1; 0; 3] with
  | Ok a => a
  | _ => mkAnswer [] [] []
  end.

Definition unset_elem : CVolumeElementFEM.t :=
  CVolumeElementFEM.mk false 0 0 0 0 0 0 0 0 false 0 0 0 [] [].

(** *** Sorted vectors of points and of halo descriptors *)

Definition dedup_witness_points : list (CPointFEM.t Z) :=
  [CPointFEM.mk 4 (-1) [0; 0; 0]; CPointFEM.mk 7 (-1) [1; 0; 0];
   CPointFEM.mk 2 0 [2; 0; 0]].

Definition dedup_witness_halos : list unsignedLong2T :=
  [UL2 3 0; UL2 3 1; UL2 5 0].

(** *** Two elements with faces of all kinds *)

Definition halo_witness_senders : list sender :=
  [mkSender
     [CPrimalGrid.mk 9 1 1 4 true 10 0 0 [0; 1; 2; 3]
        [CPrimalGrid.mkFace 11 (-1) true; CPrimalGrid.mkFace (-1) (-1) true;
         CPrimalGrid.mkFace 12 (-1) true; CPrimalGrid.mkFace 11 0 true];
      CPrimalGrid.mk 9 1 1 4 true 11 4 0 [1; 4; 5; 2]
        [CPrimalGrid.mkFace 10 (-1) true; CPrimalGrid.mkFace 10 0 true;
         CPrimalGrid.mkFace 10 1 true; CPrimalGrid.mkFace (-1) (-1) true]]
     [77] [3; 0; 1; 2]].

(** The vector is partitioned with respect to [v]: the elements less
    than [v] come first. *)
Definition partitioned {A} (lt : A → A → bool) (l : list A) (v : A) : Prop :=
  ∀ i j x y, (i ≤ j)%nat → l !! i = Some x → l !! j = Some y →
             lt y v = true → lt x v = true.

(** ** Vocabulary for the properties of the halo exchange *)

(** The halo element [h] was stored on rank [r] in the original
    partitioning, by the search in the table [table]. *)
Definition ownerIs (table : list Z) (r : nat) (h : unsignedLong2T) : bool :=
  match rankOfHalo table (long0 h) with
  | Ok r' => bool_decide (r' = r)
  | _ => false
  end.

(** The values requested from rank [r]: the three values of every halo
    element that rank owns, in the order of the halo elements. *)
Definition requestsTo (table : list Z) (haloMap : gmap unsignedLong2T nat)
    (r : nat) (haloElements : list unsignedLong2T) : list Z :=
  flat_map (λ h, match haloMap !! h with
                 | Some slot => requestOf h slot
                 | None => []
                 end)
           (List.filter (ownerIs table r) haloElements).

(** The first [nDim] coordinates of the node with global index [g] of
    the source mesh, as the lookup in [globalPointIDToLocalInd] finds
    it. *)
Definition nodeCoordsOf {T} (geometry : CGeometry.t T) (g : Z) : list T :=
  match globalPointIDToLocalInd geometry !! g with
  | Some ind =>
      match CGeometry.nodes geometry !! ind with
      | Some node => take (CGeometry.nDim geometry) (CGeometry.Coord node)
      | None => []
      end
  | None => []
  end.

(** The halo point this rank stores for the node descriptor [nd] that an
    owner sent back. *)
Definition haloPointOf {T} (geometry : CGeometry.t T) (coor0 : list T)
    (nd : unsignedLong2T) : CPointFEM.t T :=
  CPointFEM.mk (long0 nd) (to_short (to_short (long1 nd) - 1))
    (nodeCoordsOf geometry (long0 nd)
       ++ drop (CGeometry.nDim geometry) coor0).

(** The element of the source mesh of the owner [rank] that the request
    [it] names. *)
Definition requestedElem {T} (geometry : CGeometry.t T) (rank : nat)
    (it : request) (e : CPrimalGrid.t) : Prop :=
  ∃ start, CGeometry.starting_node geometry !! rank = Some start
           ∧ CGeometry.elem geometry
               !! Z.to_nat (locElemIndOf it.1.1 start) = Some e.

(** The halo element this rank holds for the request [it] that an owner
    answered with its element [e]; the local offset and the flags of the
    faces are not set for a halo. *)
Definition haloCopyOf (it : request) (e : CPrimalGrid.t)
    (old : CVolumeElementFEM.t) : CVolumeElementFEM.t :=
  CVolumeElementFEM.mk false (to_int (to_long (CPrimalGrid.Color e)))
    (to_short it.1.2)
    (CPrimalGrid.VTK_Type e) (CPrimalGrid.NPolyGrid e)
    (CPrimalGrid.NPolySol e) (CPrimalGrid.NDOFsGrid e)
    (CPrimalGrid.NDOFsSol e) (CPrimalGrid.nFaces e)
    false (to_ulong it.1.1) ULONG_MAX
    (CVolumeElementFEM.offsetDOFsSolLocal old)
    (CPrimalGrid.Nodes e)
    (CVolumeElementFEM.JacFacesIsConsideredConstant old).

(** The source mesh of the two quadrilaterals without its last node. *)
Definition two_quads_less_a_node : CGeometry.t float :=
  CGeometry.mk 2
    [CGeometry.mkNode 0 [0; 0]%float; CGeometry.mkNode 1 [1; 0]%float;
     CGeometry.mkNode 2 [2; 0]%float; CGeometry.mkNode 3 [0; 1]%float;
     CGeometry.mkNode 4 [1; 1]%float]
    [quad_left; quad_right] [0] [2] [2] 6.

(** ** Vocabulary for the conversion to the local numbering *)

(** The IDs in the ranges of their types. *)
Definition pointInRange {T} (p : CPointFEM.t T) : Prop :=
  is_ulong (CPointFEM.globalID p) ∧ is_short (CPointFEM.periodIndexToDonor p).

(** The first [n] node IDs are there and each of them, with the index
    [perPlus1], is a key of the map. *)
Definition translatable (m : gmap unsignedLong2T nat) (perPlus1 : Z) (n : nat)
    (nodeIDsGrid : list Z) : Prop :=
  (n ≤ length nodeIDsGrid)%nat
  ∧ Forall (λ x, is_Some (m !! UL2 x perPlus1)) (take n nodeIDsGrid).

#[global] Instance translatable_dec m perPlus1 n nodeIDsGrid :
  Decision (translatable m perPlus1 n nodeIDsGrid).
Proof. unfold translatable. apply _. Defined.

(** The first [n] node IDs replaced by what the map holds for them. *)
Definition translated (m : gmap unsignedLong2T nat) (perPlus1 : Z) (n : nat)
    (nodeIDsGrid : list Z) : list Z :=
  map (λ x, Z.of_nat (default 0%nat (m !! UL2 x perPlus1))) (take n nodeIDsGrid)
  ++ drop n nodeIDsGrid.

Definition volElemTranslatable (m : gmap unsignedLong2T nat)
    (v : CVolumeElementFEM.t) : Prop :=
  translatable m (CVolumeElementFEM.periodIndexToDonor v + 1)
    (Z.to_nat (CVolumeElementFEM.nDOFsGrid v))
    (CVolumeElementFEM.nodeIDsGrid v).

#[global] Instance volElemTranslatable_dec m v :
  Decision (volElemTranslatable m v).
Proof. unfold volElemTranslatable. apply _. Defined.

(** The volume element with its node IDs in the local numbering. *)
Definition volElemTranslated (m : gmap unsignedLong2T nat)
    (v : CVolumeElementFEM.t) : CVolumeElementFEM.t :=
  CVolumeElementFEM.mk
    (CVolumeElementFEM.elemIsOwned v) (CVolumeElementFEM.rankOriginal v)
    (CVolumeElementFEM.periodIndexToDonor v) (CVolumeElementFEM.VTK_Type v)
    (CVolumeElementFEM.nPolyGrid v) (CVolumeElementFEM.nPolySol v)
    (CVolumeElementFEM.nDOFsGrid v) (CVolumeElementFEM.nDOFsSol v)
    (CVolumeElementFEM.nFaces v)
    (CVolumeElementFEM.JacIsConsideredConstant v)
    (CVolumeElementFEM.elemIDGlobal v)
    (CVolumeElementFEM.offsetDOFsSolGlobal v)
    (CVolumeElementFEM.offsetDOFsSolLocal v)
    (translated m (CVolumeElementFEM.periodIndexToDonor v + 1)
       (Z.to_nat (CVolumeElementFEM.nDOFsGrid v))
       (CVolumeElementFEM.nodeIDsGrid v))
    (CVolumeElementFEM.JacFacesIsConsideredConstant v).

(** The first [n] node IDs are indices of a vector of [size] points. *)
Definition nodesInRange (size : nat) (n : Z) (nodeIDsGrid : list Z) : Prop :=
  ∀ k x, (k < Z.to_nat n)%nat → nodeIDsGrid !! k = Some x →
         0 <= x < Z.of_nat size.

(** Every entry of the map is an index of a vector of [size] points. *)
Definition mapInRange `{Countable K} (m : gmap K nat) (size : nat) : Prop :=
  ∀ k i, m !! k = Some i → (i < size)%nat.

(** *** A rank with a periodic halo element *)

(** A periodic marker without boundary elements on this rank. *)
Definition empty_periodic_marker : CBoundaryFEM.t :=
  CBoundaryFEM.mk "periodic" [].

(** The triangle on the nodes 0, 1, 2 as a halo element behind the
    periodic marker 0. *)
Definition triangle_012_periodic : CVolumeElementFEM.t :=
  CVolumeElementFEM.mk false 0 0 5 1 1 3 3 3 false 0 ULONG_MAX 0 [0; 1; 2] [].

(** The three local points and the three halo points of that element. *)
Definition triangle_points : list (CPointFEM.t R) :=
  [CPointFEM.mk 0 (-1) [0; 0; 0]%R; CPointFEM.mk 1 (-1) [1; 0; 0]%R;
   CPointFEM.mk 2 (-1) [0; 1; 0]%R].

Definition triangle_halo_points : list (CPointFEM.t R) :=
  [CPointFEM.mk 0 0 [0; 0; 0]%R; CPointFEM.mk 1 0 [1; 0; 0]%R;
   CPointFEM.mk 2 0 [0; 1; 0]%R].

(** ** [CMeshFEM_DG::SetSendReceive] *)

Definition setSendReceiveDiagnostic : string :=
  "This should not happen in CMeshFEM_DG::SetSendReceive".

(** [for(i = first; i < first + n; ++i)] over the state [acc] *)
Fixpoint forIndex {B} (f : B → nat → outcome B) (n i : nat) (acc : B)
    : outcome B :=
  match n with
  | O => Ok acc
  | S n' => let* acc' := f acc i in forIndex f n' (S i) acc'
  end.

(** [v.offsetDOFsSolLocal = off] *)
Definition withOffsetLocal (v : CVolumeElementFEM.t) (off : Z)
    : CVolumeElementFEM.t :=
  CVolumeElementFEM.mk
    (CVolumeElementFEM.elemIsOwned v) (CVolumeElementFEM.rankOriginal v)
    (CVolumeElementFEM.periodIndexToDonor v) (CVolumeElementFEM.VTK_Type v)
    (CVolumeElementFEM.nPolyGrid v) (CVolumeElementFEM.nPolySol v)
    (CVolumeElementFEM.nDOFsGrid v) (CVolumeElementFEM.nDOFsSol v)
    (CVolumeElementFEM.nFaces v)
    (CVolumeElementFEM.JacIsConsideredConstant v)
    (CVolumeElementFEM.elemIDGlobal v)
    (CVolumeElementFEM.offsetDOFsSolGlobal v)
    off
    (CVolumeElementFEM.nodeIDsGrid v)
    (CVolumeElementFEM.JacFacesIsConsideredConstant v).

(** [volElem[i].offsetDOFsSolLocal = volElem[i-1].offsetDOFsSolLocal
    + volElem[i-1].nDOFsSol], a sum of [unsigned long] values *)
Definition setOffsetStep (volElem : list CVolumeElementFEM.t) (i : nat)
    : outcome (list CVolumeElementFEM.t) :=
  let* prev := readAt volElem (i - 1) in
  let* cur := readAt volElem i in
  writeAt volElem i
    (withOffsetLocal cur
       (to_ulong (CVolumeElementFEM.offsetDOFsSolLocal prev
                  + CVolumeElementFEM.nDOFsSol prev))).

(** The local offset of the solution DOFs of every element:
    [volElem[0]] is written before the loop from 1 to [nVolElemTot]. *)
Definition setLocalOffsets (nVolElemTot : nat)
    (volElem : list CVolumeElementFEM.t) : outcome (list CVolumeElementFEM.t) :=
  let* first := readAt volElem 0 in
  let* volElem0 := writeAt volElem 0 (withOffsetLocal first 0) in
  forIndex setOffsetStep (nVolElemTot - 1) 1 volElem0.

(** [commWithRank[volElem[i].rankOriginal] = true] for the elements that
    are not owned; the rank, an [int], is converted to the index type. *)
Definition markCommStep (volElem : list CVolumeElementFEM.t)
    (commWithRank : list bool) (i : nat) : outcome (list bool) :=
  let* v := readAt volElem i in
  if negb (CVolumeElementFEM.elemIsOwned v)
  then writeAt commWithRank
         (Z.to_nat (to_ulong (CVolumeElementFEM.rankOriginal v))) true
  else Ok commWithRank.

Definition commWithRankOf (nRank nVolElemTot : nat)
    (volElem : list CVolumeElementFEM.t) : outcome (list bool) :=
  forIndex (markCommStep volElem) nVolElemTot 0 (replicate nRank false).

(** The keys of a [std::map] in the order of its iterators. *)
Definition keysInOrder (m : gmap nat nat) : list nat :=
  merge_sort Nat.le (map fst (map_to_list m)).

(** [ranksComm[i] = MI->first] along the map *)
Definition ranksCommOf (rankToIndCommBuf : gmap nat nat) : list Z :=
  map Z.of_nat (keysInOrder rankToIndCommBuf).

(** [rankToIndCommBuf.find(rank)->second] for a rank held as an [int] *)
Definition findRank (rankToIndCommBuf : gmap nat nat) (rank : Z) : outcome nat :=
  if rank <? 0 then Undefined
  else findSecond rankToIndCommBuf (Z.to_nat rank).

(** The local indices of the solution DOFs of an element:
    [offsetDOFsSolLocal + j] for [j] below [nDOFsSol]. *)
Definition dofsOf (v : CVolumeElementFEM.t) : list Z :=
  map (λ j, to_ulong (CVolumeElementFEM.offsetDOFsSolLocal v + Z.of_nat j))
      (seq 0 (Z.to_nat (CVolumeElementFEM.nDOFsSol v))).

(** The global ID of a halo element is put in the buffer of its rank,
    and its DOFs in the DOFs to receive from that rank. *)
Definition receiveStep (rankToIndCommBuf : gmap nat nat)
    (volElem : list CVolumeElementFEM.t)
    (acc : list (list Z) * list (list Z)) (i : nat)
    : outcome (list (list Z) * list (list Z)) :=
  let '(longBuf, DOFsReceive) := acc in
  let* v := readAt volElem i in
  if negb (CVolumeElementFEM.elemIsOwned v) then
    let* ind := findRank rankToIndCommBuf (CVolumeElementFEM.rankOriginal v) in
    let* longBuf' := pushTo longBuf ind [CVolumeElementFEM.elemIDGlobal v] in
    let* DOFsReceive' := pushTo DOFsReceive ind (dofsOf v) in
    Ok (longBuf', DOFsReceive')
  else Ok acc.

(** [globalElemIDToLocalInd[volElem[i].elemIDGlobal] = i] for the owned
    elements *)
Definition ownedIndexStep (volElem : list CVolumeElementFEM.t)
    (m : gmap Z nat) (i : nat) : outcome (gmap Z nat) :=
  let* v := readAt volElem i in
  Ok (if CVolumeElementFEM.elemIsOwned v
      then <[CVolumeElementFEM.elemIDGlobal v := i]> m
      else m).

(** The DOFs to send for the global element IDs of one message: the
    lookup of an ID is tested, a miss stops the run. *)
Fixpoint dofsToSend (volElem : list CVolumeElementFEM.t)
    (globalElemIDToLocalInd : gmap Z nat) (ids : list Z) (send : list Z)
    : outcome (list Z) :=
  match ids with
  | [] => Ok send
  | id :: rest =>
      match globalElemIDToLocalInd !! id with
      | None => Abort [] setSendReceiveDiagnostic
      | Some ind =>
          let* v := readAt volElem ind in
          dofsToSend volElem globalElemIDToLocalInd rest (send ++ dofsOf v)
      end
  end.

(** What the function sets up before the DOFs to send are determined;
    the vectors [ranksComm], [DOFsSend] and [DOFsReceive] of the mesh are
    empty when the function is entered. *)
Record commPlan : Type := mkPlan {
  planVolElem : list CVolumeElementFEM.t;
  planComm : gmap nat nat;
  planRanksComm : list Z;
  planLongBuf : list (list Z);
  planDOFsReceive : list (list Z);
  planOwnedInd : gmap Z nat
}.

Definition commPlanOf (nRank nVolElemTot : nat)
    (volElem : list CVolumeElementFEM.t) : outcome commPlan :=
  let* volElem' := setLocalOffsets nVolElemTot volElem in
  let* commWithRank := commWithRankOf nRank nVolElemTot volElem' in
  let comm := rankToIndCommBuf commWithRank in
  let* '(longBuf, DOFsReceive) :=
    forIndex (receiveStep comm volElem') nVolElemTot 0
      (replicate (size comm) [], replicate (size comm) []) in
  let* ownedInd := forIndex (ownedIndexStep volElem') nVolElemTot 0 ∅ in
  Ok (mkPlan volElem' comm (ranksCommOf comm) longBuf DOFsReceive ownedInd).

(** What the function leaves in the mesh. *)
Record sendReceive : Type := mkSendReceive {
  volElemOut : list CVolumeElementFEM.t;
  ranksComm : list Z;
  DOFsSend : list (list Z);
  DOFsReceive : list (list Z)
}.

(** The sequential build: the global IDs of the halo elements, if there
    are any, are looked up on this rank itself. *)
Definition SetSendReceive_sequential (nRank nVolElemTot : nat)
    (volElem : list CVolumeElementFEM.t) : outcome sendReceive :=
  let* plan := commPlanOf nRank nVolElemTot volElem in
  let DOFsSend0 := replicate (size (planComm plan)) [] in
  let* DOFsSend1 :=
    if negb (length (planLongBuf plan) =? 0)%nat then
      let* ids := readAt (planLongBuf plan) 0 in
      let* old := readAt DOFsSend0 0 in
      let* send := dofsToSend (planVolElem plan) (planOwnedInd plan) ids old in
      writeAt DOFsSend0 0 send
    else Ok DOFsSend0 in
  Ok (mkSendReceive (planVolElem plan) (planRanksComm plan) DOFsSend1
        (planDOFsReceive plan)).

(** The loop of the parallel build over the ranks of [ranksComm]:
    [received r] is the message with global element IDs that arrives
    from rank [r]. *)
Definition sendStep (plan : commPlan) (received : Z → list Z)
    (DOFsSend : list (list Z)) (i : nat) : outcome (list (list Z)) :=
  let* r := readAt (planRanksComm plan) i in
  let* old := readAt DOFsSend i in
  let* send :=
    dofsToSend (planVolElem plan) (planOwnedInd plan) (received r) old in
  writeAt DOFsSend i send.

Definition SetSendReceive_parallel (nRank nVolElemTot : nat)
    (volElem : list CVolumeElementFEM.t) (received : Z → list Z)
    : outcome sendReceive :=
  let* plan := commPlanOf nRank nVolElemTot volElem in
  let* DOFsSend1 :=
    forIndex (sendStep plan received) (length (planRanksComm plan)) 0
      (replicate (size (planComm plan)) []) in
  Ok (mkSendReceive (planVolElem plan) (planRanksComm plan) DOFsSend1
        (planDOFsReceive plan)).

(** *** Vocabulary for the properties of [SetSendReceive] *)

(** The number of solution DOFs of the elements. *)
Definition sumDOFs (volElem : list CVolumeElementFEM.t) : Z :=
  foldr (λ v s, CVolumeElementFEM.nDOFsSol v + s) 0 volElem.

(** The elements below [n], and the first one, with the number of DOFs
    of the elements before them as local offset. *)
Definition withPrefixOffsets (n : nat) (volElem : list CVolumeElementFEM.t)
    : list CVolumeElementFEM.t :=
  imap (λ i v, if decide (i < n ∨ i = 0)%nat
               then withOffsetLocal v (to_ulong (sumDOFs (take i volElem)))
               else v) volElem.

(** The halo elements that rank [r] stored in the original
    partitioning. *)
Definition halosFrom (r : Z) (volElem : list CVolumeElementFEM.t)
    : list CVolumeElementFEM.t :=
  List.filter (λ v, negb (CVolumeElementFEM.elemIsOwned v)
                    && (CVolumeElementFEM.rankOriginal v =? r)) volElem.

Definition is_int (z : Z) : Prop := - 2 ^ 31 <= z < 2 ^ 31.

(** The indices of the marked entries, counted from [i]. *)
Fixpoint markedRanks (st : list bool) (i : nat) : list nat :=
  match st with
  | [] => []
  | b :: rest => (if b then [i] else []) ++ markedRanks rest (S i)
  end.

(** The element below [n] is a halo element that rank [r] stored. *)
Definition haloFromRank (n : nat) (volElem : list CVolumeElementFEM.t)
    (r : Z) : Prop :=
  ∃ i v, (i < n)%nat ∧ volElem !! i = Some v
         ∧ CVolumeElementFEM.elemIsOwned v = false
         ∧ CVolumeElementFEM.rankOriginal v = r.

(** *** Small meshes for [SetSendReceive] *)

Definition owned_quad (id nDOFsSol : Z) : CVolumeElementFEM.t :=
  CVolumeElementFEM.mk true 1 (-1) 9 1 1 4 nDOFsSol 4 true id 0 0 [] [].

Definition halo_quad (id rank nDOFsSol : Z) : CVolumeElementFEM.t :=
  CVolumeElementFEM.mk false rank (-1) 9 1 1 4 nDOFsSol 4 false id
    ULONG_MAX 0 [] [].

(** Rank 1 of three: two owned elements, halo elements of the ranks 2
    and 0. *)
Definition mesh_on_rank_1 : list CVolumeElementFEM.t :=
  [owned_quad 10 2; owned_quad 11 3;
   halo_quad 20 2 2; halo_quad 5 0 3; halo_quad 21 2 2].

(** One rank with a periodic boundary: the halo elements are copies of
    the owned ones. *)
Definition periodic_mesh_on_one_rank : list CVolumeElementFEM.t :=
  [owned_quad 0 2; owned_quad 1 3; halo_quad 1 0 3; halo_quad 0 0 2].

(** The same mesh with a halo element that no element is the donor of. *)
Definition periodic_mesh_without_donor : list CVolumeElementFEM.t :=
  [owned_quad 0 2; owned_quad 1 3; halo_quad 1 0 3; halo_quad 7 0 2].

(** The local DOFs of the owned element that has the global ID [id], as
    the map finds it. *)
Definition donorDOFs (volElem : list CVolumeElementFEM.t)
    (globalElemIDToLocalInd : gmap Z nat) (id : Z) : list Z :=
  match globalElemIDToLocalInd !! id with
  | Some ind =>
      match volElem !! ind with
      | Some v => dofsOf v
      | None => []
      end
  | None => []
  end.

(** Every global ID of the message is the one of an owned element. *)
Definition allOwned (globalElemIDToLocalInd : gmap Z nat) (ids : list Z)
    : Prop :=
  Forall (λ id, is_Some (globalElemIDToLocalInd !! id)) ids.

#[global] Instance allOwned_dec m ids : Decision (allOwned m ids).
Proof. unfold allOwned. apply _. Defined.

(** ** Step 1: the buffers of the first exchange, as they are filled *)

Module CPrimalGridBound.
(** Modelled from the spec: the boundary elements of the source mesh are
    read through the accessors of [CPrimalGrid], declared outside the
    translated files: the kind of the element and the polynomial degree
    of its grid ([unsigned short]), the global ID of the domain element
    it belongs to, its own global ID and its nodes ([unsigned long]);
    [GetNDOFsGrid] is the number of nodes. *)
Record t : Type := mk {
  VTK_Type : Z;
  NPolyGrid : Z;
  DomainElement : Z;
  GlobalElemID : Z;
  Nodes : list Z
}.

Definition NDOFsGrid (b : t) : Z := Z.of_nat (length (Nodes b)).
End CPrimalGridBound.

(** The short, the long and the double buffer of one rank. *)
Record meshBuf (T : Type) : Type := mkMeshBuf {
  bufShort : list Z;
  bufLong : list Z;
  bufDouble : list T
}.
Arguments mkMeshBuf {T}. Arguments bufShort {T}.
Arguments bufLong {T}. Arguments bufDouble {T}.

(** [sendToRank[geometry->elem[i]->GetColor()] = 1] for every element;
    the colour is an [unsigned long]. *)
Fixpoint markColors (elem : list CPrimalGrid.t) (sendToRank : list bool)
    : outcome (list bool) :=
  match elem with
  | [] => Ok sendToRank
  | e :: rest =>
      let* sendToRank' :=
        writeAt sendToRank (Z.to_nat (to_ulong (CPrimalGrid.Color e))) true in
      markColors rest sendToRank'
  end.

(** [++bufs[ind][pos]] on a buffer of [long] *)
Definition incrAt (bufs : list (list Z)) (ind pos : nat)
    : outcome (list (list Z)) :=
  let* b := readAt bufs ind in
  let* c := readAt b pos in
  if c + 1 <? 2 ^ 63
  then let* b' := writeAt b pos (c + 1) in writeAt bufs ind b'
  else Undefined.

(** The pass of the loop over the local elements for the element [e]:
    [int ind = GetColor()], the unchecked lookup of the buffer, the
    count of the buffer and the values of the element. *)
Definition packStep (rankToIndCommBuf : gmap nat nat)
    (acc : list (list Z) * list (list Z)) (e : CPrimalGrid.t)
    : outcome (list (list Z) * list (list Z)) :=
  let '(shortSendBuf, longSendBuf) := acc in
  let* ind := findRank rankToIndCommBuf (to_int (CPrimalGrid.Color e)) in
  let* longSendBuf1 := incrAt longSendBuf ind 0 in
  let* shortSendBuf1 := pushTo shortSendBuf ind (packElemShort e) in
  let* longSendBuf2 := pushTo longSendBuf1 ind (packElemLong e) in
  Ok (shortSendBuf1, longSendBuf2).

(** [ind += d] for an [unsigned long] index and an [int] step *)
Definition advance (ind : nat) (d : Z) : nat :=
  Z.to_nat (to_ulong (Z.of_nat ind + d)).

(** The node IDs in the connectivity of the elements of one send
    buffer. The numbers of nodes and of faces are read into variables
    of type [short]. *)
Fixpoint collectNodeIDs (S L : list Z) (n indS indL : nat)
    (nodeIDs : list Z) : outcome (list Z) :=
  match n with
  | O => Ok nodeIDs
  | Datatypes.S n' =>
      let* nDOFsGrid := readAt S indS in
      let* nFaces := readAt S (indS + 2) in
      let* nodes := readRange L indL (signedCount nDOFsGrid) in
      collectNodeIDs S L n' (advance indS (2 * nFaces + 7))
        (advance (indL + signedCount nDOFsGrid) (nFaces + 2))
        (nodeIDs ++ nodes)
  end.

(** The coordinates of the nodes of one send buffer; a node that is not
    in [globalPointIDToLocalInd] stops the run. *)
Fixpoint sendCoords {T} (geometry : CGeometry.t T) (nodeIDs : list Z)
    (D : list T) : outcome (list T) :=
  match nodeIDs with
  | [] => Ok D
  | nd :: rest =>
      let* ind := findLocalNode (globalPointIDToLocalInd geometry)
                    (to_ulong nd) in
      let* node := readAt (CGeometry.nodes geometry) ind in
      let* xs := readRange_gen (CGeometry.Coord node) 0
                   (CGeometry.nDim geometry) in
      sendCoords geometry rest (D ++ xs)
  end.

(** The pass for the buffers of index [i] of the loop that adds the
    data of the nodes: the sorted node IDs without doubles follow their
    number in the long buffer, their coordinates fill the double
    buffer. *)
Definition nodeStep {T} (geometry : CGeometry.t T)
    (shortSendBuf : list (list Z))
    (acc : list (list Z) * list (list T)) (i : nat)
    : outcome (list (list Z) * list (list T)) :=
  let '(longSendBuf, doubleSendBuf) := acc in
  let* S := readAt shortSendBuf i in
  let* L := readAt longSendBuf i in
  let* n := elemCount L in
  let* ids := collectNodeIDs S L n 3 3 [] in
  let nodeIDs := dedup Z.ltb Z.eqb ids in
  let* longSendBuf' :=
    writeAt longSendBuf i
      (L ++ [to_long (Z.of_nat (length nodeIDs))] ++ nodeIDs) in
  let* D := readAt doubleSendBuf i in
  let* D' := sendCoords geometry nodeIDs D in
  let* doubleSendBuf' := writeAt doubleSendBuf i D' in
  Ok (longSendBuf', doubleSendBuf').

(** What is appended to the short and to the long buffer for a boundary
    element. *)
Definition packBoundShort (b : CPrimalGridBound.t) : list Z :=
  [to_short (CPrimalGridBound.VTK_Type b);
   to_short (CPrimalGridBound.NPolyGrid b);
   to_short (CPrimalGridBound.NDOFsGrid b)].

Definition packBoundLong (b : CPrimalGridBound.t) : list Z :=
  [to_long (CPrimalGridBound.DomainElement b);
   to_long (CPrimalGridBound.GlobalElemID b)]
  ++ map to_long (CPrimalGridBound.Nodes b).

(** The pass of the loop over the boundary elements of a marker for the
    element [b]; [indLongBuf] holds, per buffer, the index of the count
    of this marker. *)
Definition packBoundStep {T} (geometry : CGeometry.t T) (rank : nat)
    (rankToIndCommBuf : gmap nat nat) (indLongBuf : list nat)
    (acc : list (list Z) * list (list Z)) (b : CPrimalGridBound.t)
    : outcome (list (list Z) * list (list Z)) :=
  let '(shortSendBuf, longSendBuf) := acc in
  let* start := readAt (CGeometry.starting_node geometry) rank in
  let elemID := to_ulong (CPrimalGridBound.DomainElement b - start) in
  let* e := readAt (CGeometry.elem geometry) (Z.to_nat elemID) in
  let* ind := findRank rankToIndCommBuf (to_int (CPrimalGrid.Color e)) in
  let* pos := readAt indLongBuf ind in
  let* longSendBuf1 := incrAt longSendBuf ind pos in
  let* shortSendBuf1 := pushTo shortSendBuf ind (packBoundShort b) in
  let* longSendBuf2 := pushTo longSendBuf1 ind (packBoundLong b) in
  Ok (shortSendBuf1, longSendBuf2).

(** One marker: every long buffer gets a count, 0 at first, and the
    boundary elements of the marker are packed. *)
Definition packMarker {T} (geometry : CGeometry.t T) (rank : nat)
    (rankToIndCommBuf : gmap nat nat)
    (acc : list (list Z) * list (list Z)) (bound : list CPrimalGridBound.t)
    : outcome (list (list Z) * list (list Z)) :=
  let '(shortSendBuf, longSendBuf) := acc in
  let indLongBuf := map length longSendBuf in
  let longSendBuf0 := map (λ L, L ++ [0]) longSendBuf in
  forEachBuf (packBoundStep geometry rank rankToIndCommBuf indLongBuf)
    bound (shortSendBuf, longSendBuf0).

(** The buffers [rank] fills for the first exchange, one triple per
    rank it sends to, with the map from these ranks to the buffers;
    [bound] holds the boundary elements of the source mesh, marker by
    marker. *)
Definition sendBuffers {T} (geometry : CGeometry.t T)
    (bound : list (list CPrimalGridBound.t)) (rank nRank : nat)
    : outcome (gmap nat nat * list (meshBuf T)) :=
  let* sendToRank :=
    markColors (CGeometry.elem geometry) (replicate nRank false) in
  let rankToIndCommBuf := rankToIndCommBuf sendToRank in
  let nRankSend := size rankToIndCommBuf in
  let* '(shortSendBuf, longSendBuf) :=
    forEachBuf (packStep rankToIndCommBuf) (CGeometry.elem geometry)
      (replicate nRankSend [], replicate nRankSend [0]) in
  let* '(longSendBuf1, doubleSendBuf) :=
    forIndex (nodeStep geometry shortSendBuf) nRankSend 0
      (longSendBuf, replicate nRankSend []) in
  let* '(shortSendBuf2, longSendBuf2) :=
    forEachBuf (packMarker geometry rank rankToIndCommBuf) bound
      (shortSendBuf, longSendBuf1) in
  Ok (rankToIndCommBuf,
      zip_with (λ SL D, mkMeshBuf SL.1 SL.2 D)
        (zip shortSendBuf2 longSendBuf2) doubleSendBuf).

(** The sequential build copies the buffers of index 0. *)
Definition firstExchange_sequential {T} (geometry : CGeometry.t T)
    (bound : list (list CPrimalGridBound.t))
    : outcome (list (meshBuf T)) :=
  let* '(_, sendBuf) := sendBuffers geometry bound 0 1 in
  let* b := readAt sendBuf 0 in
  Ok [b].

(** ** Step 2: the nodes and the boundary elements that are received *)

(** The nodes of one receive buffer, appended to [meshPoints]. *)
Fixpoint storePoints_loop {T} (nDim : nat) (coor0 : list T)
    (L : list Z) (D : list T) (n indL indD : nat)
    (meshPoints : list (CPointFEM.t T))
    : outcome (nat * list (CPointFEM.t T)) :=
  match n with
  | O => Ok (indL, meshPoints)
  | Datatypes.S n' =>
      let* g := readAt L indL in
      let* xs := readRange_gen D indD nDim in
      storePoints_loop nDim coor0 L D n' (indL + 1) (indD + nDim)
        (meshPoints ++ [CPointFEM.mk (to_ulong g) (-1) (xs ++ drop nDim coor0)])
  end.

(** The surface elements of one marker in one receive buffer. *)
Fixpoint storeSurfElems (S L : list Z) (n indS indL : nat)
    (surfElem : list CSurfaceElementFEM.t)
    : outcome (nat * nat * list CSurfaceElementFEM.t) :=
  match n with
  | O => Ok (indS, indL, surfElem)
  | Datatypes.S n' =>
      let* vtk := readAt S indS in
      let* pg := readAt S (indS + 1) in
      let* dg := readAt S (indS + 2) in
      let* vol := readAt L indL in
      let* glob := readAt L (indL + 1) in
      let nDOFsGrid := Z.to_nat (to_ushort dg) in
      let* nodes := readRange L (indL + 2) nDOFsGrid in
      storeSurfElems S L n' (indS + 3) (indL + 2 + nDOFsGrid)
        (surfElem ++ [CSurfaceElementFEM.mk (to_ushort vtk) (to_ushort pg)
                        (to_ushort dg) (to_ulong vol) (to_ulong glob)
                        (map to_ulong nodes)])
  end.

(** The loop over the markers of one receive buffer. *)
Fixpoint storeMarkers (S L : list Z) (indS indL : nat)
    (boundaries : list CBoundaryFEM.t)
    : outcome (nat * nat * list CBoundaryFEM.t) :=
  match boundaries with
  | [] => Ok (indS, indL, [])
  | b :: rest =>
      let* n := readAt L indL in
      let* '(indS', indL', surfElem') :=
        storeSurfElems S L (Z.to_nat (to_ulong n)) indS (indL + 1)
          (CBoundaryFEM.surfElem b) in
      let* '(indS'', indL'', rest') := storeMarkers S L indS' indL' rest in
      Ok (indS'', indL'',
          CBoundaryFEM.mk (CBoundaryFEM.markerTag b) surfElem' :: rest')
  end.

(** The copy of one receive buffer: the owned elements, the nodes and
    the boundary elements. *)
Definition storeBuffer {T} (rank : Z) (m : gmap Z nat) (nDim : nat)
    (coor0 : list T)
    (acc : list CVolumeElementFEM.t * list (CPointFEM.t T)
           * list CBoundaryFEM.t)
    (b : meshBuf T)
    : outcome (list CVolumeElementFEM.t * list (CPointFEM.t T)
               * list CBoundaryFEM.t) :=
  let '(volElem, meshPoints, boundaries) := acc in
  let* n := elemCount (bufLong b) in
  let* '(indS, indL, volElem') :=
    storeOwned_loop rank m (bufShort b) (bufLong b) n 0 1 volElem in
  let* nNodesThisRank := readAt (bufLong b) indL in
  let* '(indL', meshPoints') :=
    storePoints_loop nDim coor0 (bufLong b) (bufDouble b)
      (Z.to_nat (to_ulong nNodesThisRank)) (indL + 1) 0 meshPoints in
  let* '(_, _, boundaries') :=
    storeMarkers (bufShort b) (bufLong b) indS indL' boundaries in
  Ok (volElem', meshPoints', boundaries').

(** The counts taken from one receive buffer before anything is stored:
    the number of nodes is added to [local_node], the numbers of
    boundary elements to [nElem_Bound]. *)
Fixpoint skipSurfElems (S : list Z) (n indS indL : nat) : outcome (nat * nat) :=
  match n with
  | O => Ok (indS, indL)
  | Datatypes.S n' =>
      let* nDOFsBoundElem := readAt S (indS + 2) in
      skipSurfElems S n' (indS + 3) (advance indL (nDOFsBoundElem + 2))
  end.

Fixpoint countMarkers (S L : list Z) (indS indL : nat) (nElem_Bound : list Z)
    : outcome (list Z) :=
  match nElem_Bound with
  | [] => Ok []
  | c :: rest =>
      let* nBoundElemThisRank := readAt L indL in
      let* '(indS', indL') :=
        skipSurfElems S (signedCount nBoundElemThisRank) indS (indL + 1) in
      let* rest' := countMarkers S L indS' indL' rest in
      Ok (to_ulong (c + nBoundElemThisRank) :: rest')
  end.

(** The indices behind the elements of a receive buffer, as the
    counting loop steps over them. *)
Fixpoint skipElems (S L : list Z) (n indS indL : nat) : outcome (nat * nat) :=
  match n with
  | O => Ok (indS, indL)
  | Datatypes.S n' =>
      let* _ := readAt L indL in
      let* d := readAt S (indS + 3) in
      let* f := readAt S (indS + 5) in
      let nDOFsGrid := Z.to_nat (to_ushort d) in
      let nFaces := Z.to_nat (to_ushort f) in
      skipElems S L n' (indS + (2 * nFaces + 7))
        (indL + (nDOFsGrid + nFaces + 2))
  end.

Definition countBuffer {T} (acc : Z * list Z) (b : meshBuf T)
    : outcome (Z * list Z) :=
  let '(local_node, nElem_Bound) := acc in
  let* n := elemCount (bufLong b) in
  let* '(indS, indL) := skipElems (bufShort b) (bufLong b) n 0 1 in
  let* nNodesThisRank := readAt (bufLong b) indL in
  let* nElem_Bound' :=
    countMarkers (bufShort b) (bufLong b) indS
      (advance indL (nNodesThisRank + 1)) nElem_Bound in
  Ok (to_ulong (local_node + nNodesThisRank), nElem_Bound').

(** *** What a rank sends to the rank [r] in the first exchange *)

Definition hasColor (r : nat) (e : CPrimalGrid.t) : bool :=
  CPrimalGrid.Color e =? Z.of_nat r.

Definition elemsOfColor (r : nat) (elem : list CPrimalGrid.t)
    : list CPrimalGrid.t :=
  List.filter (hasColor r) elem.

(** The element of the source mesh a boundary element belongs to. *)
Definition domainElemOf {T} (geometry : CGeometry.t T) (rank : nat)
    (b : CPrimalGridBound.t) : option CPrimalGrid.t :=
  match CGeometry.starting_node geometry !! rank with
  | Some start =>
      CGeometry.elem geometry
        !! Z.to_nat (to_ulong (CPrimalGridBound.DomainElement b - start))
  | None => None
  end.

Definition boundHasColor {T} (geometry : CGeometry.t T) (rank r : nat)
    (b : CPrimalGridBound.t) : bool :=
  match domainElemOf geometry rank b with
  | Some e => hasColor r e
  | None => false
  end.

Definition boundOfColor {T} (geometry : CGeometry.t T) (rank r : nat)
    (bound : list CPrimalGridBound.t) : list CPrimalGridBound.t :=
  List.filter (boundHasColor geometry rank r) bound.

(** The node IDs of the elements [es], as [long], sorted and without
    doubles. *)
Definition nodeIDsOf (es : list CPrimalGrid.t) : list Z :=
  dedup Z.ltb Z.eqb (flat_map (λ e, map to_long (CPrimalGrid.Nodes e)) es).

Definition sentCoords {T} (geometry : CGeometry.t T) (nodeIDs : list Z)
    : list T :=
  flat_map (λ nd, nodeCoordsOf geometry (to_ulong nd)) nodeIDs.

(** The part of the long buffer for the boundary elements [bs] of one
    marker: their number, then their values. *)
Definition markerLong (bs : list CPrimalGridBound.t) : list Z :=
  Z.of_nat (length bs) :: flat_map packBoundLong bs.

(** The three buffers for the rank [r]: the elements of colour [r], the
    nodes of these elements with their coordinates and, marker by
    marker, the boundary elements of these elements. *)
Definition sentBuf {T} (geometry : CGeometry.t T)
    (bound : list (list CPrimalGridBound.t)) (rank r : nat) : meshBuf T :=
  let es := elemsOfColor r (CGeometry.elem geometry) in
  let nodeIDs := nodeIDsOf es in
  mkMeshBuf
    (flat_map packElemShort es
     ++ flat_map (λ bs, flat_map packBoundShort
                          (boundOfColor geometry rank r bs)) bound)
    ((Z.of_nat (length es) :: flat_map packElemLong es)
     ++ (to_long (Z.of_nat (length nodeIDs)) :: nodeIDs)
     ++ flat_map (λ bs, markerLong (boundOfColor geometry rank r bs)) bound)
    (sentCoords geometry nodeIDs).

(** A source mesh the first exchange can be run on: the colours are
    ranks, the numbers of nodes and of faces of an element fit a
    [short], the buffers and the counts stay below 2^63, the nodes have
    their coordinates and every boundary element belongs to a local
    element. *)
Record sendable {T} (geometry : CGeometry.t T)
    (bound : list (list CPrimalGridBound.t)) (rank nRank : nat) : Prop :=
  mkSendable {
  send_nRank : Z.of_nat nRank < 2 ^ 31;
  send_colors :
    Forall (λ e, 0 <= CPrimalGrid.Color e < Z.of_nat nRank)
           (CGeometry.elem geometry);
  send_counts :
    Forall (λ e, CPrimalGrid.NDOFsGrid e < 2 ^ 15
                 ∧ CPrimalGrid.nFaces e < 2 ^ 15)
           (CGeometry.elem geometry);
  send_short :
    Z.of_nat (length (flat_map packElemShort (CGeometry.elem geometry))) + 3
    < 2 ^ 63;
  send_long :
    Z.of_nat (length (flat_map packElemLong (CGeometry.elem geometry))) + 3
    < 2 ^ 63;
  send_coords :
    Forall (λ node, (CGeometry.nDim geometry
                     ≤ length (CGeometry.Coord node))%nat)
           (CGeometry.nodes geometry);
  send_bound :
    Forall (Forall (λ b, is_Some (domainElemOf geometry rank b))) bound;
  send_bound_count :
    Forall (λ bs : list CPrimalGridBound.t, Z.of_nat (length bs) < 2 ^ 63)
           bound
}.

(** Every node of an element of the source mesh is a node of the source
    mesh. *)
Definition nodesKnown {T} (geometry : CGeometry.t T) : Prop :=
  Forall (λ e, Forall (λ nd, to_ulong nd
                             ∈ map CGeometry.GlobalIndex
                                 (CGeometry.nodes geometry))
                      (CPrimalGrid.Nodes e))
         (CGeometry.elem geometry).

(** The index of the buffer for the marked rank [r]. *)
Definition bufIndex (sendToRank : list bool) (r : nat) : nat :=
  length (filter Is_true (take r sendToRank)).

(** The elements in the buffer of index [k]: those of the colour of
    the [k]-th marked rank. *)
Definition bufElems (sendToRank : list bool) (elem : list CPrimalGrid.t)
    (k : nat) : list CPrimalGrid.t :=
  match markedRanks sendToRank 0 !! k with
  | Some r => elemsOfColor r elem
  | None => []
  end.

(** *** What the rank that receives the buffers stores *)

(** The point stored for the node ID [nd] of the long buffer. *)
Definition sentPoint {T} (geometry : CGeometry.t T) (coor0 : list T)
    (nd : Z) : CPointFEM.t T :=
  CPointFEM.mk (to_ulong nd) (-1)
    (nodeCoordsOf geometry (to_ulong nd)
     ++ drop (CGeometry.nDim geometry) coor0).

(** The surface element stored for a boundary element of the source
    mesh. *)
Definition surfElemOf (b : CPrimalGridBound.t) : CSurfaceElementFEM.t :=
  CSurfaceElementFEM.mk (CPrimalGridBound.VTK_Type b)
    (CPrimalGridBound.NPolyGrid b) (CPrimalGridBound.NDOFsGrid b)
    (CPrimalGridBound.DomainElement b) (CPrimalGridBound.GlobalElemID b)
    (CPrimalGridBound.Nodes b).

Definition withSurfElems (b : CBoundaryFEM.t) (bs : list CPrimalGridBound.t)
    : CBoundaryFEM.t :=
  CBoundaryFEM.mk (CBoundaryFEM.markerTag b)
    (CBoundaryFEM.surfElem b ++ map surfElemOf bs).

(** The values of a boundary element lie in the ranges of their C++
    types. *)
Record wf_bound (b : CPrimalGridBound.t) : Prop := mkWfBound {
  wfb_VTK_Type : is_ushort (CPrimalGridBound.VTK_Type b);
  wfb_NPolyGrid : is_ushort (CPrimalGridBound.NPolyGrid b);
  wfb_NDOFsGrid : is_ushort (CPrimalGridBound.NDOFsGrid b);
  wfb_DomainElement : is_ulong (CPrimalGridBound.DomainElement b);
  wfb_GlobalElemID : is_ulong (CPrimalGridBound.GlobalElemID b);
  wfb_Nodes : Forall is_ulong (CPrimalGridBound.Nodes b)
}.

(** *** A source mesh on two ranks *)

Definition quad_right_to_1 : CPrimalGrid.t :=
  CPrimalGrid.mk 9 1 1 4 true 1 4 1 [1; 2; 4; 5]
    [CPrimalGrid.mkFace (-1) (-1) true; CPrimalGrid.mkFace 0 1 true;
     CPrimalGrid.mkFace (-1) (-1) true; CPrimalGrid.mkFace 0 (-1) true].

Definition two_quads_two_ranks : CGeometry.t float :=
  CGeometry.mk 2 (CGeometry.nodes two_quads) [quad_left; quad_right_to_1]
    [0] [2] [2] 6.

Definition two_quads_bound : list (list CPrimalGridBound.t) :=
  [[CPrimalGridBound.mk 3 1 0 7 [0; 3]; CPrimalGridBound.mk 3 1 1 8 [2; 5]];
   [CPrimalGridBound.mk 3 1 1 9 [1; 2]]].

(** ** The receiving side of the first exchange *)

Definition elemBufOf {T} (b : meshBuf T) : elemBuf :=
  mkElemBuf (bufShort b) (bufLong b).

(** The owned elements, the points and the boundary elements of the
    local mesh, from the receive buffers in the order in which they
    arrived: the sorted global IDs, the array of [nVolElemOwned + nHalo]
    elements, the copy of the buffers, and the sort and unique of the
    points. [boundaries] holds the markers with their tags. *)
Definition receiveMesh {T} (rank : Z) (fresh : CVolumeElementFEM.t)
    (nHalo nDim : nat) (coor0 : list T) (boundaries : list CBoundaryFEM.t)
    (recvBuf : list (meshBuf T))
    : outcome (list CVolumeElementFEM.t * list (CPointFEM.t T)
               * list CBoundaryFEM.t) :=
  let* globalElemID := ownedGlobalElemID (map elemBufOf recvBuf) in
  let volElem := allocVolElem fresh (length globalElemID) nHalo in
  let* '(volElem', meshPoints, boundaries') :=
    forEachBuf (storeBuffer rank (mapGlobalElemIDToInd globalElemID)
                  nDim coor0)
      recvBuf (volElem, [], boundaries) in
  Ok (volElem', dedup pointFEM_lt pointFEM_eqb meshPoints, boundaries').

(** The part of the source mesh a rank holds before the exchange. *)
Record meshPart (T : Type) : Type := mkPart {
  partGeometry : CGeometry.t T;
  partBound : list (list CPrimalGridBound.t);
  partRank : nat
}.
Arguments mkPart {T}. Arguments partGeometry {T}.
Arguments partBound {T}. Arguments partRank {T}.

(** What the rank [r] gets from the part [p]. *)
Definition bufferFor {T} (r : nat) (p : meshPart T) : meshBuf T :=
  sentBuf (partGeometry p) (partBound p) (partRank p) r.

Definition elemsFor {T} (r : nat) (p : meshPart T) : list CPrimalGrid.t :=
  elemsOfColor r (CGeometry.elem (partGeometry p)).

Definition pointsFor {T} (r : nat) (coor0 : list T) (p : meshPart T)
    : list (CPointFEM.t T) :=
  map (sentPoint (partGeometry p) coor0) (nodeIDsOf (elemsFor r p)).

Definition boundFor {T} (r : nat) (p : meshPart T)
    : list (list CPrimalGridBound.t) :=
  map (boundOfColor (partGeometry p) (partRank p) r) (partBound p).

Definition senderOf {T} (r : nat) (p : meshPart T) : sender :=
  mkSender (elemsFor r p)
    (flat_map (λ bs, flat_map packBoundShort
                       (boundOfColor (partGeometry p) (partRank p) r bs))
       (partBound p))
    ((to_long (Z.of_nat (length (nodeIDsOf (elemsFor r p))))
      :: nodeIDsOf (elemsFor r p))
     ++ flat_map (λ bs, markerLong
                          (boundOfColor (partGeometry p) (partRank p) r bs))
          (partBound p)).

(** The markers with the boundary elements of the part [p] added. *)
Definition addPart {T} (r : nat) (boundaries : list CBoundaryFEM.t)
    (p : meshPart T) : list CBoundaryFEM.t :=
  zip_with withSurfElems boundaries (boundFor r p).

(** A part whose buffers for the rank [r] can be read back on a mesh of
    dimension [nDim] with [nMarker] markers. *)
Record receivable {T} (r nDim nMarker : nat) (p : meshPart T) : Prop :=
  mkReceivable {
  recv_wf : Forall CPrimalGrid.wf (elemsFor r p);
  recv_size :
    Z.of_nat (length (flat_map packElemLong (elemsFor r p))) < 2 ^ 63;
  recv_nDim : CGeometry.nDim (partGeometry p) = nDim;
  recv_coords :
    Forall (λ node, (nDim ≤ length (CGeometry.Coord node))%nat)
           (CGeometry.nodes (partGeometry p));
  recv_nodes :
    Forall (λ e, Forall (λ nd, to_ulong nd
                               ∈ map CGeometry.GlobalIndex
                                   (CGeometry.nodes (partGeometry p)))
                        (CPrimalGrid.Nodes e))
           (elemsFor r p);
  recv_bound_wf : Forall (Forall wf_bound) (partBound p);
  recv_bound_count :
    Forall (λ bs : list CPrimalGridBound.t, Z.of_nat (length bs) < 2 ^ 63)
           (partBound p);
  recv_markers : length (partBound p) = nMarker
}.

(** The parts agree on the coordinates of the nodes they share. *)
Definition nodesAgree {T} (r : nat) (parts : list (meshPart T)) : Prop :=
  ∀ p q nd, p ∈ parts → q ∈ parts →
    nd ∈ nodeIDsOf (elemsFor r p) → nd ∈ nodeIDsOf (elemsFor r q) →
    nodeCoordsOf (partGeometry p) (to_ulong nd)
    = nodeCoordsOf (partGeometry q) (to_ulong nd).

(** The same markers with the same surface elements, in some order. *)
Definition sameBoundaries (b1 b2 : list CBoundaryFEM.t) : Prop :=
  Forall2 (λ b b', CBoundaryFEM.markerTag b = CBoundaryFEM.markerTag b'
                   ∧ CBoundaryFEM.surfElem b ≡ₚ CBoundaryFEM.surfElem b')
          b1 b2.

(** *** Two parts of the two quadrilaterals *)

Definition left_part : meshPart float :=
  mkPart
    (CGeometry.mk 2
       [CGeometry.mkNode 0 [0; 0]%float; CGeometry.mkNode 1 [1; 0]%float;
        CGeometry.mkNode 3 [0; 1]%float; CGeometry.mkNode 4 [1; 1]%float]
       [quad_left] [0; 1] [1; 2] [1; 1] 6)
    [[CPrimalGridBound.mk 3 1 0 7 [0; 3]]; []] 0.

Definition right_part : meshPart float :=
  mkPart
    (CGeometry.mk 2
       [CGeometry.mkNode 1 [1; 0]%float; CGeometry.mkNode 2 [2; 0]%float;
        CGeometry.mkNode 4 [1; 1]%float; CGeometry.mkNode 5 [2; 1]%float]
       [quad_right] [0; 1] [1; 2] [1; 1] 6)
    [[CPrimalGridBound.mk 3 1 1 8 [2; 5]]; [CPrimalGridBound.mk 3 1 1 9 [1; 2]]]
    1.

Definition two_markers : list CBoundaryFEM.t :=
  [CBoundaryFEM.mk "left_right" []; CBoundaryFEM.mk "bottom" []].

(** ** Steps 3 and 4 in the sequential build *)

(** The answers to the receive buffers, in their order. *)
Fixpoint answerAll {T} (geometry : CGeometry.t T) (rank : nat)
    (longRecvBuf : list (list Z)) : outcome (list (answerBuf T)) :=
  match longRecvBuf with
  | [] => Ok []
  | req :: rest =>
      let* ans := answerRequests geometry rank req in
      let* answers := answerAll geometry rank rest in
      Ok (ans :: answers)
  end.

(** The exchange of the halo data without MPI, on the one rank 0: the
    send and the receive buffers are resized to the number of ranks to
    send to, [longRecvBuf[0] = longSendBuf[0]] copies the requests, the
    receive buffers are answered and the three buffers of index 0 of
    the answer are copied back. *)
Definition haloExchange_sequential {T} (geometry : CGeometry.t T)
    (haloMap : gmap unsignedLong2T nat) (haloElements : list unsignedLong2T)
    : outcome (list (answerBuf T)) :=
  let* longSendBuf := haloRequests geometry 1 haloMap haloElements in
  let nRankSend := length longSendBuf in
  let* req := readAt longSendBuf 0 in
  let* longRecvBuf := writeAt (replicate nRankSend []) 0 req in
  let* sendBuf := answerAll geometry 0 longRecvBuf in
  let* ans := readAt sendBuf 0 in
  writeAt (replicate nRankSend (mkAnswer [] [] [])) 0 ans.

(** ** The periodic transformation in the arithmetic of [su2double] *)

Section su2_transformation.
Context {T : Type} `{Su2Order T} `{Su2Arith T}.




End su2_transformation.

(** [su2double] as [double] for the arithmetic: the operations of the
    binary64 numbers. [cos] and [sin] of the C library are not among
    the operations of these numbers here; the instance takes them as
    arguments. The two constants are [1.e-4], rounded to binary64, and
    [1.e+10]. *)
Definition float_arith (cosf sinf : float → float) : Su2Arith float := {|
  su2_zero := 0%float;
  su2_add := PrimFloat.add;
  su2_mul := PrimFloat.mul;
  su2_opp := PrimFloat.opp;
  su2_sqrt := PrimFloat.sqrt;
  su2_cos := cosf;
  su2_sin := sinf;
  su2_1em4 := 0x1.a36e2eb1c432dp-14%float;
  su2_1ep10 := 1e10%float
|}.

(** A periodic marker with a centre of rotation far from the mesh and
    neither rotation nor translation, in binary64 and over the real
    numbers. *)
Definition far_centre : CConfig.periodic float :=
  CConfig.mkPeriodic (1e17, 0, 0)%float (0, 0, 0)%float (0, 0, 0)%float.


(** * Properties *)

(** ** The standard algorithms *)

Section std_algorithms_facts.
Context {A : Type} (lt eqb : A → A → bool).
Context `{!StrictWeakOrder lt} `{!EqOfOrder lt eqb}.

Lemma lt_asym x y : lt x y = true → lt y x = false.
Proof.
  intros Hxy. destruct (lt y x) eqn:Hyx; [|done].
  pose proof (swo_trans _ _ _ Hxy Hyx) as Hxx.
  rewrite swo_irrefl in Hxx. done.
Qed.

#[local] Instance not_gt_total : Total (not_gt lt).
Proof.
  intros x y. unfold not_gt.
  destruct (lt y x) eqn:Hyx; [right; by apply lt_asym | by left].
Qed.

#[local] Instance not_gt_trans : Transitive (not_gt lt).
Proof.
  intros x y z Hxy Hyz. unfold not_gt in *.
  destruct (lt z x) eqn:Hzx; [|done].
  destruct (swo_negtrans z y x Hzx); congruence.
Qed.

#[local] Instance lt_true_trans : Transitive (lt_true lt).
Proof. intros x y z. apply swo_trans. Qed.

Lemma eqb_refl x : eqb x x = true.
Proof. apply eqb_equiv. split; apply swo_irrefl. Qed.

Lemma lt_true_not_eqb x y : lt x y = true → eqb x y = false.
Proof.
  intros H. destruct (eqb x y) eqn:E; [|done].
  apply eqb_equiv in E as [E _]. congruence.
Qed.

Lemma not_gt_not_eqb_lt x y : not_gt lt x y → eqb x y = false → lt x y = true.
Proof.
  unfold not_gt. intros Hyx E. destruct (lt x y) eqn:Hxy; [done|].
  assert (eqb x y = true) by (apply eqb_equiv; done). congruence.
Qed.

Lemma sort_Permutation l : sort lt l ≡ₚ l.
Proof. apply merge_sort_Permutation. Qed.

Lemma sort_StronglySorted l : StronglySorted (not_gt lt) (sort lt l).
Proof. apply StronglySorted_merge_sort; apply _. Qed.

Lemma lt_true_not_gt_sorted l :
  StronglySorted (lt_true lt) l → StronglySorted (not_gt lt) l.
Proof.
  induction 1 as [|x l Hl IH Hx]; constructor; [done|].
  eapply Forall_impl; [exact Hx|]. intros y. apply lt_asym.
Qed.

(** A strictly increasing range has one nondecreasing arrangement. *)
Lemma strict_sorted_perm_eq l l' :
  StronglySorted (lt_true lt) l → l' ≡ₚ l →
  StronglySorted (not_gt lt) l' → l' = l.
Proof.
  intros Hl. revert l'.
  induction Hl as [|x l Hl IH Hx]; intros l' Hp Hl'.
  { by apply Permutation_nil_r in Hp. }
  destruct l' as [|y l'].
  { symmetry in Hp. by apply Permutation_nil_r in Hp. }
  apply StronglySorted_inv in Hl' as [Hl' Hy].
  assert (y = x) as ->.
  { assert (y ∈ x :: l) as Hin by (rewrite <- Hp; left).
    apply elem_of_cons in Hin as [->|Hin]; [done|].
    rewrite Forall_forall in Hx. pose proof (Hx _ Hin) as Hxy.
    assert (x ∈ y :: l') as Hin' by (rewrite Hp; left).
    apply elem_of_cons in Hin' as [->|Hin']; [done|].
    rewrite Forall_forall in Hy. pose proof (Hy _ Hin') as Hyx.
    unfold not_gt, lt_true in *. congruence. }
  f_equal. apply IH; [|done]. by apply Permutation_cons_inv in Hp.
Qed.

Lemma unique_from_strict x l :
  StronglySorted (not_gt lt) (x :: l) →
  StronglySorted (lt_true lt) (x :: unique_from eqb x l).
Proof.
  revert x. induction l as [|y l IH]; intros x Hs; simpl.
  { repeat constructor. }
  apply StronglySorted_inv in Hs as [Hs Hx].
  apply Forall_cons in Hx as [Hxy Hx].
  destruct (eqb x y) eqn:E.
  - apply IH. apply StronglySorted_inv in Hs as [Hs _]. by constructor.
  - pose proof (IH y Hs) as IHy.
    pose proof (not_gt_not_eqb_lt _ _ Hxy E) as Hlt.
    constructor; [done|]. constructor; [done|].
    apply StronglySorted_inv in IHy as [_ IHy].
    eapply Forall_impl; [exact IHy|].
    intros z Hz. by etrans.
Qed.

Lemma unique_StronglySorted l :
  StronglySorted (not_gt lt) l → StronglySorted (lt_true lt) (unique eqb l).
Proof.
  destruct l as [|x l]; simpl; [constructor|]. apply unique_from_strict.
Qed.

Lemma unique_from_strict_id x l :
  StronglySorted (lt_true lt) (x :: l) → unique_from eqb x l = l.
Proof.
  revert x. induction l as [|y l IH]; intros x Hs; simpl; [done|].
  apply StronglySorted_inv in Hs as [Hs Hx].
  apply Forall_cons in Hx as [Hxy Hx].
  rewrite (lt_true_not_eqb _ _ Hxy). f_equal. by apply IH.
Qed.

Lemma unique_strict_id l :
  StronglySorted (lt_true lt) l → unique eqb l = l.
Proof.
  destruct l as [|x l]; simpl; [done|].
  intros Hs. f_equal. by apply unique_from_strict_id.
Qed.

Lemma unique_from_sub x l y : y ∈ unique_from eqb x l → y ∈ l.
Proof.
  revert x. induction l as [|z l IH]; intros x; simpl; [done|].
  destruct (eqb x z).
  - intros H. right. by eapply IH.
  - intros [->|H]%elem_of_cons; [left|right; by eapply IH].
Qed.

Lemma unique_sub l y : y ∈ unique eqb l → y ∈ l.
Proof.
  destruct l as [|x l]; simpl; [done|].
  intros [->|H]%elem_of_cons; [left|right; by eapply unique_from_sub].
Qed.

Lemma unique_from_sorted_cover x l y :
  StronglySorted (not_gt lt) (x :: l) → y ∈ l →
  eqb x y = true ∨ ∃ z, z ∈ unique_from eqb x l ∧ eqb z y = true.
Proof.
  revert x. induction l as [|z l IH]; intros x Hs Hy; [by inversion Hy|].
  simpl. apply StronglySorted_inv in Hs as [Hs Hx].
  apply Forall_cons in Hx as [Hxz Hx].
  apply elem_of_cons in Hy as [->|Hy].
  - destruct (eqb x z) eqn:E; [by left|].
    right. exists z. split; [left|apply eqb_refl].
  - destruct (eqb x z) eqn:E.
    + apply IH; [|done]. apply StronglySorted_inv in Hs as [Hs _].
      by constructor.
    + right. destruct (IH z Hs Hy) as [Hzy|(w & Hw & Hwy)].
      * exists z. split; [left|done].
      * exists w. split; [by right|done].
Qed.

Lemma unique_sorted_cover l y :
  StronglySorted (not_gt lt) l → y ∈ l →
  ∃ z, z ∈ unique eqb l ∧ eqb z y = true.
Proof.
  destruct l as [|x l]; [by inversion 2|]. simpl.
  intros Hs [->|Hy]%elem_of_cons.
  - exists x. split; [left|apply eqb_refl].
  - destruct (unique_from_sorted_cover x l y Hs Hy) as [E|(z & Hz & E)].
    + exists x. split; [left|done].
    + exists z. split; [by right|done].
Qed.

Lemma dedup_StronglySorted l : StronglySorted (lt_true lt) (dedup lt eqb l).
Proof. apply unique_StronglySorted, sort_StronglySorted. Qed.

Lemma dedup_sub l y : y ∈ dedup lt eqb l → y ∈ l.
Proof. intros H%unique_sub. by rewrite sort_Permutation in H. Qed.

Lemma dedup_cover l y :
  y ∈ l → ∃ z, z ∈ dedup lt eqb l ∧ eqb z y = true.
Proof.
  intros H. apply unique_sorted_cover; [apply sort_StronglySorted|].
  by rewrite sort_Permutation.
Qed.

Lemma strict_sorted_NoDup l : StronglySorted (lt_true lt) l → NoDup l.
Proof.
  induction 1 as [|x l Hl IH Hx]; constructor; [|done].
  intros Hin. rewrite Forall_forall in Hx. specialize (Hx _ Hin).
  unfold lt_true in Hx. rewrite swo_irrefl in Hx. done.
Qed.

Lemma dedup_NoDup l : NoDup (dedup lt eqb l).
Proof. apply strict_sorted_NoDup, dedup_StronglySorted. Qed.

(** On a strictly increasing vector a further sort and unique change
    nothing, whatever nondecreasing permutation the sort returns. *)
Lemma dedup_strict_id l :
  StronglySorted (lt_true lt) l → dedup lt eqb l = l.
Proof.
  intros Hl. unfold dedup.
  rewrite (strict_sorted_perm_eq l (sort lt l) Hl);
    [by apply unique_strict_id|apply sort_Permutation|apply sort_StronglySorted].
Qed.

(** *** The binary searches *)

Lemma sorted_lookup_not_gt l i j x y :
  StronglySorted (not_gt lt) l → (i < j)%nat →
  l !! i = Some x → l !! j = Some y → not_gt lt x y.
Proof.
  intros Hs. revert i j. induction Hs as [|z l Hl IH Hz]; intros i j Hij Hi Hj.
  { done. }
  destruct i as [|i], j as [|j]; simpl in *; try lia.
  - injection Hi as ->. rewrite Forall_forall in Hz.
    apply Hz. by eapply list_elem_of_lookup_2.
  - eapply IH; [|done..]. lia.
Qed.

Lemma sorted_partitioned l v :
  StronglySorted (not_gt lt) l → partitioned lt l v.
Proof.
  intros Hs i j x y Hij Hi Hj Hy.
  destruct (decide (i = j)) as [->|Hne]; [congruence|].
  assert (not_gt lt x y) as Hxy by (eapply sorted_lookup_not_gt; [done| |done..]; lia).
  destruct (swo_negtrans y x v Hy) as [H|H]; [|done].
  unfold not_gt in Hxy. congruence.
Qed.

Lemma lower_bound_loop_spec fuel l first count v :
  (count ≤ fuel)%nat → (first + count ≤ length l)%nat →
  partitioned lt l v →
  (∀ i x, (i < first)%nat → l !! i = Some x → lt x v = true) →
  (∀ i x, (first + count ≤ i)%nat → l !! i = Some x → lt x v = false) →
  let r := lower_bound_loop lt fuel l first count v in
  (r ≤ length l)%nat ∧
  (∀ i x, (i < r)%nat → l !! i = Some x → lt x v = true) ∧
  (∀ i x, (r ≤ i)%nat → l !! i = Some x → lt x v = false).
Proof.
  revert first count.
  induction fuel as [|fuel IH]; intros first count Hf Hlen Hp Hlo Hhi;
    cbn [lower_bound_loop].
  { assert (count = 0)%nat as -> by lia.
    split; [lia|]. split; [done|]. intros i x Hi. apply Hhi. lia. }
  destruct (Nat.eqb_spec count 0) as [->|Hc].
  { split; [lia|]. split; [done|]. intros i x Hi. apply Hhi. lia. }
  assert (count / 2 < count)%nat as Hstep by (apply Nat.div_lt; lia).
  destruct (lookup_lt_is_Some_2 l (first + count / 2)) as [x Hx]; [lia|].
  rewrite Hx. destruct (lt x v) eqn:Hxv.
  - apply IH; [lia|lia|done| |].
    + intros i y Hi Hy. eapply (Hp i (first + count / 2)%nat); [lia|done..].
    + intros i y Hi. apply Hhi. lia.
  - apply IH; [lia|lia|done|done|].
    intros i y Hi Hy. destruct (lt y v) eqn:Hyv; [|done].
    pose proof (Hp (first + count / 2)%nat i x y Hi Hx Hy Hyv). congruence.
Qed.

Lemma lower_bound_spec l v :
  StronglySorted (not_gt lt) l →
  let r := lower_bound lt l v in
  (r ≤ length l)%nat ∧
  (∀ i x, (i < r)%nat → l !! i = Some x → lt x v = true) ∧
  (∀ i x, (r ≤ i)%nat → l !! i = Some x → lt x v = false).
Proof.
  intros Hs. apply lower_bound_loop_spec; [lia|lia|by apply sorted_partitioned| |].
  - intros i x Hi. lia.
  - intros i x Hi Hx. apply lookup_lt_Some in Hx. lia.
Qed.

(** On a sorted vector the binary search finds exactly the values that
    have an equivalent element in the vector. *)
Lemma binary_search_spec l v :
  StronglySorted (not_gt lt) l →
  binary_search lt l v = true ↔
  ∃ x, x ∈ l ∧ lt x v = false ∧ lt v x = false.
Proof.
  intros Hs. destruct (lower_bound_spec l v Hs) as (Hr & Hlo & Hhi).
  unfold binary_search. split.
  - destruct (l !! lower_bound lt l v) as [x|] eqn:Hx; [|done].
    intros Hvx%negb_true_iff. exists x. split_and!.
    + by eapply list_elem_of_lookup_2.
    + eapply Hhi; [|exact Hx]. lia.
    + done.
  - intros (x & Hin & Hxv & Hvx).
    apply list_elem_of_lookup in Hin as [i Hi].
    assert (lower_bound lt l v ≤ i)%nat as Hle.
    { destruct (decide (lower_bound lt l v ≤ i)%nat); [done|].
      rewrite (Hlo i x) in Hxv; [done|lia|done]. }
    destruct (lookup_lt_is_Some_2 l (lower_bound lt l v)) as [y Hy].
    { apply lookup_lt_Some in Hi. lia. }
    rewrite Hy. apply negb_true_iff.
    destruct (lt v y) eqn:Hvy; [|done].
    destruct (decide (lower_bound lt l v = i)) as [E|Hne]; [congruence|].
    assert (not_gt lt y x) as Hyx
      by (eapply sorted_lookup_not_gt; [done| |done..]; lia).
    destruct (swo_negtrans v x y Hvy); unfold not_gt in *; congruence.
Qed.

End std_algorithms_facts.

(** ** The orders of the record types *)

#[global] Instance ul2_swo : StrictWeakOrder ul2_lt.
Proof.
  split; unfold ul2_lt.
  - intros x. rewrite !Z.eqb_refl. done.
  - intros [a1 a2] [b1 b2] [c1 c2]; simpl.
    repeat (case_match; simpl in *); lia.
  - intros [a1 a2] [b1 b2] [c1 c2]; simpl.
    repeat (case_match; simpl in *); lia.
Qed.

#[global] Instance ul2_eq_of_order : EqOfOrder ul2_lt ul2_eqb.
Proof.
  intros [a1 a2] [b1 b2]. unfold ul2_lt, ul2_eqb; simpl.
  repeat (case_match; simpl in *); split; try lia; intros []; lia.
Qed.

Lemma ul2_eqb_eq a b : ul2_eqb a b = true ↔ a = b.
Proof.
  destruct a as [a1 a2], b as [b1 b2]. unfold ul2_eqb; simpl.
  rewrite andb_true_iff, !Z.eqb_eq. split; [intros []; congruence|].
  intros [= -> ->]. done.
Qed.

#[global] Instance pointFEM_swo {T} : StrictWeakOrder (@pointFEM_lt T).
Proof.
  split; unfold pointFEM_lt.
  - intros x. rewrite Z.eqb_refl. simpl. lia.
  - intros [a1 a2 ?] [b1 b2 ?] [c1 c2 ?]; simpl.
    repeat (case_match; simpl in *); lia.
  - intros [a1 a2 ?] [b1 b2 ?] [c1 c2 ?]; simpl.
    repeat (case_match; simpl in *); lia.
Qed.

#[global] Instance pointFEM_eq_of_order {T} :
  EqOfOrder (@pointFEM_lt T) pointFEM_eqb.
Proof.
  intros [a1 a2 ?] [b1 b2 ?]. unfold pointFEM_lt, pointFEM_eqb; simpl.
  repeat (case_match; simpl in *); split; try lia; intros []; lia.
Qed.

(** A sorted vector without equal elements is strictly increasing. *)
Lemma sorted_duplicate_free_strict {A} (lt eqb : A → A → bool)
    `{!StrictWeakOrder lt} `{!EqOfOrder lt eqb} (l : list A) :
  Sorted (not_gt lt) l → duplicate_free eqb l →
  StronglySorted (lt_true lt) l.
Proof.
  intros Hs Hd.
  pose proof (not_gt_trans lt) as Htr.
  apply (Sorted_StronglySorted (not_gt lt)) in Hs.
  induction Hs as [|x l Hl IH Hx]; constructor.
  - apply IH. intros i j a b Hij Hi Hj.
    apply (Hd (S i) (S j) a b); [lia|done..].
  - apply Forall_forall. intros y Hy.
    apply list_elem_of_lookup in Hy as [j Hj].
    rewrite Forall_forall in Hx.
    apply (not_gt_not_eqb_lt lt eqb).
    + apply Hx. by eapply list_elem_of_lookup_2.
    + apply (Hd 0%nat (S j) x y); [lia|done..].
Qed.

Lemma strict_sorted_duplicate_free {A} (lt eqb : A → A → bool)
    `{!StrictWeakOrder lt} `{!EqOfOrder lt eqb} (l : list A) :
  StronglySorted (lt_true lt) l → duplicate_free eqb l.
Proof.
  induction 1 as [|x l Hl IH Hx]; intros i j a b Hij Hi Hj.
  { done. }
  destruct j as [|j]; [lia|]. destruct i as [|i]; simpl in *.
  - injection Hi as ->. apply (lt_true_not_eqb lt eqb).
    rewrite Forall_forall in Hx. apply Hx. by eapply list_elem_of_lookup_2.
  - apply (IH i j); [lia|done..].
Qed.

(** ** Deduplication *)

(** C9. Sort followed by unique is idempotent on the points, under the
    order on (periodIndexToDonor, globalID) and the equality on
    (globalID, periodIndexToDonor), and on the halo descriptors, under
    the order and equality of pairs: on a vector that is sorted and has
    no two equal elements, unique returns the vector itself after every
    nondecreasing arrangement a sort can produce, so a second pass
    changes neither the size nor the content. *)
Theorem dedup_of_deduplicated_is_noop {T}
    (pts : list (CPointFEM.t T)) (halos : list unsignedLong2T) :
  Sorted (not_gt pointFEM_lt) pts → duplicate_free pointFEM_eqb pts →
  Sorted (not_gt ul2_lt) halos → duplicate_free ul2_eqb halos →
  (∀ s, s ≡ₚ pts → Sorted (not_gt pointFEM_lt) s →
        unique pointFEM_eqb s = pts)
  ∧ dedup pointFEM_lt pointFEM_eqb pts = pts
  ∧ length (dedup pointFEM_lt pointFEM_eqb pts) = length pts
  ∧ (∀ s, s ≡ₚ halos → Sorted (not_gt ul2_lt) s → unique ul2_eqb s = halos)
  ∧ dedup ul2_lt ul2_eqb halos = halos
  ∧ length (dedup ul2_lt ul2_eqb halos) = length halos.
Proof.
  intros Hp Hpd Hh Hhd.
  pose proof (sorted_duplicate_free_strict _ _ _ Hp Hpd) as Hps.
  pose proof (sorted_duplicate_free_strict _ _ _ Hh Hhd) as Hhs.
  assert (∀ A (lt eqb : A → A → bool), StrictWeakOrder lt →
            EqOfOrder lt eqb → ∀ l s : list A,
            StronglySorted (lt_true lt) l → s ≡ₚ l →
            Sorted (not_gt lt) s → unique eqb s = l) as Hany.
  { intros A lt eqb Hswo Heq l s Hl Hperm Hs.
    pose proof (not_gt_trans lt) as Htr.
    apply (Sorted_StronglySorted (not_gt lt)) in Hs.
    rewrite (strict_sorted_perm_eq lt l s Hl Hperm Hs).
    by apply (unique_strict_id lt eqb). }
  split_and!.
  - intros s. by apply Hany; try apply _.
  - by apply dedup_strict_id; try apply _.
  - f_equal. by apply dedup_strict_id; try apply _.
  - intros s. by apply Hany; try apply _.
  - by apply dedup_strict_id; try apply _.
  - f_equal. by apply dedup_strict_id; try apply _.
Qed.

Lemma dedup_of_deduplicated_is_noop_witness :
  dedup pointFEM_lt pointFEM_eqb dedup_witness_points = dedup_witness_points
  ∧ dedup ul2_lt ul2_eqb dedup_witness_halos = dedup_witness_halos.
Proof.
  assert (StronglySorted (lt_true (@pointFEM_lt Z)) dedup_witness_points) as Hp.
  { repeat constructor. }
  assert (StronglySorted (lt_true ul2_lt) dedup_witness_halos) as Hh.
  { repeat constructor. }
  destruct (dedup_of_deduplicated_is_noop dedup_witness_points
              dedup_witness_halos) as (_ & H1 & _ & _ & H2 & _).
  - apply StronglySorted_Sorted, (lt_true_not_gt_sorted pointFEM_lt), Hp.
  - apply (strict_sorted_duplicate_free pointFEM_lt pointFEM_eqb), Hp.
  - apply StronglySorted_Sorted, (lt_true_not_gt_sorted ul2_lt), Hh.
  - apply (strict_sorted_duplicate_free ul2_lt ul2_eqb), Hh.
  - exact (conj H1 H2).
Defined.

(** Deduplication is idempotent on every vector. *)
Lemma dedup_idempotent {A} (lt eqb : A → A → bool)
    `{!StrictWeakOrder lt} `{!EqOfOrder lt eqb} (l : list A) :
  dedup lt eqb (dedup lt eqb l) = dedup lt eqb l.
Proof. apply (dedup_strict_id lt eqb), (dedup_StronglySorted lt eqb). Qed.

(** ** The comparison of points within a tolerance *)

Section point_compare_facts.
Context {T : Type} `{Su2Order T}.

Lemma lessCoor_first_beyond tol n (a b : list T) :
  lessCoor tol n a b = true ↔
  ∃ l x y, (l < n)%nat ∧ a !! l = Some x ∧ b !! l = Some y ∧
           beyondTol tol x y = true ∧ su2_ltb x y = true ∧
           ∀ k x' y', (k < l)%nat → a !! k = Some x' → b !! k = Some y' →
                      beyondTol tol x' y' = false.
Proof.
  revert a b. induction n as [|n IH]; intros a b; simpl.
  { split; [done|]. intros (l & ? & ? & ? & _). lia. }
  destruct a as [|x a]; [split; [done|]; by intros (l & ? & ? & _ & ? & _)|].
  destruct b as [|y b]; [split; [done|]; by intros (l & ? & ? & _ & _ & ? & _)|].
  fold (beyondTol tol x y). destruct (beyondTol tol x y) eqn:Hb.
  - split.
    + intros Hlt. exists 0%nat, x, y. split_and!; try done; [lia|].
      intros k ? ? Hk. lia.
    + intros (l & x' & y' & Hl & Hx & Hy & Hb' & Hlt & Hpre).
      destruct l as [|l]; simpl in *; [congruence|].
      rewrite (Hpre 0%nat x y) in Hb; [done|lia|done..].
  - rewrite IH. split.
    + intros (l & x' & y' & Hl & Hx & Hy & Hb' & Hlt & Hpre).
      exists (S l), x', y'. split_and!; try done; [lia|].
      intros [|k] x'' y'' Hk; simpl; [congruence|].
      apply Hpre. lia.
    + intros (l & x' & y' & Hl & Hx & Hy & Hb' & Hlt & Hpre).
      destruct l as [|l]; simpl in *; [congruence|].
      exists l, x', y'. split_and!; try done; [lia|].
      intros k x'' y'' Hk. apply (Hpre (S k)). lia.
Qed.

Lemma lessCoor_all_within tol n (a b : list T) :
  allWithinTol tol n a b = true → lessCoor tol n a b = false.
Proof.
  revert a b. induction n as [|n IH]; intros [|x a] [|y b]; simpl; try done.
  fold (beyondTol tol x y). destruct (beyondTol tol x y); [done|].
  simpl. apply IH.
Qed.
End point_compare_facts.

(** C7, as amended. For two points of equal dimension [operator<] is
    decided by the first coordinate pair that differs by more than
    min(tolForMatching of the two points) in absolute value: the point
    is less exactly when its coordinate is the smaller one there, and
    pairs within the tolerance are passed over, equal or not. When
    every pair is within the tolerance, seen from either side, neither
    point is less than the other. *)
Theorem pointCompare_lt_first_beyond_tolerance {T} `{Su2Order T}
    (p other : CPointCompare.t T) :
  CPointCompare.nDim p = CPointCompare.nDim other →
  let n := CPointCompare.nDim p in
  let tol := su2_min (CPointCompare.tolForMatching p)
                     (CPointCompare.tolForMatching other) in
  let tol' := su2_min (CPointCompare.tolForMatching other)
                      (CPointCompare.tolForMatching p) in
  (pointCompare_lt p other = true ↔
   ∃ l x y, (l < n)%nat ∧ CPointCompare.coor p !! l = Some x ∧
            CPointCompare.coor other !! l = Some y ∧
            beyondTol tol x y = true ∧ su2_ltb x y = true ∧
            ∀ k x' y', (k < l)%nat → CPointCompare.coor p !! k = Some x' →
                       CPointCompare.coor other !! k = Some y' →
                       beyondTol tol x' y' = false)
  ∧ (allWithinTol tol n (CPointCompare.coor p) (CPointCompare.coor other) = true →
     allWithinTol tol' n (CPointCompare.coor other) (CPointCompare.coor p) = true →
     pointCompare_lt p other = false ∧ pointCompare_lt other p = false).
Proof.
  intros Hdim n tol tol'. unfold pointCompare_lt.
  rewrite <- Hdim, !Nat.eqb_refl. simpl. split.
  - apply lessCoor_first_beyond.
  - intros H1 H2. split; by apply lessCoor_all_within.
Qed.

Lemma pointCompare_lt_first_beyond_tolerance_witness :
  pointCompare_lt (point2 1 0.5 0) (point2 1 0 5) = true
  ∧ pointCompare_lt (point1 1 0) (point1 1 0.75) = false
  ∧ pointCompare_lt (point1 1 0.75) (point1 1 0) = false.
Proof.
  split.
  - apply (pointCompare_lt_first_beyond_tolerance
             (point2 1 0.5 0) (point2 1 0 5) eq_refl).
    exists 1%nat, 0%float, 5%float.
    split_and!; try reflexivity; [simpl; lia|].
    intros [|k] x y Hk; [|lia]. intros [= <-] [= <-]. reflexivity.
  - apply (pointCompare_lt_first_beyond_tolerance
             (point1 1 0) (point1 1 0.75) eq_refl); reflexivity.
Defined.

(** C7, as stated, fails: with tolerance 1 the point (0.5, 0) is less
    than (0, 5) for the code, the first coordinates being within the
    tolerance, while the lexicographic comparison puts (0, 5) first. *)
Lemma pointCompare_lt_not_lexicographic :
  pointCompare_lt (point2 1 0.5 0) (point2 1 0 5) = true
  ∧ spec_pointCompare_lt (point2 1 0.5 0) (point2 1 0 5) = false.
Proof. split; reflexivity. Qed.

(** C8. [CPointCompare::operator<] is no strict weak order: the points
    0, 0.75 and 1.5 of dimension one, with tolerance 1, are such that
    the first two are not less than each other, the last two are not
    less than each other, and yet the first is less than the last. *)
Theorem pointCompare_lt_equivalence_not_transitive :
  ∃ a b c : CPointCompare.t float,
    CPointCompare.nDim a = CPointCompare.nDim b
    ∧ CPointCompare.nDim b = CPointCompare.nDim c
    ∧ pointCompare_lt a b = false ∧ pointCompare_lt b a = false
    ∧ pointCompare_lt b c = false ∧ pointCompare_lt c b = false
    ∧ pointCompare_lt a c = true.
Proof.
  exists (point1 1 0), (point1 1 0.75), (point1 1 1.5).
  split_and!; reflexivity.
Qed.

(** Hence the requirement of the sorted containers does not hold for it. *)
Lemma pointCompare_lt_not_strict_weak :
  ¬ StrictWeakOrder (@pointCompare_lt float _).
Proof.
  intros Hswo.
  destruct (swo_negtrans (point1 1 0) (point1 1 0.75) (point1 1 1.5));
    [reflexivity| |]; vm_compute in *; congruence.
Qed.

(** ** Reading the buffers *)

Ltac osimpl :=
  cbn [obind] in *.

Lemma readAt_app_r {A} (pre l : list A) (k : nat) :
  readAt (pre ++ l) (length pre + k) = readAt l k.
Proof.
  unfold readAt. rewrite lookup_app_r by lia.
  by replace (length pre + k - length pre)%nat with k by lia.
Qed.

Lemma readAt_app_0 {A} (pre l : list A) :
  readAt (pre ++ l) (length pre) = readAt l 0.
Proof. rewrite <- (Nat.add_0_r (length pre)) at 1. apply readAt_app_r. Qed.

Lemma to_ushort_to_short z : is_ushort z → to_ushort (to_short z) = z.
Proof.
  unfold is_ushort, to_ushort, to_short. intros Hz.
  rewrite (Z.mod_small z) by lia.
  destruct (z <? 2 ^ 15) eqn:E.
  - apply Z.mod_small. lia.
  - replace (z - 2 ^ 16) with (z + (-1) * 2 ^ 16) by lia.
    rewrite Z.mod_add by lia. apply Z.mod_small. lia.
Qed.

Lemma to_ulong_to_long z : is_ulong z → to_ulong (to_long z) = z.
Proof.
  unfold is_ulong, to_ulong, to_long, ULONG_MOD. intros Hz.
  rewrite (Z.mod_small z) by lia.
  destruct (z <? 2 ^ 63) eqn:E.
  - apply Z.mod_small. lia.
  - replace (z - 2 ^ 64) with (z + (-1) * 2 ^ 64) by lia.
    rewrite Z.mod_add by lia. apply Z.mod_small. lia.
Qed.

Lemma to_ulong_small z : is_ulong z → to_ulong z = z.
Proof. intros Hz. apply Z.mod_small. exact Hz. Qed.

Lemma to_ulong_range z : is_ulong (to_ulong z).
Proof. apply Z.mod_pos_bound. done. Qed.

Lemma nat_of_ushort_count (n : nat) :
  is_ushort (Z.of_nat n) → Z.to_nat (to_ushort (to_short (Z.of_nat n))) = n.
Proof. intros Hn. rewrite to_ushort_to_short by done. lia. Qed.

Lemma length_flat_map_const {A B} (f : A → list B) (c : nat) (l : list A) :
  (∀ x, length (f x) = c) → length (flat_map f l) = (c * length l)%nat.
Proof.
  intros Hf. induction l as [|x l IH]; simpl; [lia|].
  rewrite length_app, Hf, IH. lia.
Qed.

Lemma length_packElemShort e :
  length (packElemShort e) = (7 + 2 * length (CPrimalGrid.Faces e))%nat.
Proof.
  unfold packElemShort, faceShorts. rewrite length_app.
  rewrite (length_flat_map_const _ 2%nat) by done. simpl. lia.
Qed.

Lemma length_packElemLong e :
  length (packElemLong e)
  = (2 + length (CPrimalGrid.Nodes e) + length (CPrimalGrid.Faces e))%nat.
Proof.
  unfold packElemLong. rewrite !length_app, !length_map. simpl. lia.
Qed.

Lemma elemCount_packed (n : nat) (l : list Z) :
  Z.of_nat n < 2 ^ 63 → elemCount (Z.of_nat n :: l) = Ok n.
Proof.
  intros Hn. unfold elemCount, readAt. simpl. osimpl.
  rewrite to_ulong_small by (unfold is_ulong, ULONG_MOD; lia).
  by rewrite Nat2Z.id.
Qed.

(** ** The search for the halo elements *)

Lemma findHalos_faces_packed ids fs : ∀ S L preS preL restS restL halo,
  S = preS ++ faceShorts fs ++ restS →
  L = preL ++ map CPrimalGrid.Neighbor_Elements fs ++ restL →
  findHalos_faces S L ids (length fs) (length preS) (length preL) halo
  = Ok ((length preS + 2 * length fs)%nat, (length preL + length fs)%nat,
        halo ++ flat_map (haloOfFace ids) fs).
Proof.
  induction fs as [|f fs IH]; intros S L preS preL restS restL halo HS HL.
  { simpl. rewrite !Nat.add_0_r, app_nil_r. done. }
  cbn [length findHalos_faces].
  assert (readAt L (length preL) = Ok (CPrimalGrid.Neighbor_Elements f)) as ->.
  { subst L. by rewrite readAt_app_0. }
  assert (readAt S (length preS) = Ok (CPrimalGrid.PeriodicIndex f)) as HrS.
  { subst S. by rewrite readAt_app_0. }
  assert (S = (preS ++ [CPrimalGrid.PeriodicIndex f;
                        b2z (CPrimalGrid.JacobianConstantFace f)])
              ++ faceShorts fs ++ restS) as HS'.
  { subst S. unfold faceShorts. simpl. by rewrite <- app_assoc. }
  assert (L = (preL ++ [CPrimalGrid.Neighbor_Elements f])
              ++ map CPrimalGrid.Neighbor_Elements fs ++ restL) as HL'.
  { subst L. simpl. by rewrite <- app_assoc. }
  assert (length (preS ++ [CPrimalGrid.PeriodicIndex f;
                        b2z (CPrimalGrid.JacobianConstantFace f)])
          = (length preS + 2)%nat) as HlS by (rewrite length_app; done).
  assert (length (preL ++ [CPrimalGrid.Neighbor_Elements f])
          = (length preL + 1)%nat) as HlL by (rewrite length_app; done).
  osimpl. cbn [flat_map]. unfold haloOfFace at 1.
  destruct (negb (CPrimalGrid.Neighbor_Elements f =? -1)) eqn:Hnb.
  - rewrite HrS. osimpl. rewrite <- HlS, <- HlL.
    rewrite (IH S L _ _ restS restL _ HS' HL').
    rewrite HlS, HlL. f_equal. f_equal; [f_equal; lia|].
    cbn [andb].
    destruct (CPrimalGrid.PeriodicIndex f =? -1); cbn [andb negb];
      [destruct (binary_search _ _ _); cbn [negb]|];
      by rewrite <- ?app_assoc.
  - rewrite <- HlS, <- HlL.
    rewrite (IH S L _ _ restS restL _ HS' HL').
    rewrite HlS, HlL. cbn [andb app]. f_equal. f_equal. f_equal; lia.
Qed.

Lemma length_faceShorts fs : length (faceShorts fs) = (2 * length fs)%nat.
Proof. unfold faceShorts. by rewrite (length_flat_map_const _ 2%nat). Qed.

(** The cursors and the counts at the start of a packed element. *)
Lemma packed_element_reads e es S L preS preL restS restL :
  CPrimalGrid.wf e →
  S = preS ++ flat_map packElemShort (e :: es) ++ restS →
  L = preL ++ flat_map packElemLong (e :: es) ++ restL →
  readAt S (length preS + 3) = Ok (to_short (CPrimalGrid.NDOFsGrid e))
  ∧ readAt S (length preS + 5) = Ok (to_short (CPrimalGrid.nFaces e))
  ∧ readAt L (length preL) = Ok (to_long (CPrimalGrid.GlobalElemID e))
  ∧ Z.to_nat (to_ushort (to_short (CPrimalGrid.NDOFsGrid e)))
    = length (CPrimalGrid.Nodes e)
  ∧ Z.to_nat (to_ushort (to_short (CPrimalGrid.nFaces e)))
    = length (CPrimalGrid.Faces e)
  ∧ S = (preS ++ packElemShort e) ++ flat_map packElemShort es ++ restS
  ∧ L = (preL ++ packElemLong e) ++ flat_map packElemLong es ++ restL.
Proof.
  intros Hwf -> ->. split_and!.
  - by rewrite readAt_app_r.
  - by rewrite readAt_app_r.
  - by rewrite readAt_app_0.
  - apply nat_of_ushort_count, Hwf.
  - apply nat_of_ushort_count, Hwf.
  - cbn [flat_map]. by rewrite <- !app_assoc.
  - cbn [flat_map]. by rewrite <- !app_assoc.
Qed.

Lemma findHalos_loop_packed ids es : ∀ S L preS preL restS restL halo,
  Forall CPrimalGrid.wf es →
  S = preS ++ flat_map packElemShort es ++ restS →
  L = preL ++ flat_map packElemLong es ++ restL →
  findHalos_loop S L ids (length es) (length preS) (length preL) halo
  = Ok (halo ++ halosOfElems ids es).
Proof.
  induction es as [|e es IH]; intros S L preS preL restS restL halo Hwf HS HL.
  { simpl. by rewrite app_nil_r. }
  apply Forall_cons in Hwf as [Hwf Hwfs].
  destruct (packed_element_reads e es S L preS preL restS restL Hwf HS HL)
    as (Hd & Hf & _ & Hnd & Hnf & HS' & HL').
  cbn [length findHalos_loop]. rewrite Hd, Hf. osimpl. rewrite Hnd, Hnf.
  set (preS' := preS ++ elemHeaderShort e).
  set (preL' := preL ++ [to_long (CPrimalGrid.GlobalElemID e);
                         to_long (CPrimalGrid.GlobalOffsetDOFsSol e)]
                     ++ map to_long (CPrimalGrid.Nodes e)).
  replace (length preS + 7)%nat with (length preS')
    by (unfold preS'; rewrite length_app; done).
  replace (length preL + (length (CPrimalGrid.Nodes e) + 2))%nat
    with (length preL')
    by (unfold preL'; rewrite !length_app, length_map; simpl; lia).
  rewrite (findHalos_faces_packed ids (CPrimalGrid.Faces e) S L preS' preL'
             (flat_map packElemShort es ++ restS)
             (flat_map packElemLong es ++ restL)).
  - osimpl.
    replace (length preS' + 2 * length (CPrimalGrid.Faces e))%nat
      with (length (preS ++ packElemShort e))
      by (unfold preS'; rewrite !length_app, length_packElemShort; simpl; lia).
    replace (length preL' + length (CPrimalGrid.Faces e))%nat
      with (length (preL ++ packElemLong e))
      by (unfold preL';
          rewrite !length_app, length_packElemLong, length_map; simpl; lia).
    rewrite (IH S L _ _ restS restL _ Hwfs HS' HL').
    unfold halosOfElems. cbn [flat_map]. by rewrite app_assoc.
  - rewrite HS'. unfold preS', packElemShort. by rewrite <- !app_assoc.
  - rewrite HL'. unfold preL', packElemLong. by rewrite <- !app_assoc.
Qed.

Lemma collectGlobalElemID_loop_packed es : ∀ S L preS preL restS restL ids,
  Forall CPrimalGrid.wf es →
  S = preS ++ flat_map packElemShort es ++ restS →
  L = preL ++ flat_map packElemLong es ++ restL →
  collectGlobalElemID_loop S L (length es) (length preS) (length preL) ids
  = Ok (ids ++ map CPrimalGrid.GlobalElemID es).
Proof.
  induction es as [|e es IH]; intros S L preS preL restS restL ids Hwf HS HL.
  { simpl. by rewrite app_nil_r. }
  apply Forall_cons in Hwf as [Hwf Hwfs].
  destruct (packed_element_reads e es S L preS preL restS restL Hwf HS HL)
    as (Hd & Hf & Hg & Hnd & Hnf & HS' & HL').
  cbn [length collectGlobalElemID_loop]. rewrite Hg, Hd, Hf. osimpl.
  rewrite Hnd, Hnf.
  replace (length preS + (2 * length (CPrimalGrid.Faces e) + 7))%nat
    with (length (preS ++ packElemShort e))
    by (rewrite length_app, length_packElemShort; lia).
  replace (length preL + (length (CPrimalGrid.Nodes e)
                          + length (CPrimalGrid.Faces e) + 2))%nat
    with (length (preL ++ packElemLong e))
    by (rewrite length_app, length_packElemLong; lia).
  rewrite (IH S L _ _ restS restL _ Hwfs HS' HL').
  rewrite to_ulong_to_long by apply Hwf.
  cbn [map]. by rewrite <- app_assoc.
Qed.

Lemma forEachBuf_append {A B C} (f : list B → A → outcome (list B))
    (h : C → A) (g : C → list B) (xs : list C) (acc : list B) :
  (∀ acc x, x ∈ xs → f acc (h x) = Ok (acc ++ g x)) →
  forEachBuf f (map h xs) acc = Ok (acc ++ flat_map g xs).
Proof.
  revert acc. induction xs as [|x xs IH]; intros acc Hf; simpl.
  { by rewrite app_nil_r. }
  rewrite Hf by left. osimpl. rewrite IH.
  - by rewrite app_assoc.
  - intros acc' x' Hx'. apply Hf. by right.
Qed.

Lemma collectGlobalElemID_packed ids s :
  wf_sender s →
  collectGlobalElemID ids (recvBufOf s)
  = Ok (ids ++ map CPrimalGrid.GlobalElemID (sentElems s)).
Proof.
  intros [Hwf Hlen]. unfold collectGlobalElemID, recvBufOf, packElems.
  cbn [longBuf shortBuf]. rewrite elemCount_packed by done. osimpl.
  apply (collectGlobalElemID_loop_packed (sentElems s) _ _ []
           [Z.of_nat (length (sentElems s))] (restShort s) (restLong s));
    done.
Qed.

Lemma findHalos_packed globalElemID halo s :
  wf_sender s →
  findHalos globalElemID halo (recvBufOf s)
  = Ok (halo ++ halosOfElems globalElemID (sentElems s)).
Proof.
  intros [Hwf Hlen]. unfold findHalos, recvBufOf, packElems.
  cbn [longBuf shortBuf]. rewrite elemCount_packed by done. osimpl.
  apply (findHalos_loop_packed globalElemID (sentElems s) _ _ []
           [Z.of_nat (length (sentElems s))] (restShort s) (restLong s));
    done.
Qed.

#[global] Instance Zltb_swo : StrictWeakOrder Z.ltb.
Proof. split; intros; lia. Qed.

#[global] Instance Zltb_eq_of_order : EqOfOrder Z.ltb Z.eqb.
Proof. intros x y. lia. Qed.

(** The binary search in the sorted owned IDs is a membership test. *)
Lemma binary_search_owned (ids : list Z) (v : Z) :
  binary_search Z.ltb (sort Z.ltb ids) v = true ↔ v ∈ ids.
Proof.
  rewrite (binary_search_spec Z.ltb) by apply (sort_StronglySorted Z.ltb).
  split.
  - intros (x & Hx & H1 & H2). assert (x = v) as <- by lia.
    by rewrite (sort_Permutation Z.ltb) in Hx.
  - intros Hv. exists v. rewrite (sort_Permutation Z.ltb).
    split_and!; [done|lia..].
Qed.

Lemma ownedGlobalElemID_packed (senders : list sender) :
  Forall wf_sender senders →
  ownedGlobalElemID (map recvBufOf senders)
  = Ok (sort Z.ltb (map CPrimalGrid.GlobalElemID (flat_map sentElems senders))).
Proof.
  intros Hwf. unfold ownedGlobalElemID.
  rewrite (forEachBuf_append collectGlobalElemID recvBufOf
             (λ s, map CPrimalGrid.GlobalElemID (sentElems s))).
  - osimpl. cbn [app]. do 2 f_equal.
    induction senders as [|s senders IH]; [done|].
    apply Forall_cons in Hwf as [_ Hwf]. cbn [flat_map].
    by rewrite map_app, IH.
  - intros acc s Hs. apply collectGlobalElemID_packed.
    rewrite Forall_forall in Hwf. by apply Hwf.
Qed.

Lemma haloElementsOf_packed (ids : list Z) (senders : list sender) :
  Forall wf_sender senders →
  haloElementsOf ids (map recvBufOf senders)
  = Ok (dedup ul2_lt ul2_eqb (halosOfElems ids (flat_map sentElems senders))).
Proof.
  intros Hwf. unfold haloElementsOf.
  rewrite (forEachBuf_append (findHalos ids) recvBufOf
             (λ s, halosOfElems ids (sentElems s))).
  - osimpl. cbn [app]. do 2 f_equal.
    induction senders as [|s senders IH]; [done|].
    apply Forall_cons in Hwf as [_ Hwf]. cbn [flat_map].
    unfold halosOfElems in *. by rewrite flat_map_app, IH.
  - intros acc s Hs. apply findHalos_packed.
    rewrite Forall_forall in Hwf. by apply Hwf.
Qed.

Lemma elem_of_flat_map {A B} (f : A → list B) (l : list A) (y : B) :
  y ∈ flat_map f l ↔ ∃ x, x ∈ l ∧ y ∈ f x.
Proof.
  rewrite list_elem_of_In, in_flat_map. split.
  - intros (x & Hx & Hy). exists x. by rewrite !list_elem_of_In.
  - intros (x & Hx & Hy). exists x. by rewrite <- !list_elem_of_In.
Qed.

Lemma elem_of_dedup_ul2 (l : list unsignedLong2T) (d : unsignedLong2T) :
  d ∈ dedup ul2_lt ul2_eqb l ↔ d ∈ l.
Proof.
  split; [apply (dedup_sub ul2_lt ul2_eqb)|].
  intros Hd. destruct (dedup_cover ul2_lt ul2_eqb l d Hd) as (z & Hz & E).
  apply ul2_eqb_eq in E. by subst.
Qed.

Lemma elem_of_haloOfFace ids f d :
  d ∈ haloOfFace ids f ↔
  CPrimalGrid.Neighbor_Elements f ≠ -1
  ∧ ¬ (CPrimalGrid.PeriodicIndex f = -1
       ∧ binary_search Z.ltb ids
           (to_ulong (CPrimalGrid.Neighbor_Elements f)) = true)
  ∧ d = UL2 (CPrimalGrid.Neighbor_Elements f) (CPrimalGrid.PeriodicIndex f + 1).
Proof.
  unfold haloOfFace.
  destruct (Z.eqb_spec (CPrimalGrid.Neighbor_Elements f) (-1)) as [Hn|Hn];
    cbn [negb andb].
  { split; [by intros ?%elem_of_nil|]. by intros [? _]. }
  destruct (Z.eqb_spec (CPrimalGrid.PeriodicIndex f) (-1)) as [Hp|Hp];
    cbn [negb andb].
  - destruct (binary_search _ _ _); cbn [negb].
    + split; [by intros ?%elem_of_nil|]. intros (_ & Hno & _). by destruct Hno.
    + rewrite list_elem_of_singleton. split; [|by intros (_ & _ & ->)].
      intros ->. split_and!; [done| |done]. by intros [_ ?].
  - rewrite list_elem_of_singleton. split; [|by intros (_ & _ & ->)].
    intros ->. split_and!; [done| |done]. by intros [? _].
Qed.

Lemma to_ulong_near_zero z :
  - 2 ^ 63 <= z < 2 ^ 63 →
  to_ulong z = if z <? 0 then z + ULONG_MOD else z.
Proof.
  unfold to_ulong, ULONG_MOD. intros Hz. destruct (z <? 0) eqn:E.
  - replace z with ((z + 2 ^ 64) + (-1) * 2 ^ 64) at 1 by lia.
    rewrite Z.mod_add by lia. apply Z.mod_small. lia.
  - apply Z.mod_small. lia.
Qed.

Lemma UL2_periodic_inj g p1 p2 :
  is_short p1 → is_short p2 → UL2 g (p1 + 1) = UL2 g (p2 + 1) → p1 = p2.
Proof.
  unfold is_short, UL2. intros H1 H2 [= E].
  rewrite !to_ulong_near_zero in E by lia. unfold ULONG_MOD in E.
  destruct (p1 + 1 <? 0) eqn:E1, (p2 + 1 <? 0) eqn:E2; lia.
Qed.

(** C2. For every face of every owned element received in the first
    exchange the descriptor (neighbour global ID, periodic index + 1) is
    recorded exactly when the neighbour global ID is not -1 and it is not
    the case that the periodic index is -1 and the binary search finds
    the neighbour in the sorted owned IDs; the list is then sorted and
    made unique, and descriptors of one neighbour with different periodic
    indices are different entries. *)
Theorem halo_descriptors_recorded (senders : list sender) :
  Forall wf_sender senders →
  let bufs := map recvBufOf senders in
  let elems := flat_map sentElems senders in
  ∃ globalElemID haloElements,
    ownedGlobalElemID bufs = Ok globalElemID
    ∧ haloElementsOf globalElemID bufs = Ok haloElements
    ∧ (∀ d, d ∈ haloElements ↔
         ∃ e f, e ∈ elems ∧ f ∈ CPrimalGrid.Faces e
           ∧ CPrimalGrid.Neighbor_Elements f ≠ -1
           ∧ ¬ (CPrimalGrid.PeriodicIndex f = -1
                ∧ binary_search Z.ltb globalElemID
                    (to_ulong (CPrimalGrid.Neighbor_Elements f)) = true)
           ∧ d = UL2 (CPrimalGrid.Neighbor_Elements f)
                     (CPrimalGrid.PeriodicIndex f + 1))
    ∧ (∀ v, binary_search Z.ltb globalElemID v = true
            ↔ v ∈ map CPrimalGrid.GlobalElemID elems)
    ∧ haloElements = dedup ul2_lt ul2_eqb (halosOfElems globalElemID elems)
    ∧ StronglySorted (lt_true ul2_lt) haloElements
    ∧ (∀ g p1 p2, is_short p1 → is_short p2 → p1 ≠ p2 →
                  UL2 g (p1 + 1) ≠ UL2 g (p2 + 1)).
Proof.
  intros Hwf bufs elems.
  eexists _, _. split; [by apply ownedGlobalElemID_packed|].
  split; [by apply haloElementsOf_packed|].
  split_and!.
  - intros d. rewrite elem_of_dedup_ul2. unfold halosOfElems.
    rewrite elem_of_flat_map. split.
    + intros (e & He & Hd). apply elem_of_flat_map in Hd as (f & Hf & Hd).
      apply elem_of_haloOfFace in Hd as (? & ? & ?). by exists e, f.
    + intros (e & f & He & Hf & Hn & Hno & Hd). exists e. split; [done|].
      apply elem_of_flat_map. exists f. split; [done|].
      by apply elem_of_haloOfFace.
  - intros v. apply binary_search_owned.
  - done.
  - apply (dedup_StronglySorted ul2_lt ul2_eqb).
  - intros g p1 p2 H1 H2 Hne E. by apply Hne, (UL2_periodic_inj g).
Qed.

Lemma halo_witness_senders_wf : Forall wf_sender halo_witness_senders.
Proof.
  repeat lazymatch goal with
    | |- Forall _ _ => constructor
    | |- wf_sender _ => split
    | |- CPrimalGrid.wf _ => split
    | |- _ => unfold is_ushort, is_ulong, is_long, is_short, ULONG_MOD,
              CPrimalGrid.NDOFsGrid, CPrimalGrid.nFaces; simpl; lia
    end.
Qed.

Lemma halo_descriptors_recorded_witness :
  ∃ haloElements,
    haloElementsOf [10; 11] (map recvBufOf halo_witness_senders)
    = Ok haloElements
    ∧ UL2 12 0 ∈ haloElements ∧ UL2 10 1 ∈ haloElements
    ∧ UL2 10 2 ∈ haloElements ∧ UL2 11 0 ∉ haloElements.
Proof.
  destruct (halo_descriptors_recorded halo_witness_senders
              halo_witness_senders_wf)
    as (ids & halos & Hids & Hhalos & _ & _ & -> & _).
  injection Hids as <-. eexists. split; [exact Hhalos|].
  apply (bool_decide_unpack _). vm_compute. exact I.
Defined.

(** ** The maps from global to local numbering *)

Section index_map.
Context `{Countable K}.

Lemma fillIndexMap_notin (v : list K) base i (m : gmap K nat) k :
  k ∉ v → fillIndexMap v base i m !! k = m !! k.
Proof.
  revert i m. induction v as [|k0 v IH]; intros i m Hk; simpl; [done|].
  apply not_elem_of_cons in Hk as [Hne Hk].
  rewrite IH by done. by rewrite lookup_insert_ne.
Qed.

Lemma fillIndexMap_lookup (v : list K) base i (m : gmap K nat) j k :
  NoDup v → v !! j = Some k →
  fillIndexMap v base i m !! k = Some (base + (i + j))%nat.
Proof.
  revert i m j. induction v as [|k0 v IH]; intros i m j Hnd Hj; [done|].
  apply NoDup_cons in Hnd as [Hk0 Hnd]. destruct j as [|j]; simpl in *.
  - injection Hj as ->. rewrite fillIndexMap_notin by done.
    rewrite lookup_insert_eq. f_equal. lia.
  - rewrite (IH (S i) _ j) by done. f_equal. lia.
Qed.

Lemma fillIndexMap_inv (v : list K) base i (m : gmap K nat) k s :
  fillIndexMap v base i m !! k = Some s →
  (∃ j, v !! j = Some k ∧ s = (base + (i + j))%nat) ∨ m !! k = Some s.
Proof.
  revert i m. induction v as [|k0 v IH]; intros i m Hs; simpl in *; [by right|].
  destruct (IH _ _ Hs) as [(j & Hj & ->)|Hm].
  - left. exists (S j). split; [done|lia].
  - destruct (decide (k0 = k)) as [->|Hne].
    + rewrite lookup_insert_eq in Hm. injection Hm as <-.
      left. exists 0%nat. split; [done|lia].
    + rewrite lookup_insert_ne in Hm by done. by right.
Qed.

End index_map.

(** C3. The array of volume elements is allocated with nVolElemOwned
    plus the number of deduplicated halo descriptors entries, and
    mapGlobalHaloElemToInd sends the i-th descriptor of the sorted,
    deduplicated list to the slot nVolElemOwned + i: the halo slots come
    after the owned slots, in the order of the list, and the map holds
    nothing else. *)
Theorem halo_slots_follow_owned (fresh : CVolumeElementFEM.t)
    (globalElemID : list Z) (recorded : list unsignedLong2T) :
  let nVolElemOwned := length globalElemID in
  let haloElements := dedup ul2_lt ul2_eqb recorded in
  let volElem := allocVolElem fresh nVolElemOwned (length haloElements) in
  let m := mapGlobalHaloElemToInd nVolElemOwned haloElements in
  length volElem = (nVolElemOwned + length haloElements)%nat
  ∧ (∀ i h, haloElements !! i = Some h →
        m !! h = Some (nVolElemOwned + i)%nat
        ∧ (nVolElemOwned ≤ nVolElemOwned + i < length volElem)%nat)
  ∧ (∀ i j h h', haloElements !! i = Some h → haloElements !! j = Some h' →
        (i < j)%nat → ∃ s s', m !! h = Some s ∧ m !! h' = Some s' ∧ (s < s')%nat)
  ∧ (∀ h s, m !! h = Some s →
        ∃ i, haloElements !! i = Some h ∧ s = (nVolElemOwned + i)%nat).
Proof.
  intros nVolElemOwned haloElements volElem m.
  assert (NoDup haloElements) as Hnd by apply (dedup_NoDup ul2_lt ul2_eqb).
  assert (length volElem = (nVolElemOwned + length haloElements)%nat) as Hlen.
  { unfold volElem, allocVolElem. by rewrite length_replicate. }
  assert (∀ i h, haloElements !! i = Some h →
                 m !! h = Some (nVolElemOwned + i)%nat) as Hm.
  { intros i h Hi. unfold m, mapGlobalHaloElemToInd.
    by rewrite (fillIndexMap_lookup _ _ _ _ i h Hnd Hi). }
  split_and!.
  - done.
  - intros i h Hi. split; [by apply Hm|].
    apply lookup_lt_Some in Hi. lia.
  - intros i j h h' Hi Hj Hij.
    exists (nVolElemOwned + i)%nat, (nVolElemOwned + j)%nat.
    split_and!; [by apply Hm|by apply Hm|lia].
  - intros h s Hs. unfold m, mapGlobalHaloElemToInd in Hs.
    apply fillIndexMap_inv in Hs as [(j & Hj & ->)|Hs]; [|done].
    exists j. split; [done|lia].
Qed.

(** ** The answer of the owner of a halo element *)

Lemma to_long_exact z : is_long z → to_long z = z.
Proof.
  unfold is_long, to_long. intros Hz.
  fold (to_ulong z). rewrite to_ulong_near_zero by done. unfold ULONG_MOD.
  destruct (z <? 0) eqn:E.
  - destruct (z + 2 ^ 64 <? 2 ^ 63) eqn:E'; lia.
  - destruct (z <? 2 ^ 63) eqn:E'; lia.
Qed.

Lemma locElemIndOf_exact g start :
  is_long (g - start) → locElemIndOf g start = g - start.
Proof.
  intros Hr. rewrite <- (to_long_exact (g - start)) by done.
  unfold locElemIndOf, to_long, to_ulong. by rewrite Zminus_mod_idemp_l.
Qed.

Lemma invalidLocElemInd_spec loc np :
  is_long loc → is_ulong np →
  invalidLocElemInd loc np = true ↔ loc < 0 ∨ loc >= np.
Proof.
  unfold is_long, is_ulong, invalidLocElemInd. intros Hl Hn.
  rewrite orb_true_iff, Z.ltb_lt, Z.leb_le.
  rewrite to_ulong_near_zero by done. unfold ULONG_MOD in *.
  destruct (loc <? 0) eqn:E; lia.
Qed.

Section answer.
Context {T : Type} (geometry : CGeometry.t T) (rank : nat) (start np : Z).
Hypothesis Hstart : readAt (CGeometry.starting_node geometry) rank = Ok start.
Hypothesis Hnp : readAt (CGeometry.npoint_procs geometry) rank = Ok np.

Lemma answerElems_invalid req n indL S L nodeIDs g :
  readAt req indL = Ok g →
  invalidLocElemInd (locElemIndOf g start) np = true →
  answerElems geometry rank req (Datatypes.S n) indL S L nodeIDs
  = Abort [locElemIndOf g start; np] invalidLocalElem.
Proof.
  intros Hg Hinv. cbn [answerElems]. rewrite Hg, Hstart, Hnp. osimpl.
  by rewrite Hinv.
Qed.

Lemma answerElems_valid req n indL S L nodeIDs g p s e :
  readAt req indL = Ok g → readAt req (indL + 1) = Ok p →
  readAt req (indL + 2) = Ok s →
  answerable geometry start np (g, p, s) e →
  answerElems geometry rank req (Datatypes.S n) indL S L nodeIDs
  = answerElems geometry rank req n (indL + 3)
      (S ++ answerElemShort (to_short p) e)
      (L ++ answerElemLong g s e)
      (nodeIDs ++ map (λ nd, UL2 (to_long nd) (to_short p + 1))
                      (CPrimalGrid.Nodes e)).
Proof.
  intros Hg Hp Hs [Hval He]. cbn [answerElems].
  rewrite Hg, Hstart, Hnp. osimpl. simpl in Hval. rewrite Hval.
  rewrite Hp, Hs. osimpl. unfold readAt at 1. simpl in He. rewrite He. done.
Qed.

Lemma request_reads (pre rest : list Z) (g p s : Z) :
  let req := pre ++ [g; p; s] ++ rest in
  readAt req (length pre) = Ok g
  ∧ readAt req (length pre + 1) = Ok p
  ∧ readAt req (length pre + 2) = Ok s.
Proof.
  intros req. unfold req. split_and!.
  - by rewrite readAt_app_0.
  - by rewrite readAt_app_r.
  - by rewrite readAt_app_r.
Qed.

Lemma answerElems_packed items : ∀ es req pre rest n S L nodeIDs,
  req = pre ++ requestTriples items ++ rest →
  Forall2 (answerable geometry start np) items es →
  answerElems geometry rank req (length items + n) (length pre) S L nodeIDs
  = answerElems geometry rank req n (length pre + 3 * length items)
      (S ++ answeredShort (zip items es))
      (L ++ answeredLong (zip items es))
      (nodeIDs ++ answeredNodeIDs (zip items es)).
Proof.
  induction items as [|[[g p] s] items IH];
    intros es req pre rest n S L nodeIDs Hreq Hans.
  { apply Forall2_nil_inv_l in Hans as ->. simpl.
    by rewrite Nat.add_0_r, !app_nil_r. }
  apply Forall2_cons_inv_l in Hans as (e & es' & He & Hes & ->).
  assert (req = pre ++ [g; p; s] ++ requestTriples items ++ rest) as Hreq'.
  { rewrite Hreq. done. }
  destruct (request_reads pre (requestTriples items ++ rest) g p s)
    as (Hg & Hp & Hs).
  rewrite <- Hreq' in Hg, Hp, Hs.
  cbn [length Nat.add]. rewrite (answerElems_valid req _ _ _ _ _ g p s e) by done.
  replace (length pre + 3)%nat with (length (pre ++ [g; p; s]))
    by (rewrite length_app; done).
  rewrite (IH es' req (pre ++ [g; p; s]) rest); [|by rewrite <- app_assoc|done].
  rewrite length_app. cbn [length zip zip_with].
  unfold answeredShort, answeredLong, answeredNodeIDs. cbn [flat_map].
  rewrite <- !app_assoc. f_equal. lia.
Qed.

Lemma answerElems_abort items : ∀ es req pre rest n S L nodeIDs g p s,
  req = pre ++ requestTriples items ++ [g; p; s] ++ rest →
  Forall2 (answerable geometry start np) items es →
  invalidLocElemInd (locElemIndOf g start) np = true →
  answerElems geometry rank req (length items + Datatypes.S n) (length pre)
    S L nodeIDs
  = Abort [locElemIndOf g start; np] invalidLocalElem.
Proof.
  intros es req pre rest n S L nodeIDs g p s Hreq Hans Hinv.
  rewrite (answerElems_packed items es req pre ([g; p; s] ++ rest)) by done.
  apply answerElems_invalid; [|done].
  replace (length pre + 3 * length items)%nat
    with (length (pre ++ requestTriples items)).
  - rewrite Hreq, app_assoc. by rewrite readAt_app_0.
  - rewrite length_app. unfold requestTriples.
    rewrite (length_flat_map_const _ 3%nat); [done|]. by intros [[??]?].
Qed.

End answer.

Lemma to_long_range z : is_long (to_long z).
Proof.
  unfold is_long, to_long.
  pose proof (Z.mod_pos_bound z ULONG_MOD eq_refl) as Hm.
  unfold ULONG_MOD in *. destruct (z `mod` 2 ^ 64 <? 2 ^ 63) eqn:E; lia.
Qed.

Lemma inLocalRange_answerable {T} (geometry : CGeometry.t T) start np items :
  is_ulong np → Z.of_nat (length (CGeometry.elem geometry)) = np →
  Forall (inLocalRange start np) items →
  ∃ es, Forall2 (answerable geometry start np) items es.
Proof.
  intros Hnp Hlen. induction 1 as [|it items Hr _ [es IH]].
  { exists []. constructor. }
  unfold inLocalRange in Hr.
  destruct (lookup_lt_is_Some_2 (CGeometry.elem geometry)
              (Z.to_nat (locElemIndOf it.1.1 start))) as [e He]; [lia|].
  exists (e :: es). constructor; [|done]. split; [|done].
  destruct (invalidLocElemInd _ _) eqn:E; [|done].
  apply invalidLocElemInd_spec in E; [lia|apply to_long_range|done].
Qed.

Lemma length_requestTriples items :
  length (requestTriples items) = (3 * length items)%nat.
Proof.
  unfold requestTriples. rewrite (length_flat_map_const _ 3%nat); [done|].
  by intros [[??]?].
Qed.

Lemma requestTriples_app xs ys :
  requestTriples (xs ++ ys) = requestTriples xs ++ requestTriples ys.
Proof. unfold requestTriples. by rewrite flat_map_app. Qed.

(** C6. An owner that finds, in a request buffer, a global element ID
    whose local index (the ID minus the first ID of the rank) is negative
    or not below the number of elements of the rank prints the index, the
    number and the diagnostic and stops the run; a request with its index
    in the range is answered: the loop appends the data of the element,
    with the global ID and the slot of the caller echoed, and goes on.
    The index is the one the code computes, with the arithmetic of its
    integer types; it is the difference itself when that fits a [long]. *)
Theorem halo_request_range_check {T} (geometry : CGeometry.t T) (rank : nat)
    (start np : Z) (before after : list request) (g p s : Z) :
  readAt (CGeometry.starting_node geometry) rank = Ok start →
  readAt (CGeometry.npoint_procs geometry) rank = Ok np →
  is_ulong np → Z.of_nat (length (CGeometry.elem geometry)) = np →
  Forall (inLocalRange start np) before →
  let req := requestTriples (before ++ [(g, p, s)] ++ after) in
  let locElemInd := locElemIndOf g start in
  (locElemInd < 0 ∨ locElemInd >= np →
     answerRequests geometry rank req
     = Abort [locElemInd; np] invalidLocalElem)
  ∧ (0 <= locElemInd < np →
     ∃ es e,
       CGeometry.elem geometry !! Z.to_nat locElemInd = Some e
       ∧ length es = length before
       ∧ ∀ n S L nodeIDs,
           answerElems geometry rank req (length before + 1 + n) 0 S L nodeIDs
           = answerElems geometry rank req n (3 * (length before + 1))
               (S ++ answeredShort (zip before es)
                  ++ answerElemShort (to_short p) e)
               (L ++ answeredLong (zip before es) ++ answerElemLong g s e)
               (nodeIDs ++ answeredNodeIDs (zip before es)
                  ++ map (λ nd, UL2 (to_long nd) (to_short p + 1))
                         (CPrimalGrid.Nodes e)))
  ∧ (is_long (g - start) → locElemInd = g - start).
Proof.
  intros Hstart Hnp Hnpr Hlen Hbefore req locElemInd.
  destruct (inLocalRange_answerable geometry start np before Hnpr Hlen Hbefore)
    as [es Hes].
  assert (req = [] ++ requestTriples before ++ [g; p; s] ++ requestTriples after)
    as Hreq.
  { unfold req. by rewrite !requestTriples_app. }
  split_and!.
  - intros Hout. unfold answerRequests.
    assert (length req = 3 * (length before + 1 + length after))%nat as Hl.
    { unfold req. rewrite length_requestTriples, !length_app.
      cbn [length]. lia. }
    rewrite Hl, Nat.mul_comm, Nat.div_mul by done.
    replace (length before + 1 + length after)%nat
      with (length before + Datatypes.S (length after))%nat by lia.
    rewrite (answerElems_abort geometry rank start np Hstart Hnp before es req
               [] (requestTriples after) _ _ _ _ g p s Hreq Hes); [done|].
    apply invalidLocElemInd_spec; [apply to_long_range|done|].
    fold locElemInd. lia.
  - intros Hin.
    destruct (inLocalRange_answerable geometry start np [(g, p, s)] Hnpr Hlen)
      as [es1 Hes1].
    { constructor; [|constructor]. exact Hin. }
    apply Forall2_cons_inv_l in Hes1 as (e & es1' & He & Hnil & ->).
    apply Forall2_nil_inv_l in Hnil as ->.
    exists es, e. split_and!.
    + by destruct He as [_ He].
    + symmetry. by eapply Forall2_length.
    + intros n S L nodeIDs.
      assert (Forall2 (answerable geometry start np)
                (before ++ [(g, p, s)]) (es ++ [e])) as Hall.
      { apply Forall2_app; [done|]. by constructor. }
      replace (length before + 1 + n)%nat
        with (length (before ++ [(g, p, s)]) + n)%nat
        by (rewrite length_app; simpl; lia).
      rewrite (answerElems_packed geometry rank start np Hstart Hnp
                 (before ++ [(g, p, s)]) (es ++ [e]) req []
                 (requestTriples after)); [|by rewrite Hreq, requestTriples_app,
                                               <- !app_assoc|done].
      assert (length before = length es) as Hle by (by eapply Forall2_length).
      rewrite !(zip_with_app pair before [(g, p, s)] es [e] Hle).
      unfold answeredShort, answeredLong, answeredNodeIDs.
      rewrite !flat_map_app. cbn [zip_with flat_map]. rewrite !app_nil_r.
      rewrite length_app. cbn [length]. done.
  - apply locElemIndOf_exact.
Qed.

Lemma halo_request_range_check_witness :
  answerRequests two_quads 0 [0; -1; 2; 7; -1; 3]
  = Abort [7; 2] invalidLocalElem.
Proof.
  refine (proj1 (halo_request_range_check two_quads 0 0 2
                   [(0, -1, 2)] [] 7 (-1) 3 eq_refl eq_refl _ eq_refl _) _).
  - unfold is_ulong, ULONG_MOD. lia.
  - repeat constructor; by vm_compute.
  - right. by vm_compute.
Defined.

(** ** The owned elements in the array of volume elements *)

Lemma readRange_gen_app {A} (xs : list A) : ∀ pre rest,
  readRange_gen (pre ++ xs ++ rest) (length pre) (length xs) = Ok xs.
Proof.
  induction xs as [|x xs IH]; intros pre rest; [done|].
  cbn [length readRange_gen]. rewrite readAt_app_0. cbn [app readAt lookup list_lookup].
  osimpl. replace (Datatypes.S (length pre)) with (length (pre ++ [x]))
    by (rewrite length_app; simpl; lia).
  replace (pre ++ x :: xs ++ rest) with ((pre ++ [x]) ++ xs ++ rest)
    by (by rewrite <- app_assoc).
  by rewrite IH.
Qed.

Lemma readJacFaces_packed fs : ∀ pre rest,
  readJacFaces (pre ++ faceShorts fs ++ rest) (length pre) (length fs)
  = Ok (map CPrimalGrid.JacobianConstantFace fs).
Proof.
  induction fs as [|f fs IH]; intros pre rest; [done|].
  cbn [length readJacFaces]. rewrite readAt_app_r.
  cbn [faceShorts flat_map app readAt lookup list_lookup]. osimpl.
  fold (faceShorts fs).
  replace (length pre + 2)%nat
    with (length (pre ++ [CPrimalGrid.PeriodicIndex f;
                          b2z (CPrimalGrid.JacobianConstantFace f)]))
    by (rewrite length_app; done).
  replace (pre ++ CPrimalGrid.PeriodicIndex f
               :: b2z (CPrimalGrid.JacobianConstantFace f)
               :: faceShorts fs ++ rest)
    with ((pre ++ [CPrimalGrid.PeriodicIndex f;
                   b2z (CPrimalGrid.JacobianConstantFace f)])
          ++ faceShorts fs ++ rest) by (by rewrite <- app_assoc).
  rewrite IH. osimpl. cbn [map]. do 2 f_equal.
  by destruct (CPrimalGrid.JacobianConstantFace f).
Qed.

Lemma map_to_ulong_to_long (xs : list Z) :
  Forall is_ulong xs → map to_ulong (map to_long xs) = xs.
Proof.
  induction 1 as [|x xs Hx _ IH]; [done|].
  cbn [map]. by rewrite to_ulong_to_long, IH.
Qed.

Lemma stored_from_nil rank m v : stored_from rank m [] v v.
Proof.
  split; [done|]. intros i x Hx. right. split; [|done].
  intros e He. by apply elem_of_nil in He.
Qed.

Lemma stored_from_one rank m e i old v :
  m !! CPrimalGrid.GlobalElemID e = Some i → (i < length v)%nat →
  stored_from rank m [e] v (<[i := ownedElem rank e old]> v).
Proof.
  intros Hm Hi. split; [by rewrite length_insert|].
  intros j x Hx. destruct (decide (i = j)) as [<-|Hne].
  - rewrite list_lookup_insert_eq in Hx by done. injection Hx as <-.
    left. exists e, old. split_and!; [left|done..].
  - rewrite list_lookup_insert_ne in Hx by done. right. split; [|done].
    intros e' ->%list_elem_of_singleton. congruence.
Qed.

Lemma stored_from_app rank m es1 es2 v0 v1 v2 :
  stored_from rank m es1 v0 v1 → stored_from rank m es2 v1 v2 →
  stored_from rank m (es1 ++ es2) v0 v2.
Proof.
  intros [Hl1 H1] [Hl2 H2]. split; [congruence|].
  intros i x Hx. destruct (H2 i x Hx) as [(e & old & He & Hm & ->)|[Hno2 Hx1]].
  { left. exists e, old. split_and!; [|done..]. apply elem_of_app. by right. }
  destruct (H1 i x Hx1) as [(e & old & He & Hm & ->)|[Hno1 Hx0]].
  { left. exists e, old. split_and!; [|done..]. apply elem_of_app. by left. }
  right. split; [|done].
  intros e [He|He]%elem_of_app; [by apply Hno1|by apply Hno2].
Qed.

Lemma storeOwned_loop_packed rank m es : ∀ S L preS preL restS restL volElem,
  Forall CPrimalGrid.wf es →
  S = preS ++ flat_map packElemShort es ++ restS →
  L = preL ++ flat_map packElemLong es ++ restL →
  (∀ e, e ∈ es → ∃ i, m !! CPrimalGrid.GlobalElemID e = Some i
                      ∧ (i < length volElem)%nat) →
  ∃ indS indL volElem',
    storeOwned_loop rank m S L (length es) (length preS) (length preL) volElem
    = Ok (indS, indL, volElem')
    ∧ stored_from rank m es volElem volElem'.
Proof.
  induction es as [|e es IH];
    intros S L preS preL restS restL volElem Hwf HS HL Hm.
  { eexists _, _, _. split; [done|]. apply stored_from_nil. }
  apply Forall_cons in Hwf as [Hwf Hwfs].
  destruct (packed_element_reads e es S L preS preL restS restL Hwf HS HL)
    as (Hd & Hf & Hg & Hnd & Hnf & HS' & HL').
  destruct (Hm e) as (i & Hi & Hlt); [left|].
  destruct (lookup_lt_is_Some_2 volElem i Hlt) as [old Hold].
  cbn [length storeOwned_loop]. rewrite Hg. osimpl.
  rewrite to_ulong_to_long by apply Hwf.
  unfold findSecond. rewrite Hi. osimpl. unfold readAt at 1. rewrite Hold.
  osimpl.
  assert (readAt S (length preS) = Ok (to_short (CPrimalGrid.VTK_Type e)))
    as -> by (subst S; by rewrite readAt_app_0).
  assert (readAt S (length preS + 1) = Ok (to_short (CPrimalGrid.NPolyGrid e)))
    as -> by (subst S; by rewrite readAt_app_r).
  assert (readAt S (length preS + 2) = Ok (to_short (CPrimalGrid.NPolySol e)))
    as -> by (subst S; by rewrite readAt_app_r).
  rewrite Hd.
  assert (readAt S (length preS + 4) = Ok (to_short (CPrimalGrid.NDOFsSol e)))
    as -> by (subst S; by rewrite readAt_app_r).
  rewrite Hf.
  assert (readAt S (length preS + 6)
          = Ok (b2z (CPrimalGrid.JacobianConsideredConstant e)))
    as -> by (subst S; by rewrite readAt_app_r).
  assert (readAt L (length preL + 1)
          = Ok (to_long (CPrimalGrid.GlobalOffsetDOFsSol e)))
    as -> by (subst L; by rewrite readAt_app_r).
  osimpl. rewrite Hnd, Hnf.
  assert (readRange L (length preL + 2) (length (CPrimalGrid.Nodes e))
          = Ok (map to_long (CPrimalGrid.Nodes e))) as ->.
  { unfold readRange.
    replace (length preL + 2)%nat
      with (length (preL ++ [to_long (CPrimalGrid.GlobalElemID e);
                             to_long (CPrimalGrid.GlobalOffsetDOFsSol e)]))
      by (rewrite length_app; done).
    rewrite <- (length_map to_long (CPrimalGrid.Nodes e)).
    rewrite HL'. unfold packElemLong.
    rewrite <- !app_assoc. rewrite (app_assoc preL).
    apply readRange_gen_app. }
  assert (readJacFaces S (length preS + 7) (length (CPrimalGrid.Faces e))
          = Ok (map CPrimalGrid.JacobianConstantFace (CPrimalGrid.Faces e)))
    as ->.
  { replace (length preS + 7)%nat with (length (preS ++ elemHeaderShort e))
      by (rewrite length_app; done).
    rewrite HS'. unfold packElemShort.
    rewrite <- !app_assoc. rewrite (app_assoc preS).
    apply readJacFaces_packed. }
  osimpl. unfold writeAt. rewrite decide_True by done. osimpl.
  set (new := CVolumeElementFEM.mk _ _ _ _ _ _ _ _ _ _ _ _ _ _ _).
  assert (new = ownedElem rank e old) as ->.
  { unfold new, ownedElem.
    rewrite !to_ushort_to_short by apply Hwf.
    rewrite to_ulong_to_long by apply Hwf.
    rewrite map_to_ulong_to_long by apply Hwf.
    by destruct (CPrimalGrid.JacobianConsideredConstant e). }
  replace (length preS + 7 + 2 * length (CPrimalGrid.Faces e))%nat
    with (length (preS ++ packElemShort e))
    by (rewrite length_app, length_packElemShort; lia).
  replace (length preL + 2 + length (CPrimalGrid.Nodes e)
           + length (CPrimalGrid.Faces e))%nat
    with (length (preL ++ packElemLong e))
    by (rewrite length_app, length_packElemLong; lia).
  destruct (IH S L (preS ++ packElemShort e) (preL ++ packElemLong e)
              restS restL (<[i := ownedElem rank e old]> volElem)
              Hwfs HS' HL')
    as (indS & indL & volElem' & Hloop & Hst).
  { intros e' He'. destruct (Hm e') as (i' & Hi' & Hlt'); [by right|].
    exists i'. by rewrite length_insert. }
  exists indS, indL, volElem'. split; [done|].
  apply (stored_from_app rank m [e] es _ _ _ (stored_from_one _ _ _ _ old _ Hi Hlt) Hst).
Qed.

Lemma storeOwned_packed rank m s volElem :
  wf_sender s →
  (∀ e, e ∈ sentElems s → ∃ i, m !! CPrimalGrid.GlobalElemID e = Some i
                               ∧ (i < length volElem)%nat) →
  ∃ volElem', storeOwned rank m volElem (recvBufOf s) = Ok volElem'
              ∧ stored_from rank m (sentElems s) volElem volElem'.
Proof.
  intros [Hwf Hlen] Hm. unfold storeOwned, recvBufOf, packElems.
  cbn [longBuf shortBuf]. rewrite elemCount_packed by done. osimpl.
  destruct (storeOwned_loop_packed rank m (sentElems s)
              (flat_map packElemShort (sentElems s) ++ restShort s)
              (Z.of_nat (length (sentElems s))
               :: flat_map packElemLong (sentElems s) ++ restLong s)
              [] [Z.of_nat (length (sentElems s))] (restShort s) (restLong s)
              volElem Hwf eq_refl eq_refl Hm)
    as (indS & indL & volElem' & Hloop & Hst).
  cbn [length] in Hloop. rewrite Hloop. osimpl. by exists volElem'.
Qed.

Lemma storeOwned_all rank m senders : ∀ volElem,
  Forall wf_sender senders →
  (∀ e, e ∈ flat_map sentElems senders →
        ∃ i, m !! CPrimalGrid.GlobalElemID e = Some i
             ∧ (i < length volElem)%nat) →
  ∃ volElem',
    forEachBuf (storeOwned rank m) (map recvBufOf senders) volElem = Ok volElem'
    ∧ stored_from rank m (flat_map sentElems senders) volElem volElem'.
Proof.
  induction senders as [|s senders IH]; intros volElem Hwf Hm.
  { exists volElem. split; [done|]. apply stored_from_nil. }
  apply Forall_cons in Hwf as [Hs Hwf]. cbn [map forEachBuf flat_map].
  destruct (storeOwned_packed rank m s volElem Hs) as (v1 & Hv1 & Hst1).
  { intros e He. apply Hm. cbn [flat_map]. apply elem_of_app. by left. }
  rewrite Hv1. osimpl.
  destruct (IH v1 Hwf) as (v2 & Hv2 & Hst2).
  { intros e He. destruct (Hm e) as (i & Hi & Hlt).
    - cbn [flat_map]. apply elem_of_app. by right.
    - exists i. split; [done|]. destruct Hst1 as [-> _]. done. }
  exists v2. split; [done|]. by eapply stored_from_app.
Qed.

(** With pairwise different global IDs, every owned slot holds the
    element with the ID of that rank in the sorted list. *)
Lemma owned_slots_in_order rank (ids : list Z) es v0 v1 :
  NoDup (map CPrimalGrid.GlobalElemID es) →
  ids = sort Z.ltb (map CPrimalGrid.GlobalElemID es) →
  stored_from rank (mapGlobalElemIDToInd ids) es v0 v1 →
  (length ids ≤ length v0)%nat →
  (∀ i g, ids !! i = Some g →
     ∃ v, v1 !! i = Some v ∧ CVolumeElementFEM.elemIsOwned v = true
          ∧ CVolumeElementFEM.elemIDGlobal v = g)
  ∧ (∀ i, (length ids ≤ i)%nat → v1 !! i = v0 !! i)
  ∧ StronglySorted Z.lt ids.
Proof.
  intros Hnd Hids [Hlen Hst] Hle.
  assert (ids ≡ₚ map CPrimalGrid.GlobalElemID es) as Hperm.
  { rewrite Hids. apply (sort_Permutation Z.ltb). }
  assert (NoDup ids) as Hnd' by (by rewrite Hperm).
  assert (∀ g i, mapGlobalElemIDToInd ids !! g = Some i → ids !! i = Some g)
    as Hback.
  { intros g i Hi. apply fillIndexMap_inv in Hi as [(j & Hj & ->)|Hi]; done. }
  split_and!.
  - intros i g Hi.
    destruct (lookup_lt_is_Some_2 v1 i) as [v Hv].
    { apply lookup_lt_Some in Hi. lia. }
    exists v. split; [done|].
    destruct (Hst i v Hv) as [(e & old & He & Hm & ->)|[Hno _]].
    + split; [done|]. apply Hback in Hm. simpl. congruence.
    + exfalso. assert (g ∈ map CPrimalGrid.GlobalElemID es) as Hg.
      { rewrite <- Hperm. by eapply list_elem_of_lookup_2. }
      apply list_elem_of_fmap in Hg as (e & -> & He).
      apply (Hno e He). unfold mapGlobalElemIDToInd.
      by rewrite (fillIndexMap_lookup _ _ _ _ i _ Hnd' Hi).
  - intros i Hi. destruct (v1 !! i) as [v|] eqn:Hv.
    + destruct (Hst i v Hv) as [(e & old & He & Hm & ->)|[_ Hv0]]; [|done].
      apply Hback in Hm. apply lookup_lt_Some in Hm. lia.
    + symmetry. apply lookup_ge_None. apply lookup_ge_None in Hv. lia.
  - pose proof (sort_StronglySorted Z.ltb (map CPrimalGrid.GlobalElemID es))
      as Hs.
    rewrite <- Hids in Hs. clear -Hs Hnd'.
    induction Hs as [|x l Hl IH Hx]; constructor.
    + apply IH. by apply NoDup_cons in Hnd' as [_ ?].
    + apply NoDup_cons in Hnd' as [Hx' _].
      rewrite Forall_forall in *. intros y Hy. specialize (Hx y Hy).
      unfold not_gt in Hx. assert (x ≠ y) by (intros ->; done). lia.
Qed.

(** ** The halo elements in the array of volume elements *)

Lemma readRange_gen_length {A} (L : list A) n : ∀ i xs,
  readRange_gen L i n = Ok xs → length xs = n.
Proof.
  induction n as [|n IH]; intros i xs; cbn [readRange_gen].
  { by intros [= <-]. }
  destruct (readAt L i); osimpl; try done.
  destruct (readRange_gen L (S i) n) eqn:E; osimpl; try done.
  intros [= <-]. cbn [length]. f_equal. by eapply IH.
Qed.

Lemma readRange_gen_in_bounds {A} (L : list A) n : ∀ i,
  (i + n ≤ length L)%nat → ∃ xs, readRange_gen L i n = Ok xs.
Proof.
  induction n as [|n IH]; intros i Hi; cbn [readRange_gen]; [by eexists|].
  destruct (lookup_lt_is_Some_2 L i) as [x Hx]; [lia|].
  unfold readAt. rewrite Hx. osimpl.
  destruct (IH (S i)) as [xs Hxs]; [lia|]. rewrite Hxs. osimpl. by eexists.
Qed.

Lemma answerElems_Ok_inv {T} (geometry : CGeometry.t T) rank items :
  ∀ req pre rest S L nodeIDs r,
  req = pre ++ requestTriples items ++ rest →
  answerElems geometry rank req (length items) (length pre) S L nodeIDs = Ok r →
  ∃ es, length es = length items
        ∧ Forall (λ e, e ∈ CGeometry.elem geometry) es
        ∧ r = (S ++ answeredShort (zip items es),
               L ++ answeredLong (zip items es),
               nodeIDs ++ answeredNodeIDs (zip items es)).
Proof.
  induction items as [|[[g p] s] items IH];
    intros req pre rest S L nodeIDs r Hreq Hr.
  { exists []. simpl in Hr. injection Hr as <-.
    split_and!; [done|constructor|]. by rewrite !app_nil_r. }
  assert (req = pre ++ [g; p; s] ++ requestTriples items ++ rest) as Hreq'
    by (by rewrite Hreq).
  destruct (request_reads pre (requestTriples items ++ rest) g p s)
    as (Hg & Hp & Hs).
  rewrite <- Hreq' in Hg, Hp, Hs.
  cbn [length answerElems] in Hr. rewrite Hg in Hr. osimpl.
  destruct (readAt (CGeometry.starting_node geometry) rank) as [start| |];
    osimpl; try done.
  destruct (readAt (CGeometry.npoint_procs geometry) rank) as [np| |];
    osimpl; try done.
  destruct (invalidLocElemInd (locElemIndOf g start) np); [done|].
  rewrite Hp, Hs in Hr. osimpl.
  destruct (readAt (CGeometry.elem geometry) (Z.to_nat (locElemIndOf g start)))
    as [e| |] eqn:He; osimpl; try done.
  replace (length pre + 3)%nat with (length (pre ++ [g; p; s])) in Hr
    by (rewrite length_app; done).
  eapply (IH req (pre ++ [g; p; s]) rest) in Hr as (es & Hlen & Hin & ->);
    [|by rewrite <- app_assoc].
  exists (e :: es). split_and!.
  - cbn [length]. by rewrite Hlen.
  - constructor; [|done]. unfold readAt in He.
    destruct (CGeometry.elem geometry !! _) eqn:El; [|done].
    injection He as ->. by eapply list_elem_of_lookup_2.
  - unfold answeredShort, answeredLong, answeredNodeIDs.
    cbn [zip_with flat_map]. by rewrite <- !app_assoc.
Qed.

Lemma answerCoords_length {T} (geometry : CGeometry.t T) nodeIDs : ∀ D D',
  answerCoords geometry nodeIDs D = Ok D' →
  length D' = (length D + CGeometry.nDim geometry * length nodeIDs)%nat.
Proof.
  induction nodeIDs as [|nd nodeIDs IH]; intros D D'; cbn [answerCoords].
  { intros [= <-]. simpl. lia. }
  unfold findLocalNode.
  destruct (globalPointIDToLocalInd geometry !! long0 nd); osimpl; [|done].
  destruct (readAt (CGeometry.nodes geometry) n) as [node| |]; osimpl; try done.
  destruct (readRange_gen (CGeometry.Coord node) 0 (CGeometry.nDim geometry))
    as [xs| |] eqn:Hxs; osimpl; try done.
  intros HD'. rewrite (IH _ _ HD'), length_app.
  rewrite (readRange_gen_length _ _ _ _ Hxs). cbn [length]. lia.
Qed.

(** The shape of an answer that was sent. *)
Lemma answerRequests_Ok_inv {T} (geometry : CGeometry.t T) rank items ans :
  answerRequests geometry rank (requestTriples items) = Ok ans →
  ∃ es nodeIDs,
    length es = length items
    ∧ Forall (λ e, e ∈ CGeometry.elem geometry) es
    ∧ ansShort ans
      = answeredShort (zip items es)
        ++ map (λ nd, to_short (to_short (long1 nd) - 1)) nodeIDs
    ∧ ansLong ans
      = Z.of_nat (length items)
        :: answeredLong (zip items es)
        ++ [Z.of_nat (length nodeIDs)]
        ++ map (λ nd, to_long (long0 nd)) nodeIDs
    ∧ length (ansDouble ans)
      = (CGeometry.nDim geometry * length nodeIDs)%nat.
Proof.
  unfold answerRequests. rewrite length_requestTriples.
  rewrite Nat.mul_comm, Nat.div_mul by done.
  destruct (answerElems _ _ _ _ _ _ _ _) as [[[S L] nodeIDs]| |] eqn:Hel;
    osimpl; try done.
  destruct (answerElems_Ok_inv geometry rank items (requestTriples items)
              [] [] _ _ _ _ (eq_sym (app_nil_r _)) Hel)
    as (es & Hlen & Hin & [= -> -> ->]).
  destruct (answerCoords _ _ _) as [D| |] eqn:HD; osimpl; try done.
  intros [= <-]. exists es, (dedup ul2_lt ul2_eqb (answeredNodeIDs (zip items es))).
  cbn [ansShort ansLong ansDouble app].
  split_and!; [done..|].
  by rewrite (answerCoords_length _ _ _ _ HD).
Qed.

Lemma halo_stored_from_nil v : halo_stored_from [] v v.
Proof.
  split; [done|]. intros j x Hx. right. split; [|done].
  intros y Hy. by apply elem_of_nil in Hy.
Qed.

Lemma halo_stored_from_one x old v :
  (slotOf x < length v)%nat →
  halo_stored_from [x] v (<[slotOf x := haloElemOf x old]> v).
Proof.
  intros Hi. split; [by rewrite length_insert|].
  intros j y Hy. destruct (decide (slotOf x = j)) as [<-|Hne].
  - rewrite list_lookup_insert_eq in Hy by done. injection Hy as <-.
    left. exists x, old. split_and!; [left|done..].
  - rewrite list_lookup_insert_ne in Hy by done. right. split; [|done].
    intros x' ->%list_elem_of_singleton. done.
Qed.

Lemma halo_stored_from_app xs1 xs2 v0 v1 v2 :
  halo_stored_from xs1 v0 v1 → halo_stored_from xs2 v1 v2 →
  halo_stored_from (xs1 ++ xs2) v0 v2.
Proof.
  intros [Hl1 H1] [Hl2 H2]. split; [congruence|].
  intros j y Hy. destruct (H2 j y Hy) as [(x & old & Hx & Hs & ->)|[Hno2 Hy1]].
  { left. exists x, old. split_and!; [|done..]. apply elem_of_app. by right. }
  destruct (H1 j y Hy1) as [(x & old & Hx & Hs & ->)|[Hno1 Hy0]].
  { left. exists x, old. split_and!; [|done..]. apply elem_of_app. by left. }
  right. split; [|done].
  intros x [Hx|Hx]%elem_of_app; [by apply Hno1|by apply Hno2].
Qed.

Lemma halo_stored_from_perm xs xs' v0 v1 :
  xs ≡ₚ xs' → halo_stored_from xs v0 v1 → halo_stored_from xs' v0 v1.
Proof.
  intros Hp [Hl H]. split; [done|]. intros j y Hy.
  destruct (H j y Hy) as [(x & old & Hx & Hs & ->)|[Hno Hy0]].
  - left. exists x, old. by rewrite <- Hp.
  - right. split; [|done]. intros x Hx. apply Hno. by rewrite Hp.
Qed.

Lemma length_answerElemShort p e : length (answerElemShort p e) = 7%nat.
Proof. done. Qed.

Lemma length_answerElemLong g s e :
  length (answerElemLong g s e) = (3 + length (CPrimalGrid.Nodes e))%nat.
Proof. unfold answerElemLong. by rewrite length_app, length_map. Qed.

Lemma storeHalo_loop_packed xs : ∀ S L preS preL restS restL volElem,
  S = preS ++ answeredShort xs ++ restS →
  L = preL ++ answeredLong xs ++ restL →
  Forall (λ x, CPrimalGrid.wf x.2) xs →
  (∀ x, x ∈ xs → (slotOf x < length volElem)%nat) →
  ∃ volElem',
    storeHalo_loop S L (length xs) (length preS) (length preL) volElem
    = Ok ((length preS + length (answeredShort xs))%nat,
          (length preL + length (answeredLong xs))%nat, volElem')
    ∧ halo_stored_from xs volElem volElem'.
Proof.
  induction xs as [|[[[g p] s] e] xs IH];
    intros S L preS preL restS restL volElem HS HL Hwf Hslot.
  { exists volElem. simpl. rewrite !Nat.add_0_r.
    split; [done|]. apply halo_stored_from_nil. }
  apply Forall_cons in Hwf as [Hwf Hwfs]. simpl in Hwf.
  assert (slotOf ((g, p, s), e) < length volElem)%nat as Hlt
    by (apply Hslot; left).
  destruct (lookup_lt_is_Some_2 volElem _ Hlt) as [old Hold].
  unfold slotOf in Hold. simpl in Hold.
  unfold answeredShort, answeredLong in HS, HL. cbn [flat_map] in HS, HL.
  fold (answeredShort xs) in HS. fold (answeredLong xs) in HL.
  rewrite <- app_assoc in HS, HL.
  cbn [length storeHalo_loop].
  assert (readAt L (length preL) = Ok g) as ->
    by (subst L; by rewrite readAt_app_0).
  assert (readAt L (length preL + 1) = Ok s) as ->
    by (subst L; by rewrite readAt_app_r).
  assert (readAt L (length preL + 2) = Ok (to_long (CPrimalGrid.Color e))) as ->
    by (subst L; by rewrite readAt_app_r).
  osimpl. unfold readAt at 1. rewrite Hold. osimpl.
  assert (readAt S (length preS) = Ok (to_short p)) as ->
    by (subst S; by rewrite readAt_app_0).
  assert (readAt S (length preS + 1) = Ok (to_short (CPrimalGrid.VTK_Type e)))
    as -> by (subst S; by rewrite readAt_app_r).
  assert (readAt S (length preS + 2) = Ok (to_short (CPrimalGrid.NPolyGrid e)))
    as -> by (subst S; by rewrite readAt_app_r).
  assert (readAt S (length preS + 3) = Ok (to_short (CPrimalGrid.NPolySol e)))
    as -> by (subst S; by rewrite readAt_app_r).
  assert (readAt S (length preS + 4) = Ok (to_short (CPrimalGrid.NDOFsGrid e)))
    as -> by (subst S; by rewrite readAt_app_r).
  assert (readAt S (length preS + 5) = Ok (to_short (CPrimalGrid.NDOFsSol e)))
    as -> by (subst S; by rewrite readAt_app_r).
  assert (readAt S (length preS + 6) = Ok (to_short (CPrimalGrid.nFaces e)))
    as -> by (subst S; by rewrite readAt_app_r).
  osimpl.
  assert (Z.to_nat (to_ushort (to_short (CPrimalGrid.NDOFsGrid e)))
          = length (CPrimalGrid.Nodes e)) as ->
    by apply nat_of_ushort_count, Hwf.
  assert (readRange L (length preL + 3) (length (CPrimalGrid.Nodes e))
          = Ok (map to_long (CPrimalGrid.Nodes e))) as ->.
  { unfold readRange.
    replace (length preL + 3)%nat
      with (length (preL ++ [g; s; to_long (CPrimalGrid.Color e)]))
      by (rewrite length_app; done).
    rewrite <- (length_map to_long (CPrimalGrid.Nodes e)).
    rewrite HL. unfold answerElemLong.
    rewrite <- !app_assoc. rewrite (app_assoc preL).
    apply readRange_gen_app. }
  osimpl. unfold writeAt. rewrite decide_True by done. osimpl.
  destruct (IH S L (preS ++ answerElemShort (to_short p) e)
              (preL ++ answerElemLong g s e) restS restL
              (<[Z.to_nat (to_ulong s) :=
                   haloElemOf ((g, p, s), e) old]> volElem))
    as (v' & Hloop & Hst).
  { by rewrite <- app_assoc. }
  { by rewrite <- app_assoc. }
  { done. }
  { intros x Hx. rewrite length_insert. apply Hslot. by right. }
  exists v'. split.
  - rewrite !length_app, length_answerElemShort, length_answerElemLong in Hloop.
    replace (length preS + 7)%nat with (length preS + 7)%nat in Hloop by done.
    replace (length preL + 3 + length (CPrimalGrid.Nodes e))%nat
      with (length preL + (3 + length (CPrimalGrid.Nodes e)))%nat by lia.
    unfold haloElemOf in Hloop. rewrite Hloop.
    unfold answeredShort, answeredLong. cbn [flat_map].
    rewrite !length_app, length_answerElemShort, length_answerElemLong.
    do 2 f_equal. f_equal; lia.
  - apply (halo_stored_from_app [((g, p, s), e)] xs _ _ _
             (halo_stored_from_one ((g, p, s), e) old volElem Hlt) Hst).
Qed.

Lemma storeHaloPoints_loop_ok {T} nDim (coor0 : list T) S L D n :
  ∀ indS indL indD hp,
  (indS + n ≤ length S)%nat → (indL + n ≤ length L)%nat →
  (indD + nDim * n ≤ length D)%nat →
  ∃ hp', storeHaloPoints_loop nDim coor0 S L D n indS indL indD hp = Ok hp'.
Proof.
  induction n as [|n IH]; intros indS indL indD hp HS HL HD;
    cbn [storeHaloPoints_loop]; [by eexists|].
  destruct (lookup_lt_is_Some_2 L indL) as [g Hg]; [lia|].
  destruct (lookup_lt_is_Some_2 S indS) as [p Hp]; [lia|].
  unfold readAt. rewrite Hg, Hp. osimpl.
  destruct (readRange_gen_in_bounds D nDim indD) as [xs Hxs]; [lia|].
  rewrite Hxs. osimpl. apply IH; lia.
Qed.

Lemma requestTriples_inj xs ys : requestTriples xs = requestTriples ys → xs = ys.
Proof.
  revert ys. induction xs as [|[[a b] c] xs IH]; intros [|[[a' b'] c'] ys];
    cbn; try done.
  intros [= -> -> -> H]. f_equal. by apply IH.
Qed.

(** What this rank does with the answer to the requests [items]. *)
Lemma storeHalo_answer {T} nDim (coor0 : list T) items ans v hp :
  answered_by_owner nDim (requestTriples items, ans) →
  (∀ it, it ∈ items → (Z.to_nat (to_ulong it.2) < length v)%nat) →
  ∃ v' hp' xs,
    storeHalo nDim coor0 (v, hp) ans = Ok (v', hp')
    ∧ halo_stored_from xs v v' ∧ map fst xs = items.
Proof.
  intros (geometry & rank & Hans & Hdim & Hwf) Hslot. simpl in Hans.
  destruct (answerRequests_Ok_inv geometry rank items ans Hans)
    as (es & nodeIDs & Hlen & Hin & HS & HL & HD).
  set (xs := zip items es).
  assert (map fst xs = items) as Hfst.
  { unfold xs. apply fst_zip. lia. }
  assert (length xs = length items) as Hlxs by (by rewrite <- Hfst, length_map).
  destruct (storeHalo_loop_packed xs (ansShort ans) (ansLong ans) []
              [Z.of_nat (length items)]
              (map (λ nd, to_short (to_short (long1 nd) - 1)) nodeIDs)
              ([Z.of_nat (length nodeIDs)]
                 ++ map (λ nd, to_long (long0 nd)) nodeIDs) v)
    as (v' & Hloop & Hst); [done|done| | |].
  { apply Forall_forall. intros [it e] Hx. simpl.
    apply elem_of_zip_r in Hx. rewrite Forall_forall in Hin, Hwf.
    apply Hwf, Hin, Hx. }
  { intros [it e] Hx. unfold slotOf. simpl. apply Hslot.
    by apply elem_of_zip_l in Hx. }
  assert (∃ hp', storeHalo nDim coor0 (v, hp) ans = Ok (v', hp')) as [hp' Hs].
  2:{ by exists v', hp', xs. }
  unfold storeHalo.
  assert (readAt (ansLong ans) 0 = Ok (Z.of_nat (length items))) as ->
    by (by rewrite HL).
  osimpl. unfold signedCount. rewrite Nat2Z.id, <- Hlxs.
  cbn [length] in Hloop. rewrite Hloop. osimpl.
  assert (readAt (ansLong ans) (1 + length (answeredLong xs))
          = Ok (Z.of_nat (length nodeIDs))) as ->.
  { rewrite HL.
    change (Z.of_nat (length items) :: answeredLong (zip items es) ++ ?r)
      with (([Z.of_nat (length items)] ++ answeredLong xs) ++ r).
    replace (1 + length (answeredLong xs))%nat
      with (length ([Z.of_nat (length items)] ++ answeredLong xs)) by done.
    by rewrite readAt_app_0. }
  osimpl. rewrite Nat2Z.id.
  destruct (storeHaloPoints_loop_ok nDim coor0 (ansShort ans) (ansLong ans)
              (ansDouble ans) (length nodeIDs)
              (0 + length (answeredShort xs)) (1 + length (answeredLong xs) + 1)
              0 hp) as [hp' Hhp].
  - rewrite HS, length_app, length_map. fold xs. lia.
  - rewrite HL. cbn [length]. rewrite !length_app, length_map. fold xs.
    cbn [length]. lia.
  - rewrite HD, Hdim. lia.
  - rewrite Hhp. osimpl. by exists hp'.
Qed.

Lemma storeHalo_all {T} nDim (coor0 : list T) :
  ∀ (exchanged : list (list Z * answerBuf T)) itemss v hp,
  map fst exchanged = map requestTriples itemss →
  Forall (answered_by_owner nDim) exchanged →
  (∀ it, it ∈ concat itemss → (Z.to_nat (to_ulong it.2) < length v)%nat) →
  ∃ v' hp' xs,
    forEachBuf (storeHalo nDim coor0) (map snd exchanged) (v, hp) = Ok (v', hp')
    ∧ halo_stored_from xs v v' ∧ map fst xs = concat itemss.
Proof.
  induction exchanged as [|[req ans] exchanged IH];
    intros itemss v hp Hreqs Hans Hslot.
  { destruct itemss; [|done]. exists v, hp, [].
    split_and!; [done|apply halo_stored_from_nil|done]. }
  destruct itemss as [|items itemss]; [done|].
  cbn [map] in Hreqs. injection Hreqs as Hreq Hreqs. simpl in Hreq. subst req.
  apply Forall_cons in Hans as [Ha Hans].
  destruct (storeHalo_answer nDim coor0 items ans v hp Ha)
    as (v1 & hp1 & xs1 & Hst & Hfrom1 & Hfst1).
  { intros it Hit. apply Hslot. cbn [concat]. apply elem_of_app. by left. }
  cbn [map forEachBuf]. simpl snd. rewrite Hst. osimpl.
  destruct (IH itemss v1 hp1 Hreqs Hans) as (v2 & hp2 & xs2 & Hst2 & Hfrom2 & Hfst2).
  { intros it Hit. destruct Hfrom1 as [-> _]. apply Hslot.
    cbn [concat]. apply elem_of_app. by right. }
  exists v2, hp2, (xs1 ++ xs2). split_and!; [done| |].
  - by eapply halo_stored_from_app.
  - rewrite map_app. cbn [concat]. congruence.
Qed.

(** ** The requests for the halo elements *)

Lemma concat_insert_snoc {A} (ls : list (list A)) : ∀ i l x,
  ls !! i = Some l → concat (<[i := l ++ [x]]> ls) ≡ₚ concat ls ++ [x].
Proof.
  induction ls as [|l0 ls IH]; intros i l x Hi; [done|].
  destruct i as [|i]; simpl in *.
  - injection Hi as ->. rewrite <- !app_assoc.
    apply Permutation_app_head, Permutation_app_comm.
  - rewrite (IH i l x Hi). by rewrite app_assoc.
Qed.

Lemma requestOf_item h slot : requestOf h slot = requestTriples [requestItem h slot].
Proof. done. Qed.

Lemma fillRequests_inv table comm haloMap hs : ∀ itemss bufs',
  fillRequests table comm haloMap hs (map requestTriples itemss) = Ok bufs' →
  ∃ itemss' items,
    bufs' = map requestTriples itemss'
    ∧ concat itemss' ≡ₚ concat itemss ++ items
    ∧ Forall2 (λ h it, ∃ slot, haloMap !! h = Some slot
                               ∧ it = requestItem h slot) hs items.
Proof.
  induction hs as [|h hs IH]; intros itemss bufs'; cbn [fillRequests].
  { intros [= <-]. exists itemss, []. by rewrite app_nil_r. }
  destruct (rankOfHalo table (long0 h)) as [r| |]; osimpl; try done.
  unfold findSecond. destruct (comm !! r) as [ind|]; osimpl; try done.
  destruct (haloMap !! h) as [slot|] eqn:Hslot; osimpl; try done.
  unfold pushTo, readAt. rewrite list_lookup_fmap.
  destruct (itemss !! ind) as [l|] eqn:Hl; cbn [fmap option_fmap option_map];
    osimpl; try done.
  rewrite requestOf_item.
  replace (requestTriples l ++ requestTriples [requestItem h slot])
    with (requestTriples (l ++ [requestItem h slot]))
    by apply requestTriples_app.
  change (map requestTriples itemss) with (requestTriples <$> itemss).
  rewrite <- list_fmap_insert.
  intros Hrest. apply IH in Hrest as (itemss' & items & -> & Hperm & Hall).
  exists itemss', (requestItem h slot :: items). split_and!; [done| |].
  - rewrite Hperm, (concat_insert_snoc _ _ _ _ Hl). by rewrite <- app_assoc.
  - constructor; [|done]. by exists slot.
Qed.

Lemma haloRequests_inv {T} (geometry : CGeometry.t T) nRank haloMap hs reqs :
  haloRequests geometry nRank haloMap hs = Ok reqs →
  ∃ itemss items,
    reqs = map requestTriples itemss
    ∧ concat itemss ≡ₚ items
    ∧ Forall2 (λ h it, ∃ slot, haloMap !! h = Some slot
                               ∧ it = requestItem h slot) hs items.
Proof.
  unfold haloRequests.
  destruct (nElemPerRankOr geometry nRank) as [table| |]; osimpl; try done.
  destruct (markRanks table hs _) as [sendToRank| |]; osimpl; try done.
  set (n := size _).
  replace (replicate n ([] : list Z))
    with (map requestTriples (replicate n [])).
  - intros H. apply fillRequests_inv in H as (itemss & items & -> & Hp & Hall).
    exists itemss, items. split_and!; [done| |done].
    rewrite Hp. clear. induction n as [|n IH]; [done|]. simpl. exact IH.
  - clear. induction n as [|n IH]; [done|]. simpl. by rewrite IH.
Qed.

Lemma slot_of_requestItem h slot :
  Z.of_nat slot < 2 ^ 63 →
  Z.to_nat (to_ulong (requestItem h slot).2) = slot.
Proof.
  intros Hs. unfold requestItem. cbn [snd].
  rewrite to_ulong_to_long by (unfold is_ulong, ULONG_MOD; lia). lia.
Qed.

(** ** The periodic transformation *)

(** The value of the transformation in binary64 for a centre far from
    the points: the differences to the centre are rounded, and two
    points seven units apart are sent to the same point. *)
Lemma transformCoor_binary64_rounds (cosf sinf : float → float) :
  cosf 0%float = 1%float → sinf 0%float = 0%float →
  @transformCoor float float_order (float_arith cosf sinf) 3 far_centre
    (1, 0, 0)%float = (0, 0, 0)%float
  ∧ @transformCoor float float_order (float_arith cosf sinf) 3 far_centre
      (7, 0, 0)%float = (0, 0, 0)%float.
Proof.
  intros Hc Hs.
  unfold transformCoor, translationOf, rotMatrix, far_centre.
  cbn [CConfig.center CConfig.angles CConfig.trans su2_add su2_sub su2_mul
       su2_opp su2_cos su2_sin su2_zero float_arith float_order Nat.eqb].
  rewrite Hc, Hs. split; vm_compute; reflexivity.
Qed.




(** ** The conversion to the local numbering *)

Lemma translateNodes_not_abort m perPlus1 n : ∀ j nodes,
  is_abort (translateNodes m perPlus1 n j nodes) = false.
Proof.
  induction n as [|n IH]; intros j nodes; cbn [translateNodes]; [done|].
  unfold readAt. destruct (nodes !! j); osimpl; try done.
  unfold findSecond. destruct (m !! _); osimpl; try done.
  unfold writeAt. case_decide; osimpl; [apply IH|done].
Qed.

Lemma forEachElem_not_abort {A} (f : A → outcome A) (v : list A) :
  (∀ x, is_abort (f x) = false) → is_abort (forEachElem f v) = false.
Proof.
  intros Hf. induction v as [|x v IH]; cbn [forEachElem]; [done|].
  specialize (Hf x). destruct (f x); osimpl; try done.
  destruct (forEachElem f v); osimpl; done.
Qed.

Lemma translateVolElems_not_abort m volElem :
  is_abort (translateVolElems m volElem) = false.
Proof.
  apply forEachElem_not_abort. intros v. unfold translateVolElem.
  pose proof (translateNodes_not_abort m
                (CVolumeElementFEM.periodIndexToDonor v + 1)
                (Z.to_nat (CVolumeElementFEM.nDOFsGrid v)) 0
                (CVolumeElementFEM.nodeIDsGrid v)) as Hn.
  destruct (translateNodes _ _ _ _ _); osimpl; done.
Qed.

Lemma translateBoundaries_not_abort mElem m boundaries :
  is_abort (translateBoundaries mElem m boundaries) = false.
Proof.
  apply forEachElem_not_abort. intros b. unfold translateBoundary.
  assert (is_abort (forEachElem (translateSurfElem mElem m)
                      (CBoundaryFEM.surfElem b)) = false) as Hs.
  { apply forEachElem_not_abort. intros s. unfold translateSurfElem, findSecond.
    destruct (mElem !! _); osimpl; try done.
    pose proof (translateNodes_not_abort m 0
                  (Z.to_nat (CSurfaceElementFEM.nDOFsGrid s)) 0
                  (CSurfaceElementFEM.nodeIDsGrid s)) as Hn.
    destruct (translateNodes _ _ _ _ _); osimpl; done. }
  destruct (forEachElem _ _); osimpl; done.
Qed.

(** The conversion finds every node when it runs to its end. *)
Lemma translateNodes_Ok_found m perPlus1 n : ∀ j nodes nodes',
  translateNodes m perPlus1 n j nodes = Ok nodes' →
  ∀ k x, (j ≤ k < j + n)%nat → nodes !! k = Some x →
         ∃ ind, m !! UL2 x perPlus1 = Some ind
                ∧ nodes' !! k = Some (Z.of_nat ind).
Proof.
  induction n as [|n IH]; intros j nodes nodes'; cbn [translateNodes].
  { intros _ k x Hk. lia. }
  destruct (readAt nodes j) as [y| |] eqn:Hy; osimpl; try done.
  unfold findSecond. destruct (m !! UL2 y perPlus1) as [ind|] eqn:Hind;
    osimpl; try done.
  unfold writeAt. case_decide as Hlt; osimpl; [|done].
  intros Hrest k x Hk Hx.
  assert (∀ i z, (i < Datatypes.S j)%nat →
            <[j:=Z.of_nat ind]> nodes !! i = Some z → nodes' !! i = Some z)
    as Hkeep.
  { clear -Hrest. revert Hrest. generalize (<[j:=Z.of_nat ind]> nodes).
    generalize (Datatypes.S j). clear.
    induction n as [|n IH]; intros j nodes; cbn [translateNodes].
    { by intros [= <-]. }
    destruct (readAt nodes j); osimpl; try done.
    unfold findSecond. destruct (m !! _); osimpl; try done.
    unfold writeAt. case_decide; osimpl; [|done].
    intros Hrest i z Hi Hz. eapply (IH _ _ Hrest); [lia|].
    rewrite list_lookup_insert_ne by lia. done. }
  destruct (decide (k = j)) as [->|Hne].
  - unfold readAt in Hy. rewrite Hx in Hy. injection Hy as <-.
    exists ind. split; [done|]. apply Hkeep; [lia|].
    by rewrite list_lookup_insert_eq.
  - eapply (IH _ _ _ Hrest); [lia|].
    by rewrite list_lookup_insert_ne by done.
Qed.

(** C1. The last conversion of the node IDs of the volume elements and
    of the boundary elements looks every node up with [find] and uses the
    result without a test: when all nodes are in the map it puts the
    local indices in their place, and on a miss it dereferences the end
    of the map, which is undefined; it never prints a diagnostic and
    never stops the run itself, as the lookups of the packing do. The
    element on the nodes 0, 1, 7 and the boundary line on 0, 7, with the
    points 0, 1, 2 in the map, are such misses. *)
Theorem final_translation_miss_is_undefined :
  (∀ m volElem, is_abort (translateVolElems m volElem) = false)
  ∧ (∀ mElem m boundaries,
       is_abort (translateBoundaries mElem m boundaries) = false)
  ∧ translateVolElems three_points_map [triangle_012; triangle_017] = Undefined
  ∧ translateBoundaries {[0 := 0%nat]} three_points_map [boundary_line_07]
    = Undefined
  ∧ three_points_map !! UL2 7 0 = None
  ∧ findLocalNode {[0 := 0%nat; 1 := 1%nat; 2 := 2%nat]} 7
    = Abort [] entryNotFound.
Proof.
  split_and!.
  - apply translateVolElems_not_abort.
  - apply translateBoundaries_not_abort.
  - by vm_compute.
  - by vm_compute.
  - by vm_compute.
  - by vm_compute.
Qed.

(** ** The halo points without a periodic index *)

Section sorted_prefix.
Context {A : Type} (lt eqb : A → A → bool).
Context `{!StrictWeakOrder lt} `{!EqOfOrder lt eqb}.

(** When a strictly increasing list lies below all other elements, every
    nondecreasing arrangement of both starts with it. *)
Lemma sorted_perm_take_strict (valid others l' : list A) :
  StronglySorted (lt_true lt) valid →
  (∀ v w, v ∈ valid → w ∈ others → lt v w = true) →
  l' ≡ₚ valid ++ others → StronglySorted (not_gt lt) l' →
  take (length valid) l' = valid.
Proof.
  intros Hs. revert l'.
  induction Hs as [|x valid Hv IH Hx]; intros l' Hlow Hp Hl'; [done|].
  destruct l' as [|y l'].
  { symmetry in Hp. by apply Permutation_nil_r in Hp. }
  apply StronglySorted_inv in Hl' as [Hl' Hy].
  assert (∀ z, z ∈ valid ++ others → lt x z = true) as Hbelow.
  { intros z [Hz|Hz]%elem_of_app.
    - rewrite Forall_forall in Hx. by apply Hx.
    - apply Hlow; [left|done]. }
  assert (y = x) as ->.
  { assert (y ∈ x :: valid ++ others) as Hin by (rewrite <- Hp; left).
    apply elem_of_cons in Hin as [->|Hin]; [done|].
    pose proof (Hbelow y Hin) as Hxy.
    assert (x ∈ y :: l') as Hin' by (rewrite Hp; left).
    apply elem_of_cons in Hin' as [->|Hin']; [done|].
    rewrite Forall_forall in Hy. pose proof (Hy _ Hin') as Hyx.
    unfold not_gt in Hyx. congruence. }
  cbn [length take]. f_equal. apply IH; [|by apply Permutation_cons_inv in Hp|done].
  intros v w Hv' Hw. apply Hlow; [by right|done].
Qed.

End sorted_prefix.

Section nonperiodic.
Context {T : Type}.
Implicit Types (p q : CPointFEM.t T) (l : list (CPointFEM.t T)).

Lemma pointFEM_lt_per p q :
  pointFEM_lt p q = true →
  CPointFEM.periodIndexToDonor p <= CPointFEM.periodIndexToDonor q.
Proof. unfold pointFEM_lt. case_match; simpl in *; lia. Qed.

Lemma periodic_tail l p :
  StronglySorted (lt_true pointFEM_lt) (p :: l) →
  CPointFEM.periodIndexToDonor p ≠ -1 → -1 <= CPointFEM.periodIndexToDonor p →
  Forall (λ q, CPointFEM.periodIndexToDonor q ≠ -1) (p :: l).
Proof.
  intros [_ Hp]%StronglySorted_inv Hne Hge. constructor; [done|].
  eapply Forall_impl; [exact Hp|]. intros q Hq%pointFEM_lt_per. lia.
Qed.

Lemma isLocalPoint_periodic meshPoints l :
  Forall (λ q, CPointFEM.periodIndexToDonor q ≠ -1) l →
  Forall (λ q, isLocalPoint meshPoints q = false) l.
Proof.
  intros Hl. eapply Forall_impl; [exact Hl|]. intros q Hq. unfold isLocalPoint.
  destruct (Z.eqb_spec (CPointFEM.periodIndexToDonor q) (-1)); done.
Qed.

Lemma markLocalHaloPoints_sorted meshPoints inv l :
  StronglySorted (lt_true pointFEM_lt) l → Forall validPeriodicIndex l →
  markLocalHaloPoints meshPoints inv l
  = (map (λ p, if isLocalPoint meshPoints p then invalidated inv p else p) l,
     length (List.filter (isLocalPoint meshPoints) l)).
Proof.
  induction l as [|p l IH]; intros Hs Hv; [done|].
  cbn [markLocalHaloPoints].
  apply Forall_cons in Hv as [Hp Hv].
  destruct (Z.eqb_spec (CPointFEM.periodIndexToDonor p) (-1)) as [Hper|Hper];
    cbn [negb].
  - cbn [map List.filter].
    rewrite IH; [|by apply StronglySorted_inv in Hs as [? _]|done].
    assert (isLocalPoint meshPoints p
            = binary_search pointFEM_lt meshPoints p) as ->
      by (unfold isLocalPoint; by rewrite Hper).
    by destruct (binary_search pointFEM_lt meshPoints p).
  - pose proof (isLocalPoint_periodic meshPoints (p :: l)
                  (periodic_tail l p Hs Hper (proj1 Hp))) as Hno.
    clear -Hno. revert Hno. generalize (p :: l). clear.
    intros l' Hno. cbn [negb]. f_equal.
    + induction Hno as [|q l' Hq _ IH]; [done|]. cbn [map]. by rewrite Hq, <- IH.
    + induction Hno as [|q l' Hq _ IH]; [done|].
      cbn [List.filter]. by rewrite Hq.
Qed.

Lemma marked_Permutation meshPoints inv l :
  map (λ p, if isLocalPoint meshPoints p then invalidated inv p else p) l
  ≡ₚ List.filter (λ p, negb (isLocalPoint meshPoints p)) l
     ++ map (invalidated inv) (List.filter (isLocalPoint meshPoints) l).
Proof.
  induction l as [|p l IH]; [done|]. cbn [map List.filter].
  destruct (isLocalPoint meshPoints p); cbn [negb map].
  - rewrite IH. apply Permutation_middle.
  - cbn [app]. by rewrite IH.
Qed.

Lemma filter_StronglySorted (R : relation (CPointFEM.t T)) f l :
  StronglySorted R l → StronglySorted R (List.filter f l).
Proof.
  induction 1 as [|p l Hl IH Hp]; [constructor|]. cbn [List.filter].
  destruct (f p); [|done]. constructor; [done|].
  rewrite Forall_forall in *. intros q Hq. apply Hp.
  apply list_elem_of_In, filter_In in Hq as [Hq _]. by apply list_elem_of_In.
Qed.

Lemma elem_of_filter_bool f l p : p ∈ List.filter f l ↔ p ∈ l ∧ f p = true.
Proof. by rewrite !list_elem_of_In, filter_In. Qed.

Lemma nonPeriodicHaloPoints_sorted l :
  StronglySorted (lt_true pointFEM_lt) l → Forall validPeriodicIndex l →
  nonPeriodicHaloPoints l
  = List.filter (λ p, CPointFEM.periodIndexToDonor p =? -1) l.
Proof.
  induction l as [|p l IH]; intros Hs Hv; [done|].
  cbn [nonPeriodicHaloPoints List.filter].
  apply Forall_cons in Hv as [Hp Hv].
  destruct (Z.eqb_spec (CPointFEM.periodIndexToDonor p) (-1)) as [Hper|Hper];
    cbn [negb].
  - f_equal. apply IH; [by apply StronglySorted_inv in Hs as [? _]|done].
  - pose proof (periodic_tail l p Hs Hper (proj1 Hp)) as Hno.
    apply Forall_cons in Hno as [_ Hno]. clear -Hno.
    induction Hno as [|q l' Hq _ IH]; [done|]. cbn [List.filter].
    by destruct (Z.eqb_spec (CPointFEM.periodIndexToDonor q) (-1)).
Qed.

Lemma length_filter_split (f : CPointFEM.t T → bool) l :
  (length l - length (List.filter f l))%nat
  = length (List.filter (λ p, negb (f p)) l).
Proof.
  induction l as [|p l IH]; [done|]. cbn [List.filter length].
  pose proof (filter_length_le f l) as Hle.
  destruct (f p); cbn [negb length]; lia.
Qed.

(** What the pass over the nonperiodic halo points leaves. *)
Lemma addNonPeriodicHaloPoints_spec Global_nPoint meshPoints haloPoints :
  Forall validPeriodicIndex haloPoints →
  let halo1 := dedup pointFEM_lt pointFEM_eqb haloPoints in
  addNonPeriodicHaloPoints Global_nPoint meshPoints haloPoints
  = (List.filter (λ p, negb (isLocalPoint meshPoints p)) halo1,
     meshPoints
     ++ List.filter (λ p, CPointFEM.periodIndexToDonor p =? -1)
          (List.filter (λ p, negb (isLocalPoint meshPoints p)) halo1)).
Proof.
  intros Hvalid halo1. unfold addNonPeriodicHaloPoints. fold halo1.
  assert (StronglySorted (lt_true pointFEM_lt) halo1) as Hs
    by apply (dedup_StronglySorted pointFEM_lt pointFEM_eqb).
  assert (Forall validPeriodicIndex halo1) as Hv1.
  { rewrite Forall_forall in *. intros p Hp. apply Hvalid.
    by apply (dedup_sub pointFEM_lt pointFEM_eqb) in Hp. }
  rewrite markLocalHaloPoints_sorted by done.
  set (valid := List.filter (λ p, negb (isLocalPoint meshPoints p)) halo1).
  assert (StronglySorted (lt_true pointFEM_lt) valid) as Hsv
    by (by apply filter_StronglySorted).
  assert (Forall validPeriodicIndex valid) as Hvv.
  { rewrite Forall_forall in *. intros p [Hp _]%elem_of_filter_bool. by apply Hv1. }
  rewrite length_filter_split. fold valid.
  rewrite (sorted_perm_take_strict pointFEM_lt valid
             (map (invalidated (InvalidPointID Global_nPoint))
                  (List.filter (isLocalPoint meshPoints) halo1))).
  - by rewrite nonPeriodicHaloPoints_sorted.
  - done.
  - intros v w Hv Hw. apply list_elem_of_fmap in Hw as (q & -> & _).
    rewrite Forall_forall in Hvv. specialize (Hvv v Hv).
    unfold validPeriodicIndex in Hvv. unfold pointFEM_lt, invalidated.
    cbn [CPointFEM.periodIndexToDonor]. unfold InvalidPerInd.
    destruct (Z.eqb_spec (CPointFEM.periodIndexToDonor v) SHRT_MAX);
      cbn [negb]; lia.
  - rewrite (sort_Permutation pointFEM_lt). apply marked_Permutation.
  - apply (sort_StronglySorted pointFEM_lt).
Qed.

End nonperiodic.

(** ** The periodic halo points come after the nonperiodic ones *)

Lemma forEachBuf_rel {A B} (R : B → B → Prop) (f : B → A → outcome B) l :
  (∀ b, R b b) → (∀ a b c, R a b → R b c → R a c) →
  (∀ acc x acc', x ∈ l → f acc x = Ok acc' → R acc acc') →
  ∀ acc acc', forEachBuf f l acc = Ok acc' → R acc acc'.
Proof.
  intros Hrefl Htrans. induction l as [|x l IH]; intros Hf acc acc';
    cbn [forEachBuf].
  { intros [= <-]. apply Hrefl. }
  destruct (f acc x) as [acc1| |] eqn:Hx; osimpl; try done.
  intros Hrest. eapply Htrans.
  - eapply Hf; [left|done].
  - eapply IH; [|done]. intros ??? Hin. apply Hf. by right.
Qed.

Section periodic_facts.
Context {T : Type} `{Su2Order T} `{Su2Arith T}.

Lemma grown_by_periodic_refl {M} (acc : list (CPointFEM.t T) * M) :
  grown_by_periodic acc acc.
Proof. exists []. by rewrite app_nil_r. Qed.

Lemma grown_by_periodic_trans {M} (a b c : list (CPointFEM.t T) * M) :
  grown_by_periodic a b → grown_by_periodic b c → grown_by_periodic a c.
Proof.
  intros (e1 & H1 & F1) (e2 & H2 & F2). exists (e1 ++ e2). split.
  - by rewrite H2, H1, app_assoc.
  - by apply Forall_app.
Qed.

Lemma matchHaloPoint_grows nDim per pointsBoundary acc (p : CPointFEM.t T) acc' :
  CPointFEM.periodIndexToDonor p ≠ -1 →
  matchHaloPoint nDim per pointsBoundary acc p = Ok acc' →
  grown_by_periodic acc acc'.
Proof.
  intros Hp. destruct acc as [meshPoints m]. unfold matchHaloPoint.
  destruct (coor3 nDim (CPointFEM.coor p)) as [c| |]; osimpl; try done.
  destruct (transformCoor nDim per c) as [[x y] z].
  destruct (readRange_gen _ 0 nDim) as [xs| |]; osimpl; try done.
  destruct (binary_search _ _ _).
  - destruct (readAt pointsBoundary _) as [low| |]; osimpl; try done.
    intros [= <-]. exists []. split; [by rewrite app_nil_r|constructor].
  - intros [= <-]. eexists [_]. split; [done|]. by repeat constructor.
Qed.

Lemma periodicGroups_uniform (l : list (CPointFEM.t T)) :
  Forall (λ g, ∃ first rest, g = first :: rest
               ∧ Forall (λ p, CPointFEM.periodIndexToDonor p
                              = CPointFEM.periodIndexToDonor first) g)
         (periodicGroups l).
Proof.
  induction l as [|p l IH]; [constructor|]. cbn [periodicGroups].
  destruct (periodicGroups l) as [|[|q g] gs].
  - repeat constructor. exists p, []. by repeat constructor.
  - constructor; [|done]. exists p, []. by repeat constructor.
  - apply Forall_cons in IH as [(first & rest & [= <- <-] & Hall) IH].
    destruct (Z.eqb_spec (CPointFEM.periodIndexToDonor q)
                (CPointFEM.periodIndexToDonor p)) as [E|E].
    + constructor; [|done]. exists p, (q :: g). split; [done|].
      constructor; [done|]. eapply Forall_impl; [exact Hall|].
      intros x Hx. simpl in *. congruence.
    + constructor.
      * exists p, []. by repeat constructor.
      * constructor; [|done]. by exists q, g.
Qed.

Lemma matchPeriodicHaloPoints_grows nDim config boundaries
    (meshPoints haloPoints : list (CPointFEM.t T)) m acc' :
  matchPeriodicHaloPoints nDim config boundaries meshPoints haloPoints m
  = Ok acc' →
  grown_by_periodic (meshPoints, m) acc'.
Proof.
  unfold matchPeriodicHaloPoints.
  apply (forEachBuf_rel grown_by_periodic);
    [apply grown_by_periodic_refl|apply grown_by_periodic_trans|].
  intros acc g acc1 Hg. unfold matchHaloGroup.
  pose proof (periodicGroups_uniform haloPoints) as Hu.
  rewrite Forall_forall in Hu.
  destruct (Hu g Hg) as (first & rest & -> & Hall).
  destruct (Z.eqb_spec (CPointFEM.periodIndexToDonor first) (-1)) as [E|E].
  { intros [= <-]. apply grown_by_periodic_refl. }
  destruct (readAt boundaries _) as [b| |]; osimpl; try done.
  destruct (pointsBoundaryOf nDim acc.1 _) as [pb| |]; osimpl; try done.
  apply (forEachBuf_rel grown_by_periodic);
    [apply grown_by_periodic_refl|apply grown_by_periodic_trans|].
  intros a p a' Hp. apply matchHaloPoint_grows.
  rewrite Forall_forall in Hall. rewrite (Hall p Hp). done.
Qed.

End periodic_facts.

Lemma filter_filter_bool {A} (f g : A → bool) (l : list A) :
  List.filter f (List.filter g l) = List.filter (λ x, f x && g x) l.
Proof.
  induction l as [|x l IH]; [done|]. cbn [List.filter].
  destruct (g x); cbn [List.filter]; rewrite ?andb_true_r, ?andb_false_r;
    [destruct (f x)|]; by rewrite IH.
Qed.

Lemma isLocalPoint_spec {T} (received : list (CPointFEM.t T)) p :
  let meshPoints := dedup pointFEM_lt pointFEM_eqb received in
  isLocalPoint meshPoints p = true ↔
  CPointFEM.periodIndexToDonor p = -1
  ∧ ∃ q, q ∈ meshPoints ∧ CPointFEM.globalID q = CPointFEM.globalID p
         ∧ CPointFEM.periodIndexToDonor q = CPointFEM.periodIndexToDonor p.
Proof.
  intros meshPoints. unfold isLocalPoint.
  rewrite andb_true_iff, Z.eqb_eq.
  rewrite (binary_search_spec pointFEM_lt).
  2:{ apply (lt_true_not_gt_sorted pointFEM_lt),
        (dedup_StronglySorted pointFEM_lt pointFEM_eqb). }
  split; intros [Hper (q & Hq & Hk)]; (split; [done|]); exists q;
    (split; [done|]).
  - assert (pointFEM_eqb q p = true) as E
      by (by apply (eqb_equiv (lt:=pointFEM_lt))).
    unfold pointFEM_eqb in E. lia.
  - apply (eqb_equiv (lt:=pointFEM_lt) (eqb:=pointFEM_eqb)).
    unfold pointFEM_eqb. lia.
Qed.

(** C4. After the received halo points are made unique, a halo point
    without periodic index that the binary search finds in the local
    points, under the order on (periodIndexToDonor, globalID), is marked
    as invalid and dropped, the other halo points without periodic index
    are appended to the local points, and the matching of the periodic
    halo points starts from these lists: whatever it adds comes after
    them and has a periodic index. The periodic indices of the halo
    points are -1 or the index of a marker, so that the order puts the
    nonperiodic points first. *)
Theorem nonperiodic_halo_points_first {T} `{Su2Order T} `{Su2Arith T}
    (Global_nPoint : Z) (received haloPoints : list (CPointFEM.t T)) :
  Forall validPeriodicIndex haloPoints →
  let meshPoints := dedup pointFEM_lt pointFEM_eqb received in
  let halo1 := dedup pointFEM_lt pointFEM_eqb haloPoints in
  let result := addNonPeriodicHaloPoints Global_nPoint meshPoints haloPoints in
  (∀ p, isLocalPoint meshPoints p = true ↔
        CPointFEM.periodIndexToDonor p = -1
        ∧ ∃ q, q ∈ meshPoints ∧ CPointFEM.globalID q = CPointFEM.globalID p
               ∧ CPointFEM.periodIndexToDonor q
                 = CPointFEM.periodIndexToDonor p)
  ∧ (markLocalHaloPoints meshPoints (InvalidPointID Global_nPoint) halo1).1
    = map (λ p, if isLocalPoint meshPoints p
                then invalidated (InvalidPointID Global_nPoint) p else p) halo1
  ∧ result.1 = List.filter (λ p, negb (isLocalPoint meshPoints p)) halo1
  ∧ result.2
    = meshPoints
      ++ List.filter (λ p, (CPointFEM.periodIndexToDonor p =? -1)
                           && negb (isLocalPoint meshPoints p)) halo1
  ∧ (∀ nDim config mElem volElem boundaries volElem' boundaries' meshPoints',
       reconcile nDim config Global_nPoint mElem volElem boundaries
         meshPoints haloPoints
       = Ok (volElem', boundaries', meshPoints') →
       ∃ periodic,
         meshPoints' = result.2 ++ periodic
         ∧ Forall (λ q, CPointFEM.periodIndexToDonor q ≠ -1) periodic).
Proof.
  intros Hvalid meshPoints halo1 result.
  pose proof (addNonPeriodicHaloPoints_spec Global_nPoint meshPoints
                haloPoints Hvalid) as Hspec.
  fold result halo1 in Hspec. split_and!.
  - intros p. apply isLocalPoint_spec.
  - rewrite markLocalHaloPoints_sorted; [done| |].
    + apply (dedup_StronglySorted pointFEM_lt pointFEM_eqb).
    + rewrite Forall_forall in *. intros p Hp. apply Hvalid.
      by apply (dedup_sub pointFEM_lt pointFEM_eqb) in Hp.
  - by rewrite Hspec.
  - rewrite Hspec. cbn [snd]. by rewrite filter_filter_bool.
  - intros nDim config mElem volElem boundaries volElem' boundaries' meshPoints'.
    unfold reconcile. fold result. destruct result as [halo' mesh1].
    destruct (translateBoundaries _ _ _) as [bs| |]; osimpl; try done.
    destruct (matchPeriodicHaloPoints _ _ _ _ _ _) as [[mesh2 m2]| |] eqn:Hm;
      osimpl; try done.
    destruct (translateVolElems _ _) as [vs| |]; osimpl; try done.
    intros [= <- <- <-].
    apply matchPeriodicHaloPoints_grows in Hm as (extra & Hex & Hall).
    by exists extra.
Qed.

Lemma nonperiodic_halo_points_first_witness :
  let result := addNonPeriodicHaloPoints 4
                  (dedup pointFEM_lt pointFEM_eqb local_points_sample)
                  halo_points_sample in
  result.1 = [CPointFEM.mk 3 (-1) [3; 0; 0]%R; CPointFEM.mk 0 0 [3; 0; 0]%R]
  ∧ result.2 = [CPointFEM.mk 0 (-1) [0; 0; 0]%R; CPointFEM.mk 1 (-1) [1; 0; 0]%R;
                CPointFEM.mk 2 (-1) [2; 0; 0]%R; CPointFEM.mk 3 (-1) [3; 0; 0]%R].
Proof.
  assert (Forall validPeriodicIndex halo_points_sample) as Hvalid.
  { repeat constructor; unfold SHRT_MAX; simpl; lia. }
  destruct (nonperiodic_halo_points_first 4 local_points_sample
              halo_points_sample Hvalid) as (_ & _ & H1 & H2 & _).
  split.
  - rewrite H1. reflexivity.
  - rewrite H2. reflexivity.
Defined.

(** ** The array of volume elements at the end *)

Lemma concat_Permutation_proper {A} (l1 l2 : list (list A)) :
  l1 ≡ₚ l2 → concat l1 ≡ₚ concat l2.
Proof.
  induction 1 as [|x l1 l2 _ IH|x y l|l1 l2 l3 _ IH1 _ IH2]; cbn [concat].
  - done.
  - by rewrite IH.
  - rewrite !app_assoc. by rewrite (Permutation_app_comm y x).
  - by etrans.
Qed.

Lemma forEachElem_Forall2 {A} (f : A → outcome A) (v : list A) : ∀ w,
  forEachElem f v = Ok w → Forall2 (λ x y, f x = Ok y) v w.
Proof.
  induction v as [|x v IH]; intros w; cbn [forEachElem].
  { intros [= <-]. constructor. }
  destruct (f x) as [y| |] eqn:Hy; osimpl; try done.
  destruct (forEachElem f v) as [w'| |]; osimpl; try done.
  intros [= <-]. constructor; [done|]. by apply IH.
Qed.

Lemma translateVolElems_keeps_owner m volElem volElem' :
  translateVolElems m volElem = Ok volElem' →
  Forall2 (λ v v', CVolumeElementFEM.elemIsOwned v'
                   = CVolumeElementFEM.elemIsOwned v
                   ∧ CVolumeElementFEM.elemIDGlobal v'
                     = CVolumeElementFEM.elemIDGlobal v) volElem volElem'.
Proof.
  intros Htr%forEachElem_Forall2. eapply Forall2_impl; [exact Htr|].
  intros v v'. unfold translateVolElem.
  destruct (translateNodes _ _ _ _ _); osimpl; try done.
  by intros [= <-].
Qed.

Lemma requests_name_halo_slots nVolElemOwned (halos : list unsignedLong2T)
    (items : list request) :
  NoDup halos → Z.of_nat (nVolElemOwned + length halos) < 2 ^ 63 →
  Forall2 (λ h it, ∃ slot,
             mapGlobalHaloElemToInd nVolElemOwned halos !! h = Some slot
             ∧ it = requestItem h slot) halos items →
  (∀ it, it ∈ items →
     (nVolElemOwned ≤ Z.to_nat (to_ulong it.2)
      < nVolElemOwned + length halos)%nat)
  ∧ (∀ j, (j < length halos)%nat →
       ∃ it, it ∈ items
             ∧ Z.to_nat (to_ulong it.2) = (nVolElemOwned + j)%nat).
Proof.
  intros Hnd Hsmall Hall.
  assert (∀ j h it, halos !! j = Some h → items !! j = Some it →
            Z.to_nat (to_ulong it.2) = (nVolElemOwned + j)%nat) as Hslot.
  { intros j h it Hh Hit.
    destruct (Forall2_lookup_lr _ _ _ _ _ _ Hall Hh Hit) as (slot & Hs & ->).
    unfold mapGlobalHaloElemToInd in Hs.
    rewrite (fillIndexMap_lookup _ _ _ _ j h Hnd Hh) in Hs.
    injection Hs as <-. apply lookup_lt_Some in Hh.
    rewrite slot_of_requestItem; lia. }
  split.
  - intros it [j Hit]%list_elem_of_lookup.
    destruct (Forall2_lookup_r _ _ _ _ _ Hall Hit) as (h & Hh & _).
    rewrite (Hslot j h it Hh Hit). apply lookup_lt_Some in Hh. lia.
  - intros j Hj. destruct (lookup_lt_is_Some_2 halos j Hj) as [h Hh].
    destruct (Forall2_lookup_l _ _ _ _ _ Hall Hh) as (it & Hit & _).
    exists it. split; [by eapply list_elem_of_lookup_2|by eapply Hslot].
Qed.

(** C10. In the array of volume elements at the end of the constructor
    the owned elements are at the indices below nVolElemOwned, with
    elemIsOwned true, the slot i holding the i-th smallest owned global
    ID, so that the IDs increase strictly with the index; every slot
    from nVolElemOwned on has elemIsOwned false. The global IDs of the
    elements sent to the rank are pairwise different, and every request
    for a halo element was answered by its owner. *)
Theorem owned_slots_then_halo_slots {T} (rank : Z)
    (fresh : CVolumeElementFEM.t) (nDim : nat) (coor0 : list T)
    (senders : list sender) (geometry : CGeometry.t T) (nRank : nat)
    (reqs : list (list Z)) (exchanged : list (list Z * answerBuf T)) :
  Forall wf_sender senders →
  let elems := flat_map sentElems senders in
  let bufs := map recvBufOf senders in
  let ids := sort Z.ltb (map CPrimalGrid.GlobalElemID elems) in
  let halos := dedup ul2_lt ul2_eqb (halosOfElems ids elems) in
  let nVolElemOwned := length ids in
  NoDup (map CPrimalGrid.GlobalElemID elems) →
  Z.of_nat (nVolElemOwned + length halos) < 2 ^ 63 →
  haloRequests geometry nRank (mapGlobalHaloElemToInd nVolElemOwned halos) halos
  = Ok reqs →
  map fst exchanged ≡ₚ reqs →
  Forall (answered_by_owner nDim) exchanged →
  ∃ volElem haloPoints,
    assembleElements rank fresh nDim coor0 bufs (map snd exchanged)
    = Ok (ids, halos, volElem, haloPoints)
    ∧ length volElem = (nVolElemOwned + length halos)%nat
    ∧ (∀ i g, ids !! i = Some g →
         ∃ v, volElem !! i = Some v
              ∧ CVolumeElementFEM.elemIsOwned v = true
              ∧ CVolumeElementFEM.elemIDGlobal v = g)
    ∧ StronglySorted Z.lt ids
    ∧ ids ≡ₚ map CPrimalGrid.GlobalElemID elems
    ∧ (∀ i v, (nVolElemOwned ≤ i)%nat → volElem !! i = Some v →
         CVolumeElementFEM.elemIsOwned v = false)
    ∧ (∀ m volElem', translateVolElems m volElem = Ok volElem' →
         Forall2 (λ v v', CVolumeElementFEM.elemIsOwned v'
                          = CVolumeElementFEM.elemIsOwned v
                          ∧ CVolumeElementFEM.elemIDGlobal v'
                            = CVolumeElementFEM.elemIDGlobal v)
                 volElem volElem').
Proof.
  intros Hwf elems bufs ids halos nVolElemOwned Hnd Hsmall Hreqs Hexch Hans.
  assert (ids ≡ₚ map CPrimalGrid.GlobalElemID elems) as Hperm
    by apply (sort_Permutation Z.ltb).
  assert (NoDup ids) as Hndi by (by rewrite Hperm).
  assert (NoDup halos) as Hndh by apply (dedup_NoDup ul2_lt ul2_eqb).
  set (v0 := allocVolElem fresh nVolElemOwned (length halos)).
  assert (length v0 = (nVolElemOwned + length halos)%nat) as Hl0
    by apply length_replicate.
  (* the owned elements *)
  destruct (storeOwned_all rank (mapGlobalElemIDToInd ids) senders v0 Hwf)
    as (v1 & Hv1 & Hst1).
  { intros e He.
    assert (CPrimalGrid.GlobalElemID e ∈ ids) as Hin.
    { rewrite Hperm. apply list_elem_of_fmap. by exists e. }
    apply list_elem_of_lookup in Hin as [j Hj]. exists j. split.
    - unfold mapGlobalElemIDToInd.
      by rewrite (fillIndexMap_lookup _ _ _ _ j _ Hndi Hj).
    - apply lookup_lt_Some in Hj. fold nVolElemOwned in Hj. lia. }
  destruct (owned_slots_in_order rank ids elems v0 v1 Hnd eq_refl Hst1)
    as (Hown & Hrest & Hsorted); [fold nVolElemOwned; lia|].
  assert (length v1 = length v0) as Hl1 by apply Hst1.
  (* the requests and their answers *)
  destruct (haloRequests_inv _ _ _ _ _ Hreqs) as (itemss & items & -> & Hci & Hall).
  destruct (Permutation_map_inv _ _ Hexch) as (itemss' & Hfst & Hip).
  destruct (requests_name_halo_slots nVolElemOwned halos items Hndh Hsmall Hall)
    as (Hslots & Hcover).
  assert (concat itemss' ≡ₚ items) as Hci'.
  { rewrite <- Hci. symmetry. by apply concat_Permutation_proper. }
  destruct (storeHalo_all nDim coor0 exchanged itemss' v1 [] Hfst Hans)
    as (v2 & hp & xs & Hv2 & Hst2 & Hxs).
  { intros it Hit. rewrite Hci' in Hit. specialize (Hslots it Hit). lia. }
  assert (∀ x, x ∈ xs → (nVolElemOwned ≤ slotOf x
                         < nVolElemOwned + length halos)%nat) as Hxslot.
  { intros x Hx. apply Hslots. rewrite <- Hci', <- Hxs.
    apply list_elem_of_fmap. by exists x. }
  destruct Hst2 as [Hl2 Hst2].
  exists v2, hp. split_and!.
  - unfold assembleElements, bufs.
    rewrite (ownedGlobalElemID_packed senders Hwf). osimpl.
    rewrite (haloElementsOf_packed _ senders Hwf). osimpl.
    fold elems ids halos nVolElemOwned v0. rewrite Hv1. osimpl.
    rewrite Hv2. osimpl. done.
  - congruence.
  - intros i g Hi. destruct (Hown i g Hi) as (v & Hv & Ho & Hg).
    destruct (lookup_lt_is_Some_2 v2 i) as [v' Hv'].
    { apply lookup_lt_Some in Hv. lia. }
    exists v'. split; [done|].
    destruct (Hst2 i v' Hv') as [(x & old & Hx & Hs & ->)|[_ Hv1']].
    + apply Hxslot in Hx. apply lookup_lt_Some in Hi.
      fold nVolElemOwned in Hi. lia.
    + rewrite Hv in Hv1'. by injection Hv1' as <-.
  - done.
  - done.
  - intros i v Hi Hv.
    destruct (Hst2 i v Hv) as [(x & old & Hx & Hs & ->)|[Hno Hv1']].
    + by destruct x as [[[g p] s] e].
    + exfalso. apply lookup_lt_Some in Hv1'.
      destruct (Hcover (i - nVolElemOwned)%nat) as (it & Hit & Hsl); [lia|].
      rewrite <- Hci', <- Hxs in Hit.
      apply list_elem_of_fmap in Hit as (x & -> & Hx).
      apply (Hno x Hx). unfold slotOf. rewrite Hsl. lia.
  - intros m volElem'. apply translateVolElems_keeps_owner.
Qed.

Lemma two_quads_wf : Forall CPrimalGrid.wf (CGeometry.elem two_quads).
Proof.
  repeat lazymatch goal with
    | |- Forall _ _ => constructor
    | |- CPrimalGrid.wf _ => split
    | |- _ => unfold is_ushort, is_ulong, is_long, is_short, ULONG_MOD,
              CPrimalGrid.NDOFsGrid, CPrimalGrid.nFaces; simpl; lia
    end.
Qed.

Lemma owned_slots_then_halo_slots_witness :
  ∃ volElem haloPoints,
    assembleElements 0 unset_elem 2 [0; 0; 0]%float
      [recvBufOf two_quads_sender] [two_quads_answer]
    = Ok ([0; 1], [UL2 0 2; UL2 1 1], volElem, haloPoints)
    ∧ map CVolumeElementFEM.elemIsOwned volElem = [true; true; false; false]
    ∧ map CVolumeElementFEM.elemIDGlobal volElem = [0; 1; 0; 1].
Proof.
  destruct (owned_slots_then_halo_slots 0 unset_elem 2 [0; 0; 0]%float
              [two_quads_sender] two_quads 1 two_quads_requests
              [([0; 1; 2; 1; 0; 3], two_quads_answer)])
    as (volElem & haloPoints & Hrun & _).
  - constructor; [|constructor]. split; [apply two_quads_wf|].
    simpl. lia.
  - apply (bool_decide_unpack _). by vm_compute.
  - by vm_compute.
  - by vm_compute.
  - done.
  - constructor; [|constructor]. exists two_quads, 0%nat.
    split_and!; [by vm_compute|done|apply two_quads_wf].
  - exists volElem, haloPoints. split; [exact Hrun|].
    vm_compute in Hrun. injection Hrun as <- <-. by vm_compute.
Defined.

(** * Further properties of the code *)

(** ** The comparison operators *)

(** X1 -- [CPointFEM::operator<] is a strict weak ordering, as the
    standard algorithms ask for: it is irreflexive and transitive, and
    so is being unordered by it; [CPointFEM::operator==] holds exactly
    for the pairs of points that it leaves unordered. *)
Theorem pointFEM_operators_consistent {T} (p q r : CPointFEM.t T) :
  pointFEM_lt p p = false
  ∧ (pointFEM_lt p q && pointFEM_lt q r && negb (pointFEM_lt p r) = false)
  ∧ (pointFEM_lt p r && negb (pointFEM_lt p q) && negb (pointFEM_lt q r) = false)
  ∧ pointFEM_eqb p q = negb (pointFEM_lt p q) && negb (pointFEM_lt q p).
Proof.
  destruct p as [a1 a2 ?], q as [b1 b2 ?], r as [c1 c2 ?].
  unfold pointFEM_lt, pointFEM_eqb; simpl.
  split_and!; repeat (case_match; simpl in * ); lia.
Qed.

Lemma su2_min_R_comm (a b : R) : su2_min a b = su2_min b a.
Proof.
  unfold su2_min; simpl.
  destruct (Rlt_dec b a), (Rlt_dec a b); try done; lra.
Qed.

Lemma lessCoor_R_asym (tol : R) n : ∀ a b,
  lessCoor tol n a b && lessCoor tol n b a = false.
Proof.
  induction n as [|n IH]; intros [|x a] [|y b]; simpl; try done.
  unfold su2_gtb; simpl. rewrite (Rabs_minus_sym y x).
  destruct (Rlt_dec tol (Rabs (x - y))); [|apply IH].
  destruct (Rlt_dec x y), (Rlt_dec y x); try done. lra.
Qed.

(** X2 -- Over exact arithmetic [CPointCompare::operator<] is
    irreflexive and asymmetric, whatever the tolerances and the
    dimensions of the two points are: no point is less than itself and
    no two points are less than each other. *)
Theorem pointCompare_lt_asymmetric (p q : CPointCompare.t R) :
  pointCompare_lt p p = false
  ∧ pointCompare_lt p q && pointCompare_lt q p = false.
Proof.
  assert (∀ a b : CPointCompare.t R,
            pointCompare_lt a b && pointCompare_lt b a = false) as Hasym.
  { intros a b. unfold pointCompare_lt.
    destruct (Nat.eqb_spec (CPointCompare.nDim a) (CPointCompare.nDim b))
      as [Heq|Hne]; simpl.
    - rewrite <- Heq, Nat.eqb_refl; simpl.
      rewrite (su2_min_R_comm (CPointCompare.tolForMatching b)).
      apply lessCoor_R_asym.
    - destruct (Nat.eqb_spec (CPointCompare.nDim b) (CPointCompare.nDim a));
        [congruence|]. simpl.
      destruct (Nat.ltb_spec (CPointCompare.nDim a) (CPointCompare.nDim b)),
               (Nat.ltb_spec (CPointCompare.nDim b) (CPointCompare.nDim a));
        simpl; try done; lia. }
  split; [|apply Hasym].
  specialize (Hasym p p). by destruct (pointCompare_lt p p).
Qed.

(** ** The rank that owns a halo element *)

Lemma sorted_le_not_gt (table : list Z) :
  StronglySorted Z.le table → StronglySorted (not_gt Z.ltb) table.
Proof.
  induction 1 as [|x l Hs IH Hx]; constructor; [done|].
  eapply Forall_impl; [exact Hx|]. intros y Hy. unfold not_gt. lia.
Qed.

(** X3 -- The owner of a halo element is looked up in the cumulative
    table of first element IDs: for a sorted table and a global ID that
    lies between its first entry and some larger entry, the rank found is
    one whose range holds the ID, [table[r] <= g <= table[r+1]], and the
    ID is below [table[r+1]] whenever the rank [r] owns an element. *)
Theorem rankOfHalo_owner (table : list Z) (g first last : Z) :
  StronglySorted Z.le table →
  Z.of_nat (length table) < ULONG_MOD →
  table !! 0%nat = Some first → first <= g →
  last ∈ table → g < last →
  ∃ r lo hi,
    rankOfHalo table g = Ok r
    ∧ table !! r = Some lo ∧ table !! S r = Some hi
    ∧ lo <= g <= hi ∧ (lo < hi → g < hi).
Proof.
  intros Hs Hlen H0 Hfirst Hlast Hg.
  pose proof (lower_bound_spec Z.ltb table g (sorted_le_not_gt _ Hs))
    as (Hr & Hbelow & Habove).
  unfold rankOfHalo. set (low := lower_bound Z.ltb table g) in *.
  apply list_elem_of_lookup in Hlast as [k Hk].
  assert (low ≤ k)%nat as Hlk.
  { destruct (decide (low ≤ k)%nat); [done|].
    specialize (Hbelow k last ltac:(lia) Hk). lia. }
  pose proof (lookup_lt_Some _ _ _ Hk) as Hklen.
  destruct (lookup_lt_is_Some_2 table low ltac:(lia)) as [x Hx].
  pose proof (Habove low x ltac:(lia) Hx) as Hxg.
  unfold readAt. rewrite Hx. cbn [obind].
  destruct (Z.eqb_spec x g) as [->|Hne].
  - assert (low ≠ k) as Hne by (intros ->; rewrite Hx in Hk; injection Hk; lia).
    destruct (lookup_lt_is_Some_2 table (S low) ltac:(lia)) as [hi Hhi].
    pose proof (Habove (S low) hi ltac:(lia) Hhi).
    exists low, g, hi. split_and!; try done; try lia.
    f_equal. unfold to_ulong. rewrite Z.mod_small by lia. lia.
  - assert (low ≠ 0)%nat as Hpos.
    { intros E. rewrite E in Hx. rewrite Hx in H0. injection H0. lia. }
    destruct (lookup_lt_is_Some_2 table (low - 1) ltac:(lia)) as [lo Hlo].
    pose proof (Hbelow (low - 1)%nat lo ltac:(lia) Hlo).
    exists (low - 1)%nat, lo, x.
    replace (S (low - 1)) with low by lia.
    split_and!; try done; try lia.
    f_equal. unfold to_ulong. rewrite Z.mod_small by lia. lia.
Qed.

Lemma rankOfHalo_owner_witness :
  ∃ r lo hi,
    rankOfHalo [0; 5; 5; 9] 6 = Ok r
    ∧ [0; 5; 5; 9] !! r = Some lo ∧ [0; 5; 5; 9] !! S r = Some hi
    ∧ lo <= 6 <= hi ∧ (lo < hi → 6 < hi).
Proof.
  apply (rankOfHalo_owner [0; 5; 5; 9] 6 0 9).
  - repeat constructor; lia.
  - by vm_compute.
  - done.
  - lia.
  - apply (bool_decide_unpack _). by vm_compute.
  - lia.
Defined.

(** ** The numbering of the communication buffers *)

Lemma rankToIndCommBuf_from_spec (l : list bool) : ∀ i m,
  (∀ k, is_Some (m !! k) → (k < i)%nat) →
  size (rankToIndCommBuf_from l i m) = (size m + length (filter Is_true l))%nat
  ∧ ∀ k, rankToIndCommBuf_from l i m !! k
         = if decide (k < i)%nat then m !! k
           else if decide (l !! (k - i)%nat = Some true)
                then Some (size m + length (filter Is_true (take (k - i) l)))%nat
                else None.
Proof.
  induction l as [|b l IH]; intros i m Hm; cbn [rankToIndCommBuf_from].
  { split; [simpl; lia|]. intros k. destruct (decide (k < i)%nat); [done|].
    rewrite decide_False by (by rewrite lookup_nil).
    apply eq_None_not_Some. intros Hk. apply Hm in Hk. lia. }
  assert (m !! i = None) as Hfresh.
  { apply eq_None_not_Some. intros Hk. apply Hm in Hk. lia. }
  set (m' := if b then <[i := size m]> m else m).
  assert (∀ k, is_Some (m' !! k) → (k < S i)%nat) as Hm'.
  { intros k. unfold m'. destruct b.
    - rewrite lookup_insert_is_Some. intros [->|[_ Hk]]; [lia|].
      apply Hm in Hk. lia.
    - intros Hk. apply Hm in Hk. lia. }
  assert (size m' = (size m + if b then 1 else 0)%nat) as Hsize.
  { unfold m'. destruct b; [|lia]. rewrite map_size_insert_None by done. lia. }
  destruct (IH (S i) m' Hm') as [IHs IHl]. split.
  { rewrite IHs, Hsize. rewrite filter_cons. destruct b; simpl; lia. }
  intros k. rewrite IHl.
  destruct (decide (k < i)%nat) as [Hki|Hki].
  { rewrite decide_True by lia. unfold m'. destruct b; [|done].
    rewrite lookup_insert_ne by lia. done. }
  destruct (decide (k = i)) as [->|Hne].
  { rewrite decide_True by lia. rewrite Nat.sub_diag. simpl.
    unfold m'. destruct b.
    - rewrite lookup_insert_eq. rewrite decide_True by done.
      f_equal. simpl. lia.
    - rewrite Hfresh. by rewrite decide_False. }
  rewrite decide_False by lia.
  replace (k - i)%nat with (S (k - S i)) by lia. simpl.
  destruct (decide (l !! (k - S i)%nat = Some true)); [|done].
  f_equal. rewrite Hsize, filter_cons. destruct b; simpl; lia.
Qed.

Lemma rankToIndCommBuf_lookup (sendToRank : list bool) (i : nat) :
  rankToIndCommBuf sendToRank !! i
  = if decide (sendToRank !! i = Some true)
    then Some (length (filter Is_true (take i sendToRank)))
    else None.
Proof.
  destruct (rankToIndCommBuf_from_spec sendToRank 0 ∅) as [_ Hl].
  { intros k. rewrite lookup_empty. by intros []. }
  unfold rankToIndCommBuf.
  rewrite Hl. rewrite decide_False by lia. rewrite Nat.sub_0_r.
  rewrite map_size_empty. done.
Qed.

Lemma rankToIndCommBuf_size (sendToRank : list bool) :
  size (rankToIndCommBuf sendToRank) = length (filter Is_true sendToRank).
Proof.
  destruct (rankToIndCommBuf_from_spec sendToRank 0 ∅) as [Hs _].
  { intros k. rewrite lookup_empty. by intros []. }
  unfold rankToIndCommBuf. by rewrite Hs, map_size_empty.
Qed.

Lemma count_marked_take_lt (st : list bool) (r1 r2 : nat) :
  (r1 < r2)%nat → st !! r1 = Some true →
  (length (filter Is_true (take r1 st))
   < length (filter Is_true (take r2 st)))%nat.
Proof.
  intros Hlt Hr1.
  rewrite <- (take_drop (S r1) (take r2 st)).
  rewrite take_take, Nat.min_l by lia.
  rewrite (take_S_r _ _ _ Hr1), !filter_app, !length_app.
  rewrite filter_cons. simpl. lia.
Qed.

(** X4 -- The ranks marked in [sendToRank] are numbered in increasing
    order: a marked rank gets the number of marked ranks below it as
    the index of its communication buffer, an unmarked rank gets no
    buffer, the number of buffers is the number of marked ranks, and a
    larger marked rank gets a larger index. *)
Theorem rankToIndCommBuf_numbering (sendToRank : list bool) (i j : nat) :
  rankToIndCommBuf sendToRank !! i
  = (if decide (sendToRank !! i = Some true)
     then Some (length (filter Is_true (take i sendToRank)))
     else None)
  ∧ size (rankToIndCommBuf sendToRank) = length (filter Is_true sendToRank)
  ∧ ∀ a b, (i < j)%nat
           ∧ rankToIndCommBuf sendToRank !! i = Some a
           ∧ rankToIndCommBuf sendToRank !! j = Some b
           → (a < b)%nat.
Proof.
  split_and!; [apply rankToIndCommBuf_lookup|apply rankToIndCommBuf_size|].
  intros a b (Hij & Ha & Hb). rewrite rankToIndCommBuf_lookup in Ha, Hb.
  destruct (decide (sendToRank !! i = Some true)) as [Hi|]; [|done].
  destruct (decide (sendToRank !! j = Some true)); [|done].
  injection Ha as <-. injection Hb as <-.
  by apply count_marked_take_lt.
Qed.

(** ** The routing of the requests for the halo elements *)

Lemma rankOfHalo_not_abort table g p d : rankOfHalo table g ≠ Abort p d.
Proof.
  unfold rankOfHalo, readAt.
  by destruct (table !! lower_bound Z.ltb table g).
Qed.

Lemma markRanks_spec table hs : ∀ st st',
  markRanks table hs st = Ok st' →
  length st' = length st
  ∧ ∀ r, st' !! r = Some true
         ↔ st !! r = Some true
           ∨ ∃ h, h ∈ hs ∧ rankOfHalo table (long0 h) = Ok r.
Proof.
  induction hs as [|h hs IH]; intros st st'; cbn [markRanks].
  { intros [= <-]. split; [done|]. intros r. split; [by left|].
    intros [|(h & Hh & _)]; [done|]. by apply elem_of_nil in Hh. }
  destruct (rankOfHalo table (long0 h)) as [r0| |] eqn:Hr0; osimpl; try done.
  unfold writeAt. destruct (decide (r0 < length st)%nat) as [Hlt|]; [|done].
  osimpl. intros Hrest. destruct (IH _ _ Hrest) as [Hlen Hmark].
  rewrite length_insert in Hlen. split; [done|]. intros r.
  rewrite Hmark. split.
  - intros [Hr|(h' & Hh' & Hr)].
    + destruct (decide (r = r0)) as [->|Hne].
      * right. exists h. split; [left|done].
      * left. by rewrite list_lookup_insert_ne in Hr.
    + right. exists h'. split; [by right|done].
  - intros [Hr|(h' & Hh' & Hr)].
    + left. destruct (decide (r = r0)) as [->|Hne].
      * by rewrite list_lookup_insert_eq.
      * by rewrite list_lookup_insert_ne.
    + apply elem_of_cons in Hh' as [->|Hh'].
      * left. rewrite Hr0 in Hr. injection Hr as ->.
        by rewrite list_lookup_insert_eq.
      * right. by exists h'.
Qed.

Lemma count_marked_take_bound (st : list bool) (r : nat) :
  st !! r = Some true →
  (length (filter Is_true (take r st)) < length (filter Is_true st))%nat.
Proof.
  intros Hr. rewrite <- (take_drop (S r) st) at 2.
  rewrite (take_S_r _ _ _ Hr), !filter_app, !length_app.
  rewrite filter_cons. simpl. lia.
Qed.

Lemma rankToIndCommBuf_inj (st : list bool) r1 r2 i :
  rankToIndCommBuf st !! r1 = Some i → rankToIndCommBuf st !! r2 = Some i →
  r1 = r2.
Proof.
  rewrite !rankToIndCommBuf_lookup.
  destruct (decide (st !! r1 = Some true)) as [H1|]; [|done].
  destruct (decide (st !! r2 = Some true)) as [H2|]; [|done].
  intros [= <-] [= E].
  destruct (Nat.lt_trichotomy r1 r2) as [Hlt|[->|Hlt]]; [|done|].
  - pose proof (count_marked_take_lt st r1 r2 Hlt H1). lia.
  - pose proof (count_marked_take_lt st r2 r1 Hlt H2). lia.
Qed.

Lemma requestsTo_cons table haloMap r h hs :
  requestsTo table haloMap r (h :: hs)
  = (if ownerIs table r h
     then match haloMap !! h with Some slot => requestOf h slot | None => [] end
     else [])
    ++ requestsTo table haloMap r hs.
Proof.
  unfold requestsTo. cbn [List.filter].
  by destruct (ownerIs table r h).
Qed.

Lemma fillRequests_routing table comm haloMap hs :
  (∀ r1 r2 i, comm !! r1 = Some i → comm !! r2 = Some i → r1 = r2) →
  ∀ bufs bufs',
  fillRequests table comm haloMap hs bufs = Ok bufs' →
  length bufs' = length bufs
  ∧ ∀ r ind, comm !! r = Some ind →
      bufs' !! ind
      = (λ b, b ++ requestsTo table haloMap r hs) <$> bufs !! ind.
Proof.
  intros Hinj. induction hs as [|h hs IH]; intros bufs bufs';
    cbn [fillRequests].
  { intros [= <-]. split; [done|]. intros r ind _.
    destruct (bufs !! ind); [|done]. simpl. by rewrite app_nil_r. }
  destruct (rankOfHalo table (long0 h)) as [r0| |] eqn:Hr0; osimpl; try done.
  unfold findSecond.
  destruct (comm !! r0) as [ind0|] eqn:Hind0; osimpl; [|done].
  destruct (haloMap !! h) as [slot|] eqn:Hslot; osimpl; [|done].
  unfold pushTo, readAt.
  destruct (bufs !! ind0) as [b0|] eqn:Hb0; osimpl; [|done].
  intros Hrest. destruct (IH _ _ Hrest) as [Hlen Hl].
  rewrite length_insert in Hlen. split; [done|]. intros r ind Hr.
  rewrite (Hl r ind Hr), requestsTo_cons, Hslot. unfold ownerIs. rewrite Hr0.
  destruct (decide (r0 = r)) as [->|Hne].
  - assert (ind = ind0) as -> by congruence.
    rewrite bool_decide_eq_true_2 by done.
    rewrite list_lookup_insert_eq by (by eapply lookup_lt_Some).
    rewrite Hb0. cbn [fmap option_fmap option_map]. by rewrite <- app_assoc.
  - rewrite bool_decide_eq_false_2 by done.
    assert (ind ≠ ind0) as Hi.
    { intros ->. apply Hne. by eapply Hinj. }
    rewrite list_lookup_insert_ne by done. done.
Qed.

(** X5 -- The requests for the halo elements are routed to the ranks
    that own them: exactly the ranks that own a halo element are marked,
    there is one request buffer per marked rank, in increasing order of
    the rank, and the buffer of a rank holds the global ID, the periodic
    index and the slot of every halo element that rank owns, in the
    order of the halo elements. *)
Theorem haloRequests_routing {T} (geometry : CGeometry.t T) (nRank : nat)
    (haloMap : gmap unsignedLong2T nat) (haloElements : list unsignedLong2T)
    (reqs : list (list Z)) :
  haloRequests geometry nRank haloMap haloElements = Ok reqs →
  ∃ table sendToRank,
    nElemPerRankOr geometry nRank = Ok table
    ∧ length sendToRank = nRank
    ∧ (∀ r, sendToRank !! r = Some true
            ↔ ∃ h, h ∈ haloElements ∧ rankOfHalo table (long0 h) = Ok r)
    ∧ length reqs = length (filter Is_true sendToRank)
    ∧ ∀ r, sendToRank !! r = Some true →
        reqs !! length (filter Is_true (take r sendToRank))
        = Some (requestsTo table haloMap r haloElements).
Proof.
  unfold haloRequests.
  destruct (nElemPerRankOr geometry nRank) as [table| |]; osimpl; try done.
  destruct (markRanks table haloElements (replicate nRank false))
    as [st| |] eqn:Hst; osimpl; try done.
  intros Hfill. destruct (markRanks_spec _ _ _ _ Hst) as [Hlen Hmark].
  rewrite length_replicate in Hlen.
  destruct (fillRequests_routing table (rankToIndCommBuf st) haloMap
              haloElements (rankToIndCommBuf_inj st) _ _ Hfill) as [Hl Hr].
  rewrite length_replicate in Hl.
  exists table, st. split_and!; [done|done| |..].
  - intros r. rewrite Hmark. split; [|by right].
    intros [Hr0|]; [|done]. apply lookup_replicate in Hr0 as [? _]. done.
  - rewrite Hl. apply rankToIndCommBuf_size.
  - intros r Hm.
    rewrite (Hr r (length (filter Is_true (take r st)))).
    + rewrite lookup_replicate_2; [done|].
      rewrite rankToIndCommBuf_size.
      by apply count_marked_take_bound.
    + rewrite rankToIndCommBuf_lookup.
      by rewrite decide_True.
Qed.

Lemma haloRequests_routing_witness :
  ∃ table sendToRank,
    nElemPerRankOr two_quads 1 = Ok table
    ∧ length sendToRank = 1%nat
    ∧ (∀ r, sendToRank !! r = Some true
            ↔ ∃ h, h ∈ [UL2 0 2; UL2 1 1]
                   ∧ rankOfHalo table (long0 h) = Ok r)
    ∧ length two_quads_requests = length (filter Is_true sendToRank)
    ∧ ∀ r, sendToRank !! r = Some true →
        two_quads_requests !! length (filter Is_true (take r sendToRank))
        = Some (requestsTo table
                  (mapGlobalHaloElemToInd 2 [UL2 0 2; UL2 1 1]) r
                  [UL2 0 2; UL2 1 1]).
Proof.
  apply (haloRequests_routing two_quads 1
           (mapGlobalHaloElemToInd 2 [UL2 0 2; UL2 1 1])
           [UL2 0 2; UL2 1 1] two_quads_requests).
  by vm_compute.
Defined.

Lemma sorted_lt_lookup (l : list Z) i j x y :
  StronglySorted Z.lt l → (i < j)%nat →
  l !! i = Some x → l !! j = Some y → x < y.
Proof.
  intros Hs. revert i j. induction Hs as [|z l Hs IH Hz]; intros i j Hij Hi Hj.
  { by rewrite lookup_nil in Hi. }
  destruct j as [|j]; [lia|]. simpl in Hj. destruct i as [|i].
  - injection Hi as <-. rewrite Forall_forall in Hz.
    apply Hz. by eapply list_elem_of_lookup_2.
  - simpl in Hi. apply (IH i j); [lia|done..].
Qed.

Lemma sorted_lt_le (l : list Z) : StronglySorted Z.lt l → StronglySorted Z.le l.
Proof.
  induction 1 as [|x l Hs IH Hx]; constructor; [done|].
  eapply Forall_impl; [exact Hx|]. intros y Hy. simpl in Hy. lia.
Qed.

(** A halo element with its global ID outside the element range of the
    partitioning makes the search for its rank read the table behind its
    end, or gives a rank that is no index of [sendToRank]. *)
Lemma rankOfHalo_outside (table : list Z) (nRank : nat) (g first lst : Z) st :
  StronglySorted Z.lt table → length table = S nRank →
  Z.of_nat nRank < ULONG_MAX → length st = nRank →
  table !! 0%nat = Some first → table !! nRank = Some lst →
  g < first ∨ lst <= g →
  (let* r := rankOfHalo table g in writeAt st r true) = Undefined.
Proof.
  intros Hs Hlen Hn Hst H0 Hl Hout.
  pose proof (lower_bound_spec Z.ltb table g
                (sorted_le_not_gt _ (sorted_lt_le _ Hs)))
    as (Hr & Hbelow & Habove).
  unfold rankOfHalo. set (low := lower_bound Z.ltb table g) in *.
  unfold readAt. destruct (table !! low) as [x|] eqn:Hx; osimpl; [|done].
  pose proof (lookup_lt_Some _ _ _ Hx) as Hlow.
  pose proof (Habove low x ltac:(lia) Hx) as Hxg.
  unfold writeAt. rewrite decide_False; [done|]. rewrite Hst.
  destruct Hout as [Hlo|Hhi].
  - assert (low = 0)%nat as ->.
    { destruct low as [|low]; [done|].
      pose proof (Hbelow 0%nat first ltac:(lia) H0). lia. }
    rewrite Hx in H0. injection H0 as ->.
    destruct (Z.eqb_spec first g); [lia|].
    unfold to_ulong, ULONG_MAX in *. rewrite Z.add_0_r.
    change ((Z.of_nat 0 - 1) mod ULONG_MOD) with (ULONG_MOD - 1). lia.
  - assert (low = nRank) as ->.
    { destruct (decide (low = nRank)); [done|].
      pose proof (sorted_lt_lookup table low nRank x lst Hs ltac:(lia) Hx Hl).
      lia. }
    rewrite Hx in Hl. injection Hl as ->.
    destruct (Z.eqb_spec lst g); [|lia].
    unfold to_ulong. unfold ULONG_MAX in Hn. rewrite Z.mod_small by lia. lia.
Qed.

Lemma markRanks_outside (table : list Z) (nRank : nat) (first lst : Z)
    (h : unsignedLong2T) hs :
  StronglySorted Z.lt table → length table = S nRank →
  Z.of_nat nRank < ULONG_MAX →
  table !! 0%nat = Some first → table !! nRank = Some lst →
  h ∈ hs → long0 h < first ∨ lst <= long0 h →
  ∀ st, length st = nRank → markRanks table hs st = Undefined.
Proof.
  intros Hs Hlen Hn H0 Hl Hin Hout.
  induction hs as [|h0 hs IH]; intros st Hst; [by apply elem_of_nil in Hin|].
  cbn [markRanks]. apply elem_of_cons in Hin as [<-|Hin].
  - pose proof (rankOfHalo_outside table nRank (long0 h) first lst st
                  Hs Hlen Hn Hst H0 Hl Hout) as Hu.
    destruct (rankOfHalo table (long0 h)) as [r| |]; osimpl; try done.
    by rewrite Hu.
  - pose proof (rankOfHalo_not_abort table (long0 h0)) as Hna.
    destruct (rankOfHalo table (long0 h0)) as [r|p d|]; osimpl;
      [|by destruct (Hna p d)|done].
    unfold writeAt. destruct (decide (r < length st)%nat); [|done]. osimpl.
    apply IH; [done|]. by rewrite length_insert.
Qed.

Lemma nElemPerRankOr_length {T} (geometry : CGeometry.t T) nRank table :
  nElemPerRankOr geometry nRank = Ok table → length table = S nRank.
Proof.
  unfold nElemPerRankOr, readRange.
  destruct (readRange_gen _ 0 nRank) as [firsts| |] eqn:Hf; osimpl; try done.
  destruct (readAt _ _); osimpl; try done. intros [= <-].
  rewrite length_app, (readRange_gen_length _ _ _ _ Hf). simpl. lia.
Qed.

(** X6 -- A halo element whose global ID lies outside the range of the
    element IDs of the original partitioning, below the first element
    of the first rank or not below the end of the last one, is not
    caught by a test: the search for its rank is undefined, by a read
    behind the end of the table or a write outside [sendToRank]. *)
Theorem haloRequests_outside_partition {T} (geometry : CGeometry.t T)
    (nRank : nat) (haloMap : gmap unsignedLong2T nat)
    (haloElements : list unsignedLong2T) (table : list Z)
    (first lst : Z) (h : unsignedLong2T) :
  nElemPerRankOr geometry nRank = Ok table →
  StronglySorted Z.lt table → Z.of_nat nRank < ULONG_MAX →
  table !! 0%nat = Some first → table !! nRank = Some lst →
  h ∈ haloElements → long0 h < first ∨ lst <= long0 h →
  haloRequests geometry nRank haloMap haloElements = Undefined.
Proof.
  intros Htab Hs Hn H0 Hl Hin Hout. unfold haloRequests. rewrite Htab. osimpl.
  rewrite (markRanks_outside table nRank first lst h haloElements Hs
             (nElemPerRankOr_length _ _ _ Htab) Hn H0 Hl Hin Hout);
    [done|]. by rewrite length_replicate.
Qed.

Lemma haloRequests_outside_partition_witness :
  haloRequests two_quads 1 (mapGlobalHaloElemToInd 2 [UL2 0 2; UL2 2 0])
    [UL2 0 2; UL2 2 0]
  = Undefined.
Proof.
  apply (haloRequests_outside_partition two_quads 1 _ _ [0; 2] 0 2 (UL2 2 0)).
  - by vm_compute.
  - repeat constructor; lia.
  - by vm_compute.
  - done.
  - done.
  - apply (bool_decide_unpack _). by vm_compute.
  - right. by vm_compute.
Defined.

(** ** The round trip of the halo elements and the halo points *)

Lemma to_short_congr a b : a mod 2 ^ 16 = b mod 2 ^ 16 → to_short a = to_short b.
Proof. unfold to_short. by intros ->. Qed.

Lemma to_short_mod z : to_short z mod 2 ^ 16 = z mod 2 ^ 16.
Proof.
  unfold to_short. pose proof (Z.mod_pos_bound z (2 ^ 16) ltac:(lia)).
  destruct (z mod 2 ^ 16 <? 2 ^ 15).
  - by rewrite Z.mod_mod.
  - replace (z mod 2 ^ 16 - 2 ^ 16) with (z mod 2 ^ 16 + (-1) * 2 ^ 16) by lia.
    rewrite Z.mod_add by lia. by rewrite Z.mod_mod.
Qed.

Lemma to_short_range z : is_short (to_short z).
Proof.
  unfold to_short, is_short. pose proof (Z.mod_pos_bound z (2 ^ 16) ltac:(lia)).
  destruct (z mod 2 ^ 16 <? 2 ^ 15) eqn:E; lia.
Qed.

Lemma to_short_exact z : is_short z → to_short z = z.
Proof.
  unfold to_short, is_short. intros Hz.
  destruct (Z.le_gt_cases 0 z).
  - rewrite Z.mod_small by lia. destruct (z <? 2 ^ 15) eqn:E; lia.
  - replace (z mod 2 ^ 16) with (z + 2 ^ 16).
    + destruct (z + 2 ^ 16 <? 2 ^ 15) eqn:E; lia.
    + symmetry. replace z with (z + 2 ^ 16 + (-1) * 2 ^ 16) at 1 by lia.
      rewrite Z.mod_add by lia. apply Z.mod_small. lia.
Qed.

Lemma to_ulong_mod_short z : to_ulong z mod 2 ^ 16 = z mod 2 ^ 16.
Proof.
  unfold to_ulong, ULONG_MOD. apply Z.mod_mod_divide.
  exists (2 ^ 48). lia.
Qed.

(** The periodic index comes back as it was sent, through the
    descriptor of a node with one added and taken off again. *)
Lemma periodic_index_returns p :
  to_short (to_short (to_ulong (to_short p + 1)) - 1) = to_short p.
Proof.
  rewrite <- (to_short_exact (to_short p)) at 2 by apply to_short_range.
  apply to_short_congr.
  rewrite <- Zminus_mod_idemp_l, to_short_mod, to_ulong_mod_short.
  rewrite Zminus_mod_idemp_l. f_equal. lia.
Qed.

Lemma readRange_gen_take {A} (L : list A) n : ∀ i xs,
  readRange_gen L i n = Ok xs → xs = take n (drop i L).
Proof.
  induction n as [|n IH]; intros i xs; cbn [readRange_gen].
  { by intros [= <-]. }
  unfold readAt. destruct (L !! i) as [x|] eqn:Hx; osimpl; [|done].
  destruct (readRange_gen L (S i) n) as [ys| |] eqn:Hys; osimpl; try done.
  intros [= <-]. rewrite (drop_S _ _ _ Hx). cbn [take]. f_equal.
  by apply IH.
Qed.

Lemma answerCoords_spec {T} (geometry : CGeometry.t T) nodeIDs : ∀ D D',
  answerCoords geometry nodeIDs D = Ok D' →
  D' = D ++ flat_map (λ nd, nodeCoordsOf geometry (long0 nd)) nodeIDs
  ∧ Forall (λ nd, length (nodeCoordsOf geometry (long0 nd))
                  = CGeometry.nDim geometry) nodeIDs.
Proof.
  induction nodeIDs as [|nd nodeIDs IH]; intros D D'; cbn [answerCoords].
  { intros [= <-]. split; [by rewrite app_nil_r|constructor]. }
  unfold findLocalNode.
  destruct (globalPointIDToLocalInd geometry !! long0 nd) as [ind|] eqn:Hm;
    osimpl; [|done].
  unfold readAt.
  destruct (CGeometry.nodes geometry !! ind) as [node|] eqn:Hn;
    osimpl; [|done].
  destruct (readRange_gen (CGeometry.Coord node) 0 (CGeometry.nDim geometry))
    as [xs| |] eqn:Hxs; osimpl; try done.
  intros HD'. destruct (IH _ _ HD') as [-> Hall].
  pose proof (readRange_gen_length _ _ _ _ Hxs) as Hlen.
  apply readRange_gen_take in Hxs. rewrite drop_0 in Hxs.
  assert (nodeCoordsOf geometry (long0 nd) = xs) as Hc.
  { unfold nodeCoordsOf. by rewrite Hm, Hn. }
  split; [|by constructor; [rewrite Hc|]].
  cbn [flat_map]. by rewrite Hc, <- app_assoc.
Qed.

Lemma storeHaloPoints_loop_answer {T} (geometry : CGeometry.t T)
    (coor0 : list T) nodeIDs : ∀ preS restS preL restL preD restD hp,
  Forall (λ nd, is_ulong (long0 nd)
                ∧ length (nodeCoordsOf geometry (long0 nd))
                  = CGeometry.nDim geometry) nodeIDs →
  storeHaloPoints_loop (CGeometry.nDim geometry) coor0
    (preS ++ map (λ nd, to_short (to_short (long1 nd) - 1)) nodeIDs ++ restS)
    (preL ++ map (λ nd, to_long (long0 nd)) nodeIDs ++ restL)
    (preD ++ flat_map (λ nd, nodeCoordsOf geometry (long0 nd)) nodeIDs ++ restD)
    (length nodeIDs) (length preS) (length preL) (length preD) hp
  = Ok (hp ++ map (haloPointOf geometry coor0) nodeIDs).
Proof.
  induction nodeIDs as [|nd nodeIDs IH];
    intros preS restS preL restL preD restD hp Hall;
    cbn [length storeHaloPoints_loop map flat_map].
  { by rewrite app_nil_r. }
  apply Forall_cons in Hall as [[Hul Hlen] Hall].
  rewrite !readAt_app_0. unfold readAt at 1 2.
  cbn [app lookup list_lookup]. osimpl.
  rewrite <- (app_assoc (nodeCoordsOf geometry (long0 nd))).
  rewrite <- Hlen at 1. rewrite readRange_gen_app. osimpl.
  rewrite to_ulong_to_long by done.
  specialize (IH (preS ++ [to_short (to_short (long1 nd) - 1)]) restS
                (preL ++ [to_long (long0 nd)]) restL
                (preD ++ nodeCoordsOf geometry (long0 nd)) restD
                (hp ++ [haloPointOf geometry coor0 nd]) Hall).
  rewrite !length_app, Hlen in IH. cbn [length] in IH.
  rewrite <- !app_assoc in IH. cbn [app] in IH.
  change (CPointFEM.mk (long0 nd) _ _) with (haloPointOf geometry coor0 nd).
  by rewrite IH.
Qed.

Lemma answerElems_Ok_requested {T} (geometry : CGeometry.t T) rank items :
  ∀ req pre rest S L nodeIDs r,
  req = pre ++ requestTriples items ++ rest →
  answerElems geometry rank req (length items) (length pre) S L nodeIDs = Ok r →
  ∃ es, Forall2 (requestedElem geometry rank) items es
        ∧ r = (S ++ answeredShort (zip items es),
               L ++ answeredLong (zip items es),
               nodeIDs ++ answeredNodeIDs (zip items es)).
Proof.
  induction items as [|[[g p] s] items IH];
    intros req pre rest S L nodeIDs r Hreq Hr.
  { exists []. simpl in Hr. injection Hr as <-.
    split; [constructor|]. by rewrite !app_nil_r. }
  assert (req = pre ++ [g; p; s] ++ requestTriples items ++ rest) as Hreq'
    by (by rewrite Hreq).
  destruct (request_reads pre (requestTriples items ++ rest) g p s)
    as (Hg & Hp & Hs).
  rewrite <- Hreq' in Hg, Hp, Hs.
  cbn [length answerElems] in Hr. rewrite Hg in Hr. osimpl.
  unfold readAt at 1 in Hr.
  destruct (CGeometry.starting_node geometry !! rank) as [start|] eqn:Hst;
    osimpl; [|done].
  destruct (readAt (CGeometry.npoint_procs geometry) rank) as [np| |];
    osimpl; try done.
  destruct (invalidLocElemInd (locElemIndOf g start) np); [done|].
  rewrite Hp, Hs in Hr. osimpl. unfold readAt at 1 in Hr.
  destruct (CGeometry.elem geometry !! Z.to_nat (locElemIndOf g start))
    as [e|] eqn:He; osimpl; [|done].
  replace (length pre + 3)%nat with (length (pre ++ [g; p; s])) in Hr
    by (rewrite length_app; done).
  eapply (IH req (pre ++ [g; p; s]) rest) in Hr as (es & Hes & ->);
    [|by rewrite <- app_assoc].
  exists (e :: es). split.
  - constructor; [|done]. by exists start.
  - unfold answeredShort, answeredLong, answeredNodeIDs.
    cbn [zip_with flat_map]. by rewrite <- !app_assoc.
Qed.

Lemma requestedElem_in {T} (geometry : CGeometry.t T) rank items es :
  Forall2 (requestedElem geometry rank) items es →
  Forall (λ e, e ∈ CGeometry.elem geometry) es.
Proof.
  induction 1 as [|it e items es (start & _ & He) _ IH]; constructor; [|done].
  by eapply list_elem_of_lookup_2.
Qed.

Lemma haloElemOf_copy (it : request) (e : CPrimalGrid.t) old :
  CPrimalGrid.wf e → haloElemOf (it, e) old = haloCopyOf it e old.
Proof.
  intros [? ? ? ? ? ? ? ? Hn ? ?]. destruct it as [[g p] s].
  unfold haloElemOf, haloElem, haloCopyOf. cbn [fst snd].
  rewrite !to_ushort_to_short by done.
  by rewrite map_to_ulong_to_long.
Qed.

(** The answer of an owner, taken apart. *)
Lemma answerRequests_Ok_requested {T} (geometry : CGeometry.t T) rank items ans :
  answerRequests geometry rank (requestTriples items) = Ok ans →
  ∃ es,
    Forall2 (requestedElem geometry rank) items es
    ∧ let nodeIDs := dedup ul2_lt ul2_eqb (answeredNodeIDs (zip items es)) in
      ans = mkAnswer
              (answeredShort (zip items es)
                 ++ map (λ nd, to_short (to_short (long1 nd) - 1)) nodeIDs)
              (Z.of_nat (length items)
                 :: answeredLong (zip items es)
                 ++ [Z.of_nat (length nodeIDs)]
                 ++ map (λ nd, to_long (long0 nd)) nodeIDs)
              (flat_map (λ nd, nodeCoordsOf geometry (long0 nd)) nodeIDs)
      ∧ Forall (λ nd, length (nodeCoordsOf geometry (long0 nd))
                      = CGeometry.nDim geometry) nodeIDs.
Proof.
  unfold answerRequests. rewrite length_requestTriples.
  rewrite Nat.mul_comm, Nat.div_mul by done.
  destruct (answerElems _ _ _ _ _ _ _ _) as [[[S L] nodeIDs]| |] eqn:Hel;
    osimpl; try done.
  destruct (answerElems_Ok_requested geometry rank items (requestTriples items)
              [] [] _ _ _ _ (eq_sym (app_nil_r _)) Hel)
    as (es & Hes & [= -> -> ->]).
  destruct (answerCoords _ _ _) as [D| |] eqn:HD; osimpl; try done.
  destruct (answerCoords_spec _ _ _ _ HD) as [-> Hall].
  intros [= <-]. exists es. split; [done|]. by split.
Qed.

Lemma answeredNodeIDs_ulong xs :
  Forall (λ nd, is_ulong (long0 nd)) (answeredNodeIDs xs).
Proof.
  apply Forall_forall. intros nd Hnd. unfold answeredNodeIDs in Hnd.
  apply elem_of_flat_map in Hnd as ([[[g p] s] e] & _ & Hnd).
  apply list_elem_of_fmap in Hnd as (n & -> & _). apply to_ulong_range.
Qed.

(** What this rank stores from the answer of an owner. *)
Lemma storeHalo_requested {T} (geometry : CGeometry.t T) rank (coor0 : list T)
    items ans v hp :
  answerRequests geometry rank (requestTriples items) = Ok ans →
  Forall CPrimalGrid.wf (CGeometry.elem geometry) →
  (∀ it, it ∈ items → (Z.to_nat (to_ulong it.2) < length v)%nat) →
  ∃ es v',
    Forall2 (requestedElem geometry rank) items es
    ∧ storeHalo (CGeometry.nDim geometry) coor0 (v, hp) ans
      = Ok (v', hp ++ map (haloPointOf geometry coor0)
                        (dedup ul2_lt ul2_eqb (answeredNodeIDs (zip items es))))
    ∧ halo_stored_from (zip items es) v v'.
Proof.
  intros Hans Hwf Hslot.
  destruct (answerRequests_Ok_requested geometry rank items ans Hans)
    as (es & Hes & -> & Hcoords).
  set (xs := zip items es) in *.
  set (nodeIDs := dedup ul2_lt ul2_eqb (answeredNodeIDs xs)) in *.
  pose proof (Forall2_length _ _ _ Hes) as Hlen.
  assert (length xs = length items) as Hlxs.
  { unfold xs. rewrite length_zip_with. lia. }
  destruct (storeHalo_loop_packed xs
              (answeredShort xs
                 ++ map (λ nd, to_short (to_short (long1 nd) - 1)) nodeIDs)
              (Z.of_nat (length items) :: answeredLong xs
                 ++ [Z.of_nat (length nodeIDs)]
                 ++ map (λ nd, to_long (long0 nd)) nodeIDs)
              [] [Z.of_nat (length items)]
              (map (λ nd, to_short (to_short (long1 nd) - 1)) nodeIDs)
              ([Z.of_nat (length nodeIDs)]
                 ++ map (λ nd, to_long (long0 nd)) nodeIDs) v)
    as (v' & Hloop & Hst); [done|done| | |].
  { apply Forall_forall. intros [it e] Hx. simpl.
    apply elem_of_zip_r in Hx.
    pose proof (requestedElem_in _ _ _ _ Hes) as Hin.
    rewrite Forall_forall in Hin, Hwf. apply Hwf, Hin, Hx. }
  { intros [it e] Hx. unfold slotOf. simpl. apply Hslot.
    by apply elem_of_zip_l in Hx. }
  exists es, v'. split; [done|]. split; [|done].
  unfold storeHalo. cbn [ansShort ansLong ansDouble].
  unfold readAt at 1. cbn [lookup list_lookup]. osimpl.
  unfold signedCount. rewrite Nat2Z.id.
  cbn [length] in Hloop. rewrite Hlxs in Hloop. rewrite Hloop. osimpl.
  assert (readAt (Z.of_nat (length items) :: answeredLong xs
                    ++ [Z.of_nat (length nodeIDs)]
                    ++ map (λ nd, to_long (long0 nd)) nodeIDs)
                 (1 + length (answeredLong xs))
          = Ok (Z.of_nat (length nodeIDs))) as ->.
  { change (Z.of_nat (length items) :: answeredLong xs ++ ?r)
      with (([Z.of_nat (length items)] ++ answeredLong xs) ++ r).
    replace (1 + length (answeredLong xs))%nat
      with (length ([Z.of_nat (length items)] ++ answeredLong xs)) by done.
    by rewrite readAt_app_0. }
  osimpl. rewrite Nat2Z.id.
  pose proof (storeHaloPoints_loop_answer geometry coor0 nodeIDs
                (answeredShort xs) []
                ([Z.of_nat (length items)] ++ answeredLong xs
                   ++ [Z.of_nat (length nodeIDs)]) []
                [] [] hp) as Hpts.
  rewrite !app_nil_r in Hpts. cbn [app length] in Hpts.
  rewrite <- !app_assoc in Hpts. cbn [app] in Hpts.
  rewrite !length_app in Hpts. cbn [length] in Hpts.
  replace (1 + length (answeredLong xs) + 1)%nat
    with (S (length (answeredLong xs) + 1)) by lia.
  cbn [app Nat.add]. rewrite Hpts; [done|].
  apply Forall_forall. intros nd Hnd. split.
  - pose proof (answeredNodeIDs_ulong xs) as Hul. rewrite Forall_forall in Hul.
    apply Hul. by apply elem_of_dedup_ul2.
  - rewrite Forall_forall in Hcoords. by apply Hcoords.
Qed.

(** X7 -- The halo elements come back as the owner holds them: when the
    owner answers a request buffer and this rank stores the answer, the
    slot named by a request holds a halo element with the requested
    global ID and periodic index, the rank, the type, the polynomial
    degrees, the numbers of DOFs and faces and the node IDs of the
    element of the owner; it is not owned, its Jacobian is not taken as
    constant and its global offset is [ULONG_MAX]. Every other slot is
    left as it was. *)
Theorem halo_elements_round_trip {T} (geometry : CGeometry.t T) (rank : nat)
    (coor0 : list T) (items : list request) (ans : answerBuf T)
    (v : list CVolumeElementFEM.t) (hp : list (CPointFEM.t T)) :
  answerRequests geometry rank (requestTriples items) = Ok ans →
  Forall CPrimalGrid.wf (CGeometry.elem geometry) →
  (∀ it, it ∈ items → (Z.to_nat (to_ulong it.2) < length v)%nat) →
  ∃ es v' hp',
    Forall2 (requestedElem geometry rank) items es
    ∧ storeHalo (CGeometry.nDim geometry) coor0 (v, hp) ans = Ok (v', hp')
    ∧ length v' = length v
    ∧ ∀ j vj, v' !! j = Some vj →
        (∃ it e old, (it, e) ∈ zip items es
                     ∧ Z.to_nat (to_ulong it.2) = j
                     ∧ vj = haloCopyOf it e old)
        ∨ ((∀ it, it ∈ items → Z.to_nat (to_ulong it.2) ≠ j)
           ∧ v !! j = Some vj).
Proof.
  intros Hans Hwf Hslot.
  destruct (storeHalo_requested geometry rank coor0 items ans v hp
              Hans Hwf Hslot) as (es & v' & Hes & Hrun & Hlen & Hst).
  eexists es, v', _. split_and!; [done..|].
  intros j vj Hj. destruct (Hst j vj Hj) as [([it e] & old & Hx & Hs & ->)|[Hno Hv]].
  - left. exists it, e, old. split_and!; [done..|].
    apply haloElemOf_copy.
    pose proof (requestedElem_in _ _ _ _ Hes) as Hin.
    rewrite Forall_forall in Hin, Hwf. apply Hwf, Hin.
    by apply elem_of_zip_r in Hx.
  - right. split; [|done]. intros it Hit Hs.
    pose proof (Forall2_length _ _ _ Hes) as Hl.
    apply list_elem_of_lookup in Hit as [k Hk].
    destruct (lookup_lt_is_Some_2 es k) as [e He].
    { rewrite <- Hl. by eapply lookup_lt_Some. }
    apply (Hno (it, e)); [|done].
    apply list_elem_of_lookup. exists k.
    rewrite lookup_zip_with, Hk. simpl. by rewrite He.
Qed.

Lemma halo_elements_round_trip_witness :
  ∃ es v' hp',
    Forall2 (requestedElem two_quads 0) [(0, 1, 2); (1, 0, 3)] es
    ∧ storeHalo 2 [0; 0; 0]%float (replicate 4 unset_elem, [])
        two_quads_answer = Ok (v', hp')
    ∧ length v' = 4%nat
    ∧ ∀ j vj, v' !! j = Some vj →
        (∃ it e old, (it, e) ∈ zip [(0, 1, 2); (1, 0, 3)] es
                     ∧ Z.to_nat (to_ulong it.2) = j
                     ∧ vj = haloCopyOf it e old)
        ∨ ((∀ it, it ∈ [(0, 1, 2); (1, 0, 3)]
                  → Z.to_nat (to_ulong it.2) ≠ j)
           ∧ replicate 4 unset_elem !! j = Some vj).
Proof.
  apply (halo_elements_round_trip two_quads 0 [0; 0; 0]%float
           [(0, 1, 2); (1, 0, 3)] two_quads_answer
           (replicate 4 unset_elem) []).
  - by vm_compute.
  - apply two_quads_wf.
  - intros it Hit. repeat (apply elem_of_cons in Hit as [->|Hit]);
      [vm_compute; lia..|by apply elem_of_nil in Hit].
Defined.

Lemma haloPointOf_descriptor {T} (geometry : CGeometry.t T) (coor0 : list T)
    (n p : Z) :
  is_ulong n →
  haloPointOf geometry coor0 (UL2 (to_long n) (to_short p + 1))
  = CPointFEM.mk n (to_short p)
      (nodeCoordsOf geometry n ++ drop (CGeometry.nDim geometry) coor0).
Proof.
  intros Hn. unfold haloPointOf, UL2. cbn [long0 long1].
  by rewrite periodic_index_returns, to_ulong_to_long.
Qed.

(** X8 -- The halo points come back with the coordinates of the owner:
    from the answer of an owner this rank appends one halo point for
    every pair of a node of a requested element and the periodic index
    of the request, without doubles and in increasing order of the node
    and the index; the point carries the global ID of the node, the
    periodic index and the coordinates the node has in the source mesh
    of the owner. *)
Theorem halo_points_round_trip {T} (geometry : CGeometry.t T) (rank : nat)
    (coor0 : list T) (items : list request) (ans : answerBuf T)
    (v : list CVolumeElementFEM.t) (hp : list (CPointFEM.t T)) :
  answerRequests geometry rank (requestTriples items) = Ok ans →
  Forall CPrimalGrid.wf (CGeometry.elem geometry) →
  (∀ it, it ∈ items → (Z.to_nat (to_ulong it.2) < length v)%nat) →
  ∃ es v' new,
    Forall2 (requestedElem geometry rank) items es
    ∧ storeHalo (CGeometry.nDim geometry) coor0 (v, hp) ans
      = Ok (v', hp ++ new)
    ∧ new = map (haloPointOf geometry coor0)
              (dedup ul2_lt ul2_eqb (answeredNodeIDs (zip items es)))
    ∧ (∀ q, q ∈ new ↔
         ∃ it e n, (it, e) ∈ zip items es ∧ n ∈ CPrimalGrid.Nodes e
                   ∧ q = CPointFEM.mk n (to_short it.1.2)
                           (nodeCoordsOf geometry n
                              ++ drop (CGeometry.nDim geometry) coor0)).
Proof.
  intros Hans Hwf Hslot.
  destruct (storeHalo_requested geometry rank coor0 items ans v hp
              Hans Hwf Hslot) as (es & v' & Hes & Hrun & _).
  eexists es, v', _. split_and!; [done..|].
  assert (∀ it e n, (it, e) ∈ zip items es → n ∈ CPrimalGrid.Nodes e →
                    is_ulong n) as Hnodes.
  { intros it e n Hx Hn.
    pose proof (requestedElem_in _ _ _ _ Hes) as Hin.
    rewrite Forall_forall in Hin, Hwf.
    pose proof (CPrimalGrid.wf_Nodes e (Hwf e (Hin e (elem_of_zip_r _ _ _ _ Hx))))
      as Hall.
    rewrite Forall_forall in Hall. by apply Hall. }
  intros q. rewrite list_elem_of_fmap. split.
  - intros (nd & -> & Hnd). rewrite elem_of_dedup_ul2 in Hnd.
    unfold answeredNodeIDs in Hnd.
    apply elem_of_flat_map in Hnd as ([[[g p] s] e] & Hx & Hnd).
    apply list_elem_of_fmap in Hnd as (n & -> & Hn).
    exists (g, p, s), e, n. split_and!; [done..|].
    apply haloPointOf_descriptor. by eapply Hnodes.
  - intros ([[g p] s] & e & n & Hx & Hn & ->).
    exists (UL2 (to_long n) (to_short p + 1)). split.
    + symmetry. apply haloPointOf_descriptor. by eapply Hnodes.
    + apply elem_of_dedup_ul2. unfold answeredNodeIDs.
      apply elem_of_flat_map. exists ((g, p, s), e). split; [done|].
      apply list_elem_of_fmap. by exists n.
Qed.

Lemma halo_points_round_trip_witness :
  ∃ es v' new,
    Forall2 (requestedElem two_quads 0) [(0, 1, 2); (1, 0, 3)] es
    ∧ storeHalo 2 [0; 0; 0]%float (replicate 4 unset_elem, [])
        two_quads_answer = Ok (v', [] ++ new)
    ∧ new = map (haloPointOf two_quads [0; 0; 0]%float)
              (dedup ul2_lt ul2_eqb
                 (answeredNodeIDs (zip [(0, 1, 2); (1, 0, 3)] es)))
    ∧ (∀ q, q ∈ new ↔
         ∃ it e n, (it, e) ∈ zip [(0, 1, 2); (1, 0, 3)] es
                   ∧ n ∈ CPrimalGrid.Nodes e
                   ∧ q = CPointFEM.mk n (to_short it.1.2)
                           (nodeCoordsOf two_quads n
                              ++ drop 2 [0; 0; 0]%float)).
Proof.
  apply (halo_points_round_trip two_quads 0 [0; 0; 0]%float
           [(0, 1, 2); (1, 0, 3)] two_quads_answer
           (replicate 4 unset_elem) []).
  - by vm_compute.
  - apply two_quads_wf.
  - intros it Hit. repeat (apply elem_of_cons in Hit as [->|Hit]);
      [vm_compute; lia..|by apply elem_of_nil in Hit].
Defined.

(** ** The periodic transformation and the groups of halo points *)

(** X9 -- The periodic transformation keeps distances in exact
    arithmetic and not in the arithmetic of binary64. In binary64, with
    the centre (1e17, 0, 0), no rotation and no translation, the two
    distinct points (1, 0, 0) and (7, 0, 0) are sent to the same point,
    for all cosine and sine functions with cos 0 = 1 and sin 0 = 0. Over
    exact arithmetic the squared distance of two transformed points is
    the squared distance of the differences to the centre the code
    rotates, which in three dimensions is the squared distance of the
    points and otherwise that of their first two coordinates: the
    rotation matrix of the code is orthogonal for all angles. *)
Theorem periodic_transformation_isometry :
  (∀ cosf sinf : float → float,
     cosf 0%float = 1%float → sinf 0%float = 0%float →
     (1, 0, 0)%float ≠ (7, 0, 0)%float
     ∧ @transformCoor float float_order (float_arith cosf sinf) 3 far_centre
         (1, 0, 0)%float
       = @transformCoor float float_order (float_arith cosf sinf) 3
           far_centre (7, 0, 0)%float)
  ∧ (∀ (nDim : nat) (per : CConfig.periodic R) (a b : vec3),
       dot (vsub (transformCoor nDim per a) (transformCoor nDim per b))
           (vsub (transformCoor nDim per a) (transformCoor nDim per b))
       = dot (vsub (centred nDim per a) (centred nDim per b))
             (vsub (centred nDim per a) (centred nDim per b))
       ∧ vsub (centred nDim per a) (centred nDim per b)
         = (a.1.1 - b.1.1, a.1.2 - b.1.2,
            if (nDim =? 3)%nat then a.2 - b.2 else 0)%R).
Proof.
  split.
  { intros cosf sinf Hc Hs. split.
    - intros Heq.
      assert (PrimFloat.eqb 1 1 = PrimFloat.eqb 1 7) as Hb
        by exact (f_equal (λ p : float * float * float,
                             PrimFloat.eqb 1 p.1.1) Heq).
      vm_compute in Hb. discriminate Hb.
    - destruct (transformCoor_binary64_rounds cosf sinf Hc Hs) as [-> ->].
      reflexivity. }
  intros nDim per a b.
  destruct per as [[[c0 c1] c2] [[theta phi] psi] [[t0 t1] t2]].
  destruct a as [[ax ay] az], b as [[bx by'] bz].
  unfold transformCoor, translationOf, rotMatrix, centred.
  cbn [CConfig.center CConfig.angles CConfig.trans fst snd].
  unfold dot, vsub.
  cbn [su2_add su2_sub su2_mul su2_opp su2_cos su2_sin su2_zero
       R_arith R_order].
  pose proof (sin2_cos2 theta) as H1. pose proof (sin2_cos2 phi) as H2.
  pose proof (sin2_cos2 psi) as H3. unfold Rsqr in H1, H2, H3.
  generalize dependent (sin theta). generalize dependent (cos theta).
  generalize dependent (sin phi). generalize dependent (cos phi).
  generalize dependent (sin psi). generalize dependent (cos psi).
  intros c3 s3 H3 c2' s2 H2 c1' s1 H1.
  destruct (nDim =? 3)%nat; (split; [nsatz|f_equal; [f_equal|]; ring]).
Qed.

Section periodic_groups.
Context {T : Type}.

Lemma periodicGroups_concat (l : list (CPointFEM.t T)) :
  concat (periodicGroups l) = l.
Proof.
  induction l as [|p l IH]; [done|]. cbn [periodicGroups].
  destruct (periodicGroups l) as [|[|q g] gs]; cbn [concat app] in *.
  - by rewrite <- IH.
  - by rewrite <- IH.
  - destruct (CPointFEM.periodIndexToDonor q =? CPointFEM.periodIndexToDonor p);
      cbn [concat app]; by rewrite <- IH.
Qed.

Lemma periodicGroups_nonempty (l : list (CPointFEM.t T)) :
  Forall (λ g, g ≠ []) (periodicGroups l).
Proof.
  induction l as [|p l IH]; [constructor|]. cbn [periodicGroups].
  destruct (periodicGroups l) as [|[|q g] gs].
  - by repeat constructor.
  - by constructor.
  - destruct (CPointFEM.periodIndexToDonor q =? CPointFEM.periodIndexToDonor p).
    + apply Forall_cons in IH as [_ IH]. by constructor.
    + by constructor.
Qed.

Lemma periodicGroups_maximal (l : list (CPointFEM.t T)) :
  ∀ i g1 g2 p q, periodicGroups l !! i = Some g1 →
                 periodicGroups l !! S i = Some g2 →
                 head g1 = Some p → head g2 = Some q →
                 CPointFEM.periodIndexToDonor p ≠ CPointFEM.periodIndexToDonor q.
Proof.
  induction l as [|p0 l IH]; [done|]. cbn [periodicGroups].
  pose proof (periodicGroups_nonempty l) as Hne.
  destruct (periodicGroups l) as [|[|q0 g] gs] eqn:Hgs.
  - intros i g1 g2 p q _ H2. by destruct i.
  - by apply Forall_cons in Hne as [? _].
  - destruct (Z.eqb_spec (CPointFEM.periodIndexToDonor q0)
                (CPointFEM.periodIndexToDonor p0)) as [E|E].
    + intros [|i] g1 g2 p q.
      * intros [= <-] H2 [= <-] Hq. rewrite <- E.
        apply (IH 0%nat (q0 :: g) g2 q0 q eq_refl H2 eq_refl Hq).
      * intros H1 H2. apply (IH (S i) g1 g2 p q H1 H2).
    + intros [|i] g1 g2 p q.
      * intros [= <-] [= <-] [= <-] [= <-]. congruence.
      * intros H1 H2. apply (IH i g1 g2 p q H1 H2).
Qed.

(** X10 -- The halo points are worked off in maximal runs of equal
    periodic index: the groups are not empty, put one after the other
    they give the halo points in their order, all points of a group
    have the periodic index of its first point, and the first points of
    two successive groups differ in it. *)
Theorem periodic_groups_are_maximal_runs (haloPoints : list (CPointFEM.t T)) :
  concat (periodicGroups haloPoints) = haloPoints
  ∧ Forall (λ g, ∃ first rest,
              g = first :: rest
              ∧ Forall (λ p, CPointFEM.periodIndexToDonor p
                             = CPointFEM.periodIndexToDonor first) g)
           (periodicGroups haloPoints)
  ∧ ∀ i g1 g2 p q, periodicGroups haloPoints !! i = Some g1 ∧
                   periodicGroups haloPoints !! S i = Some g2 ∧
                   head g1 = Some p ∧ head g2 = Some q →
                   CPointFEM.periodIndexToDonor p
                   ≠ CPointFEM.periodIndexToDonor q.
Proof.
  split_and!.
  - apply periodicGroups_concat.
  - apply periodicGroups_uniform.
  - intros i g1 g2 p q (H1 & H2 & Hp & Hq).
    exact (periodicGroups_maximal haloPoints i g1 g2 p q H1 H2 Hp Hq).
Qed.

End periodic_groups.

(** ** The answer of an owner *)

Lemma fillIndexMap_is_Some `{Countable K} (v : list K) : ∀ base i m k,
  k ∈ v → ∃ j, fillIndexMap v base i m !! k = Some (base + (i + j))%nat
               ∧ v !! j = Some k.
Proof.
  induction v as [|k0 v IH]; intros base i m k Hk; [by apply elem_of_nil in Hk|].
  cbn [fillIndexMap]. destruct (decide (k ∈ v)) as [Hin|Hnot].
  - destruct (IH base (S i) (<[k0 := (base + i)%nat]> m) k Hin) as (j & Hj & Hv).
    exists (S j). split; [|done]. rewrite Hj. f_equal. lia.
  - apply elem_of_cons in Hk as [->|]; [|done].
    exists 0%nat. split; [|done].
    rewrite fillIndexMap_notin by done.
    rewrite lookup_insert_eq. f_equal. lia.
Qed.

Lemma globalPointIDToLocalInd_known {T} (geometry : CGeometry.t T) g :
  g ∈ map CGeometry.GlobalIndex (CGeometry.nodes geometry) →
  ∃ ind node, globalPointIDToLocalInd geometry !! g = Some ind
              ∧ CGeometry.nodes geometry !! ind = Some node.
Proof.
  intros Hg. unfold globalPointIDToLocalInd.
  destruct (fillIndexMap_is_Some _ 0%nat 0%nat ∅ g Hg) as (j & Hj & Hv).
  apply list_lookup_fmap_Some in Hv as (node & _ & Hnode).
  exists j, node. split; [|done]. by rewrite Hj.
Qed.

Lemma globalPointIDToLocalInd_unknown {T} (geometry : CGeometry.t T) g :
  g ∉ map CGeometry.GlobalIndex (CGeometry.nodes geometry) →
  globalPointIDToLocalInd geometry !! g = None.
Proof.
  intros Hg. unfold globalPointIDToLocalInd.
  by rewrite fillIndexMap_notin.
Qed.

Lemma answerCoords_cases {T} (geometry : CGeometry.t T) nodeIDs :
  Forall (λ node, (CGeometry.nDim geometry ≤ length (CGeometry.Coord node))%nat)
         (CGeometry.nodes geometry) →
  ∀ D,
  (Forall (λ nd, long0 nd ∈ map CGeometry.GlobalIndex (CGeometry.nodes geometry))
          nodeIDs →
   ∃ D', answerCoords geometry nodeIDs D = Ok D')
  ∧ (Exists (λ nd, long0 nd ∉ map CGeometry.GlobalIndex
                                (CGeometry.nodes geometry)) nodeIDs →
     answerCoords geometry nodeIDs D = Abort [] entryNotFound).
Proof.
  intros Hcoor. induction nodeIDs as [|nd nodeIDs IH]; intros D.
  { split; [by eexists|]. intros Hex. by apply Exists_nil in Hex. }
  cbn [answerCoords]. unfold findLocalNode.
  destruct (decide (long0 nd ∈ map CGeometry.GlobalIndex
                                 (CGeometry.nodes geometry))) as [Hin|Hnot].
  - destruct (globalPointIDToLocalInd_known geometry _ Hin)
      as (ind & node & -> & Hnode).
    osimpl. unfold readAt. rewrite Hnode. osimpl.
    rewrite Forall_forall in Hcoor.
    destruct (readRange_gen_in_bounds (CGeometry.Coord node)
                (CGeometry.nDim geometry) 0) as [xs ->].
    { simpl. apply Hcoor. by eapply list_elem_of_lookup_2. }
    osimpl. destruct (IH (D ++ xs)) as [IHk IHu]. split.
    + intros Hall. apply Forall_cons in Hall as [_ Hall]. by apply IHk.
    + intros Hex. apply Exists_cons in Hex as [|Hex]; [done|]. by apply IHu.
  - rewrite globalPointIDToLocalInd_unknown by done. osimpl. split; [|done].
    intros Hall. by apply Forall_cons in Hall as [? _].
Qed.

Lemma answerable_zip_nodes {T} (geometry : CGeometry.t T) start np items es nd :
  Forall2 (answerable geometry start np) items es →
  Forall CPrimalGrid.wf es →
  nd ∈ answeredNodeIDs (zip items es) →
  ∃ e, e ∈ es ∧ long0 nd ∈ CPrimalGrid.Nodes e.
Proof.
  intros Hans Hwf Hnd. unfold answeredNodeIDs in Hnd.
  apply elem_of_flat_map in Hnd as ([[[g p] s] e] & Hx & Hnd).
  apply list_elem_of_fmap in Hnd as (n & -> & Hn).
  apply elem_of_zip_r in Hx. exists e. split; [done|].
  rewrite Forall_forall in Hwf.
  pose proof (CPrimalGrid.wf_Nodes e (Hwf e Hx)) as Hall.
  rewrite Forall_forall in Hall.
  unfold UL2. cbn [long0]. by rewrite to_ulong_to_long by (by apply Hall).
Qed.

(** X11 -- The lookup of the nodes in the answer is tested, unlike the
    one of the final translation: when every request of a buffer passes
    the range check, the owner answers it if all nodes of the requested
    elements are nodes of its source mesh, and prints that an entry was
    not found in the map and stops the run if one of them is not. *)
Theorem answer_tests_the_node_lookup {T} (geometry : CGeometry.t T)
    (rank : nat) (start np : Z) (items : list request)
    (es : list CPrimalGrid.t) :
  readAt (CGeometry.starting_node geometry) rank = Ok start →
  readAt (CGeometry.npoint_procs geometry) rank = Ok np →
  Forall2 (answerable geometry start np) items es →
  Forall CPrimalGrid.wf es →
  Forall (λ node, (CGeometry.nDim geometry ≤ length (CGeometry.Coord node))%nat)
         (CGeometry.nodes geometry) →
  ((∀ e n, e ∈ es → n ∈ CPrimalGrid.Nodes e →
           n ∈ map CGeometry.GlobalIndex (CGeometry.nodes geometry)) →
   ∃ ans, answerRequests geometry rank (requestTriples items) = Ok ans)
  ∧ (∀ e n, e ∈ es → n ∈ CPrimalGrid.Nodes e →
            n ∉ map CGeometry.GlobalIndex (CGeometry.nodes geometry) →
            answerRequests geometry rank (requestTriples items)
            = Abort [] entryNotFound).
Proof.
  intros Hstart Hnp Hans Hwf Hcoor.
  assert (answerElems geometry rank (requestTriples items) (length items) 0
            [] [Z.of_nat (length items)] []
          = Ok (answeredShort (zip items es),
                [Z.of_nat (length items)] ++ answeredLong (zip items es),
                answeredNodeIDs (zip items es))) as Hel.
  { pose proof (answerElems_packed geometry rank start np Hstart Hnp items es
                  (requestTriples items) [] [] 0 [] [Z.of_nat (length items)] [])
      as Hp.
    rewrite Nat.add_0_r in Hp. cbn [length] in Hp. rewrite Hp; [done| |done].
    by rewrite app_nil_r. }
  unfold answerRequests. rewrite length_requestTriples.
  rewrite Nat.mul_comm, Nat.div_mul by done. rewrite Hel. osimpl.
  set (nodeIDs := dedup ul2_lt ul2_eqb (answeredNodeIDs (zip items es))).
  destruct (answerCoords_cases geometry nodeIDs Hcoor []) as [Hk Hu]. split.
  - intros Hknown. destruct Hk as [D ->]; [|osimpl; by eexists].
    apply Forall_forall. intros nd Hnd. unfold nodeIDs in Hnd.
    rewrite elem_of_dedup_ul2 in Hnd.
    destruct (answerable_zip_nodes _ _ _ _ _ _ Hans Hwf Hnd) as (e & He & Hn).
    by eapply Hknown.
  - intros e n He Hn Hunknown. rewrite Hu; [done|].
    apply Exists_exists.
    apply list_elem_of_lookup in He as [k Hk'].
    destruct (lookup_lt_is_Some_2 items k) as [[[g p] s] Hit].
    { rewrite (Forall2_length _ _ _ Hans). by eapply lookup_lt_Some. }
    exists (UL2 (to_long n) (to_short p + 1)). split.
    + unfold nodeIDs. rewrite elem_of_dedup_ul2. unfold answeredNodeIDs.
      apply elem_of_flat_map. exists ((g, p, s), e). split.
      * apply list_elem_of_lookup. exists k.
        rewrite lookup_zip_with, Hit. simpl. by rewrite Hk'.
      * apply list_elem_of_fmap. by exists n.
    + unfold UL2. cbn [long0]. rewrite to_ulong_to_long; [done|].
      rewrite Forall_forall in Hwf.
      pose proof (CPrimalGrid.wf_Nodes e
                    (Hwf e (list_elem_of_lookup_2 _ _ _ Hk'))) as Hall.
      rewrite Forall_forall in Hall. by apply Hall.
Qed.

Lemma answer_tests_the_node_lookup_witness :
  answerRequests two_quads_less_a_node 0 [0; 1; 2; 1; 0; 3]
  = Abort [] entryNotFound.
Proof.
  refine (proj2 (answer_tests_the_node_lookup two_quads_less_a_node 0 0 2
                   [(0, 1, 2); (1, 0, 3)] [quad_left; quad_right]
                   eq_refl eq_refl _ _ _)
                quad_right 5 _ _ _).
  - repeat constructor; by vm_compute.
  - apply two_quads_wf.
  - repeat constructor.
  - rewrite !elem_of_cons. auto.
  - apply (bool_decide_unpack _). by vm_compute.
  - apply (bool_decide_unpack _). by vm_compute.
Defined.

Lemma answerElems_rest_irrelevant {T} (geometry : CGeometry.t T) rank items :
  ∀ pre rest rest' S L nodeIDs,
  answerElems geometry rank (pre ++ requestTriples items ++ rest)
    (length items) (length pre) S L nodeIDs
  = answerElems geometry rank (pre ++ requestTriples items ++ rest')
      (length items) (length pre) S L nodeIDs.
Proof.
  induction items as [|[[g p] s] items IH];
    intros pre rest rest' S L nodeIDs; [done|].
  cbn [length answerElems].
  destruct (request_reads pre (requestTriples items ++ rest) g p s)
    as (Hg & Hp & Hs).
  destruct (request_reads pre (requestTriples items ++ rest') g p s)
    as (Hg' & Hp' & Hs').
  change (requestTriples ((g, p, s) :: items))
    with ([g; p; s] ++ requestTriples items).
  rewrite <- !(app_assoc [g; p; s]).
  rewrite Hg, Hg', Hp, Hp', Hs, Hs'. osimpl.
  destruct (readAt (CGeometry.starting_node geometry) rank) as [start| |];
    osimpl; try done.
  destruct (readAt (CGeometry.npoint_procs geometry) rank) as [np| |];
    osimpl; try done.
  destruct (invalidLocElemInd (locElemIndOf g start) np); [done|].
  destruct (readAt (CGeometry.elem geometry) _) as [e| |]; osimpl; try done.
  specialize (IH (pre ++ [g; p; s]) rest rest').
  rewrite length_app in IH. cbn [length] in IH.
  rewrite <- !app_assoc in IH. cbn [app] in IH. apply IH.
Qed.

(** X12 -- The owner takes the number of requests as the length of the
    buffer divided by three: one or two values after the last complete
    request are never read, and the answer is the one to the buffer
    without them. *)
Theorem answer_ignores_incomplete_request {T} (geometry : CGeometry.t T)
    (rank : nat) (items : list request) (tail : list Z) :
  (length tail < 3)%nat →
  answerRequests geometry rank (requestTriples items ++ tail)
  = answerRequests geometry rank (requestTriples items).
Proof.
  intros Htail. unfold answerRequests.
  rewrite length_app, !length_requestTriples.
  rewrite (Nat.mul_comm 3), Nat.div_add_l, Nat.div_mul by done.
  rewrite (Nat.div_small (length tail)), Nat.add_0_r by done.
  pose proof (answerElems_rest_irrelevant geometry rank items [] tail []
                [] [Z.of_nat (length items)] []) as Hirr.
  cbn [app length] in Hirr. rewrite app_nil_r in Hirr. by rewrite Hirr.
Qed.

Lemma answer_ignores_incomplete_request_witness :
  answerRequests two_quads 0 ([0; 1; 2; 1; 0; 3] ++ [7; 7])
  = answerRequests two_quads 0 [0; 1; 2; 1; 0; 3].
Proof.
  apply (answer_ignores_incomplete_request two_quads 0
           [(0, 1, 2); (1, 0, 3)] [7; 7]).
  simpl. lia.
Defined.

(** ** The conversion to the local numbering *)

Lemma pointKey_inj {T} (p q : CPointFEM.t T) :
  pointInRange p → pointInRange q → pointKey p = pointKey q →
  pointFEM_eqb p q = true.
Proof.
  intros [Hp1 Hp2] [Hq1 Hq2]. unfold pointKey, UL2. intros [= H0 H1].
  rewrite !to_ulong_small in H0 by done.
  unfold pointFEM_eqb. rewrite H0, Z.eqb_refl. simpl. apply Z.eqb_eq.
  apply (UL2_periodic_inj 0); [done..|]. unfold UL2. by rewrite H1.
Qed.

(** X13 -- The map from a point to its local index inverts the vector
    of the local points: for points without doubles under
    [operator==], with IDs in the ranges of their types, the key of the
    point at index [i] is mapped to [i], and every entry of the map
    comes from a point at the index it holds. *)
Theorem local_points_found_by_key {T} (meshPoints : list (CPointFEM.t T)) :
  duplicate_free pointFEM_eqb meshPoints →
  Forall pointInRange meshPoints →
  (∀ i p, meshPoints !! i = Some p →
          mapGlobalPointIDToInd meshPoints !! pointKey p = Some i)
  ∧ (∀ k i, mapGlobalPointIDToInd meshPoints !! k = Some i →
            ∃ p, meshPoints !! i = Some p ∧ pointKey p = k).
Proof.
  intros Hdup Hrange. unfold mapGlobalPointIDToInd. split.
  - intros i p Hi.
    rewrite (fillIndexMap_lookup _ 0%nat 0%nat ∅ i (pointKey p)); [done| |].
    + apply NoDup_alt. intros a b k Ha Hb.
      apply list_lookup_fmap_Some in Ha as (pa & -> & Ha).
      apply list_lookup_fmap_Some in Hb as (pb & Hk & Hb).
      rewrite Forall_forall in Hrange.
      assert (pointFEM_eqb pa pb = true) as Heq.
      { apply pointKey_inj; [| |done];
          apply Hrange; by eapply list_elem_of_lookup_2. }
      destruct (Nat.lt_trichotomy a b) as [Hlt|[->|Hlt]]; [|done|].
      * rewrite (Hdup a b pa pb Hlt Ha Hb) in Heq. done.
      * assert (pointFEM_eqb pb pa = true) as Heq'.
        { apply pointKey_inj; [| |done];
            apply Hrange; by eapply list_elem_of_lookup_2. }
        rewrite (Hdup b a pb pa Hlt Hb Ha) in Heq'. done.
    + by rewrite list_lookup_fmap, Hi.
  - intros k i Hk.
    apply fillIndexMap_inv in Hk as [(j & Hj & ->)|Hk];
      [|by rewrite lookup_empty in Hk].
    apply list_lookup_fmap_Some in Hj as (p & -> & Hp). by exists p.
Qed.

Lemma local_points_found_by_key_witness :
  mapGlobalPointIDToInd
    [CPointFEM.mk 4 (-1) [0; 0; 0]; CPointFEM.mk 7 (-1) [1; 0; 0];
     CPointFEM.mk 2 0 [2; 0; 0]]
  !! pointKey (CPointFEM.mk 7 (-1) [1; 0; 0]) = Some 1%nat.
Proof.
  refine (proj1 (local_points_found_by_key dedup_witness_points _ _) 1%nat _ _).
  - intros i j x y Hij Hi Hj.
    destruct i as [|[|[|i]]], j as [|[|[|j]]]; simpl in Hi, Hj; try lia;
      try done; injection Hi as <-; injection Hj as <-; done.
  - repeat constructor; by vm_compute.
  - done.
Defined.

Lemma translateNodes_Ok_length m perPlus1 n : ∀ j nodes nodes',
  translateNodes m perPlus1 n j nodes = Ok nodes' →
  (j + n ≤ length nodes)%nat ∨ n = 0%nat.
Proof.
  induction n as [|n IH]; intros j nodes nodes'; cbn [translateNodes];
    [by right|].
  unfold readAt. destruct (nodes !! j) as [y|] eqn:Hy; osimpl; [|done].
  unfold findSecond. destruct (m !! UL2 y perPlus1); osimpl; [|done].
  unfold writeAt. case_decide as Hlt; osimpl; [|done].
  intros Hrest. left. apply IH in Hrest as [Hr| ->]; [|lia].
  rewrite length_insert in Hr. lia.
Qed.

Lemma translateNodes_closed m perPlus1 n : ∀ j nodes,
  (j + n ≤ length nodes)%nat →
  Forall (λ x, is_Some (m !! UL2 x perPlus1)) (take n (drop j nodes)) →
  translateNodes m perPlus1 n j nodes
  = Ok (take j nodes
        ++ map (λ x, Z.of_nat (default 0%nat (m !! UL2 x perPlus1)))
               (take n (drop j nodes))
        ++ drop (j + n) nodes).
Proof.
  induction n as [|n IH]; intros j nodes Hlen Hall; cbn [translateNodes].
  { rewrite Nat.add_0_r, take_0. cbn [map app]. by rewrite take_drop. }
  destruct (lookup_lt_is_Some_2 nodes j) as [y Hy]; [lia|].
  rewrite (drop_S _ _ _ Hy) in Hall |- *. cbn [take map] in Hall |- *.
  apply Forall_cons in Hall as [[ind Hind] Hall].
  unfold readAt. rewrite Hy. osimpl. unfold findSecond. rewrite Hind. osimpl.
  unfold writeAt. rewrite decide_True by lia. osimpl.
  rewrite IH.
  - rewrite !drop_insert_lt by lia.
    rewrite take_insert_lt by lia.
    rewrite (take_S_r _ _ _ Hy), insert_app_r_alt by (rewrite length_take; lia).
    rewrite length_take, Nat.min_l by lia.
    rewrite Nat.sub_diag.
    change (<[0%nat:=Z.of_nat ind]> [y]) with [Z.of_nat ind].
    rewrite <- app_assoc. cbn [app].
    by replace (S j + n)%nat with (j + S n)%nat by lia.
  - rewrite length_insert. lia.
  - by rewrite drop_insert_lt by lia.
Qed.

Lemma translateNodes_cases m perPlus1 n nodes :
  translateNodes m perPlus1 n 0 nodes
  = if decide (translatable m perPlus1 n nodes)
    then Ok (translated m perPlus1 n nodes)
    else Undefined.
Proof.
  unfold translatable, translated. case_decide as Hc.
  - destruct Hc as [Hlen Hall].
    rewrite translateNodes_closed by (by rewrite ?drop_0).
    by rewrite drop_0.
  - pose proof (translateNodes_not_abort m perPlus1 n 0 nodes) as Hna.
    destruct (translateNodes m perPlus1 n 0 nodes) as [nodes'| |] eqn:E;
      [|done..].
    exfalso. apply Hc.
    pose proof (translateNodes_Ok_length _ _ _ _ _ _ E) as Hlen.
    assert (n ≤ length nodes)%nat as Hn by (destruct Hlen; lia).
    split; [done|].
    apply Forall_forall. intros x Hx.
    apply list_elem_of_lookup in Hx as [k Hk].
    apply lookup_take_Some in Hk as [Hk Hkn].
    destruct (translateNodes_Ok_found _ _ _ _ _ _ E k x ltac:(lia) Hk)
      as (ind & -> & _). done.
Qed.

(** X14 -- The conversion of the node IDs of the volume elements to the
    local numbering in closed form: it is defined exactly when every
    element has its first nDOFsGrid node IDs and each of them, with the
    periodic index of the element plus one, is a key of the map; it then
    replaces these IDs by the entries of the map and changes nothing
    else, and it is undefined otherwise. *)
Theorem final_translation_closed_form (m : gmap unsignedLong2T nat)
    (volElem : list CVolumeElementFEM.t) :
  translateVolElems m volElem
  = if decide (Forall (volElemTranslatable m) volElem)
    then Ok (map (volElemTranslated m) volElem)
    else Undefined.
Proof.
  unfold translateVolElems. induction volElem as [|v volElem IH];
    cbn [forEachElem map].
  { by rewrite decide_True by constructor. }
  unfold translateVolElem at 1. rewrite translateNodes_cases.
  fold (volElemTranslatable m v).
  destruct (decide (volElemTranslatable m v)) as [Hv|Hv]; osimpl.
  - rewrite IH. destruct (decide (Forall (volElemTranslatable m) volElem))
      as [Hall|Hall]; osimpl.
    + by rewrite decide_True by (by constructor).
    + rewrite decide_False; [done|]. by intros [_ ?]%Forall_cons.
  - rewrite decide_False; [done|]. by intros [? _]%Forall_cons.
Qed.

(** ** The local indices after the reconciliation *)

Lemma forEachBuf_inv {A B} (I : B → Prop) (f : B → A → outcome B) l :
  (∀ acc x acc', x ∈ l → I acc → f acc x = Ok acc' → I acc') →
  ∀ acc acc', I acc → forEachBuf f l acc = Ok acc' → I acc'.
Proof.
  induction l as [|x l IH]; intros Hf acc acc' Hacc; cbn [forEachBuf].
  { by intros [= <-]. }
  destruct (f acc x) as [acc1| |] eqn:Hx; osimpl; try done.
  apply IH.
  - intros a y a' Hy. apply Hf. by right.
  - eapply Hf; [left|done..].
Qed.

Lemma mapGlobalPointIDToInd_in_range {T} (meshPoints : list (CPointFEM.t T)) :
  mapInRange (mapGlobalPointIDToInd meshPoints) (length meshPoints).
Proof.
  intros k i Hk. unfold mapGlobalPointIDToInd in Hk.
  apply fillIndexMap_inv in Hk as [(j & Hj & ->)|Hk];
    [|by rewrite lookup_empty in Hk].
  apply lookup_lt_Some in Hj. rewrite length_map in Hj. lia.
Qed.

Lemma mapInRange_mono `{Countable K} (m : gmap K nat) (a b : nat) :
  (a ≤ b)%nat → mapInRange m a → mapInRange m b.
Proof. intros Hab Hm k i Hk. specialize (Hm k i Hk). lia. Qed.

Lemma nodesInRange_mono (a b : nat) n nodes :
  (a ≤ b)%nat → nodesInRange a n nodes → nodesInRange b n nodes.
Proof. intros Hab Hn k x Hk Hx. specialize (Hn k x Hk Hx). lia. Qed.

Lemma translateNodes_in_range m perPlus1 n nodes nodes' size :
  mapInRange m size →
  translateNodes m perPlus1 n 0 nodes = Ok nodes' →
  nodesInRange size (Z.of_nat n) nodes'.
Proof.
  intros Hm Htr k x Hk Hx. rewrite Nat2Z.id in Hk.
  pose proof (translateNodes_Ok_length _ _ _ _ _ _ Htr) as Hlen.
  destruct (lookup_lt_is_Some_2 nodes k) as [y Hy]; [destruct Hlen; lia|].
  destruct (translateNodes_Ok_found _ _ _ _ _ _ Htr k y ltac:(lia) Hy)
    as (ind & Hind & Hk').
  rewrite Hx in Hk'. injection Hk' as ->. specialize (Hm _ _ Hind). lia.
Qed.

Lemma translateVolElems_in_range m volElem volElem' size :
  mapInRange m size →
  translateVolElems m volElem = Ok volElem' →
  Forall (λ v, nodesInRange size (CVolumeElementFEM.nDOFsGrid v)
                 (CVolumeElementFEM.nodeIDsGrid v)) volElem'.
Proof.
  intros Hm Htr%forEachElem_Forall2.
  induction Htr as [|v v' vs vs' Hv _ IH]; constructor; [|done].
  unfold translateVolElem in Hv.
  destruct (translateNodes _ _ _ _ _) as [nodes'| |] eqn:E; osimpl; try done.
  injection Hv as <-. cbn [CVolumeElementFEM.nDOFsGrid
                           CVolumeElementFEM.nodeIDsGrid].
  intros k x Hk Hx.
  apply (translateNodes_in_range _ _ _ _ _ _ Hm E k x); [|done].
  by rewrite Nat2Z.id.
Qed.

Lemma translateBoundaries_in_range mElem m boundaries boundaries' size :
  mapInRange m size →
  translateBoundaries mElem m boundaries = Ok boundaries' →
  Forall (λ b, Forall (λ s, nodesInRange size (CSurfaceElementFEM.nDOFsGrid s)
                              (CSurfaceElementFEM.nodeIDsGrid s))
                      (CBoundaryFEM.surfElem b)) boundaries'.
Proof.
  intros Hm Htr%forEachElem_Forall2.
  induction Htr as [|b b' bs bs' Hb _ IH]; constructor; [|done].
  unfold translateBoundary in Hb.
  destruct (forEachElem _ _) as [ses| |] eqn:E; osimpl; try done.
  injection Hb as <-. cbn [CBoundaryFEM.surfElem].
  apply forEachElem_Forall2 in E. clear -E Hm.
  induction E as [|s s' ss ss' Hs _ IH]; constructor; [|done].
  unfold translateSurfElem in Hs.
  destruct (findSecond mElem _); osimpl; try done.
  destruct (translateNodes _ _ _ _ _) as [nodes'| |] eqn:En; osimpl; try done.
  injection Hs as <-. cbn [CSurfaceElementFEM.nDOFsGrid
                           CSurfaceElementFEM.nodeIDsGrid].
  intros k x Hk Hx.
  apply (translateNodes_in_range _ _ _ _ _ _ Hm En k x); [|done].
  by rewrite Nat2Z.id.
Qed.

Section reconcile_facts.
Context {T : Type} `{Su2Order T} `{Su2Arith T}.

Lemma addBoundaryNodes_in_range nDim (meshPoints : list (CPointFEM.t T))
    tolElem nodeIDsGrid n : ∀ k acc acc',
  Forall (λ q, (Z.to_nat (CPointCompare.nodeID q) < length meshPoints)%nat)
         acc.2 →
  addBoundaryNodes nDim meshPoints tolElem nodeIDsGrid n k acc = Ok acc' →
  Forall (λ q, (Z.to_nat (CPointCompare.nodeID q) < length meshPoints)%nat)
         acc'.2.
Proof.
  induction n as [|n IH]; intros k [ind pb] acc' Hacc;
    cbn [addBoundaryNodes].
  { by intros [= <-]. }
  destruct (readAt nodeIDsGrid k) as [nn| |]; osimpl; try done.
  destruct (readAt ind (Z.to_nat nn)) as [i| |]; osimpl; try done.
  destruct (i =? -1).
  - destruct (writeAt ind _ _) as [ind'| |]; osimpl; try done.
    unfold readAt.
    destruct (meshPoints !! Z.to_nat nn) as [p|] eqn:Hp; osimpl; [|done].
    destruct (readRange_gen _ 0 nDim) as [xs| |]; osimpl; try done.
    apply IH. cbn [snd] in *. apply Forall_app. split; [done|].
    constructor; [|constructor]. cbn [CPointCompare.nodeID].
    by eapply lookup_lt_Some.
  - unfold readAt.
    destruct (pb !! Z.to_nat i) as [q|] eqn:Hq; osimpl; [|done].
    unfold writeAt. case_decide; osimpl; [|done].
    apply IH. cbn [snd] in *.
    rewrite Forall_forall in Hacc. apply Forall_forall. intros q' Hq'.
    apply list_elem_of_lookup in Hq' as [j Hj].
    destruct (decide (j = Z.to_nat i)) as [->|Hne].
    + rewrite list_lookup_insert_eq in Hj by done. injection Hj as <-.
      cbn [CPointCompare.nodeID]. apply Hacc.
      by eapply list_elem_of_lookup_2.
    + rewrite list_lookup_insert_ne in Hj by done. apply Hacc.
      by eapply list_elem_of_lookup_2.
Qed.

Lemma pointsBoundaryOf_in_range nDim (meshPoints : list (CPointFEM.t T))
    surfElem pb :
  pointsBoundaryOf nDim meshPoints surfElem = Ok pb →
  Forall (λ q, (Z.to_nat (CPointCompare.nodeID q) < length meshPoints)%nat) pb.
Proof.
  unfold pointsBoundaryOf.
  assert (∀ acc acc',
            Forall (λ q, (Z.to_nat (CPointCompare.nodeID q)
                          < length meshPoints)%nat) acc.2 →
            collectBoundaryPoints nDim meshPoints surfElem acc = Ok acc' →
            Forall (λ q, (Z.to_nat (CPointCompare.nodeID q)
                          < length meshPoints)%nat) acc'.2) as Hcol.
  { induction surfElem as [|s rest IH]; intros acc acc' Hacc;
      cbn [collectBoundaryPoints].
    { by intros [= <-]. }
    destruct (DetermineLengthScale s meshPoints); osimpl; try done.
    destruct (addBoundaryNodes _ _ _ _ _ _ _) as [acc1| |] eqn:E;
      osimpl; try done.
    apply IH. by eapply addBoundaryNodes_in_range. }
  destruct (collectBoundaryPoints _ _ _ _) as [[ind pb0]| |] eqn:E;
    osimpl; try done.
  intros [= <-]. rewrite (sort_Permutation pointCompare_lt).
  apply (Hcol (replicate (length meshPoints) (-1), []) (ind, pb0));
    [constructor|done].
Qed.

Lemma matchHaloPoint_in_range nDim per pointsBoundary size0
    (acc acc' : list (CPointFEM.t T) * gmap unsignedLong2T nat)
    (p : CPointFEM.t T) :
  Forall (λ q, (Z.to_nat (CPointCompare.nodeID q) < size0)%nat)
         pointsBoundary →
  (size0 ≤ length acc.1)%nat ∧ mapInRange acc.2 (length acc.1) →
  matchHaloPoint nDim per pointsBoundary acc p = Ok acc' →
  (size0 ≤ length acc'.1)%nat ∧ mapInRange acc'.2 (length acc'.1).
Proof.
  intros Hpb [Hsize Hm]. destruct acc as [meshPoints m]. cbn [fst snd] in *.
  unfold matchHaloPoint.
  destruct (coor3 nDim (CPointFEM.coor p)) as [c| |]; osimpl; try done.
  destruct (transformCoor nDim per c) as [[x y] z].
  destruct (readRange_gen _ 0 nDim) as [xs| |]; osimpl; try done.
  destruct (binary_search _ _ _).
  - unfold readAt.
    destruct (pointsBoundary !! _) as [low|] eqn:Hlow; osimpl; [|done].
    intros [= <-]. cbn [fst snd]. split; [done|].
    intros k i Hk. apply lookup_insert_Some in Hk as [[_ <-]|[_ Hk]].
    + rewrite Forall_forall in Hpb.
      specialize (Hpb low (list_elem_of_lookup_2 _ _ _ Hlow)). lia.
    + by eapply Hm.
  - intros [= <-]. cbn [fst snd]. rewrite length_app. cbn [length].
    split; [lia|]. intros k i Hk.
    apply lookup_insert_Some in Hk as [[_ <-]|[_ Hk]]; [lia|].
    specialize (Hm k i Hk). lia.
Qed.

Lemma matchPeriodicHaloPoints_in_range nDim config boundaries
    (meshPoints haloPoints : list (CPointFEM.t T)) m acc' :
  mapInRange m (length meshPoints) →
  matchPeriodicHaloPoints nDim config boundaries meshPoints haloPoints m
  = Ok acc' →
  (length meshPoints ≤ length acc'.1)%nat
  ∧ mapInRange acc'.2 (length acc'.1).
Proof.
  intros Hm. unfold matchPeriodicHaloPoints.
  apply (forEachBuf_inv
           (λ acc, (length meshPoints ≤ length acc.1)%nat
                   ∧ mapInRange acc.2 (length acc.1))); [|by split].
  intros acc g acc1 _ [Hsize Hacc]. unfold matchHaloGroup.
  destruct g as [|first rest]; [by intros [= <-]|].
  destruct (CPointFEM.periodIndexToDonor first =? -1); [by intros [= <-]|].
  destruct (readAt boundaries _) as [b| |]; osimpl; try done.
  destruct (pointsBoundaryOf nDim acc.1 _) as [pb| |] eqn:Hpb;
    osimpl; try done.
  apply pointsBoundaryOf_in_range in Hpb.
  intros Hrun.
  pose proof (forEachBuf_inv
                (λ a, (length acc.1 ≤ length a.1)%nat
                      ∧ mapInRange a.2 (length a.1))
                (matchHaloPoint nDim (config (CPointFEM.periodIndexToDonor first))
                   pb) (first :: rest)) as Hinv.
  destruct (Hinv (λ a x a' _ Ha Hx,
                    matchHaloPoint_in_range _ _ _ _ _ _ _ Hpb Ha Hx)
              acc acc1 (conj (le_n _) Hacc) Hrun) as [Hs1 Hm1].
  split; [lia|done].
Qed.

(** X15 -- No local index dangles after the reconciliation: when the
    end of the constructor runs through, the first nDOFsGrid node IDs of
    every volume element and of every boundary element are indices of
    the final vector of local points. *)
Theorem local_indices_in_range nDim (config : CConfig.t T) (Global_nPoint : Z)
    (mElem : gmap Z nat) (volElem volElem' : list CVolumeElementFEM.t)
    (boundaries boundaries' : list CBoundaryFEM.t)
    (meshPoints haloPoints meshPoints' : list (CPointFEM.t T)) :
  reconcile nDim config Global_nPoint mElem volElem boundaries
    meshPoints haloPoints
  = Ok (volElem', boundaries', meshPoints') →
  Forall (λ v, nodesInRange (length meshPoints')
                 (CVolumeElementFEM.nDOFsGrid v)
                 (CVolumeElementFEM.nodeIDsGrid v)) volElem'
  ∧ Forall (λ b, Forall (λ s, nodesInRange (length meshPoints')
                                (CSurfaceElementFEM.nDOFsGrid s)
                                (CSurfaceElementFEM.nodeIDsGrid s))
                        (CBoundaryFEM.surfElem b)) boundaries'.
Proof.
  unfold reconcile.
  destruct (addNonPeriodicHaloPoints Global_nPoint meshPoints haloPoints)
    as [halo1 mesh1].
  destruct (translateBoundaries mElem _ boundaries) as [b1| |] eqn:Hb;
    osimpl; try done.
  destruct (matchPeriodicHaloPoints _ _ _ _ _ _) as [[mesh2 m2]| |] eqn:Hp;
    osimpl; try done.
  destruct (translateVolElems m2 volElem) as [v1| |] eqn:Hv; osimpl; try done.
  intros [= <- <- <-].
  destruct (matchPeriodicHaloPoints_in_range _ _ _ _ _ _ _
              (mapGlobalPointIDToInd_in_range mesh1) Hp) as [Hgrow Hm2].
  cbn [fst snd] in *. split.
  - by eapply translateVolElems_in_range.
  - pose proof (translateBoundaries_in_range _ _ _ _ _
                  (mapGlobalPointIDToInd_in_range mesh1) Hb) as Hbr.
    eapply Forall_impl; [exact Hbr|]. intros b Hall. simpl in Hall.
    eapply Forall_impl; [exact Hall|]. intros s Hs. simpl in Hs.
    by eapply nodesInRange_mono.
Qed.

End reconcile_facts.

Lemma local_indices_in_range_witness :
  ∃ volElem' boundaries' meshPoints',
    reconcile 2 (λ _, centre_off_plane) 3 {[0 := 0%nat]}
      [triangle_012; triangle_012_periodic] [empty_periodic_marker]
      triangle_points triangle_halo_points
    = Ok (volElem', boundaries', meshPoints')
    ∧ Forall (λ v, nodesInRange (length meshPoints')
                     (CVolumeElementFEM.nDOFsGrid v)
                     (CVolumeElementFEM.nodeIDsGrid v)) volElem'
    ∧ Forall (λ b, Forall (λ s, nodesInRange (length meshPoints')
                                  (CSurfaceElementFEM.nDOFsGrid s)
                                  (CSurfaceElementFEM.nodeIDsGrid s))
                          (CBoundaryFEM.surfElem b)) boundaries'.
Proof.
  destruct (reconcile 2 (λ _, centre_off_plane) 3 {[0 := 0%nat]}
              [triangle_012; triangle_012_periodic] [empty_periodic_marker]
              triangle_points triangle_halo_points)
    as [[[volElem' boundaries'] meshPoints']| |] eqn:Hrun.
  - exists volElem', boundaries', meshPoints'. split; [done|].
    exact (local_indices_in_range 2 (λ _, centre_off_plane) 3 {[0 := 0%nat]}
             _ _ _ _ _ _ _ Hrun).
  - by vm_compute in Hrun.
  - by vm_compute in Hrun.
Defined.

(** ** [SetSendReceive]: the local offsets of the solution DOFs *)

Lemma sumDOFs_app l1 l2 : sumDOFs (l1 ++ l2) = sumDOFs l1 + sumDOFs l2.
Proof.
  induction l1 as [|v l1 IH]; [done|].
  cbn [app sumDOFs foldr] in *. fold (sumDOFs (l1 ++ l2)) (sumDOFs l1).
  rewrite IH. lia.
Qed.

Lemma to_ulong_add_l a b : to_ulong (to_ulong a + b) = to_ulong (a + b).
Proof. unfold to_ulong. apply Zplus_mod_idemp_l. Qed.

Lemma withPrefixOffsets_lookup n volElem i :
  withPrefixOffsets n volElem !! i
  = (λ v, if decide (i < n ∨ i = 0)%nat
          then withOffsetLocal v (to_ulong (sumDOFs (take i volElem)))
          else v) <$> volElem !! i.
Proof. unfold withPrefixOffsets. by rewrite list_lookup_imap. Qed.

Lemma length_withPrefixOffsets n volElem :
  length (withPrefixOffsets n volElem) = length volElem.
Proof. unfold withPrefixOffsets. by rewrite length_imap. Qed.

Lemma setOffsets_loop volElem k : ∀ i,
  (1 ≤ i)%nat → (i + k ≤ length volElem)%nat →
  forIndex setOffsetStep k i (withPrefixOffsets i volElem)
  = Ok (withPrefixOffsets (i + k) volElem).
Proof.
  induction k as [|k IH]; intros i Hi Hlen; cbn [forIndex].
  { by rewrite Nat.add_0_r. }
  destruct (lookup_lt_is_Some_2 volElem (i - 1)) as [prev Hprev]; [lia|].
  destruct (lookup_lt_is_Some_2 volElem i) as [cur Hcur]; [lia|].
  assert (readAt (withPrefixOffsets i volElem) (i - 1)
          = Ok (withOffsetLocal prev
                  (to_ulong (sumDOFs (take (i - 1) volElem))))) as Hr1.
  { unfold readAt. rewrite withPrefixOffsets_lookup, Hprev.
    cbn [fmap option_fmap option_map]. by rewrite decide_True by lia. }
  assert (readAt (withPrefixOffsets i volElem) i = Ok cur) as Hr2.
  { unfold readAt. rewrite withPrefixOffsets_lookup, Hcur.
    cbn [fmap option_fmap option_map]. by rewrite decide_False by lia. }
  unfold setOffsetStep at 1. rewrite Hr1, Hr2. osimpl.
  unfold writeAt. rewrite decide_True
    by (rewrite length_withPrefixOffsets; lia). osimpl.
  replace (i + S k)%nat with (S i + k)%nat by lia.
  rewrite <- IH by lia. f_equal.
  apply list_eq. intros j.
  rewrite withPrefixOffsets_lookup.
  destruct (decide (j = i)) as [->|Hne].
  - rewrite list_lookup_insert_eq by (rewrite length_withPrefixOffsets; lia).
    rewrite Hcur. cbn [fmap option_fmap option_map].
    rewrite decide_True by lia. f_equal.
    cbn [withOffsetLocal CVolumeElementFEM.offsetDOFsSolLocal
         CVolumeElementFEM.nDOFsSol].
    unfold withOffsetLocal. f_equal.
    rewrite to_ulong_add_l. f_equal.
    replace i with (S (i - 1)) at 2 by lia.
    rewrite (take_S_r _ _ _ Hprev), sumDOFs_app. cbn [sumDOFs foldr]. lia.
  - rewrite list_lookup_insert_ne by done.
    rewrite withPrefixOffsets_lookup.
    destruct (volElem !! j) as [v|]; [|done].
    cbn [fmap option_fmap option_map]. f_equal.
    destruct (decide (j < i ∨ j = 0)%nat), (decide (j < S i ∨ j = 0)%nat);
      try done; lia.
Qed.

Lemma setOffsets_loop_length k : ∀ i volElem volElem',
  forIndex setOffsetStep k i volElem = Ok volElem' →
  length volElem' = length volElem ∧ (k = 0%nat ∨ (i + k ≤ length volElem)%nat).
Proof.
  induction k as [|k IH]; intros i volElem volElem'; cbn [forIndex].
  { intros [= <-]. split; [done|by left]. }
  unfold setOffsetStep.
  destruct (readAt volElem (i - 1)); osimpl; try done.
  destruct (readAt volElem i); osimpl; try done.
  unfold writeAt. case_decide as Hlt; osimpl; [|done].
  intros Hrest. apply IH in Hrest as [Hl Hk]. rewrite length_insert in Hl, Hk.
  split; [done|]. right. destruct Hk; lia.
Qed.

Lemma setOffsets_loop_not_abort k : ∀ i volElem,
  is_abort (forIndex setOffsetStep k i volElem) = false.
Proof.
  induction k as [|k IH]; intros i volElem; cbn [forIndex]; [done|].
  unfold setOffsetStep, readAt, writeAt.
  destruct (volElem !! (i - 1)%nat); osimpl; [|done].
  destruct (volElem !! i); osimpl; [|done].
  case_decide; osimpl; [apply IH|done].
Qed.

Lemma withPrefixOffsets_first volElem first :
  volElem !! 0%nat = Some first →
  <[0%nat := withOffsetLocal first 0]> volElem = withPrefixOffsets 1 volElem.
Proof.
  intros H0. apply list_eq. intros j. rewrite withPrefixOffsets_lookup.
  destruct j as [|j].
  - rewrite list_lookup_insert_eq by (by eapply lookup_lt_Some).
    rewrite H0. cbn [fmap option_fmap option_map].
    by rewrite decide_True by lia.
  - rewrite list_lookup_insert_ne by done.
    destruct (volElem !! S j); [|done]. cbn [fmap option_fmap option_map].
    by rewrite decide_False by lia.
Qed.

Lemma withPrefixOffsets_zero volElem :
  withPrefixOffsets 0 volElem = withPrefixOffsets 1 volElem.
Proof.
  apply list_eq. intros j. rewrite !withPrefixOffsets_lookup.
  destruct (volElem !! j); [|done]. cbn [fmap option_fmap option_map].
  f_equal.
  destruct (decide (j < 0 ∨ j = 0)%nat), (decide (j < 1 ∨ j = 0)%nat);
    try done; lia.
Qed.

Lemma setLocalOffsets_cases nVolElemTot volElem :
  setLocalOffsets nVolElemTot volElem
  = if decide (volElem ≠ [] ∧ (nVolElemTot ≤ length volElem)%nat)
    then Ok (withPrefixOffsets nVolElemTot volElem)
    else Undefined.
Proof.
  unfold setLocalOffsets, readAt.
  destruct (volElem !! 0%nat) as [first|] eqn:H0; osimpl.
  2:{ rewrite decide_False; [done|]. intros [Hne _].
      by destruct volElem. }
  pose proof (lookup_lt_Some _ _ _ H0) as Hpos.
  unfold writeAt. rewrite decide_True by done. osimpl.
  rewrite (withPrefixOffsets_first _ _ H0).
  case_decide as Hc.
  - destruct Hc as [_ Hlen]. destruct nVolElemTot as [|n].
    + cbn [forIndex Nat.sub]. by rewrite withPrefixOffsets_zero.
    + rewrite setOffsets_loop by lia. do 2 f_equal. lia.
  - pose proof (setOffsets_loop_not_abort (nVolElemTot - 1) 1
                  (withPrefixOffsets 1 volElem)) as Hna.
    destruct (forIndex setOffsetStep _ _ _) as [v'| |] eqn:E; [|done..].
    exfalso. apply Hc. split; [by destruct volElem|].
    apply setOffsets_loop_length in E as [_ Hk].
    rewrite length_withPrefixOffsets in Hk. destruct Hk; lia.
Qed.

(** X16 -- The local offsets of the solution DOFs are the running sums
    of the numbers of DOFs: the first element, which is written before
    the loop, and every element below nVolElemTot get the number of
    solution DOFs of the elements before them, as an [unsigned long],
    and nothing else changes. The function writes [volElem[0]] without
    a test: for a mesh without elements, or with fewer than nVolElemTot
    of them, setting the offsets is undefined. *)
Theorem local_offsets_are_running_sums (nVolElemTot : nat)
    (volElem : list CVolumeElementFEM.t) :
  setLocalOffsets nVolElemTot volElem
  = (if decide (volElem ≠ [] ∧ (nVolElemTot ≤ length volElem)%nat)
     then Ok (withPrefixOffsets nVolElemTot volElem)
     else Undefined)
  ∧ ∀ i, withPrefixOffsets nVolElemTot volElem !! i
         = (λ v, if decide (i < nVolElemTot ∨ i = 0)%nat
                 then withOffsetLocal v (to_ulong (sumDOFs (take i volElem)))
                 else v) <$> volElem !! i.
Proof.
  split; [apply setLocalOffsets_cases|].
  intros i. apply withPrefixOffsets_lookup.
Qed.

(** ** [SetSendReceive]: the ranks and what is received from them *)

Lemma markedRanks_spec (st : list bool) : ∀ i,
  StronglySorted Nat.le (markedRanks st i)
  ∧ NoDup (markedRanks st i)
  ∧ (∀ r, r ∈ markedRanks st i
          ↔ (i ≤ r)%nat ∧ st !! (r - i)%nat = Some true)
  ∧ (∀ k r, markedRanks st i !! k = Some r →
            length (filter Is_true (take (r - i) st)) = k).
Proof.
  induction st as [|b st IH]; intros i; cbn [markedRanks].
  { split_and!; [constructor|constructor| |done].
    intros r. rewrite lookup_nil. split; [by intros ?%elem_of_nil|by intros []]. }
  destruct (IH (S i)) as (Hs & Hnd & Hin & Hcount).
  assert (∀ r, r ∈ markedRanks st (S i) → (S i ≤ r)%nat) as Hge.
  { intros r Hr. by apply Hin in Hr as [? _]. }
  destruct b; cbn [app].
  - split_and!.
    + constructor; [done|]. apply Forall_forall. intros r Hr.
      apply Hge in Hr. lia.
    + constructor; [|done]. intros Hi. apply Hge in Hi. lia.
    + intros r. rewrite elem_of_cons, Hin. split.
      * intros [->|[Hr Hl]].
        -- split; [lia|]. by rewrite Nat.sub_diag.
        -- split; [lia|]. by replace (r - i)%nat with (S (r - S i)) by lia.
      * intros [Hr Hl]. destruct (decide (r = i)) as [->|Hne]; [by left|].
        right. split; [lia|].
        by replace (r - i)%nat with (S (r - S i)) in Hl by lia.
    + intros [|k] r Hk.
      * injection Hk as <-. by rewrite Nat.sub_diag.
      * simpl in Hk. pose proof (Hge r (list_elem_of_lookup_2 _ _ _ Hk)).
        replace (r - i)%nat with (S (r - S i)) by lia.
        cbn [take]. rewrite filter_cons. simpl.
        by rewrite (Hcount k r Hk).
  - split_and!; [done|done| |].
    + intros r. rewrite Hin. split.
      * intros [Hr Hl]. split; [lia|].
        by replace (r - i)%nat with (S (r - S i)) by lia.
      * intros [Hr Hl]. destruct (decide (r = i)) as [->|Hne].
        { by rewrite Nat.sub_diag in Hl. }
        split; [lia|]. by replace (r - i)%nat with (S (r - S i)) in Hl by lia.
    + intros k r Hk. pose proof (Hge r (list_elem_of_lookup_2 _ _ _ Hk)).
      replace (r - i)%nat with (S (r - S i)) by lia.
      cbn [take]. rewrite filter_cons. simpl. by apply Hcount.
Qed.

Lemma keysInOrder_marked (st : list bool) :
  keysInOrder (rankToIndCommBuf st) = markedRanks st 0.
Proof.
  destruct (markedRanks_spec st 0) as (Hs & Hnd & Hin & _).
  unfold keysInOrder. apply (StronglySorted_unique Nat.le); [|done|].
  { apply StronglySorted_merge_sort; apply _. }
  rewrite merge_sort_Permutation.
  apply NoDup_Permutation; [apply NoDup_fst_map_to_list|done|].
  intros r. rewrite Hin, Nat.sub_0_r. rewrite list_elem_of_fmap. split.
  - intros ([r' k] & -> & Hk). apply elem_of_map_to_list in Hk.
    rewrite rankToIndCommBuf_lookup in Hk. simpl.
    split; [lia|]. by destruct (decide (st !! r' = Some true)).
  - intros [_ Hr]. exists (r, length (filter Is_true (take r st))).
    split; [done|]. apply elem_of_map_to_list.
    rewrite rankToIndCommBuf_lookup. by rewrite decide_True.
Qed.

Lemma ranksComm_index (st : list bool) k r :
  keysInOrder (rankToIndCommBuf st) !! k = Some r →
  rankToIndCommBuf st !! r = Some k ∧ st !! r = Some true.
Proof.
  rewrite keysInOrder_marked. intros Hk.
  destruct (markedRanks_spec st 0) as (_ & _ & Hin & Hcount).
  pose proof (proj1 (Hin r) (list_elem_of_lookup_2 _ _ _ Hk)) as [_ Hr].
  rewrite Nat.sub_0_r in Hr. split; [|done].
  rewrite rankToIndCommBuf_lookup, decide_True by done.
  specialize (Hcount k r Hk). rewrite Nat.sub_0_r in Hcount. by rewrite Hcount.
Qed.

Lemma markComm_loop volElem k : ∀ i st st',
  forIndex (markCommStep volElem) k i st = Ok st' →
  length st' = length st
  ∧ ∀ r, st' !! r = Some true
         ↔ st !! r = Some true
           ∨ ∃ j v, (i ≤ j < i + k)%nat ∧ volElem !! j = Some v
                    ∧ CVolumeElementFEM.elemIsOwned v = false
                    ∧ Z.to_nat (to_ulong (CVolumeElementFEM.rankOriginal v)) = r.
Proof.
  induction k as [|k IH]; intros i st st'; cbn [forIndex].
  { intros [= <-]. split; [done|]. intros r. split; [by left|].
    intros [|(j & v & Hj & _)]; [done|lia]. }
  unfold markCommStep at 1, readAt.
  destruct (volElem !! i) as [v|] eqn:Hv; osimpl; [|done].
  destruct (CVolumeElementFEM.elemIsOwned v) eqn:Hown; cbn [negb].
  - osimpl. intros Hrest. destruct (IH _ _ _ Hrest) as [Hlen Hm].
    split; [done|]. intros r. rewrite Hm. split.
    + intros [|(j & w & Hj & Hw)]; [by left|]. right. exists j, w.
      split; [lia|done].
    + intros [|(j & w & Hj & Hw & Ho & Hr)]; [by left|]. right.
      exists j, w. assert (j ≠ i) by (intros ->; congruence).
      split; [lia|done].
  - unfold writeAt. case_decide as Hlt; osimpl; [|done].
    intros Hrest. destruct (IH _ _ _ Hrest) as [Hlen Hm].
    rewrite length_insert in Hlen. split; [done|]. intros r. rewrite Hm.
    split.
    + intros [Hr|(j & w & Hj & Hw)].
      * destruct (decide (r = Z.to_nat (to_ulong
                                (CVolumeElementFEM.rankOriginal v)))) as [->|Hne].
        -- right. exists i, v. split; [lia|done].
        -- left. by rewrite list_lookup_insert_ne in Hr.
      * right. exists j, w. split; [lia|done].
    + intros [Hr|(j & w & Hj & Hw & Ho & Hr)].
      * left. destruct (decide (r = Z.to_nat (to_ulong
                                (CVolumeElementFEM.rankOriginal v)))) as [->|Hne].
        -- by rewrite list_lookup_insert_eq.
        -- by rewrite list_lookup_insert_ne.
      * destruct (decide (j = i)) as [->|Hne].
        -- left. rewrite Hv in Hw. injection Hw as <-. rewrite <- Hr.
           by rewrite list_lookup_insert_eq.
        -- right. exists j, w. split; [lia|done].
Qed.

Lemma rank_of_index (nRank : nat) (rank : Z) (r : nat) :
  Z.of_nat nRank < 2 ^ 31 → is_int rank → (r < nRank)%nat →
  Z.to_nat (to_ulong rank) = r ↔ rank = Z.of_nat r.
Proof.
  intros Hn Hi Hr. unfold is_int in Hi. split.
  - intros <-. rewrite to_ulong_near_zero by lia.
    rewrite to_ulong_near_zero in Hr by lia.
    unfold ULONG_MOD in *. destruct (rank <? 0) eqn:E; lia.
  - intros ->. unfold to_ulong, ULONG_MOD. rewrite Z.mod_small by lia. lia.
Qed.

Lemma withPrefixOffsets_fields n volElem i v' :
  withPrefixOffsets n volElem !! i = Some v' →
  ∃ v, volElem !! i = Some v
       ∧ CVolumeElementFEM.elemIsOwned v' = CVolumeElementFEM.elemIsOwned v
       ∧ CVolumeElementFEM.rankOriginal v' = CVolumeElementFEM.rankOriginal v
       ∧ CVolumeElementFEM.elemIDGlobal v' = CVolumeElementFEM.elemIDGlobal v
       ∧ CVolumeElementFEM.nDOFsSol v' = CVolumeElementFEM.nDOFsSol v.
Proof.
  rewrite withPrefixOffsets_lookup.
  destruct (volElem !! i) as [v|]; [|done].
  cbn [fmap option_fmap option_map]. intros [= <-]. exists v.
  split; [done|]. by case_decide.
Qed.

Lemma halosFrom_cons r v l :
  halosFrom r (v :: l)
  = (if negb (CVolumeElementFEM.elemIsOwned v)
        && (CVolumeElementFEM.rankOriginal v =? r)
     then [v] else []) ++ halosFrom r l.
Proof. unfold halosFrom. cbn [List.filter]. by destruct (_ && _). Qed.

Lemma findRank_Ok comm rank ind :
  findRank comm rank = Ok ind → 0 <= rank ∧ comm !! Z.to_nat rank = Some ind.
Proof.
  unfold findRank, findSecond. destruct (Z.ltb_spec rank 0); [done|].
  destruct (comm !! Z.to_nat rank); [|done]. intros [= ->]. by split.
Qed.

Lemma receive_loop comm volElem k :
  (∀ r1 r2 i, comm !! r1 = Some i → comm !! r2 = Some i → r1 = r2) →
  ∀ i lb dr lb' dr',
  forIndex (receiveStep comm volElem) k i (lb, dr) = Ok (lb', dr') →
  length lb' = length lb ∧ length dr' = length dr
  ∧ ∀ r ind, comm !! r = Some ind →
      lb' !! ind
      = (λ b, b ++ map CVolumeElementFEM.elemIDGlobal
                     (halosFrom (Z.of_nat r) (take k (drop i volElem))))
        <$> lb !! ind
      ∧ dr' !! ind
        = (λ b, b ++ flat_map dofsOf
                       (halosFrom (Z.of_nat r) (take k (drop i volElem))))
          <$> dr !! ind.
Proof.
  intros Hinj. induction k as [|k IH]; intros i lb dr lb' dr'; cbn [forIndex].
  { intros [= <- <-]. split_and!; [done..|]. intros r ind _. cbn [take].
    unfold halosFrom. cbn [List.filter map flat_map].
    destruct (lb !! ind), (dr !! ind); cbn [fmap option_fmap option_map];
      by rewrite ?app_nil_r. }
  unfold receiveStep at 1, readAt.
  destruct (volElem !! i) as [v|] eqn:Hv; osimpl; [|done].
  rewrite (drop_S _ _ _ Hv). cbn [take].
  destruct (CVolumeElementFEM.elemIsOwned v) eqn:Hown; cbn [negb].
  - osimpl. intros Hrest. destruct (IH _ _ _ _ _ Hrest) as (Hl1 & Hl2 & Hb).
    split_and!; [done..|]. intros r ind Hr.
    rewrite halosFrom_cons, Hown. cbn [negb andb app]. by apply Hb.
  - destruct (findRank comm (CVolumeElementFEM.rankOriginal v)) as [ind0| |]
      eqn:Hf; osimpl; try done.
    apply findRank_Ok in Hf as [Hpos Hind0].
    unfold pushTo at 1, readAt.
    destruct (lb !! ind0) as [b0|] eqn:Hb0; osimpl; [|done].
    unfold pushTo at 1, readAt.
    destruct (dr !! ind0) as [d0|] eqn:Hd0; osimpl; [|done].
    intros Hrest. destruct (IH _ _ _ _ _ Hrest) as (Hl1 & Hl2 & Hb).
    rewrite length_insert in Hl1, Hl2. split_and!; [done..|].
    intros r ind Hr. destruct (Hb r ind Hr) as [-> ->].
    rewrite halosFrom_cons, Hown. cbn [negb andb].
    destruct (decide (Z.to_nat (CVolumeElementFEM.rankOriginal v) = r))
      as [<-|Hne].
    + assert (ind = ind0) as -> by congruence.
      rewrite Z2Nat.id, Z.eqb_refl by done.
      rewrite !list_lookup_insert_eq by (by eapply lookup_lt_Some).
      rewrite Hb0, Hd0. cbn [fmap option_fmap option_map map flat_map app].
      by rewrite <- !app_assoc.
    + assert (ind ≠ ind0) as Hi.
      { intros ->. apply Hne. by eapply Hinj. }
      rewrite !list_lookup_insert_ne by done.
      destruct (Z.eqb_spec (CVolumeElementFEM.rankOriginal v) (Z.of_nat r));
        [lia|]. done.
Qed.

Lemma commPlanOf_inv nRank nVolElemTot volElem plan :
  commPlanOf nRank nVolElemTot volElem = Ok plan →
  ∃ st,
    planVolElem plan = withPrefixOffsets nVolElemTot volElem
    ∧ (nVolElemTot ≤ length volElem)%nat
    ∧ planComm plan = rankToIndCommBuf st
    ∧ planRanksComm plan = ranksCommOf (rankToIndCommBuf st)
    ∧ forIndex (markCommStep (planVolElem plan)) nVolElemTot 0
        (replicate nRank false) = Ok st
    ∧ forIndex (receiveStep (rankToIndCommBuf st) (planVolElem plan))
        nVolElemTot 0
        (replicate (size (rankToIndCommBuf st)) [],
         replicate (size (rankToIndCommBuf st)) [])
      = Ok (planLongBuf plan, planDOFsReceive plan)
    ∧ forIndex (ownedIndexStep (planVolElem plan)) nVolElemTot 0 ∅
      = Ok (planOwnedInd plan).
Proof.
  intros Hplan. unfold commPlanOf in Hplan.
  rewrite setLocalOffsets_cases in Hplan.
  case_decide as Hc; osimpl; [|done].
  destruct (commWithRankOf nRank nVolElemTot _) as [st| |] eqn:Hst;
    osimpl; try done.
  destruct (forIndex (receiveStep _ _) _ _ _) as [[lb dr]| |] eqn:Hrecv;
    osimpl; try done.
  destruct (forIndex (ownedIndexStep _) _ _ _) as [m| |] eqn:Hown;
    osimpl; try done.
  injection Hplan as <-. exists st.
  cbn [planVolElem planLongBuf planDOFsReceive planRanksComm planComm
       planOwnedInd].
  split_and!; [done|by destruct Hc|done..].
Qed.

Lemma length_ranksCommOf (comm : gmap nat nat) :
  length (ranksCommOf comm) = size comm.
Proof.
  unfold ranksCommOf, keysInOrder.
  rewrite length_map, merge_sort_Permutation, length_map.
  apply length_map_to_list.
Qed.

(** X17 -- [ranksComm] lists the ranks this rank exchanges data with:
    it is strictly increasing, and a rank is in it exactly when one of
    the elements below nVolElemTot is not owned and has that rank as
    its original rank. *)
Theorem ranksComm_are_the_halo_ranks (nRank nVolElemTot : nat)
    (volElem : list CVolumeElementFEM.t) (plan : commPlan) :
  commPlanOf nRank nVolElemTot volElem = Ok plan →
  Z.of_nat nRank < 2 ^ 31 →
  Forall (λ v, is_int (CVolumeElementFEM.rankOriginal v)) volElem →
  StronglySorted Z.lt (planRanksComm plan)
  ∧ ∀ r, r ∈ planRanksComm plan ↔ haloFromRank nVolElemTot volElem r.
Proof.
  intros Hplan Hn Hint.
  destruct (commPlanOf_inv _ _ _ _ Hplan)
    as (st & Hvol & _ & _ & -> & Hst & _).
  rewrite Hvol in Hst.
  apply markComm_loop in Hst as [Hlen Hm]. rewrite length_replicate in Hlen.
  unfold ranksCommOf. rewrite keysInOrder_marked.
  destruct (markedRanks_spec st 0) as (Hs & Hnd & Hin & _). split.
  - clear -Hs Hnd. induction Hs as [|x l Hs IH Hx]; [constructor|].
    apply NoDup_cons in Hnd as [Hx' Hnd]. cbn [map]. constructor; [by apply IH|].
    apply Forall_forall. intros y Hy.
    apply list_elem_of_fmap in Hy as (y' & -> & Hy').
    rewrite Forall_forall in Hx. specialize (Hx y' Hy').
    assert (x ≠ y') by (by intros ->). lia.
  - intros r. rewrite list_elem_of_fmap. split.
    + intros (r' & -> & Hr'). apply Hin in Hr' as [_ Hr'].
      rewrite Nat.sub_0_r in Hr'.
      pose proof (lookup_lt_Some _ _ _ Hr') as Hlt. rewrite Hlen in Hlt.
      apply Hm in Hr' as [Hr'|(j & v' & Hj & Hv' & Ho & Hr)].
      { by apply lookup_replicate in Hr' as [? _]. }
      apply withPrefixOffsets_fields in Hv' as (v & Hv & Eo & Er & _).
      exists j, v. split; [lia|]. split; [done|]. split; [congruence|].
      rewrite Er in Hr. apply (rank_of_index nRank); [done| |done..].
      rewrite Forall_forall in Hint. apply Hint.
      by eapply list_elem_of_lookup_2.
    + intros (i & v & Hi & Hv & Ho & Hr).
      set (r' := Z.to_nat (to_ulong r)).
      assert (st !! r' = Some true) as Hst.
      { apply Hm. right.
        exists i, (if decide (i < nVolElemTot ∨ i = 0)%nat
                   then withOffsetLocal v
                          (to_ulong (sumDOFs (take i volElem)))
                   else v).
        split; [lia|]. split; [|split].
        - by rewrite withPrefixOffsets_lookup, Hv.
        - by case_decide.
        - unfold r'. rewrite <- Hr. by case_decide. }
      pose proof (lookup_lt_Some _ _ _ Hst) as Hlt. rewrite Hlen in Hlt.
      exists r'. split.
      * apply (rank_of_index nRank); [done| |done..].
        rewrite Forall_forall in Hint. rewrite <- Hr. apply Hint.
        by eapply list_elem_of_lookup_2.
      * apply Hin. split; [lia|]. by rewrite Nat.sub_0_r.
Qed.

Lemma ranksComm_are_the_halo_ranks_witness :
  ∃ plan, commPlanOf 3 5 mesh_on_rank_1 = Ok plan
          ∧ planRanksComm plan = [0; 2]
          ∧ StronglySorted Z.lt (planRanksComm plan)
          ∧ ∀ r, r ∈ planRanksComm plan ↔ haloFromRank 5 mesh_on_rank_1 r.
Proof.
  destruct (commPlanOf 3 5 mesh_on_rank_1) as [plan| |] eqn:Hplan.
  - exists plan. split; [done|]. split.
    + vm_compute in Hplan. by injection Hplan as <-.
    + apply (ranksComm_are_the_halo_ranks 3 5 mesh_on_rank_1 plan Hplan).
      * by vm_compute.
      * repeat constructor; by vm_compute.
  - by vm_compute in Hplan.
  - by vm_compute in Hplan.
Defined.

Lemma plan_received nRank nVolElemTot volElem plan :
  commPlanOf nRank nVolElemTot volElem = Ok plan →
  length (planLongBuf plan) = length (planRanksComm plan)
  ∧ length (planDOFsReceive plan) = length (planRanksComm plan)
  ∧ ∀ k r, planRanksComm plan !! k = Some r →
      planLongBuf plan !! k
      = Some (map CVolumeElementFEM.elemIDGlobal
                (halosFrom r (take nVolElemTot (planVolElem plan))))
      ∧ planDOFsReceive plan !! k
        = Some (flat_map dofsOf
                  (halosFrom r (take nVolElemTot (planVolElem plan)))).
Proof.
  intros Hplan.
  destruct (commPlanOf_inv _ _ _ _ Hplan)
    as (st & Hvol & _ & _ & Hranks & _ & Hrecv & _).
  destruct (receive_loop _ _ _ (rankToIndCommBuf_inj st) _ _ _ _ _ Hrecv)
    as (Hl1 & Hl2 & Hb).
  rewrite length_replicate in Hl1, Hl2.
  rewrite Hranks, length_ranksCommOf.
  split_and!; [done..|].
  intros k r Hk. unfold ranksCommOf in Hk.
  apply list_lookup_fmap_Some in Hk as (r' & -> & Hk).
  apply ranksComm_index in Hk as [Hk Hmark].
  destruct (Hb r' k Hk) as [-> ->]. rewrite drop_0.
  rewrite !lookup_replicate_2; [done|].
  rewrite rankToIndCommBuf_size. rewrite rankToIndCommBuf_lookup in Hk.
  rewrite decide_True in Hk by done. injection Hk as <-.
  by apply count_marked_take_bound.
Qed.

(** X18 -- What is received from the ranks: there is one buffer of
    global element IDs and one vector of DOFs to receive per rank of
    [ranksComm]; for the k-th rank they hold, in the order of the
    elements, the global IDs of the halo elements of that rank and the
    local DOFs of these elements, each element giving the nDOFsSol
    indices from its local offset on. The elements are the ones handed
    in, with their local offsets set. *)
Theorem received_from_the_halo_ranks (nRank nVolElemTot : nat)
    (volElem : list CVolumeElementFEM.t) (plan : commPlan) :
  commPlanOf nRank nVolElemTot volElem = Ok plan →
  planVolElem plan = withPrefixOffsets nVolElemTot volElem
  ∧ length (planLongBuf plan) = length (planRanksComm plan)
  ∧ length (planDOFsReceive plan) = length (planRanksComm plan)
  ∧ ∀ k r, planRanksComm plan !! k = Some r →
      planLongBuf plan !! k
      = Some (map CVolumeElementFEM.elemIDGlobal
                (halosFrom r (take nVolElemTot
                                (withPrefixOffsets nVolElemTot volElem))))
      ∧ planDOFsReceive plan !! k
        = Some (flat_map dofsOf
                  (halosFrom r (take nVolElemTot
                                  (withPrefixOffsets nVolElemTot volElem)))).
Proof.
  intros Hplan.
  destruct (commPlanOf_inv _ _ _ _ Hplan) as (st & Hvol & _).
  destruct (plan_received _ _ _ _ Hplan) as (Hl1 & Hl2 & Hk).
  split_and!; [done..|]. intros k r Hr. rewrite <- Hvol. by apply Hk.
Qed.

Lemma received_from_the_halo_ranks_witness :
  ∃ plan, commPlanOf 3 5 mesh_on_rank_1 = Ok plan
          ∧ planRanksComm plan = [0; 2]
          ∧ planLongBuf plan = [[5]; [20; 21]]
          ∧ planDOFsReceive plan
            = [[7; 8; 9]; [5; 6; 10; 11]]
          ∧ planLongBuf plan !! 1%nat
            = Some (map CVolumeElementFEM.elemIDGlobal
                      (halosFrom 2 (take 5 (withPrefixOffsets 5
                                              mesh_on_rank_1)))).
Proof.
  destruct (commPlanOf 3 5 mesh_on_rank_1) as [plan| |] eqn:Hplan.
  - exists plan. split; [done|].
    pose proof (received_from_the_halo_ranks 3 5 mesh_on_rank_1 plan Hplan)
      as (_ & _ & _ & Hk).
    vm_compute in Hplan. injection Hplan as <-.
    split_and!; [done..|]. by apply (Hk 1%nat 2).
  - by vm_compute in Hplan.
  - by vm_compute in Hplan.
Defined.

(** ** [SetSendReceive]: the DOFs to send *)

Lemma ownedIndex_loop volElem k : ∀ i m m',
  forIndex (ownedIndexStep volElem) k i m = Ok m' →
  (∀ id ind, m' !! id = Some ind →
     m !! id = Some ind
     ∨ ((i ≤ ind < i + k)%nat
        ∧ ∃ v, volElem !! ind = Some v
               ∧ CVolumeElementFEM.elemIsOwned v = true
               ∧ CVolumeElementFEM.elemIDGlobal v = id))
  ∧ (∀ id, is_Some (m !! id) → is_Some (m' !! id))
  ∧ (∀ j v, (i ≤ j < i + k)%nat → volElem !! j = Some v →
            CVolumeElementFEM.elemIsOwned v = true →
            is_Some (m' !! CVolumeElementFEM.elemIDGlobal v)).
Proof.
  induction k as [|k IH]; intros i m m'; cbn [forIndex].
  { intros [= <-]. split_and!; [by left|done|]. intros j v Hj. lia. }
  unfold ownedIndexStep at 1, readAt.
  destruct (volElem !! i) as [v|] eqn:Hv; osimpl; [|done].
  intros Hrest. destruct (IH _ _ _ Hrest) as (Ha & Hb & Hc). split_and!.
  - intros id ind Hm'. destruct (Ha id ind Hm') as [Hm|[Hr Hex]].
    + destruct (CVolumeElementFEM.elemIsOwned v) eqn:Hown; [|by left].
      apply lookup_insert_Some in Hm as [[<- <-]|[_ Hm]]; [|by left].
      right. split; [lia|]. by exists v.
    + right. split; [lia|done].
  - intros id Hid. apply Hb.
    destruct (CVolumeElementFEM.elemIsOwned v); [|done].
    rewrite lookup_insert_is_Some.
    destruct (decide (CVolumeElementFEM.elemIDGlobal v = id)); [by left|by right].
  - intros j w Hj Hw Hown. destruct (decide (j = i)) as [->|Hne].
    + rewrite Hv in Hw. injection Hw as <-. apply Hb. rewrite Hown.
      rewrite lookup_insert_is_Some. by left.
    + apply (Hc j w); [lia|done..].
Qed.

Lemma dofsToSend_cases volElem m ids : ∀ send,
  (∀ id ind, m !! id = Some ind → is_Some (volElem !! ind)) →
  dofsToSend volElem m ids send
  = if decide (allOwned m ids)
    then Ok (send ++ flat_map (donorDOFs volElem m) ids)
    else Abort [] setSendReceiveDiagnostic.
Proof.
  intros send Hm. revert send. unfold allOwned.
  induction ids as [|id ids IH]; intros send; cbn [dofsToSend flat_map].
  { rewrite decide_True by constructor. by rewrite app_nil_r. }
  destruct (m !! id) as [ind|] eqn:Hid.
  - destruct (Hm id ind Hid) as [v Hv]. unfold readAt. rewrite Hv. osimpl.
    rewrite IH. unfold donorDOFs at 2. rewrite Hid, Hv.
    destruct (decide (Forall (λ id, is_Some (m !! id)) ids)) as [Hall|Hall].
    + rewrite decide_True by (constructor; [by rewrite Hid|done]).
      by rewrite <- app_assoc.
    + rewrite decide_False; [done|]. by intros [_ ?]%Forall_cons.
  - rewrite decide_False; [done|]. intros [[? Hs] _]%Forall_cons.
    by rewrite Hid in Hs.
Qed.

Lemma send_loop plan received k :
  (∀ id ind, planOwnedInd plan !! id = Some ind →
             is_Some (planVolElem plan !! ind)) →
  ∀ i DOFsSend,
  (i + k ≤ length (planRanksComm plan))%nat →
  length DOFsSend = length (planRanksComm plan) →
  (∀ j, (i ≤ j < length DOFsSend)%nat → DOFsSend !! j = Some []) →
  forIndex (sendStep plan received) k i DOFsSend
  = if decide (Forall (λ r, allOwned (planOwnedInd plan) (received r))
                      (take k (drop i (planRanksComm plan))))
    then Ok (take i DOFsSend
             ++ map (λ r, flat_map (donorDOFs (planVolElem plan)
                                      (planOwnedInd plan)) (received r))
                    (take k (drop i (planRanksComm plan)))
             ++ drop (i + k) DOFsSend)
    else Abort [] setSendReceiveDiagnostic.
Proof.
  intros Hm. induction k as [|k IH]; intros i DS Hlen HDS Hempty;
    cbn [forIndex].
  { rewrite take_0, decide_True by constructor. cbn [map app].
    by rewrite Nat.add_0_r, take_drop. }
  destruct (lookup_lt_is_Some_2 (planRanksComm plan) i) as [r Hr]; [lia|].
  rewrite (drop_S _ _ _ Hr). cbn [take map].
  unfold sendStep at 1, readAt. rewrite Hr. osimpl.
  rewrite (Hempty i) by lia. osimpl.
  rewrite dofsToSend_cases by done. cbn [app].
  destruct (decide (allOwned (planOwnedInd plan) (received r))) as [Hok|Hbad];
    osimpl.
  2:{ rewrite decide_False; [done|]. by intros [? _]%Forall_cons. }
  unfold writeAt. rewrite decide_True by lia. osimpl.
  rewrite IH.
  - destruct (decide (Forall _ (take k (drop (S i) (planRanksComm plan)))))
      as [Hall|Hall].
    + rewrite decide_True by (by constructor). f_equal.
      rewrite take_insert_lt by lia.
      assert (DS !! i = Some []) as Hi by (apply Hempty; lia).
      rewrite (take_S_r _ _ _ Hi).
      rewrite insert_app_r_alt by (rewrite length_take; lia).
      rewrite length_take, Nat.min_l by lia. rewrite Nat.sub_diag.
      rewrite drop_insert_lt by lia.
      change (<[0%nat:=?x]> [[]]) with [x].
      rewrite <- app_assoc. cbn [app].
      by replace (S i + k)%nat with (i + S k)%nat by lia.
    + rewrite decide_False; [done|]. by intros [_ ?]%Forall_cons.
  - lia.
  - by rewrite length_insert.
  - intros j Hj. rewrite length_insert in Hj.
    rewrite list_lookup_insert_ne by lia. apply Hempty. lia.
Qed.

Lemma plan_donors nRank nVolElemTot volElem plan :
  commPlanOf nRank nVolElemTot volElem = Ok plan →
  (∀ id ind, planOwnedInd plan !! id = Some ind →
     (ind < nVolElemTot)%nat
     ∧ ∃ v, planVolElem plan !! ind = Some v
            ∧ CVolumeElementFEM.elemIsOwned v = true
            ∧ CVolumeElementFEM.elemIDGlobal v = id)
  ∧ (∀ i v, (i < nVolElemTot)%nat → planVolElem plan !! i = Some v →
            CVolumeElementFEM.elemIsOwned v = true →
            is_Some (planOwnedInd plan !! CVolumeElementFEM.elemIDGlobal v)).
Proof.
  intros Hplan.
  destruct (commPlanOf_inv _ _ _ _ Hplan) as (st & _ & _ & _ & _ & _ & _ & Hown).
  apply ownedIndex_loop in Hown as (Ha & _ & Hc). split.
  - intros id ind Hid. destruct (Ha id ind Hid) as [He|[Hr Hex]].
    + by rewrite lookup_empty in He.
    + split; [lia|done].
  - intros i v Hi. apply Hc. lia.
Qed.

(** X19 -- The DOFs to send in the sequential build: the map from the
    global ID to the local index holds exactly the IDs of the owned
    elements below nVolElemTot; without halo elements nothing is sent;
    otherwise every global ID of the first buffer is looked up, a miss
    prints that this should not happen and stops the run, and when all
    are found the DOFs to send are those of the owned elements with
    these IDs, in the order of the halo elements. *)
Theorem sequential_DOFs_to_send (nRank nVolElemTot : nat)
    (volElem : list CVolumeElementFEM.t) (plan : commPlan) :
  commPlanOf nRank nVolElemTot volElem = Ok plan →
  (∀ id ind, planOwnedInd plan !! id = Some ind →
     (ind < nVolElemTot)%nat
     ∧ ∃ v, planVolElem plan !! ind = Some v
            ∧ CVolumeElementFEM.elemIsOwned v = true
            ∧ CVolumeElementFEM.elemIDGlobal v = id)
  ∧ (∀ i v, (i < nVolElemTot)%nat → planVolElem plan !! i = Some v →
            CVolumeElementFEM.elemIsOwned v = true →
            is_Some (planOwnedInd plan !! CVolumeElementFEM.elemIDGlobal v))
  ∧ SetSendReceive_sequential nRank nVolElemTot volElem
    = match planLongBuf plan with
      | [] => Ok (mkSendReceive (planVolElem plan) (planRanksComm plan) []
                    (planDOFsReceive plan))
      | ids :: rest =>
          if decide (allOwned (planOwnedInd plan) ids)
          then Ok (mkSendReceive (planVolElem plan) (planRanksComm plan)
                     (flat_map (donorDOFs (planVolElem plan)
                                  (planOwnedInd plan)) ids
                      :: replicate (length rest) [])
                     (planDOFsReceive plan))
          else Abort [] setSendReceiveDiagnostic
      end.
Proof.
  intros Hplan. destruct (plan_donors _ _ _ _ Hplan) as [Hd1 Hd2].
  split_and!; [done..|].
  destruct (commPlanOf_inv _ _ _ _ Hplan)
    as (st & _ & _ & Hcomm & _ & _ & Hrecv & _).
  destruct (receive_loop _ _ _ (rankToIndCommBuf_inj st) _ _ _ _ _ Hrecv)
    as (Hl & _). rewrite length_replicate in Hl.
  unfold SetSendReceive_sequential. rewrite Hplan. osimpl.
  rewrite Hcomm, <- Hl.
  destruct (planLongBuf plan) as [|ids rest]; [done|].
  cbn [length Nat.eqb negb replicate]. unfold readAt.
  cbn [lookup list_lookup]. osimpl.
  rewrite dofsToSend_cases.
  - destruct (decide (allOwned (planOwnedInd plan) ids)); osimpl; [|done].
    unfold writeAt. cbn [length]. rewrite decide_True by lia. by osimpl.
  - intros id ind Hid. destruct (Hd1 id ind Hid) as (_ & v & -> & _). done.
Qed.

Lemma sequential_DOFs_to_send_witness :
  (∃ sr, SetSendReceive_sequential 1 4 periodic_mesh_on_one_rank = Ok sr
         ∧ ranksComm sr = [0]
         ∧ DOFsReceive sr = [[5; 6; 7; 8; 9]]
         ∧ DOFsSend sr = [[2; 3; 4; 0; 1]])
  ∧ SetSendReceive_sequential 1 4 periodic_mesh_without_donor
    = Abort [] setSendReceiveDiagnostic.
Proof.
  split.
  - destruct (commPlanOf 1 4 periodic_mesh_on_one_rank) as [plan| |] eqn:Hplan;
      [|by vm_compute in Hplan..].
    pose proof (sequential_DOFs_to_send 1 4 periodic_mesh_on_one_rank plan Hplan)
      as (_ & _ & Hrun).
    rewrite Hrun. vm_compute in Hplan. injection Hplan as <-.
    eexists. split; [by vm_compute|]. by vm_compute.
  - destruct (commPlanOf 1 4 periodic_mesh_without_donor) as [plan| |] eqn:Hplan;
      [|by vm_compute in Hplan..].
    pose proof (sequential_DOFs_to_send 1 4 periodic_mesh_without_donor plan
                  Hplan) as (_ & _ & Hrun).
    rewrite Hrun. vm_compute in Hplan. injection Hplan as <-.
    by vm_compute.
Defined.

(** X20 -- The DOFs to send in the parallel build: the message of
    global element IDs that arrives from the k-th rank of [ranksComm]
    is looked up ID by ID; when every ID of every message is the one of
    an owned element, the DOFs to send to the k-th rank are those of
    the owned elements named by its message, in the order of the
    message, and otherwise the run is stopped with the diagnostic. *)
Theorem parallel_DOFs_to_send (nRank nVolElemTot : nat)
    (volElem : list CVolumeElementFEM.t) (received : Z → list Z)
    (plan : commPlan) :
  commPlanOf nRank nVolElemTot volElem = Ok plan →
  SetSendReceive_parallel nRank nVolElemTot volElem received
  = if decide (Forall (λ r, allOwned (planOwnedInd plan) (received r))
                      (planRanksComm plan))
    then Ok (mkSendReceive (planVolElem plan) (planRanksComm plan)
               (map (λ r, flat_map (donorDOFs (planVolElem plan)
                                      (planOwnedInd plan)) (received r))
                    (planRanksComm plan))
               (planDOFsReceive plan))
    else Abort [] setSendReceiveDiagnostic.
Proof.
  intros Hplan. destruct (plan_donors _ _ _ _ Hplan) as [Hd1 _].
  destruct (commPlanOf_inv _ _ _ _ Hplan) as (st & _ & _ & Hcomm & Hr & _).
  assert (length (planRanksComm plan) = size (planComm plan)) as Hl.
  { by rewrite Hr, Hcomm, length_ranksCommOf. }
  unfold SetSendReceive_parallel. rewrite Hplan. osimpl.
  rewrite send_loop.
  - rewrite drop_0, firstn_all.
    destruct (decide (Forall _ (planRanksComm plan))); osimpl; [|done].
    rewrite take_0. cbn [app Nat.add].
    rewrite drop_ge by (rewrite length_replicate; lia).
    by rewrite app_nil_r.
  - intros id ind Hid. destruct (Hd1 id ind Hid) as (_ & v & -> & _). done.
  - lia.
  - rewrite length_replicate. lia.
  - intros j Hj. rewrite length_replicate in Hj.
    apply lookup_replicate_2. lia.
Qed.

Lemma parallel_DOFs_to_send_witness :
  ∃ sr, SetSendReceive_parallel 3 5 mesh_on_rank_1
          (λ r, if r =? 0 then [11] else [10; 11])
        = Ok sr
        ∧ ranksComm sr = [0; 2]
        ∧ DOFsSend sr
          = [[2; 3; 4]; [0; 1; 2; 3; 4]].
Proof.
  destruct (commPlanOf 3 5 mesh_on_rank_1) as [plan| |] eqn:Hplan;
    [|by vm_compute in Hplan..].
  rewrite (parallel_DOFs_to_send 3 5 mesh_on_rank_1
             (λ r, if r =? 0 then [11] else [10; 11]) plan Hplan).
  vm_compute in Hplan. injection Hplan as <-.
  eexists. split; [by vm_compute|]. by vm_compute.
Defined.

(** ** The owned elements as they were sent *)

(** X21 -- The owned elements arrive as they were packed: from the
    buffers of senders whose elements have pairwise different global
    IDs the counting loop and the sort give the sorted global IDs, and
    the slot with the number of the global ID of an element in the
    sorted IDs holds that element with the rank of this rank, periodic
    index -1, and the type, the polynomial degrees, the numbers of DOFs
    and faces, the offset, the node IDs and the constant Jacobian flags
    it had on the sender; the slots behind the owned ones are left as
    they were. *)
Theorem owned_elements_round_trip (rank : Z) (senders : list sender)
    (v0 : list CVolumeElementFEM.t) :
  Forall wf_sender senders →
  let elems := flat_map sentElems senders in
  let ids := sort Z.ltb (map CPrimalGrid.GlobalElemID elems) in
  NoDup (map CPrimalGrid.GlobalElemID elems) →
  (length ids ≤ length v0)%nat →
  ∃ v1,
    ownedGlobalElemID (map recvBufOf senders) = Ok ids
    ∧ forEachBuf (storeOwned rank (mapGlobalElemIDToInd ids))
        (map recvBufOf senders) v0 = Ok v1
    ∧ length v1 = length v0
    ∧ (∀ e, e ∈ elems →
         ∃ i old, ids !! i = Some (CPrimalGrid.GlobalElemID e)
                  ∧ v1 !! i = Some (ownedElem rank e old))
    ∧ (∀ i, (length ids ≤ i)%nat → v1 !! i = v0 !! i).
Proof.
  intros Hwf elems ids Hnd Hle.
  assert (ids ≡ₚ map CPrimalGrid.GlobalElemID elems) as Hperm
    by apply (sort_Permutation Z.ltb).
  assert (NoDup ids) as Hndi by (by rewrite Hperm).
  destruct (storeOwned_all rank (mapGlobalElemIDToInd ids) senders v0 Hwf)
    as (v1 & Hv1 & Hst).
  { intros e He.
    assert (CPrimalGrid.GlobalElemID e ∈ ids) as Hin.
    { rewrite Hperm. apply list_elem_of_fmap. by exists e. }
    apply list_elem_of_lookup in Hin as [j Hj]. exists j. split.
    - unfold mapGlobalElemIDToInd.
      by rewrite (fillIndexMap_lookup _ _ _ _ j _ Hndi Hj).
    - apply lookup_lt_Some in Hj. lia. }
  destruct (owned_slots_in_order rank ids elems v0 v1 Hnd eq_refl Hst Hle)
    as (_ & Hrest & _).
  exists v1.
  split_and!; [by apply ownedGlobalElemID_packed|done|apply Hst| |done].
  intros e He. destruct Hst as [Hlen Hst]. subst elems.
  assert (CPrimalGrid.GlobalElemID e ∈ ids) as Hin.
  { rewrite Hperm. apply list_elem_of_fmap. by exists e. }
  apply list_elem_of_lookup in Hin as [i Hi].
  pose proof (fillIndexMap_lookup ids 0%nat 0%nat ∅ i _ Hndi Hi) as Hm.
  destruct (lookup_lt_is_Some_2 v1 i) as [v Hv].
  { apply lookup_lt_Some in Hi. lia. }
  destruct (Hst i v Hv) as [(e' & old & He' & Hm' & ->)|[Hno _]].
  - exists i, old. split; [done|]. rewrite Hv. do 2 f_equal.
    unfold mapGlobalElemIDToInd in Hm'.
    apply fillIndexMap_inv in Hm' as [(j & Hj & Hij)|Hm'];
      [|by rewrite lookup_empty in Hm'].
    assert (j = i) as -> by lia. rewrite Hi in Hj.
    apply list_elem_of_lookup in He as [a Ha].
    apply list_elem_of_lookup in He' as [b Hb].
    assert (a = b) as ->.
    { apply (NoDup_lookup _ a b (CPrimalGrid.GlobalElemID e) Hnd).
      - by rewrite list_lookup_fmap, Ha.
      - rewrite list_lookup_fmap, Hb. simpl. congruence. }
    congruence.
  - exfalso. by apply (Hno e He).
Qed.

Lemma owned_elements_round_trip_witness :
  ∃ v1,
    ownedGlobalElemID [recvBufOf two_quads_sender] = Ok [0; 1]
    ∧ forEachBuf (storeOwned 0 (mapGlobalElemIDToInd [0; 1]))
        [recvBufOf two_quads_sender] (replicate 4 unset_elem) = Ok v1
    ∧ length v1 = 4%nat
    ∧ (∀ e, e ∈ [quad_left; quad_right] →
         ∃ i old, [0; 1] !! i = Some (CPrimalGrid.GlobalElemID e)
                  ∧ v1 !! i = Some (ownedElem 0 e old))
    ∧ (∀ i, (2 ≤ i)%nat → v1 !! i = replicate 4 unset_elem !! i).
Proof.
  apply (owned_elements_round_trip 0 [two_quads_sender]
           (replicate 4 unset_elem)).
  - constructor; [|constructor]. split; [apply two_quads_wf|].
    simpl. lia.
  - apply (bool_decide_unpack _). by vm_compute.
  - vm_compute. lia.
Defined.

(** ** [SetSendReceive]: the DOFs sent and the DOFs received *)

Lemma sumDOFs_nonneg l :
  Forall (λ v, 0 <= CVolumeElementFEM.nDOFsSol v) l → 0 <= sumDOFs l.
Proof.
  induction 1 as [|v l Hv _ IH]; [done|].
  cbn [sumDOFs foldr]. fold (sumDOFs l). lia.
Qed.

Lemma sumDOFs_take_mono volElem i k :
  Forall (λ v, 0 <= CVolumeElementFEM.nDOFsSol v) volElem →
  (i ≤ k)%nat → sumDOFs (take i volElem) <= sumDOFs (take k volElem).
Proof.
  intros Hpos Hik.
  rewrite <- (take_drop i (take k volElem)), take_take, Nat.min_l by done.
  rewrite sumDOFs_app.
  pose proof (sumDOFs_nonneg (drop i (take k volElem))) as Hd.
  assert (Forall (λ v, 0 <= CVolumeElementFEM.nDOFsSol v)
            (drop i (take k volElem))) as Hall.
  { apply Forall_drop, Forall_take. done. }
  specialize (Hd Hall). lia.
Qed.

(** The DOFs of the element at the index [i] lie between the running
    sums before and after it. *)
Lemma dofsOf_range nVolElemTot volElem i v' d :
  Forall (λ v, 0 <= CVolumeElementFEM.nDOFsSol v) volElem →
  sumDOFs (take nVolElemTot volElem) < ULONG_MOD →
  (i < nVolElemTot)%nat →
  withPrefixOffsets nVolElemTot volElem !! i = Some v' →
  d ∈ dofsOf v' →
  sumDOFs (take i volElem) <= d < sumDOFs (take (S i) volElem).
Proof.
  intros Hpos Htot Hi Hv' Hd.
  rewrite withPrefixOffsets_lookup in Hv'.
  destruct (volElem !! i) as [v|] eqn:Hv; [|done].
  cbn [fmap option_fmap option_map] in Hv'.
  rewrite decide_True in Hv' by lia. injection Hv' as <-.
  unfold dofsOf in Hd.
  cbn [withOffsetLocal CVolumeElementFEM.offsetDOFsSolLocal
       CVolumeElementFEM.nDOFsSol] in Hd.
  apply list_elem_of_fmap in Hd as (j & -> & Hj).
  apply elem_of_seq in Hj.
  rewrite (take_S_r _ _ _ Hv), sumDOFs_app. cbn [sumDOFs foldr].
  pose proof (sumDOFs_nonneg (take i volElem) (Forall_take _ _ _ Hpos)) as H0.
  pose proof (sumDOFs_take_mono volElem (S i) nVolElemTot Hpos ltac:(lia))
    as Hm.
  rewrite (take_S_r _ _ _ Hv), sumDOFs_app in Hm. cbn [sumDOFs foldr] in Hm.
  rewrite Forall_forall in Hpos.
  pose proof (Hpos v (list_elem_of_lookup_2 _ _ _ Hv)) as Hnv.
  unfold to_ulong. rewrite (Z.mod_small (sumDOFs (take i volElem))) by lia.
  rewrite Z.mod_small by lia. lia.
Qed.

Lemma elem_of_halosFrom r l v :
  v ∈ halosFrom r l → v ∈ l ∧ CVolumeElementFEM.elemIsOwned v = false.
Proof.
  unfold halosFrom. intros Hv. apply list_elem_of_In, filter_In in Hv as [Hv Hb].
  apply list_elem_of_In in Hv. split; [done|].
  apply andb_true_iff in Hb as [Hb _]. by destruct (CVolumeElementFEM.elemIsOwned v).
Qed.

(** X22 -- With the owned elements in front of the halo elements, a
    rank sends owned DOFs and receives halo DOFs: when the elements
    below nVolElemOwned are owned and the ones from there to
    nVolElemTot are not, and the DOFs are fewer than 2^64, every DOF in
    [DOFsReceive] is at least the number N of DOFs of the owned
    elements and below the number of all DOFs, and every DOF found for
    a global ID that is to be sent is below N. *)
Theorem sent_DOFs_owned_received_DOFs_halo (nRank nVolElemTot nVolElemOwned : nat)
    (volElem : list CVolumeElementFEM.t) (plan : commPlan) :
  commPlanOf nRank nVolElemTot volElem = Ok plan →
  (∀ i v, (i < nVolElemTot)%nat → volElem !! i = Some v →
          CVolumeElementFEM.elemIsOwned v = bool_decide (i < nVolElemOwned)%nat) →
  Forall (λ v, 0 <= CVolumeElementFEM.nDOFsSol v) volElem →
  sumDOFs (take nVolElemTot volElem) < ULONG_MOD →
  (nVolElemOwned ≤ nVolElemTot)%nat →
  (∀ dofs d, dofs ∈ planDOFsReceive plan → d ∈ dofs →
             sumDOFs (take nVolElemOwned volElem) <= d
             < sumDOFs (take nVolElemTot volElem))
  ∧ (∀ id d, d ∈ donorDOFs (planVolElem plan) (planOwnedInd plan) id →
             0 <= d < sumDOFs (take nVolElemOwned volElem)).
Proof.
  intros Hplan Hlay Hpos Htot Hle.
  destruct (commPlanOf_inv _ _ _ _ Hplan) as (st & Hvol & Hn & _).
  destruct (plan_received _ _ _ _ Hplan) as (_ & Hl2 & Hk).
  destruct (plan_donors _ _ _ _ Hplan) as [Hd1 _].
  assert (∀ i v', (i < nVolElemTot)%nat → planVolElem plan !! i = Some v' →
            CVolumeElementFEM.elemIsOwned v'
            = bool_decide (i < nVolElemOwned)%nat) as Hlay'.
  { intros i v' Hi Hv'. rewrite Hvol in Hv'.
    apply withPrefixOffsets_fields in Hv' as (v & Hv & -> & _).
    by apply Hlay. }
  split.
  - intros dofs d Hdofs Hd.
    apply list_elem_of_lookup in Hdofs as [k Hdofs].
    destruct (lookup_lt_is_Some_2 (planRanksComm plan) k) as [r Hr].
    { rewrite <- Hl2. by eapply lookup_lt_Some. }
    destruct (Hk k r Hr) as [_ Hrecv]. rewrite Hdofs in Hrecv.
    injection Hrecv as ->.
    apply list_elem_of_In, in_flat_map in Hd as (v' & Hv' & Hd).
    apply list_elem_of_In in Hv', Hd.
    apply elem_of_halosFrom in Hv' as [Hv' Hown].
    apply list_elem_of_lookup in Hv' as [i Hi].
    apply lookup_take_Some in Hi as [Hi Hin].
    specialize (Hlay' i v' Hin Hi). rewrite Hown in Hlay'.
    symmetry in Hlay'. apply bool_decide_eq_false in Hlay'.
    rewrite Hvol in Hi.
    pose proof (dofsOf_range _ _ _ _ _ Hpos Htot Hin Hi Hd) as Hrange.
    pose proof (sumDOFs_take_mono volElem nVolElemOwned i Hpos ltac:(lia)).
    pose proof (sumDOFs_take_mono volElem (S i) nVolElemTot Hpos ltac:(lia)).
    lia.
  - intros id d Hd. unfold donorDOFs in Hd.
    destruct (planOwnedInd plan !! id) as [ind|] eqn:Hid;
      [|by apply elem_of_nil in Hd].
    destruct (Hd1 id ind Hid) as (Hin & v' & Hv' & Hown & _).
    rewrite Hv' in Hd.
    specialize (Hlay' ind v' Hin Hv'). rewrite Hown in Hlay'.
    symmetry in Hlay'. apply bool_decide_eq_true in Hlay'.
    rewrite Hvol in Hv'.
    pose proof (dofsOf_range _ _ _ _ _ Hpos Htot Hin Hv' Hd) as Hrange.
    pose proof (sumDOFs_take_mono volElem (S ind) nVolElemOwned Hpos
                  ltac:(lia)).
    pose proof (sumDOFs_nonneg (take ind volElem) (Forall_take _ _ _ Hpos)).
    lia.
Qed.

Lemma sent_DOFs_owned_received_DOFs_halo_witness :
  ∃ plan,
    commPlanOf 3 5 mesh_on_rank_1 = Ok plan
    ∧ (∀ dofs d, dofs ∈ planDOFsReceive plan → d ∈ dofs → 5 <= d < 12)
    ∧ (∀ id d, d ∈ donorDOFs (planVolElem plan) (planOwnedInd plan) id →
               0 <= d < 5).
Proof.
  destruct (commPlanOf 3 5 mesh_on_rank_1) as [plan| |] eqn:Hplan;
    [|by vm_compute in Hplan..].
  exists plan. split; [done|].
  apply (sent_DOFs_owned_received_DOFs_halo 3 5 2 mesh_on_rank_1 plan Hplan).
  - intros i v Hi Hv.
    destruct i as [|[|[|[|[|i]]]]]; simpl in Hv; try lia;
      by injection Hv as <-.
  - repeat constructor; by vm_compute.
  - by vm_compute.
  - lia.
Defined.

(** ** The buffers of the first exchange *)

Lemma markColors_spec elem : ∀ st,
  Z.of_nat (length st) < 2 ^ 31 →
  Forall (λ e, 0 <= CPrimalGrid.Color e < Z.of_nat (length st)) elem →
  ∃ st', markColors elem st = Ok st' ∧ length st' = length st
    ∧ ∀ r, st' !! r = Some true
           ↔ st !! r = Some true
             ∨ ∃ e, e ∈ elem ∧ CPrimalGrid.Color e = Z.of_nat r.
Proof.
  induction elem as [|e elem IH]; intros st Hn Hcol; cbn [markColors].
  { exists st. split_and!; [done..|]. intros r. split; [by left|].
    intros [|(e & He & _)]; [done|]. by apply elem_of_nil in He. }
  apply Forall_cons in Hcol as [Hc Hcol].
  assert (to_ulong (CPrimalGrid.Color e) = CPrimalGrid.Color e) as Hu.
  { apply to_ulong_small. unfold is_ulong, ULONG_MOD. lia. }
  rewrite Hu. unfold writeAt. rewrite decide_True by lia. osimpl.
  destruct (IH (<[Z.to_nat (CPrimalGrid.Color e) := true]> st))
    as (st' & Hst' & Hlen & Hiff).
  { by rewrite length_insert. }
  { by rewrite length_insert. }
  exists st'. rewrite length_insert in Hlen. split_and!; [done..|].
  intros r. rewrite Hiff.
  destruct (decide (r = Z.to_nat (CPrimalGrid.Color e))) as [->|Hne].
  - rewrite list_lookup_insert_eq by lia. split; [|by left].
    intros _. right. exists e. split; [left|lia].
  - rewrite list_lookup_insert_ne by done. split.
    + intros [|(e' & He' & Hr)]; [by left|]. right. exists e'.
      split; [by right|done].
    + intros [|(e' & He' & Hr)]; [by left|].
      apply elem_of_cons in He' as [->|He']; [lia|].
      right. by exists e'.
Qed.

(** A loop that sends every item to the buffers of its destination:
    the count of the long buffer is incremented and the values of the
    item are appended to the short and to the long buffer. *)
Lemma route_loop {A} (step : list (list Z) * list (list Z) → A
                             → outcome (list (list Z) * list (list Z)))
    (dest : A → nat) (pos : nat → nat) (fS fL : A → list Z) (n : nat) xs :
  (∀ S L x, x ∈ xs →
     step (S, L) x
     = (let* L1 := incrAt L (dest x) (pos (dest x)) in
        let* S1 := pushTo S (dest x) (fS x) in
        let* L2 := pushTo L1 (dest x) (fL x) in
        Ok (S1, L2))) →
  (∀ x, x ∈ xs → (dest x < n)%nat) →
  ∀ S L, length S = n → length L = n →
  (∀ k l, L !! k = Some l →
          ∃ c, l !! pos k = Some c ∧ c + Z.of_nat (length xs) < 2 ^ 63) →
  ∃ S' L',
    forEachBuf step xs (S, L) = Ok (S', L')
    ∧ length S' = n ∧ length L' = n
    ∧ (∀ k s, S !! k = Some s →
         S' !! k
         = Some (s ++ flat_map fS (List.filter (λ x, dest x =? k)%nat xs)))
    ∧ (∀ k l c, L !! k = Some l → l !! pos k = Some c →
         L' !! k
         = Some (<[pos k := c + Z.of_nat (length (List.filter
                                            (λ x, dest x =? k)%nat xs))]> l
                 ++ flat_map fL (List.filter (λ x, dest x =? k)%nat xs))).
Proof.
  induction xs as [|x xs IH]; intros Hstep Hdest S L HS HL Hc.
  { exists S, L. split_and!; [done..| |].
    - intros k s Hs. by rewrite app_nil_r.
    - intros k l c Hl Hp. cbn [List.filter length flat_map].
      rewrite app_nil_r, Z.add_0_r, list_insert_id by done. done. }
  cbn [forEachBuf]. rewrite Hstep by left.
  assert (dest x < n)%nat as Hd by (apply Hdest; left).
  destruct (lookup_lt_is_Some_2 L (dest x)) as [l Hl]; [lia|].
  destruct (lookup_lt_is_Some_2 S (dest x)) as [s Hs]; [lia|].
  destruct (Hc _ _ Hl) as (c & Hp & Hcb).
  pose proof (lookup_lt_Some _ _ _ Hp) as Hpl.
  unfold incrAt, pushTo, readAt, writeAt. rewrite Hl. osimpl. rewrite Hp.
  osimpl. cbn [length] in Hcb.
  destruct (Z.ltb_spec (c + 1) (2 ^ 63)); [|lia].
  rewrite decide_True by done. osimpl. rewrite decide_True by lia. osimpl.
  rewrite Hs. osimpl. rewrite list_lookup_insert_eq by lia. osimpl.
  rewrite list_insert_insert_eq.
  set (l1 := <[pos (dest x) := c + 1]> l ++ fL x).
  destruct (IH (λ S L y Hy, Hstep S L y (list_elem_of_further _ _ _ Hy))
              (λ y Hy, Hdest y (list_elem_of_further _ _ _ Hy))
              (<[dest x := s ++ fS x]> S) (<[dest x := l1]> L))
    as (S' & L' & Hrun & HS' & HL' & HSk & HLk).
  { by rewrite length_insert. }
  { by rewrite length_insert. }
  { intros k l' Hl'. destruct (decide (k = dest x)) as [->|Hne].
    - rewrite list_lookup_insert_eq in Hl' by lia. injection Hl' as <-.
      exists (c + 1). split; [|lia]. unfold l1.
      rewrite lookup_app_l by (rewrite length_insert; lia).
      by rewrite list_lookup_insert_eq by lia.
    - rewrite list_lookup_insert_ne in Hl' by done.
      destruct (Hc _ _ Hl') as (c' & Hc' & Hb). cbn [length] in Hb.
      exists c'. split; [done|lia]. }
  exists S', L'. split_and!; [done..| |].
  - intros k s0 Hs0. cbn [List.filter].
    destruct (decide (k = dest x)) as [->|Hne].
    + rewrite Nat.eqb_refl. rewrite Hs in Hs0. injection Hs0 as <-.
      rewrite (HSk (dest x) (s ++ fS x))
        by (by rewrite list_lookup_insert_eq by lia).
      cbn [flat_map]. by rewrite <- app_assoc.
    + destruct (Nat.eqb_spec (dest x) k) as [E|_]; [done|].
      apply HSk. by rewrite list_lookup_insert_ne.
  - intros k l0 c0 Hl0 Hp0. cbn [List.filter].
    destruct (decide (k = dest x)) as [->|Hne].
    + rewrite Nat.eqb_refl. rewrite Hl in Hl0. injection Hl0 as <-.
      rewrite Hp in Hp0. injection Hp0 as <-.
      rewrite (HLk (dest x) l1 (c + 1)).
      * unfold l1. cbn [length flat_map]. f_equal.
        rewrite insert_app_l by (rewrite length_insert; lia).
        rewrite list_insert_insert_eq, <- app_assoc. do 2 f_equal. lia.
      * by rewrite list_lookup_insert_eq by lia.
      * unfold l1. rewrite lookup_app_l by (rewrite length_insert; lia).
        by rewrite list_lookup_insert_eq by lia.
    + destruct (Nat.eqb_spec (dest x) k) as [E|_]; [done|].
      apply HLk; [|done]. by rewrite list_lookup_insert_ne.
Qed.

Lemma to_int_exact z : - 2 ^ 31 <= z < 2 ^ 31 → to_int z = z.
Proof.
  intros Hz. unfold to_int.
  destruct (Z.ltb_spec z 0).
  - rewrite <- (Z.mod_unique z (2 ^ 32) (-1) (z + 2 ^ 32)) by lia.
    destruct (Z.ltb_spec (z + 2 ^ 32) (2 ^ 31)); lia.
  - rewrite Z.mod_small by lia. destruct (Z.ltb_spec z (2 ^ 31)); lia.
Qed.

Lemma bufIndex_lookup st r :
  st !! r = Some true → rankToIndCommBuf st !! r = Some (bufIndex st r).
Proof. intros Hr. by rewrite rankToIndCommBuf_lookup, decide_True. Qed.

Lemma bufIndex_lt st r :
  st !! r = Some true → (bufIndex st r < size (rankToIndCommBuf st))%nat.
Proof.
  intros Hr. rewrite rankToIndCommBuf_size. by apply count_marked_take_bound.
Qed.

Lemma bufIndex_inj st r1 r2 :
  st !! r1 = Some true → st !! r2 = Some true →
  bufIndex st r1 = bufIndex st r2 → r1 = r2.
Proof.
  intros H1 H2 E. apply (rankToIndCommBuf_inj st r1 r2 (bufIndex st r1)).
  - by apply bufIndex_lookup.
  - rewrite E. by apply bufIndex_lookup.
Qed.

Lemma findRank_color st c :
  0 <= c < 2 ^ 31 → st !! Z.to_nat c = Some true →
  findRank (rankToIndCommBuf st) (to_int c) = Ok (bufIndex st (Z.to_nat c)).
Proof.
  intros Hc Hm. rewrite to_int_exact by lia. unfold findRank, findSecond.
  destruct (Z.ltb_spec c 0); [lia|]. by rewrite bufIndex_lookup.
Qed.

(** The elements are packed into the buffer of their colour. *)
Lemma packElems_routed st elem :
  Z.of_nat (length st) < 2 ^ 31 →
  Forall (λ e, 0 <= CPrimalGrid.Color e < Z.of_nat (length st)
               ∧ st !! Z.to_nat (CPrimalGrid.Color e) = Some true) elem →
  Z.of_nat (length elem) < 2 ^ 63 →
  ∃ S L,
    forEachBuf (packStep (rankToIndCommBuf st)) elem
      (replicate (size (rankToIndCommBuf st)) [],
       replicate (size (rankToIndCommBuf st)) [0]) = Ok (S, L)
    ∧ length S = size (rankToIndCommBuf st)
    ∧ length L = size (rankToIndCommBuf st)
    ∧ ∀ r, st !! r = Some true →
        S !! bufIndex st r
        = Some (flat_map packElemShort (elemsOfColor r elem))
        ∧ L !! bufIndex st r
          = Some (Z.of_nat (length (elemsOfColor r elem))
                  :: flat_map packElemLong (elemsOfColor r elem)).
Proof.
  intros Hn Hcol Hlen. rewrite Forall_forall in Hcol.
  set (n := size (rankToIndCommBuf st)).
  destruct (route_loop (packStep (rankToIndCommBuf st))
              (λ e, bufIndex st (Z.to_nat (CPrimalGrid.Color e)))
              (λ _, 0%nat) packElemShort packElemLong n elem)
    with (S := replicate n ([] : list Z)) (L := replicate n [0])
    as (S & L & Hrun & HS & HL & HSk & HLk).
  - intros S L e He. destruct (Hcol e He) as [Hc Hm].
    unfold packStep. rewrite findRank_color by (done || lia). done.
  - intros e He. destruct (Hcol e He) as [Hc Hm]. by apply bufIndex_lt.
  - apply length_replicate.
  - apply length_replicate.
  - intros k l Hl. apply lookup_replicate in Hl as [-> _].
    exists 0. split; [done|lia].
  - exists S, L. split_and!; [done..|]. intros r Hr.
    pose proof (bufIndex_lt st r Hr) as Hlt. fold n in Hlt.
    assert (List.filter
              (λ e, bufIndex st (Z.to_nat (CPrimalGrid.Color e))
                    =? bufIndex st r)%nat elem
            = elemsOfColor r elem) as Hf.
    { unfold elemsOfColor. apply filter_ext_in. intros e He.
      apply list_elem_of_In in He. destruct (Hcol e He) as [Hc Hm].
      unfold hasColor.
      destruct (Nat.eqb_spec (bufIndex st (Z.to_nat (CPrimalGrid.Color e)))
                  (bufIndex st r)) as [E|E].
      - apply bufIndex_inj in E; [|done..]. symmetry. apply Z.eqb_eq. lia.
      - symmetry. apply Z.eqb_neq. intros E'. apply E. f_equal. lia. }
    split.
    + rewrite (HSk (bufIndex st r) []) by (by apply lookup_replicate_2).
      by rewrite Hf.
    + rewrite (HLk (bufIndex st r) [0] 0);
        [|by apply lookup_replicate_2|done].
      rewrite Hf. done.
Qed.

Lemma advance_exact (ind : nat) (d : Z) (ind' : nat) :
  Z.of_nat ind + d = Z.of_nat ind' → Z.of_nat ind' < 2 ^ 64 →
  advance ind d = ind'.
Proof.
  intros E Hlt. unfold advance. rewrite E.
  rewrite to_ulong_small by (unfold is_ulong, ULONG_MOD; lia). lia.
Qed.

(** The sender finds the node IDs of the elements it packed. *)
Lemma collectNodeIDs_packed es : ∀ S L preS preL restS restL ids,
  Forall (λ e, CPrimalGrid.NDOFsGrid e < 2 ^ 15
               ∧ CPrimalGrid.nFaces e < 2 ^ 15) es →
  S = preS ++ flat_map packElemShort es ++ restS →
  L = preL ++ flat_map packElemLong es ++ restL →
  Z.of_nat (length preS + length (flat_map packElemShort es)) + 3 < 2 ^ 64 →
  Z.of_nat (length preL + length (flat_map packElemLong es)) + 3 < 2 ^ 64 →
  collectNodeIDs S L (length es) (length preS + 3) (length preL + 2) ids
  = Ok (ids ++ flat_map (λ e, map to_long (CPrimalGrid.Nodes e)) es).
Proof.
  induction es as [|e es IH];
    intros S L preS preL restS restL ids Hcnt HS HL HbS HbL.
  { simpl. by rewrite app_nil_r. }
  apply Forall_cons in Hcnt as [[Hd Hf] Hcnt].
  cbn [flat_map] in HS, HL, HbS, HbL. rewrite length_app in HbS, HbL.
  pose proof (length_packElemShort e) as HlS.
  pose proof (length_packElemLong e) as HlL.
  unfold CPrimalGrid.NDOFsGrid in Hd. unfold CPrimalGrid.nFaces in Hf.
  cbn [length collectNodeIDs].
  assert (readAt S (length preS + 3)
          = Ok (Z.of_nat (length (CPrimalGrid.Nodes e)))) as ->.
  { subst S. rewrite readAt_app_r. unfold readAt. simpl.
    rewrite to_short_exact; [done|]. unfold is_short, CPrimalGrid.NDOFsGrid.
    lia. }
  osimpl.
  assert (readAt S (length preS + 3 + 2)
          = Ok (Z.of_nat (length (CPrimalGrid.Faces e)))) as ->.
  { subst S. rewrite <- Nat.add_assoc, readAt_app_r. unfold readAt. simpl.
    rewrite to_short_exact; [done|]. unfold is_short, CPrimalGrid.nFaces.
    lia. }
  osimpl. unfold signedCount. rewrite Nat2Z.id.
  assert (readRange L (length preL + 2) (length (CPrimalGrid.Nodes e))
          = Ok (map to_long (CPrimalGrid.Nodes e))) as ->.
  { subst L. unfold readRange.
    change (packElemLong e)
      with ([to_long (CPrimalGrid.GlobalElemID e);
             to_long (CPrimalGrid.GlobalOffsetDOFsSol e)]
            ++ map to_long (CPrimalGrid.Nodes e)
            ++ map CPrimalGrid.Neighbor_Elements (CPrimalGrid.Faces e)).
    replace (preL
             ++ (([to_long (CPrimalGrid.GlobalElemID e);
                   to_long (CPrimalGrid.GlobalOffsetDOFsSol e)]
                  ++ map to_long (CPrimalGrid.Nodes e)
                  ++ map CPrimalGrid.Neighbor_Elements (CPrimalGrid.Faces e))
                 ++ flat_map packElemLong es) ++ restL)
      with ((preL ++ [to_long (CPrimalGrid.GlobalElemID e);
                      to_long (CPrimalGrid.GlobalOffsetDOFsSol e)])
            ++ map to_long (CPrimalGrid.Nodes e)
            ++ (map CPrimalGrid.Neighbor_Elements (CPrimalGrid.Faces e)
                ++ flat_map packElemLong es ++ restL))
      by (by rewrite <- !app_assoc).
    replace (length preL + 2)%nat
      with (length (preL ++ [to_long (CPrimalGrid.GlobalElemID e);
                             to_long (CPrimalGrid.GlobalOffsetDOFsSol e)]))
      by (rewrite length_app; simpl; lia).
    rewrite <- (length_map to_long (CPrimalGrid.Nodes e)).
    apply readRange_gen_app. }
  osimpl.
  rewrite (advance_exact _ _ (length (preS ++ packElemShort e) + 3))
    by (rewrite length_app; lia).
  rewrite (advance_exact _ _ (length (preL ++ packElemLong e) + 2))
    by (rewrite length_app; lia).
  rewrite (IH S L _ _ restS restL _ Hcnt).
  - cbn [flat_map]. by rewrite app_assoc.
  - rewrite HS. by rewrite <- !app_assoc.
  - rewrite HL. by rewrite <- !app_assoc.
  - rewrite length_app. lia.
  - rewrite length_app. lia.
Qed.

Lemma to_ulong_to_long_any z : to_ulong (to_long z) = to_ulong z.
Proof.
  unfold to_ulong, to_long, ULONG_MOD.
  destruct (z mod 2 ^ 64 <? 2 ^ 63).
  - apply Z.mod_mod. lia.
  - rewrite <- (Z.mod_add _ 1) by lia.
    replace (z mod 2 ^ 64 - 2 ^ 64 + 1 * 2 ^ 64) with (z mod 2 ^ 64) by lia.
    apply Z.mod_mod. lia.
Qed.

(** The coordinates of the nodes that are sent. *)
Lemma sendCoords_known {T} (geometry : CGeometry.t T) nodeIDs :
  Forall (λ node, (CGeometry.nDim geometry ≤ length (CGeometry.Coord node))%nat)
         (CGeometry.nodes geometry) →
  Forall (λ nd, to_ulong nd ∈ map CGeometry.GlobalIndex
                                (CGeometry.nodes geometry)) nodeIDs →
  ∀ D, sendCoords geometry nodeIDs D = Ok (D ++ sentCoords geometry nodeIDs).
Proof.
  intros Hcoor. induction 1 as [|nd nodeIDs Hin _ IH]; intros D.
  { simpl. by rewrite app_nil_r. }
  cbn [sendCoords]. unfold findLocalNode.
  destruct (globalPointIDToLocalInd_known geometry _ Hin)
    as (ind & node & Hind & Hnode).
  rewrite Hind. osimpl. unfold readAt. rewrite Hnode. osimpl.
  rewrite Forall_forall in Hcoor.
  destruct (readRange_gen_in_bounds (CGeometry.Coord node)
              (CGeometry.nDim geometry) 0) as [xs Hxs].
  { simpl. apply Hcoor. by eapply list_elem_of_lookup_2. }
  rewrite Hxs. osimpl. rewrite IH. unfold sentCoords. cbn [flat_map].
  apply readRange_gen_take in Hxs. rewrite drop_0 in Hxs.
  assert (nodeCoordsOf geometry (to_ulong nd) = xs) as ->.
  { unfold nodeCoordsOf. by rewrite Hind, Hnode. }
  by rewrite <- app_assoc.
Qed.

Lemma sendCoords_unknown {T} (geometry : CGeometry.t T) nodeIDs :
  Forall (λ node, (CGeometry.nDim geometry ≤ length (CGeometry.Coord node))%nat)
         (CGeometry.nodes geometry) →
  Exists (λ nd, to_ulong nd ∉ map CGeometry.GlobalIndex
                                (CGeometry.nodes geometry)) nodeIDs →
  ∀ D, sendCoords geometry nodeIDs D = Abort [] entryNotFound.
Proof.
  intros Hcoor. induction nodeIDs as [|nd nodeIDs IH]; intros Hex D.
  { by apply Exists_nil in Hex. }
  cbn [sendCoords]. unfold findLocalNode.
  destruct (decide (to_ulong nd ∈ map CGeometry.GlobalIndex
                                    (CGeometry.nodes geometry))) as [Hin|Hnot].
  - destruct (globalPointIDToLocalInd_known geometry _ Hin)
      as (ind & node & -> & Hnode).
    osimpl. unfold readAt. rewrite Hnode. osimpl.
    rewrite Forall_forall in Hcoor.
    destruct (readRange_gen_in_bounds (CGeometry.Coord node)
                (CGeometry.nDim geometry) 0) as [xs ->].
    { simpl. apply Hcoor. by eapply list_elem_of_lookup_2. }
    osimpl. apply IH. apply Exists_cons in Hex as [|Hex]; done.
  - by rewrite globalPointIDToLocalInd_unknown.
Qed.

Lemma elem_of_dedup_Z (l : list Z) (z : Z) :
  z ∈ dedup Z.ltb Z.eqb l ↔ z ∈ l.
Proof.
  split; [apply (dedup_sub Z.ltb Z.eqb)|].
  intros Hz. destruct (dedup_cover Z.ltb Z.eqb l z Hz) as (y & Hy & E).
  apply Z.eqb_eq in E. by subst.
Qed.

(** The nodes of packed elements that are nodes of the source mesh. *)
Lemma nodeIDsOf_known {T} (geometry : CGeometry.t T) es :
  Forall (λ e, Forall (λ nd, to_ulong nd
                             ∈ map CGeometry.GlobalIndex
                                 (CGeometry.nodes geometry))
                      (CPrimalGrid.Nodes e)) es →
  Forall (λ nd, to_ulong nd ∈ map CGeometry.GlobalIndex
                                (CGeometry.nodes geometry)) (nodeIDsOf es).
Proof.
  intros Hes. apply Forall_forall. intros nd Hnd. unfold nodeIDsOf in Hnd.
  rewrite elem_of_dedup_Z in Hnd.
  apply list_elem_of_In, in_flat_map in Hnd as (e & He & Hnd).
  apply list_elem_of_In in He, Hnd.
  apply list_elem_of_fmap in Hnd as (nd0 & -> & Hnd0).
  rewrite Forall_forall in Hes. specialize (Hes e He).
  rewrite Forall_forall in Hes. rewrite to_ulong_to_long_any. by apply Hes.
Qed.

(** One pass of the loop that adds the nodes, on the buffers of packed
    elements. *)
Lemma nodeStep_packed {T} (geometry : CGeometry.t T) S L (D : list (list T))
    i es :
  S !! i = Some (flat_map packElemShort es) →
  L !! i = Some (Z.of_nat (length es) :: flat_map packElemLong es) →
  D !! i = Some [] →
  Forall (λ e, CPrimalGrid.NDOFsGrid e < 2 ^ 15
               ∧ CPrimalGrid.nFaces e < 2 ^ 15) es →
  Z.of_nat (length es) < 2 ^ 63 →
  Z.of_nat (length (flat_map packElemShort es)) + 3 < 2 ^ 63 →
  Z.of_nat (length (flat_map packElemLong es)) + 3 < 2 ^ 63 →
  nodeStep geometry S (L, D) i
  = (let* D' := sendCoords geometry (nodeIDsOf es) [] in
     Ok (<[i := (Z.of_nat (length es) :: flat_map packElemLong es)
                ++ to_long (Z.of_nat (length (nodeIDsOf es)))
                   :: nodeIDsOf es]> L,
         <[i := D']> D)).
Proof.
  intros HS HL HD Hcnt Hlen HbS HbL. unfold nodeStep, readAt.
  rewrite HS, HL. osimpl. rewrite elemCount_packed by done. osimpl.
  rewrite (collectNodeIDs_packed es _ _ [] [Z.of_nat (length es)] [] [] []
             Hcnt).
  - osimpl. cbn [app]. fold (nodeIDsOf es). unfold writeAt.
    rewrite decide_True by (by eapply lookup_lt_Some). osimpl.
    rewrite HD. osimpl.
    destruct (sendCoords geometry (nodeIDsOf es) []) as [D'| |]; osimpl;
      [|done..].
    rewrite decide_True by (by eapply lookup_lt_Some). done.
  - by rewrite app_nil_r.
  - by rewrite app_nil_r.
  - simpl. lia.
  - simpl length. lia.
Qed.

(** The loop that adds the nodes to the buffers of packed elements. *)
Lemma nodeStep_loop {T} (geometry : CGeometry.t T) S
    (es : nat → list CPrimalGrid.t) n :
  Forall (λ node, (CGeometry.nDim geometry ≤ length (CGeometry.Coord node))%nat)
         (CGeometry.nodes geometry) →
  (∀ k, (k < n)%nat →
     S !! k = Some (flat_map packElemShort (es k))
     ∧ Forall (λ e, CPrimalGrid.NDOFsGrid e < 2 ^ 15
                    ∧ CPrimalGrid.nFaces e < 2 ^ 15) (es k)
     ∧ Z.of_nat (length (es k)) < 2 ^ 63
     ∧ Z.of_nat (length (flat_map packElemShort (es k))) + 3 < 2 ^ 63
     ∧ Z.of_nat (length (flat_map packElemLong (es k))) + 3 < 2 ^ 63) →
  (∀ k, (k < n)%nat →
     Forall (λ nd, to_ulong nd ∈ map CGeometry.GlobalIndex
                                   (CGeometry.nodes geometry))
            (nodeIDsOf (es k))) →
  ∀ cnt i L (D : list (list T)),
  (i + cnt = n)%nat → length L = n → length D = n →
  (∀ k, (i ≤ k < n)%nat →
     L !! k = Some (Z.of_nat (length (es k)) :: flat_map packElemLong (es k))
     ∧ D !! k = Some []) →
  ∃ L' D',
    forIndex (nodeStep geometry S) cnt i (L, D) = Ok (L', D')
    ∧ length L' = n ∧ length D' = n
    ∧ (∀ k, (k < i)%nat → L' !! k = L !! k ∧ D' !! k = D !! k)
    ∧ (∀ k, (i ≤ k < n)%nat →
         L' !! k
         = Some ((Z.of_nat (length (es k)) :: flat_map packElemLong (es k))
                 ++ to_long (Z.of_nat (length (nodeIDsOf (es k))))
                    :: nodeIDsOf (es k))
         ∧ D' !! k = Some (sentCoords geometry (nodeIDsOf (es k)))).
Proof.
  intros Hcoor Hes Hknown.
  induction cnt as [|cnt IH]; intros i L D Hi HL HD Hk.
  { exists L, D. split_and!; [done..| |]; intros k Hlt; [done|lia]. }
  cbn [forIndex].
  destruct (Hes i) as (HS & Hc & Hl & HbS & HbL); [lia|].
  pose proof (Hknown i ltac:(lia)) as Hkn.
  destruct (Hk i) as [HLi HDi]; [lia|].
  rewrite (nodeStep_packed geometry S L D i (es i)) by done.
  rewrite (sendCoords_known geometry _ Hcoor Hkn). osimpl. cbn [app].
  match goal with
  | |- context [forIndex _ cnt _ (?L1, ?D1)] =>
      destruct (IH (Datatypes.S i) L1 D1)
        as (L' & D' & Hrun & HL' & HD' & Hlow & Hhigh)
  end.
  { lia. }
  { by rewrite length_insert. }
  { by rewrite length_insert. }
  { intros k Hr. rewrite !list_lookup_insert_ne by lia. apply Hk. lia. }
  exists L', D'. split_and!; [done..| |].
  - intros k Hlt. destruct (Hlow k) as [-> ->]; [lia|].
    by rewrite !list_lookup_insert_ne by lia.
  - intros k Hr. destruct (decide (k = i)) as [->|Hne].
    + destruct (Hlow i) as [-> ->]; [lia|].
      by rewrite !list_lookup_insert_eq by lia.
    + apply Hhigh. lia.
Qed.

(** The loop stops at the first buffer with a node that is not a node
    of the source mesh. *)
Lemma nodeStep_loop_abort {T} (geometry : CGeometry.t T) S
    (es : nat → list CPrimalGrid.t) n :
  Forall (λ node, (CGeometry.nDim geometry ≤ length (CGeometry.Coord node))%nat)
         (CGeometry.nodes geometry) →
  (∀ k, (k < n)%nat →
     S !! k = Some (flat_map packElemShort (es k))
     ∧ Forall (λ e, CPrimalGrid.NDOFsGrid e < 2 ^ 15
                    ∧ CPrimalGrid.nFaces e < 2 ^ 15) (es k)
     ∧ Z.of_nat (length (es k)) < 2 ^ 63
     ∧ Z.of_nat (length (flat_map packElemShort (es k))) + 3 < 2 ^ 63
     ∧ Z.of_nat (length (flat_map packElemLong (es k))) + 3 < 2 ^ 63) →
  ∀ cnt i L (D : list (list T)),
  (i + cnt = n)%nat → length L = n → length D = n →
  (∀ k, (i ≤ k < n)%nat →
     L !! k = Some (Z.of_nat (length (es k)) :: flat_map packElemLong (es k))
     ∧ D !! k = Some []) →
  (∃ k, (i ≤ k < n)%nat
        ∧ Exists (λ nd, to_ulong nd ∉ map CGeometry.GlobalIndex
                                        (CGeometry.nodes geometry))
                 (nodeIDsOf (es k))) →
  forIndex (nodeStep geometry S) cnt i (L, D) = Abort [] entryNotFound.
Proof.
  intros Hcoor Hes.
  induction cnt as [|cnt IH]; intros i L D Hi HL HD Hk (k & Hr & Hex).
  { lia. }
  cbn [forIndex].
  destruct (Hes i) as (HS & Hc & Hl & HbS & HbL); [lia|].
  destruct (Hk i) as [HLi HDi]; [lia|].
  rewrite (nodeStep_packed geometry S L D i (es i)) by done.
  destruct (Forall_Exists_dec
              (λ nd, to_ulong nd ∈ map CGeometry.GlobalIndex
                                     (CGeometry.nodes geometry))
              (λ nd, to_ulong nd ∉ map CGeometry.GlobalIndex
                                     (CGeometry.nodes geometry))
              (λ nd, decide (to_ulong nd
                             ∈ map CGeometry.GlobalIndex
                                 (CGeometry.nodes geometry)))
              (nodeIDsOf (es i))) as [Hkn|Hun].
  - rewrite (sendCoords_known geometry _ Hcoor Hkn). osimpl.
    apply IH; [lia|by rewrite length_insert..| |].
    + intros k' Hr'. rewrite !list_lookup_insert_ne by lia. apply Hk. lia.
    + exists k. split; [|done]. destruct (decide (k = i)) as [->|]; [|lia].
      apply Exists_exists in Hex as (nd & Hnd & Hno).
      rewrite Forall_forall in Hkn. by specialize (Hkn nd Hnd).
  - by rewrite (sendCoords_unknown geometry _ Hcoor Hun).
Qed.

(** The boundary elements of one marker are packed into the buffer of
    the colour of their domain element, behind their number. *)
Lemma packMarker_routed {T} (geometry : CGeometry.t T) rank st bs S L :
  Z.of_nat (length st) < 2 ^ 31 →
  Forall (λ e, 0 <= CPrimalGrid.Color e < Z.of_nat (length st)
               ∧ st !! Z.to_nat (CPrimalGrid.Color e) = Some true)
         (CGeometry.elem geometry) →
  Forall (λ b, is_Some (domainElemOf geometry rank b)) bs →
  Z.of_nat (length bs) < 2 ^ 63 →
  length S = size (rankToIndCommBuf st) →
  length L = size (rankToIndCommBuf st) →
  ∃ S' L',
    packMarker geometry rank (rankToIndCommBuf st) (S, L) bs = Ok (S', L')
    ∧ length S' = size (rankToIndCommBuf st)
    ∧ length L' = size (rankToIndCommBuf st)
    ∧ ∀ r s l, st !! r = Some true →
        S !! bufIndex st r = Some s → L !! bufIndex st r = Some l →
        S' !! bufIndex st r
        = Some (s ++ flat_map packBoundShort (boundOfColor geometry rank r bs))
        ∧ L' !! bufIndex st r
          = Some (l ++ markerLong (boundOfColor geometry rank r bs)).
Proof.
  intros Hn Hcol Hdom Hlen HS HL.
  rewrite Forall_forall in Hcol. rewrite Forall_forall in Hdom.
  set (n := size (rankToIndCommBuf st)) in *.
  set (dest := λ b, match domainElemOf geometry rank b with
                    | Some e => bufIndex st (Z.to_nat (CPrimalGrid.Color e))
                    | None => 0%nat
                    end).
  set (pos := λ k, default 0%nat (map length L !! k)).
  assert (∀ b e, b ∈ bs → domainElemOf geometry rank b = Some e →
            0 <= CPrimalGrid.Color e < Z.of_nat (length st)
            ∧ st !! Z.to_nat (CPrimalGrid.Color e) = Some true) as Hbe.
  { intros b e Hb He. apply Hcol. unfold domainElemOf in He.
    destruct (CGeometry.starting_node geometry !! rank); [|done].
    by eapply list_elem_of_lookup_2. }
  unfold packMarker.
  destruct (route_loop
              (packBoundStep geometry rank (rankToIndCommBuf st)
                 (map length L))
              dest pos packBoundShort packBoundLong n bs)
    with (S := S) (L := map (λ l, l ++ [0]) L)
    as (S' & L' & Hrun & HS' & HL' & HSk & HLk).
  - intros S0 L0 b Hb. destruct (Hdom b Hb) as [e He].
    destruct (Hbe b e Hb He) as [Hc Hm].
    unfold packBoundStep, dest, pos. rewrite He.
    unfold domainElemOf in He.
    destruct (CGeometry.starting_node geometry !! rank) as [start|] eqn:Hst;
      [|done].
    unfold readAt at 1. rewrite Hst. osimpl.
    unfold readAt at 1. rewrite He. osimpl.
    rewrite findRank_color by (done || lia). osimpl.
    pose proof (bufIndex_lt st _ Hm) as Hlt. fold n in Hlt.
    destruct (lookup_lt_is_Some_2 (map length L)
                (bufIndex st (Z.to_nat (CPrimalGrid.Color e)))) as [p Hp].
    { rewrite length_map. lia. }
    unfold readAt at 1. rewrite Hp. osimpl. done.
  - intros b Hb. destruct (Hdom b Hb) as [e He].
    destruct (Hbe b e Hb He) as [Hc Hm]. unfold dest. rewrite He.
    by apply bufIndex_lt.
  - done.
  - by rewrite length_map.
  - intros k l' Hl'. apply list_lookup_fmap_Some in Hl' as (l & -> & Hl).
    exists 0. split; [|lia]. unfold pos.
    rewrite list_lookup_fmap, Hl. simpl.
    rewrite lookup_app_r by lia. by rewrite Nat.sub_diag.
  - exists S', L'. split_and!; [done..|]. intros r s l Hr Hs Hl.
    assert (List.filter (λ b, dest b =? bufIndex st r)%nat bs
            = boundOfColor geometry rank r bs) as Hf.
    { unfold boundOfColor. apply filter_ext_in. intros b Hb.
      apply list_elem_of_In in Hb. destruct (Hdom b Hb) as [e He].
      destruct (Hbe b e Hb He) as [Hc Hm].
      unfold dest, boundHasColor, hasColor. rewrite He.
      destruct (Nat.eqb_spec (bufIndex st (Z.to_nat (CPrimalGrid.Color e)))
                  (bufIndex st r)) as [E|E].
      - apply bufIndex_inj in E; [|done..]. symmetry. apply Z.eqb_eq. lia.
      - symmetry. apply Z.eqb_neq. intros E'. apply E. f_equal. lia. }
    split.
    + rewrite (HSk _ _ Hs). by rewrite Hf.
    + rewrite (HLk (bufIndex st r) (l ++ [0]) 0).
      * rewrite Hf. unfold pos. rewrite list_lookup_fmap, Hl. simpl.
        rewrite <- (Nat.add_0_r (length l)), insert_app_r.
        cbn [insert list_insert]. unfold markerLong.
        by rewrite <- app_assoc.
      * by rewrite list_lookup_fmap, Hl.
      * unfold pos. rewrite list_lookup_fmap, Hl. simpl.
        rewrite lookup_app_r by lia. by rewrite Nat.sub_diag.
Qed.

Lemma packMarkers_routed {T} (geometry : CGeometry.t T) rank st bound :
  Z.of_nat (length st) < 2 ^ 31 →
  Forall (λ e, 0 <= CPrimalGrid.Color e < Z.of_nat (length st)
               ∧ st !! Z.to_nat (CPrimalGrid.Color e) = Some true)
         (CGeometry.elem geometry) →
  Forall (Forall (λ b, is_Some (domainElemOf geometry rank b))) bound →
  Forall (λ bs : list CPrimalGridBound.t, Z.of_nat (length bs) < 2 ^ 63)
         bound →
  ∀ S L,
  length S = size (rankToIndCommBuf st) →
  length L = size (rankToIndCommBuf st) →
  ∃ S' L',
    forEachBuf (packMarker geometry rank (rankToIndCommBuf st)) bound (S, L)
    = Ok (S', L')
    ∧ length S' = size (rankToIndCommBuf st)
    ∧ length L' = size (rankToIndCommBuf st)
    ∧ ∀ r s l, st !! r = Some true →
        S !! bufIndex st r = Some s → L !! bufIndex st r = Some l →
        S' !! bufIndex st r
        = Some (s ++ flat_map (λ bs, flat_map packBoundShort
                                       (boundOfColor geometry rank r bs))
                       bound)
        ∧ L' !! bufIndex st r
          = Some (l ++ flat_map (λ bs, markerLong
                                         (boundOfColor geometry rank r bs))
                         bound).
Proof.
  intros Hn Hcol. induction bound as [|bs bound IH];
    intros Hdom Hcnt S L HS HL.
  { exists S, L. split_and!; [done..|]. intros r s l _ Hs Hl.
    cbn [flat_map]. by rewrite !app_nil_r. }
  apply Forall_cons in Hdom as [Hd Hdom]. apply Forall_cons in Hcnt as [Hc Hcnt].
  cbn [forEachBuf].
  destruct (packMarker_routed geometry rank st bs S L Hn Hcol Hd Hc HS HL)
    as (S1 & L1 & Hrun1 & HS1 & HL1 & Hk1).
  rewrite Hrun1. osimpl.
  destruct (IH Hdom Hcnt S1 L1 HS1 HL1) as (S2 & L2 & Hrun2 & HS2 & HL2 & Hk2).
  exists S2, L2. split_and!; [done..|]. intros r s l Hr Hs Hl.
  destruct (Hk1 r s l Hr Hs Hl) as [Hs1 Hl1].
  destruct (Hk2 r _ _ Hr Hs1 Hl1) as [-> ->].
  cbn [flat_map]. by rewrite !app_assoc.
Qed.

Lemma length_flat_map_filter {A B} (f : A → list B) (p : A → bool) l :
  (length (flat_map f (List.filter p l)) ≤ length (flat_map f l))%nat.
Proof.
  induction l as [|x l IH]; [done|]. cbn [List.filter flat_map].
  destruct (p x); cbn [flat_map]; rewrite ?length_app; lia.
Qed.

Lemma length_le_packed es :
  (length es ≤ length (flat_map packElemShort es))%nat.
Proof.
  induction es as [|e es IH]; [done|]. cbn [flat_map length].
  rewrite length_app, length_packElemShort. lia.
Qed.

Lemma Forall_filter_list {A} (P : A → Prop) (p : A → bool) l :
  Forall P l → Forall P (List.filter p l).
Proof.
  intros Hl. apply Forall_forall. intros x Hx.
  apply list_elem_of_In, filter_In in Hx as [Hx _].
  rewrite Forall_forall in Hl. apply Hl. by apply list_elem_of_In.
Qed.

Lemma length_markedRanks st :
  length (markedRanks st 0) = size (rankToIndCommBuf st).
Proof.
  rewrite <- keysInOrder_marked, <- length_ranksCommOf.
  unfold ranksCommOf. by rewrite length_map.
Qed.

(** The rank of a buffer. *)
Lemma markedRanks_index st k :
  (k < size (rankToIndCommBuf st))%nat →
  ∃ r, markedRanks st 0 !! k = Some r ∧ st !! r = Some true
       ∧ bufIndex st r = k.
Proof.
  intros Hk. destruct (lookup_lt_is_Some_2 (markedRanks st 0) k) as [r Hr].
  { by rewrite length_markedRanks. }
  exists r. split; [done|].
  rewrite <- keysInOrder_marked in Hr. apply ranksComm_index in Hr as [Hc Hm].
  split; [done|]. rewrite bufIndex_lookup in Hc by done. by injection Hc.
Qed.

(** The elements in the buffers, before the nodes are added. *)
Lemma sendBuffers_packed {T} (geometry : CGeometry.t T) bound rank nRank :
  sendable geometry bound rank nRank →
  ∃ st S L,
    length st = nRank
    ∧ (∀ r, st !! r = Some true
            ↔ ∃ e, e ∈ CGeometry.elem geometry
                   ∧ CPrimalGrid.Color e = Z.of_nat r)
    ∧ Forall (λ e, 0 <= CPrimalGrid.Color e < Z.of_nat (length st)
                   ∧ st !! Z.to_nat (CPrimalGrid.Color e) = Some true)
             (CGeometry.elem geometry)
    ∧ markColors (CGeometry.elem geometry) (replicate nRank false) = Ok st
    ∧ forEachBuf (packStep (rankToIndCommBuf st)) (CGeometry.elem geometry)
        (replicate (size (rankToIndCommBuf st)) [],
         replicate (size (rankToIndCommBuf st)) [0]) = Ok (S, L)
    ∧ length S = size (rankToIndCommBuf st)
    ∧ length L = size (rankToIndCommBuf st)
    ∧ (∀ k, (k < size (rankToIndCommBuf st))%nat →
         S !! k
         = Some (flat_map packElemShort
                   (bufElems st (CGeometry.elem geometry) k))
         ∧ Forall (λ e, CPrimalGrid.NDOFsGrid e < 2 ^ 15
                        ∧ CPrimalGrid.nFaces e < 2 ^ 15)
                  (bufElems st (CGeometry.elem geometry) k)
         ∧ Z.of_nat (length (bufElems st (CGeometry.elem geometry) k)) < 2 ^ 63
         ∧ Z.of_nat (length (flat_map packElemShort
                               (bufElems st (CGeometry.elem geometry) k))) + 3
           < 2 ^ 63
         ∧ Z.of_nat (length (flat_map packElemLong
                               (bufElems st (CGeometry.elem geometry) k))) + 3
           < 2 ^ 63)
    ∧ (∀ k, (k < size (rankToIndCommBuf st))%nat →
         L !! k
         = Some (Z.of_nat (length (bufElems st (CGeometry.elem geometry) k))
                 :: flat_map packElemLong
                      (bufElems st (CGeometry.elem geometry) k))).
Proof.
  intros [Hn Hcol Hcnt HbS HbL Hcoor Hdom Hbc].
  destruct (markColors_spec (CGeometry.elem geometry) (replicate nRank false))
    as (st & Hst & Hlen & Hiff).
  { by rewrite length_replicate. }
  { by rewrite length_replicate. }
  rewrite length_replicate in Hlen.
  assert (∀ r, st !! r = Some true
               ↔ ∃ e, e ∈ CGeometry.elem geometry
                      ∧ CPrimalGrid.Color e = Z.of_nat r) as Hmark.
  { intros r. rewrite Hiff. split; [|by right].
    intros [Hr|]; [|done]. by apply lookup_replicate in Hr as [? _]. }
  assert (Forall (λ e, 0 <= CPrimalGrid.Color e < Z.of_nat (length st)
                       ∧ st !! Z.to_nat (CPrimalGrid.Color e) = Some true)
                 (CGeometry.elem geometry)) as Hcol'.
  { apply Forall_forall. intros e He. rewrite Forall_forall in Hcol.
    pose proof (Hcol e He) as Hc. split; [lia|].
    apply Hmark. exists e. split; [done|lia]. }
  pose proof (length_le_packed (CGeometry.elem geometry)) as Hle.
  destruct (packElems_routed st (CGeometry.elem geometry))
    as (S & L & Hpack & HS & HL & Hpk); [lia|done|lia|].
  exists st, S, L. split_and!; [done..| |].
  - intros k Hk. destruct (markedRanks_index st k Hk) as (r & Hr & Hm & Hi).
    unfold bufElems. rewrite Hr. destruct (Hpk r Hm) as [HSr _].
    rewrite Hi in HSr.
    pose proof (length_flat_map_filter packElemShort (hasColor r)
                  (CGeometry.elem geometry)).
    pose proof (length_flat_map_filter packElemLong (hasColor r)
                  (CGeometry.elem geometry)).
    pose proof (length_le_packed (elemsOfColor r (CGeometry.elem geometry))).
    unfold elemsOfColor in *.
    split_and!; [done|by apply Forall_filter_list|lia..].
  - intros k Hk. destruct (markedRanks_index st k Hk) as (r & Hr & Hm & Hi).
    unfold bufElems. rewrite Hr. destruct (Hpk r Hm) as [_ HLr].
    by rewrite Hi in HLr.
Qed.

Lemma bufElems_index st elem r :
  st !! r = Some true → bufElems st elem (bufIndex st r) = elemsOfColor r elem.
Proof.
  intros Hr. pose proof (bufIndex_lt st r Hr) as Hlt.
  destruct (markedRanks_index st (bufIndex st r) Hlt) as (r' & Hr' & Hm' & Hi').
  apply bufIndex_inj in Hi'; [|done..]. subst r'.
  unfold bufElems. by rewrite Hr'.
Qed.

(** The buffers of the first exchange, rank by rank. *)
Lemma sendBuffers_spec {T} (geometry : CGeometry.t T) bound rank nRank :
  sendable geometry bound rank nRank → nodesKnown geometry →
  ∃ st bufs,
    length st = nRank
    ∧ (∀ r, st !! r = Some true
            ↔ ∃ e, e ∈ CGeometry.elem geometry
                   ∧ CPrimalGrid.Color e = Z.of_nat r)
    ∧ sendBuffers geometry bound rank nRank = Ok (rankToIndCommBuf st, bufs)
    ∧ length bufs = size (rankToIndCommBuf st)
    ∧ ∀ r, st !! r = Some true →
        bufs !! bufIndex st r = Some (sentBuf geometry bound rank r).
Proof.
  intros Hsend Hkn.
  destruct (sendBuffers_packed geometry bound rank nRank Hsend)
    as (st & S & L & Hlen & Hmark & Hcol' & Hst & Hpack & HS & HL & HSk & HLk).
  destruct Hsend as [Hn Hcol Hcnt HbS HbL Hcoor Hdom Hbc].
  set (n := size (rankToIndCommBuf st)) in *.
  destruct (nodeStep_loop geometry S (bufElems st (CGeometry.elem geometry))
              n Hcoor HSk) with
    (cnt := n) (i := 0%nat) (L := L) (D := replicate n ([] : list T))
    as (L1 & D1 & Hnode & HL1 & HD1 & _ & Hnk).
  { intros k Hk. apply nodeIDsOf_known.
    unfold bufElems. destruct (markedRanks st 0 !! k); [|constructor].
    by apply Forall_filter_list. }
  { done. }
  { done. }
  { apply length_replicate. }
  { intros k Hk. split; [apply HLk; lia|]. apply lookup_replicate_2. lia. }
  destruct (packMarkers_routed geometry rank st bound) with (S := S) (L := L1)
    as (S2 & L2 & Hbound & HS2 & HL2 & Hbk); [lia|done..|].
  eexists st, _. split_and!; [done|done| | |].
  - unfold sendBuffers. rewrite Hst. osimpl. fold n. rewrite Hpack. osimpl.
    rewrite Hnode. osimpl. rewrite Hbound. osimpl. done.
  - rewrite length_zip_with, length_zip_with. fold n. lia.
  - intros r Hr. pose proof (bufIndex_lt st r Hr) as Hlt. fold n in Hlt.
    destruct (HSk _ Hlt) as [HSr _].
    destruct (Hnk (bufIndex st r)) as [HL1r HD1r]; [lia|].
    rewrite bufElems_index in HSr, HL1r, HD1r by done.
    destruct (Hbk r _ _ Hr HSr HL1r) as [HS2r HL2r].
    rewrite lookup_zip_with, lookup_zip_with, HS2r, HL2r, HD1r. simpl.
    unfold sentBuf. by rewrite <- app_assoc.
Qed.

(** X23 -- The buffers of the first exchange: on a source mesh whose
    colours are ranks, whose elements have fewer than 2^15 nodes and
    faces, whose boundary elements belong to local elements and whose
    element nodes are nodes of the mesh, the sender fills one triple of
    buffers per colour in use, in increasing order of the colour. The
    buffers for the rank r hold the elements of colour r in the order
    of the source mesh behind their number, then the number of
    different node IDs of these elements and the IDs in increasing
    order, then per marker the number of the boundary elements whose
    domain element has colour r followed by these elements; the double
    buffer holds the coordinates of the nodes in the order of the IDs. *)
Theorem first_exchange_buffers {T} (geometry : CGeometry.t T)
    (bound : list (list CPrimalGridBound.t)) (rank nRank : nat) :
  sendable geometry bound rank nRank → nodesKnown geometry →
  ∃ comm,
    sendBuffers geometry bound rank nRank
    = Ok (comm, map (sentBuf geometry bound rank) (keysInOrder comm))
    ∧ StronglySorted Nat.le (keysInOrder comm) ∧ NoDup (keysInOrder comm)
    ∧ (∀ r, r ∈ keysInOrder comm
            ↔ ∃ e, e ∈ CGeometry.elem geometry
                   ∧ CPrimalGrid.Color e = Z.of_nat r)
    ∧ (∀ k r, keysInOrder comm !! k = Some r → comm !! r = Some k).
Proof.
  intros Hsend Hkn.
  destruct (sendBuffers_spec geometry bound rank nRank Hsend Hkn)
    as (st & bufs & Hlen & Hmark & Hrun & Hsize & Hbuf).
  destruct (markedRanks_spec st 0) as (Hsorted & Hnd & Hin & _).
  exists (rankToIndCommBuf st). rewrite keysInOrder_marked.
  split_and!; [|done|done| |].
  - rewrite Hrun. do 2 f_equal. apply list_eq. intros k.
    rewrite list_lookup_fmap.
    destruct (decide (k < size (rankToIndCommBuf st))%nat) as [Hk|Hk].
    + destruct (markedRanks_index st k Hk) as (r & Hr & Hm & Hi).
      rewrite Hr. simpl. rewrite <- Hi. by apply Hbuf.
    + rewrite (lookup_ge_None_2 bufs) by lia.
      rewrite (lookup_ge_None_2 (markedRanks st 0))
        by (rewrite length_markedRanks; lia).
      done.
  - intros r. rewrite Hin, Nat.sub_0_r, <- Hmark. split; [by intros []|].
    intros Hr. split; [lia|done].
  - intros k r Hr. rewrite <- keysInOrder_marked in Hr.
    by apply ranksComm_index in Hr as [Hc _].
Qed.

Lemma first_exchange_buffers_witness :
  ∃ comm,
    sendBuffers two_quads_two_ranks two_quads_bound 0 2
    = Ok (comm, map (sentBuf two_quads_two_ranks two_quads_bound 0)
                    (keysInOrder comm))
    ∧ StronglySorted Nat.le (keysInOrder comm) ∧ NoDup (keysInOrder comm)
    ∧ (∀ r, r ∈ keysInOrder comm
            ↔ ∃ e, e ∈ CGeometry.elem two_quads_two_ranks
                   ∧ CPrimalGrid.Color e = Z.of_nat r)
    ∧ (∀ k r, keysInOrder comm !! k = Some r → comm !! r = Some k).
Proof.
  apply (first_exchange_buffers two_quads_two_ranks two_quads_bound 0 2).
  - split; [by vm_compute|repeat constructor; by vm_compute..
            |by vm_compute|by vm_compute
            |repeat constructor; by vm_compute
            |repeat constructor; by eexists
            |repeat constructor; by vm_compute].
  - unfold nodesKnown. apply (bool_decide_unpack _). by vm_compute.
Defined.

(** X24 -- A node that is missing from the source mesh stops the first
    exchange: if a node ID of some element is not the global index of a
    node of the source mesh, the sender prints 'Entry not found in map
    in function CMeshFEM::CMeshFEM' and stops, before any boundary
    element is packed. *)
Theorem first_exchange_unknown_node {T} (geometry : CGeometry.t T)
    (bound : list (list CPrimalGridBound.t)) (rank nRank : nat) :
  sendable geometry bound rank nRank →
  Exists (λ e, Exists (λ nd, to_ulong nd
                             ∉ map CGeometry.GlobalIndex
                                 (CGeometry.nodes geometry))
                      (CPrimalGrid.Nodes e))
         (CGeometry.elem geometry) →
  sendBuffers geometry bound rank nRank = Abort [] entryNotFound.
Proof.
  intros Hsend Hex.
  destruct (sendBuffers_packed geometry bound rank nRank Hsend)
    as (st & S & L & Hlen & Hmark & Hcol' & Hst & Hpack & HS & HL & HSk & HLk).
  destruct Hsend as [Hn Hcol Hcnt HbS HbL Hcoor Hdom Hbc].
  set (n := size (rankToIndCommBuf st)) in *.
  unfold sendBuffers. rewrite Hst. osimpl. fold n. rewrite Hpack. osimpl.
  rewrite (nodeStep_loop_abort geometry S
             (bufElems st (CGeometry.elem geometry)) n Hcoor HSk);
    [done|lia|done|apply length_replicate| |].
  { intros k Hk. split; [apply HLk; lia|]. apply lookup_replicate_2. lia. }
  apply Exists_exists in Hex as (e & He & Hex).
  apply Exists_exists in Hex as (nd & Hnd & Hno).
  rewrite Forall_forall in Hcol'. destruct (Hcol' e He) as [Hc Hm].
  exists (bufIndex st (Z.to_nat (CPrimalGrid.Color e))).
  split; [split; [lia|by apply bufIndex_lt]|].
  rewrite bufElems_index by done. apply Exists_exists.
  exists (to_long nd). rewrite to_ulong_to_long_any. split; [|done].
  unfold nodeIDsOf. rewrite elem_of_dedup_Z. apply elem_of_flat_map.
  exists e. split.
  - unfold elemsOfColor. apply list_elem_of_In, filter_In.
    split; [by apply list_elem_of_In|]. unfold hasColor. apply Z.eqb_eq. lia.
  - apply list_elem_of_fmap. by exists nd.
Qed.

Lemma first_exchange_unknown_node_witness :
  sendBuffers two_quads_less_a_node two_quads_bound 0 1
  = Abort [] entryNotFound.
Proof.
  apply (first_exchange_unknown_node two_quads_less_a_node two_quads_bound 0 1).
  - split; [by vm_compute|repeat constructor; by vm_compute..
            |by vm_compute|by vm_compute
            |repeat constructor; by vm_compute
            |repeat constructor; by eexists
            |repeat constructor; by vm_compute].
  - apply (bool_decide_unpack _). by vm_compute.
Defined.

(** ** The first exchange, as it is received *)

Ltac peel H :=
  repeat match type of H with
         | obind ?m _ = Ok _ =>
             let x := fresh "x" in
             destruct m as [x| |] eqn:?; cbn [obind] in H;
             [|discriminate H..]
         end.

(** The indices behind the elements of a receive buffer. *)
Lemma storeOwned_loop_indices rank m es :
  ∀ S L preS preL restS restL volElem indS indL volElem',
  Forall CPrimalGrid.wf es →
  S = preS ++ flat_map packElemShort es ++ restS →
  L = preL ++ flat_map packElemLong es ++ restL →
  storeOwned_loop rank m S L (length es) (length preS) (length preL) volElem
  = Ok (indS, indL, volElem') →
  indS = length (preS ++ flat_map packElemShort es)
  ∧ indL = length (preL ++ flat_map packElemLong es).
Proof.
  induction es as [|e es IH];
    intros S L preS preL restS restL volElem indS indL volElem' Hwf HS HL Hrun.
  { simpl in Hrun. injection Hrun as <- <- _. by rewrite !app_nil_r. }
  apply Forall_cons in Hwf as [Hwf Hwfs].
  destruct (packed_element_reads e es S L preS preL restS restL Hwf HS HL)
    as (Hd & Hf & Hg & Hnd & Hnf & HS' & HL').
  cbn [length storeOwned_loop] in Hrun. rewrite Hd, Hf in Hrun.
  peel Hrun. rewrite Hnd, Hnf in Hrun.
  replace (length preS + 7 + 2 * length (CPrimalGrid.Faces e))%nat
    with (length (preS ++ packElemShort e)) in Hrun
    by (rewrite length_app, length_packElemShort; lia).
  replace (length preL + 2 + length (CPrimalGrid.Nodes e)
           + length (CPrimalGrid.Faces e))%nat
    with (length (preL ++ packElemLong e)) in Hrun
    by (rewrite length_app, length_packElemLong; lia).
  destruct (IH S L _ _ restS restL _ _ _ _ Hwfs HS' HL' Hrun) as [-> ->].
  cbn [flat_map]. by rewrite !app_assoc.
Qed.

Lemma nodeCoordsOf_length {T} (geometry : CGeometry.t T) g :
  Forall (λ node, (CGeometry.nDim geometry ≤ length (CGeometry.Coord node))%nat)
         (CGeometry.nodes geometry) →
  g ∈ map CGeometry.GlobalIndex (CGeometry.nodes geometry) →
  length (nodeCoordsOf geometry g) = CGeometry.nDim geometry.
Proof.
  intros Hcoor Hg.
  destruct (globalPointIDToLocalInd_known geometry g Hg)
    as (ind & node & Hind & Hnode).
  unfold nodeCoordsOf. rewrite Hind, Hnode, length_take.
  rewrite Forall_forall in Hcoor.
  pose proof (Hcoor node (list_elem_of_lookup_2 _ _ _ Hnode)). lia.
Qed.

(** The nodes of a receive buffer are stored with their coordinates. *)
Lemma storePoints_loop_sent {T} (geometry : CGeometry.t T) (coor0 : list T)
    nodeIDs : ∀ preL restL preD restD pts,
  Forall (λ nd, length (nodeCoordsOf geometry (to_ulong nd))
                = CGeometry.nDim geometry) nodeIDs →
  storePoints_loop (CGeometry.nDim geometry) coor0
    (preL ++ nodeIDs ++ restL) (preD ++ sentCoords geometry nodeIDs ++ restD)
    (length nodeIDs) (length preL) (length preD) pts
  = Ok ((length preL + length nodeIDs)%nat,
        pts ++ map (sentPoint geometry coor0) nodeIDs).
Proof.
  induction nodeIDs as [|nd nodeIDs IH]; intros preL restL preD restD pts Hall.
  { simpl. by rewrite Nat.add_0_r, app_nil_r. }
  apply Forall_cons in Hall as [Hnd Hall].
  cbn [length storePoints_loop]. rewrite readAt_app_0.
  cbn [app readAt lookup list_lookup]. osimpl.
  unfold sentCoords. cbn [flat_map]. fold (sentCoords geometry nodeIDs).
  rewrite <- Hnd at 1. rewrite <- (app_assoc (nodeCoordsOf _ _)).
  rewrite readRange_gen_app. osimpl.
  replace (Datatypes.S (length preL)) with (length (preL ++ [nd]))
    by (rewrite length_app; simpl; lia).
  replace (length preL + 1)%nat with (length (preL ++ [nd]))
    by (rewrite length_app; simpl; lia).
  replace (length preD + CGeometry.nDim geometry)%nat
    with (length (preD ++ nodeCoordsOf geometry (to_ulong nd)))
    by (rewrite length_app; lia).
  replace (preL ++ nd :: nodeIDs ++ restL)
    with ((preL ++ [nd]) ++ nodeIDs ++ restL) by (by rewrite <- app_assoc).
  rewrite (app_assoc preD). rewrite IH by done.
  rewrite length_app. cbn [length map]. rewrite <- app_assoc.
  fold (sentPoint geometry coor0 nd). do 2 f_equal. lia.
Qed.

(** The surface elements of one marker are stored as they were packed. *)
Lemma storeSurfElems_packed bs : ∀ S L preS restS preL restL surf,
  Forall wf_bound bs →
  S = preS ++ flat_map packBoundShort bs ++ restS →
  L = preL ++ flat_map packBoundLong bs ++ restL →
  storeSurfElems S L (length bs) (length preS) (length preL) surf
  = Ok (length (preS ++ flat_map packBoundShort bs),
        length (preL ++ flat_map packBoundLong bs),
        surf ++ map surfElemOf bs).
Proof.
  induction bs as [|b bs IH]; intros S L preS restS preL restL surf Hwf HS HL.
  { simpl. by rewrite !app_nil_r. }
  apply Forall_cons in Hwf as [[Hv Hp Hd Hde Hg Hn] Hwf].
  cbn [flat_map] in HS, HL. cbn [length storeSurfElems].
  assert (readAt S (length preS)
          = Ok (to_short (CPrimalGridBound.VTK_Type b)))
    as -> by (subst S; by rewrite readAt_app_0).
  assert (readAt S (length preS + 1)
          = Ok (to_short (CPrimalGridBound.NPolyGrid b)))
    as -> by (subst S; by rewrite readAt_app_r).
  assert (readAt S (length preS + 2)
          = Ok (to_short (CPrimalGridBound.NDOFsGrid b)))
    as -> by (subst S; by rewrite readAt_app_r).
  assert (readAt L (length preL)
          = Ok (to_long (CPrimalGridBound.DomainElement b)))
    as -> by (subst L; by rewrite readAt_app_0).
  assert (readAt L (length preL + 1)
          = Ok (to_long (CPrimalGridBound.GlobalElemID b)))
    as -> by (subst L; by rewrite readAt_app_r).
  osimpl. rewrite !to_ushort_to_short, !to_ulong_to_long by done.
  assert (Z.to_nat (CPrimalGridBound.NDOFsGrid b)
          = length (CPrimalGridBound.Nodes b)) as ->
    by (unfold CPrimalGridBound.NDOFsGrid; lia).
  assert (L = (preL ++ packBoundLong b) ++ flat_map packBoundLong bs ++ restL)
    as HL' by (rewrite HL; by rewrite <- !app_assoc).
  assert (S = (preS ++ packBoundShort b) ++ flat_map packBoundShort bs ++ restS)
    as HS' by (rewrite HS; by rewrite <- !app_assoc).
  assert (readRange L (length preL + 2) (length (CPrimalGridBound.Nodes b))
          = Ok (map to_long (CPrimalGridBound.Nodes b))) as ->.
  { unfold readRange.
    replace (length preL + 2)%nat
      with (length (preL ++ [to_long (CPrimalGridBound.DomainElement b);
                             to_long (CPrimalGridBound.GlobalElemID b)]))
      by (rewrite length_app; simpl; lia).
    rewrite <- (length_map to_long (CPrimalGridBound.Nodes b)).
    rewrite HL. unfold packBoundLong.
    rewrite <- !app_assoc. rewrite (app_assoc preL).
    apply readRange_gen_app. }
  osimpl. rewrite map_to_ulong_to_long by done.
  fold (surfElemOf b).
  replace (length preS + 3)%nat with (length (preS ++ packBoundShort b))
    by (rewrite length_app; simpl; lia).
  replace (length preL + 2 + length (CPrimalGridBound.Nodes b))%nat
    with (length (preL ++ packBoundLong b))
    by (rewrite length_app; unfold packBoundLong; simpl;
        rewrite length_map; lia).
  rewrite (IH S L _ restS _ restL _ Hwf HS' HL').
  cbn [flat_map map]. by rewrite <- !app_assoc.
Qed.

(** The markers of a receive buffer: every marker gets the surface
    elements that follow its count. *)
Lemma storeMarkers_packed bss : ∀ boundaries S L preS restS preL restL,
  Forall (Forall wf_bound) bss →
  Forall (λ bs : list CPrimalGridBound.t, Z.of_nat (length bs) < 2 ^ 63) bss →
  length boundaries = length bss →
  S = preS ++ flat_map (flat_map packBoundShort) bss ++ restS →
  L = preL ++ flat_map markerLong bss ++ restL →
  storeMarkers S L (length preS) (length preL) boundaries
  = Ok (length (preS ++ flat_map (flat_map packBoundShort) bss),
        length (preL ++ flat_map markerLong bss),
        zip_with withSurfElems boundaries bss).
Proof.
  induction bss as [|bs bss IH];
    intros boundaries S L preS restS preL restL Hwf Hcnt Hlen HS HL.
  { destruct boundaries; [|done]. simpl. by rewrite !app_nil_r. }
  destruct boundaries as [|b boundaries]; [done|].
  apply Forall_cons in Hwf as [Hwfb Hwf].
  apply Forall_cons in Hcnt as [Hc Hcnt].
  cbn [flat_map] in HS, HL. cbn [storeMarkers].
  assert (readAt L (length preL) = Ok (Z.of_nat (length bs)))
    as -> by (subst L; by rewrite readAt_app_0).
  osimpl.
  rewrite to_ulong_small by (unfold is_ulong, ULONG_MOD; lia).
  rewrite Nat2Z.id.
  replace (length preL + 1)%nat
    with (length (preL ++ [Z.of_nat (length bs)]))
    by (rewrite length_app; simpl; lia).
  rewrite (storeSurfElems_packed bs S L preS
             (flat_map (flat_map packBoundShort) bss ++ restS)
             (preL ++ [Z.of_nat (length bs)])
             (flat_map markerLong bss ++ restL) _ Hwfb).
  - osimpl.
    rewrite (IH boundaries S L _ restS _ restL Hwf Hcnt).
    + osimpl. cbn [zip_with flat_map]. unfold markerLong at 3.
      unfold withSurfElems at 2. do 2 f_equal.
      rewrite <- !app_assoc. cbn [app]. done.
    + by injection Hlen.
    + rewrite HS. by rewrite <- !app_assoc.
    + rewrite HL. unfold markerLong at 1. rewrite <- !app_assoc.
      cbn [app]. done.
  - rewrite HS. by rewrite <- !app_assoc.
  - rewrite HL. unfold markerLong at 1. rewrite <- !app_assoc. cbn [app].
    done.
Qed.

Lemma flat_map_fmap {A B C} (f : B → list C) (g : A → B) (l : list A) :
  flat_map f (map g l) = flat_map (λ x, f (g x)) l.
Proof. induction l as [|x l IH]; [done|]. cbn [map flat_map]. by rewrite IH. Qed.

Lemma storePoints_loop_at {T} (geometry : CGeometry.t T) (coor0 : list T)
    nodeIDs L D indL preL restL pts :
  Forall (λ nd, length (nodeCoordsOf geometry (to_ulong nd))
                = CGeometry.nDim geometry) nodeIDs →
  L = preL ++ nodeIDs ++ restL → indL = length preL →
  D = sentCoords geometry nodeIDs →
  storePoints_loop (CGeometry.nDim geometry) coor0 L D (length nodeIDs)
    indL 0 pts
  = Ok ((indL + length nodeIDs)%nat,
        pts ++ map (sentPoint geometry coor0) nodeIDs).
Proof.
  intros Hall -> -> ->.
  pose proof (storePoints_loop_sent geometry coor0 nodeIDs preL restL [] []
                pts Hall) as H.
  by rewrite app_nil_r in H.
Qed.

Lemma storeMarkers_at bss boundaries S L indS indL preS preL :
  Forall (Forall wf_bound) bss →
  Forall (λ bs : list CPrimalGridBound.t, Z.of_nat (length bs) < 2 ^ 63) bss →
  length boundaries = length bss →
  S = preS ++ flat_map (flat_map packBoundShort) bss →
  L = preL ++ flat_map markerLong bss →
  indS = length preS → indL = length preL →
  ∃ indS' indL',
    storeMarkers S L indS indL boundaries
    = Ok (indS', indL', zip_with withSurfElems boundaries bss).
Proof.
  intros Hwf Hcnt Hlen HS HL -> ->. eexists _, _.
  apply (storeMarkers_packed bss boundaries S L preS [] preL []);
    [done..| |]; by rewrite app_nil_r.
Qed.

(** What a rank stores from the buffers sent to it. *)
Lemma storeBuffer_sent {T} (geometry : CGeometry.t T) bound rank r
    recvRank m coor0 volElem meshPoints boundaries :
  Forall CPrimalGrid.wf (elemsOfColor r (CGeometry.elem geometry)) →
  Z.of_nat (length (elemsOfColor r (CGeometry.elem geometry))) < 2 ^ 63 →
  Z.of_nat (length (nodeIDsOf (elemsOfColor r (CGeometry.elem geometry))))
  < 2 ^ 63 →
  Forall (λ node, (CGeometry.nDim geometry ≤ length (CGeometry.Coord node))%nat)
         (CGeometry.nodes geometry) →
  Forall (λ nd, to_ulong nd ∈ map CGeometry.GlobalIndex
                                (CGeometry.nodes geometry))
         (nodeIDsOf (elemsOfColor r (CGeometry.elem geometry))) →
  Forall (Forall wf_bound) bound →
  Forall (λ bs : list CPrimalGridBound.t, Z.of_nat (length bs) < 2 ^ 63)
         bound →
  length boundaries = length bound →
  (∀ e, e ∈ elemsOfColor r (CGeometry.elem geometry) →
        ∃ i, m !! CPrimalGrid.GlobalElemID e = Some i
             ∧ (i < length volElem)%nat) →
  ∃ volElem',
    storeBuffer recvRank m (CGeometry.nDim geometry) coor0
      (volElem, meshPoints, boundaries) (sentBuf geometry bound rank r)
    = Ok (volElem',
          meshPoints
          ++ map (sentPoint geometry coor0)
               (nodeIDsOf (elemsOfColor r (CGeometry.elem geometry))),
          zip_with withSurfElems boundaries
            (map (boundOfColor geometry rank r) bound))
    ∧ stored_from recvRank m (elemsOfColor r (CGeometry.elem geometry))
        volElem volElem'.
Proof.
  intros Hwf Hlen Hnlen Hcoor Hkn Hwfb Hcnt Hbl Hm.
  set (es := elemsOfColor r (CGeometry.elem geometry)) in *.
  set (ids := nodeIDsOf es) in *.
  set (bss := map (boundOfColor geometry rank r) bound).
  set (S := bufShort (sentBuf geometry bound rank r)).
  set (L := bufLong (sentBuf geometry bound rank r)).
  assert (S = [] ++ flat_map packElemShort es
                 ++ flat_map (flat_map packBoundShort) bss) as HS.
  { unfold S, sentBuf, bss. cbn [bufShort app]. by rewrite flat_map_fmap. }
  assert (L = [Z.of_nat (length es)] ++ flat_map packElemLong es
              ++ (to_long (Z.of_nat (length ids)) :: ids)
              ++ flat_map markerLong bss) as HL.
  { unfold L, sentBuf, bss. cbn [bufLong app]. by rewrite flat_map_fmap. }
  unfold storeBuffer. fold S L.
  assert (elemCount L = Ok (length es)) as ->
    by (rewrite HL; by apply elemCount_packed).
  osimpl.
  destruct (storeOwned_loop_packed recvRank m es S L [] [Z.of_nat (length es)]
              _ _ volElem Hwf HS HL Hm)
    as (indS & indL & volElem' & Hrun & Hst).
  destruct (storeOwned_loop_indices recvRank m es S L [] [Z.of_nat (length es)]
              _ _ volElem indS indL volElem' Hwf HS HL Hrun) as [HiS HiL].
  cbn [length] in Hrun. rewrite Hrun. osimpl.
  assert (readAt L indL = Ok (to_long (Z.of_nat (length ids)))) as ->.
  { rewrite HiL, HL, app_assoc. by rewrite readAt_app_0. }
  osimpl. rewrite to_ulong_to_long by (unfold is_ulong, ULONG_MOD; lia).
  rewrite Nat2Z.id.
  assert (Forall (λ nd, length (nodeCoordsOf geometry (to_ulong nd))
                        = CGeometry.nDim geometry) ids) as Hcl.
  { eapply Forall_impl; [exact Hkn|]. intros nd Hnd.
    by apply nodeCoordsOf_length. }
  rewrite (storePoints_loop_at geometry coor0 ids L _ (indL + 1)
             (([Z.of_nat (length es)] ++ flat_map packElemLong es)
              ++ [to_long (Z.of_nat (length ids))])
             (flat_map markerLong bss) meshPoints Hcl);
    [|rewrite HL; by rewrite <- !app_assoc
     |rewrite HiL, !length_app; simpl; lia
     |done].
  osimpl.
  destruct (storeMarkers_at bss boundaries S L indS
              (indL + 1 + length ids)
              ([] ++ flat_map packElemShort es)
              (([Z.of_nat (length es)] ++ flat_map packElemLong es)
               ++ to_long (Z.of_nat (length ids)) :: ids))
    as (indS' & indL' & ->).
  - unfold bss. apply Forall_forall. intros bs Hbs.
    apply list_elem_of_fmap in Hbs as (bs0 & -> & Hbs0).
    apply Forall_filter_list. rewrite Forall_forall in Hwfb. by apply Hwfb.
  - unfold bss. apply Forall_forall. intros bs Hbs.
    apply list_elem_of_fmap in Hbs as (bs0 & -> & Hbs0).
    rewrite Forall_forall in Hcnt. specialize (Hcnt bs0 Hbs0).
    pose proof (filter_length_le (boundHasColor geometry rank r) bs0).
    unfold boundOfColor. lia.
  - unfold bss. by rewrite length_map.
  - rewrite HS. by rewrite <- !app_assoc.
  - rewrite HL. by rewrite <- !app_assoc.
  - done.
  - rewrite HiL, !length_app. simpl. lia.
  - osimpl. by exists volElem'.
Qed.

Lemma length_dedup_le (l : list Z) :
  (length (dedup Z.ltb Z.eqb l) ≤ length l)%nat.
Proof.
  apply submseteq_length, NoDup_submseteq.
  - apply (dedup_NoDup Z.ltb Z.eqb).
  - intros x. apply (dedup_sub Z.ltb Z.eqb).
Qed.

Lemma length_nodeIDsOf_le es :
  (length (nodeIDsOf es) ≤ length (flat_map packElemLong es))%nat.
Proof.
  unfold nodeIDsOf. etrans; [apply length_dedup_le|].
  induction es as [|e es IH]; [done|]. cbn [flat_map].
  rewrite !length_app, length_packElemLong, length_map. lia.
Qed.

Ltac solve_ranges :=
  repeat lazymatch goal with
    | |- Forall _ _ => constructor
    | |- CPrimalGrid.wf _ => split
    | |- wf_bound _ => split
    | |- _ => unfold is_ushort, is_ulong, is_long, is_short, ULONG_MOD,
              CPrimalGrid.NDOFsGrid, CPrimalGrid.nFaces,
              CPrimalGridBound.NDOFsGrid; simpl; lia
    end.

(** X25 -- What is packed for a rank arrives there: the buffers for
    the rank r are read back by the copy loop of the receiver without
    an error. The elements of colour r are stored in the slots of
    their global IDs; one point is appended per different node ID of
    these elements, with that ID, periodic index -1 and the coordinates
    the node has in the source mesh; and every marker gets, in the
    order of the source mesh, the boundary elements of that marker
    whose domain element has colour r, with their kind, degree, number
    of nodes, domain element, global ID and nodes. *)
Theorem first_exchange_round_trip {T} (geometry : CGeometry.t T)
    (bound : list (list CPrimalGridBound.t)) (rank nRank : nat) :
  sendable geometry bound rank nRank → nodesKnown geometry →
  Forall CPrimalGrid.wf (CGeometry.elem geometry) →
  Forall (Forall wf_bound) bound →
  ∃ comm bufs,
    sendBuffers geometry bound rank nRank = Ok (comm, bufs)
    ∧ ∀ r k, comm !! r = Some k →
        ∃ b, bufs !! k = Some b
          ∧ ∀ recvRank m coor0 volElem meshPoints boundaries,
              length boundaries = length bound →
              (∀ e, e ∈ elemsOfColor r (CGeometry.elem geometry) →
                    ∃ i, m !! CPrimalGrid.GlobalElemID e = Some i
                         ∧ (i < length volElem)%nat) →
              ∃ volElem',
                storeBuffer recvRank m (CGeometry.nDim geometry) coor0
                  (volElem, meshPoints, boundaries) b
                = Ok (volElem',
                      meshPoints
                      ++ map (sentPoint geometry coor0)
                           (nodeIDsOf
                              (elemsOfColor r (CGeometry.elem geometry))),
                      zip_with withSurfElems boundaries
                        (map (boundOfColor geometry rank r) bound))
                ∧ stored_from recvRank m
                    (elemsOfColor r (CGeometry.elem geometry))
                    volElem volElem'.
Proof.
  intros Hsend Hkn Hwf Hwfb.
  destruct (sendBuffers_spec geometry bound rank nRank Hsend Hkn)
    as (st & bufs & Hlen & Hmark & Hrun & Hsize & Hbuf).
  destruct Hsend as [Hn Hcol Hcnt HbS HbL Hcoor Hdom Hbc].
  exists (rankToIndCommBuf st), bufs. split; [done|].
  intros r k Hk. rewrite rankToIndCommBuf_lookup in Hk.
  destruct (decide (st !! r = Some true)) as [Hr|]; [|done].
  injection Hk as <-. exists (sentBuf geometry bound rank r).
  split; [by apply Hbuf|].
  intros recvRank m coor0 volElem meshPoints boundaries Hbl Hm.
  pose proof (length_le_packed (CGeometry.elem geometry)).
  pose proof (filter_length_le (hasColor r) (CGeometry.elem geometry)).
  pose proof (length_nodeIDsOf_le (elemsOfColor r (CGeometry.elem geometry))).
  pose proof (length_flat_map_filter packElemLong (hasColor r)
                (CGeometry.elem geometry)).
  apply storeBuffer_sent; try done.
  - by apply Forall_filter_list.
  - unfold elemsOfColor. lia.
  - unfold elemsOfColor in *. lia.
  - apply nodeIDsOf_known. by apply Forall_filter_list.
Qed.

Lemma first_exchange_round_trip_witness :
  ∃ comm bufs,
    sendBuffers two_quads_two_ranks two_quads_bound 0 2 = Ok (comm, bufs)
    ∧ ∀ r k, comm !! r = Some k →
        ∃ b, bufs !! k = Some b
          ∧ ∀ recvRank m coor0 volElem meshPoints boundaries,
              length boundaries = length two_quads_bound →
              (∀ e, e ∈ elemsOfColor r (CGeometry.elem two_quads_two_ranks) →
                    ∃ i, m !! CPrimalGrid.GlobalElemID e = Some i
                         ∧ (i < length volElem)%nat) →
              ∃ volElem',
                storeBuffer recvRank m (CGeometry.nDim two_quads_two_ranks)
                  coor0 (volElem, meshPoints, boundaries) b
                = Ok (volElem',
                      meshPoints
                      ++ map (sentPoint two_quads_two_ranks coor0)
                           (nodeIDsOf
                              (elemsOfColor r
                                 (CGeometry.elem two_quads_two_ranks))),
                      zip_with withSurfElems boundaries
                        (map (boundOfColor two_quads_two_ranks 0 r)
                             two_quads_bound))
                ∧ stored_from recvRank m
                    (elemsOfColor r (CGeometry.elem two_quads_two_ranks))
                    volElem volElem'.
Proof.
  apply (first_exchange_round_trip two_quads_two_ranks two_quads_bound 0 2).
  - split; [by vm_compute|repeat constructor; by vm_compute..
            |by vm_compute|by vm_compute
            |repeat constructor; by vm_compute
            |repeat constructor; by eexists
            |repeat constructor; by vm_compute].
  - unfold nodesKnown. apply (bool_decide_unpack _). by vm_compute.
  - unfold two_quads_two_ranks. cbn [CGeometry.elem]. solve_ranges.
  - unfold two_quads_bound. solve_ranges.
Defined.

(** ** The counts taken before the copy *)

Lemma skipElems_packed es : ∀ S L preS preL restS restL,
  Forall CPrimalGrid.wf es →
  S = preS ++ flat_map packElemShort es ++ restS →
  L = preL ++ flat_map packElemLong es ++ restL →
  skipElems S L (length es) (length preS) (length preL)
  = Ok (length (preS ++ flat_map packElemShort es),
        length (preL ++ flat_map packElemLong es)).
Proof.
  induction es as [|e es IH]; intros S L preS preL restS restL Hwf HS HL.
  { simpl. by rewrite !app_nil_r. }
  apply Forall_cons in Hwf as [Hwf Hwfs].
  destruct (packed_element_reads e es S L preS preL restS restL Hwf HS HL)
    as (Hd & Hf & Hg & Hnd & Hnf & HS' & HL').
  cbn [length skipElems]. rewrite Hg, Hd, Hf. osimpl. rewrite Hnd, Hnf.
  replace (length preS + (2 * length (CPrimalGrid.Faces e) + 7))%nat
    with (length (preS ++ packElemShort e))
    by (rewrite length_app, length_packElemShort; lia).
  replace (length preL + (length (CPrimalGrid.Nodes e)
                          + length (CPrimalGrid.Faces e) + 2))%nat
    with (length (preL ++ packElemLong e))
    by (rewrite length_app, length_packElemLong; lia).
  rewrite (IH S L _ _ restS restL Hwfs HS' HL').
  cbn [flat_map]. by rewrite !app_assoc.
Qed.

Lemma length_packBoundLong b :
  length (packBoundLong b) = (2 + length (CPrimalGridBound.Nodes b))%nat.
Proof. unfold packBoundLong. simpl. by rewrite length_map. Qed.

Lemma skipSurfElems_packed bs : ∀ S preS restS indL,
  Forall (λ b, CPrimalGridBound.NDOFsGrid b < 2 ^ 15) bs →
  S = preS ++ flat_map packBoundShort bs ++ restS →
  Z.of_nat (indL + length (flat_map packBoundLong bs)) < 2 ^ 64 →
  skipSurfElems S (length bs) (length preS) indL
  = Ok (length (preS ++ flat_map packBoundShort bs),
        (indL + length (flat_map packBoundLong bs))%nat).
Proof.
  induction bs as [|b bs IH]; intros S preS restS indL Hcnt HS Hb.
  { simpl. by rewrite app_nil_r, Nat.add_0_r. }
  apply Forall_cons in Hcnt as [Hd Hcnt].
  cbn [flat_map] in HS, Hb. rewrite length_app, length_packBoundLong in Hb.
  cbn [length skipSurfElems].
  assert (readAt S (length preS + 2)
          = Ok (to_short (CPrimalGridBound.NDOFsGrid b)))
    as -> by (subst S; by rewrite readAt_app_r).
  osimpl. unfold CPrimalGridBound.NDOFsGrid in *.
  rewrite to_short_exact by (unfold is_short; lia).
  rewrite (advance_exact _ _ (indL + length (packBoundLong b)))
    by (rewrite length_packBoundLong; lia).
  replace (length preS + 3)%nat with (length (preS ++ packBoundShort b))
    by (rewrite length_app; simpl; lia).
  rewrite (IH S _ restS).
  - cbn [flat_map]. rewrite !length_app. do 2 f_equal; [|lia].
    rewrite <- !length_app. by rewrite <- app_assoc.
  - done.
  - rewrite HS. by rewrite <- !app_assoc.
  - rewrite length_packBoundLong. lia.
Qed.

Lemma countMarkers_packed bss : ∀ nElem_Bound S L preS restS preL restL,
  Forall (Forall (λ b, CPrimalGridBound.NDOFsGrid b < 2 ^ 15)) bss →
  length nElem_Bound = length bss →
  S = preS ++ flat_map (flat_map packBoundShort) bss ++ restS →
  L = preL ++ flat_map markerLong bss ++ restL →
  Z.of_nat (length (preL ++ flat_map markerLong bss)) < 2 ^ 63 →
  countMarkers S L (length preS) (length preL) nElem_Bound
  = Ok (zip_with (λ c (bs : list CPrimalGridBound.t),
                    to_ulong (c + Z.of_nat (length bs)))
          nElem_Bound bss).
Proof.
  induction bss as [|bs bss IH];
    intros nElem_Bound S L preS restS preL restL Hcnt Hlen HS HL Hb.
  { by destruct nElem_Bound. }
  destruct nElem_Bound as [|c nElem_Bound]; [done|].
  apply Forall_cons in Hcnt as [Hc Hcnt].
  cbn [flat_map] in HS, HL, Hb. cbn [countMarkers].
  assert (readAt L (length preL) = Ok (Z.of_nat (length bs)))
    as -> by (subst L; by rewrite readAt_app_0).
  osimpl. unfold signedCount. rewrite Nat2Z.id.
  rewrite !length_app in Hb. unfold markerLong at 1 in Hb.
  cbn [length] in Hb.
  assert (S = preS ++ flat_map packBoundShort bs
                   ++ flat_map (flat_map packBoundShort) bss ++ restS)
    as HS1 by (rewrite HS; by rewrite <- !app_assoc).
  rewrite (skipSurfElems_packed bs S preS
             (flat_map (flat_map packBoundShort) bss ++ restS)
             (length preL + 1) Hc HS1) by lia.
  osimpl.
  replace (length preL + 1 + length (flat_map packBoundLong bs))%nat
    with (length (preL ++ markerLong bs))
    by (rewrite length_app; unfold markerLong; simpl; lia).
  rewrite (IH nElem_Bound S L _ restS _ restL Hcnt).
  - by osimpl.
  - by injection Hlen.
  - rewrite HS. by rewrite <- !app_assoc.
  - rewrite HL. by rewrite <- !app_assoc.
  - rewrite !length_app. unfold markerLong at 1. cbn [length]. lia.
Qed.

(** X26 -- The counts that size the local mesh are the numbers of items
    the copy loop stores: from the buffers for the rank r the counting
    loop adds to [local_node] the number of different node IDs of the
    elements of colour r, one per point that is stored, and to
    [nElem_Bound] of every marker the number of boundary elements of
    the marker whose domain element has colour r, one per surface
    element that is stored. The numbers of nodes of the boundary
    elements are read as [short] here and have to be below 2^15. *)
Theorem counts_of_first_exchange {T} (geometry : CGeometry.t T)
    (bound : list (list CPrimalGridBound.t)) (rank r : nat)
    (local_node : Z) (nElem_Bound : list Z) :
  Forall CPrimalGrid.wf (elemsOfColor r (CGeometry.elem geometry)) →
  Forall (Forall (λ b, CPrimalGridBound.NDOFsGrid b < 2 ^ 15)) bound →
  length nElem_Bound = length bound →
  Z.of_nat (length (bufLong (sentBuf geometry bound rank r))) < 2 ^ 63 →
  countBuffer (local_node, nElem_Bound) (sentBuf geometry bound rank r)
  = Ok (to_ulong
          (local_node
           + Z.of_nat (length (nodeIDsOf
                                 (elemsOfColor r (CGeometry.elem geometry))))),
        zip_with (λ c (bs : list CPrimalGridBound.t),
                    to_ulong (c + Z.of_nat (length
                                              (boundOfColor geometry rank r bs))))
          nElem_Bound bound).
Proof.
  intros Hwf Hcnt Hlen Hb.
  set (es := elemsOfColor r (CGeometry.elem geometry)) in *.
  set (ids := nodeIDsOf es) in *.
  set (bss := map (boundOfColor geometry rank r) bound).
  set (S := bufShort (sentBuf geometry bound rank r)).
  set (L := bufLong (sentBuf geometry bound rank r)) in *.
  assert (S = [] ++ flat_map packElemShort es
                 ++ flat_map (flat_map packBoundShort) bss) as HS.
  { unfold S, sentBuf, bss. cbn [bufShort app]. by rewrite flat_map_fmap. }
  assert (L = [Z.of_nat (length es)] ++ flat_map packElemLong es
              ++ (to_long (Z.of_nat (length ids)) :: ids)
              ++ flat_map markerLong bss) as HL.
  { unfold L, sentBuf, bss. cbn [bufLong app]. by rewrite flat_map_fmap. }
  assert (Z.of_nat (length es) < 2 ^ 63 ∧ Z.of_nat (length ids) < 2 ^ 63)
    as [Hle Hli].
  { pose proof (length_nodeIDsOf_le es) as Hn. fold ids in Hn.
    rewrite HL, !length_app in Hb. cbn [length] in Hb.
    rewrite ?length_app in Hb.
    assert (length es ≤ length (flat_map packElemLong es))%nat; [|lia].
    clear. induction es as [|e es IH]; [done|]. cbn [flat_map length].
    rewrite length_app, length_packElemLong. lia. }
  unfold countBuffer. fold S L.
  assert (elemCount L = Ok (length es)) as ->
    by (rewrite HL; by apply elemCount_packed).
  osimpl.
  pose proof (skipElems_packed es S L [] [Z.of_nat (length es)] _ _ Hwf HS HL)
    as Hskip.
  cbn [length] in Hskip. rewrite Hskip. osimpl.
  assert (readAt L (length ([Z.of_nat (length es)] ++ flat_map packElemLong es))
          = Ok (to_long (Z.of_nat (length ids)))) as ->.
  { rewrite HL, app_assoc. by rewrite readAt_app_0. }
  osimpl. rewrite to_long_exact by (unfold is_long; lia).
  assert (L = (([Z.of_nat (length es)] ++ flat_map packElemLong es)
               ++ Z.of_nat (length ids) :: ids)
              ++ flat_map markerLong bss ++ []) as HL'.
  { rewrite HL, to_long_exact by (unfold is_long; lia).
    by rewrite app_nil_r, <- !app_assoc. }
  rewrite (advance_exact _ _
             (length (([Z.of_nat (length es)] ++ flat_map packElemLong es)
                      ++ Z.of_nat (length ids) :: ids))).
  - rewrite (countMarkers_packed bss nElem_Bound S L
               ([] ++ flat_map packElemShort es) []
               _ [] ).
    + osimpl. do 2 f_equal. unfold bss. clear.
      revert nElem_Bound. induction bound as [|bs bound IH];
        intros [|c nEB]; cbn [map zip_with]; [done..|].
      by rewrite IH.
    + unfold bss. apply Forall_forall. intros bs Hbs.
      apply list_elem_of_fmap in Hbs as (bs0 & -> & Hbs0).
      apply Forall_filter_list. rewrite Forall_forall in Hcnt. by apply Hcnt.
    + unfold bss. by rewrite length_map.
    + rewrite HS. by rewrite app_nil_r, <- !app_assoc.
    + done.
    + rewrite HL' in Hb. by rewrite app_nil_r in Hb.
  - rewrite !length_app. cbn [length]. lia.
  - rewrite HL', app_nil_r, length_app in Hb. lia.
Qed.

Lemma counts_of_first_exchange_witness :
  countBuffer (0, [0; 0]) (sentBuf two_quads_two_ranks two_quads_bound 0 1)
  = Ok (to_ulong
          (0 + Z.of_nat
                 (length (nodeIDsOf
                            (elemsOfColor 1
                               (CGeometry.elem two_quads_two_ranks))))),
        zip_with (λ c (bs : list CPrimalGridBound.t),
                    to_ulong (c + Z.of_nat
                                    (length (boundOfColor two_quads_two_ranks
                                               0 1 bs))))
          [0; 0] two_quads_bound).
Proof.
  apply (counts_of_first_exchange two_quads_two_ranks two_quads_bound 0 1).
  - unfold two_quads_two_ranks, elemsOfColor. simpl. solve_ranges.
  - repeat constructor; by vm_compute.
  - done.
  - by vm_compute.
Defined.

(** ** The sequential build *)

(** X27 -- The sequential build copies the buffers of index 0: for a
    source mesh with at least one element the single receive buffer
    holds the whole mesh, every element having colour 0; for a source
    mesh without elements there are no send buffers and the copy reads
    behind the end of an empty vector, which is undefined behaviour. *)
Theorem sequential_first_exchange {T} (geometry : CGeometry.t T)
    (bound : list (list CPrimalGridBound.t)) :
  sendable geometry bound 0 1 → nodesKnown geometry →
  (CGeometry.elem geometry = [] →
   firstExchange_sequential geometry bound = Undefined)
  ∧ (CGeometry.elem geometry ≠ [] →
     firstExchange_sequential geometry bound
     = Ok [sentBuf geometry bound 0 0]
     ∧ elemsOfColor 0 (CGeometry.elem geometry) = CGeometry.elem geometry).
Proof.
  intros Hsend Hkn.
  destruct (sendBuffers_spec geometry bound 0 1 Hsend Hkn)
    as (st & bufs & Hlen & Hmark & Hrun & Hsize & Hbuf).
  destruct Hsend as [Hn Hcol Hcnt HbS HbL Hcoor Hdom Hbc].
  unfold firstExchange_sequential. rewrite Hrun. osimpl.
  destruct st as [|b [|? ?]]; try done. split.
  - intros Hnil. destruct b.
    + destruct (proj1 (Hmark 0%nat) eq_refl) as (e & He & _).
      rewrite Hnil in He. by apply elem_of_nil in He.
    + rewrite rankToIndCommBuf_size in Hsize. destruct bufs; done.
  - intros Hne. destruct (CGeometry.elem geometry) as [|e es] eqn:He; [done|].
    assert ([b] !! 0%nat = Some true) as Hb.
    { apply Hmark. exists e. split; [left|].
      apply Forall_cons in Hcol as [Hc _]. lia. }
    specialize (Hbuf 0%nat Hb). unfold bufIndex in Hbuf. cbn in Hbuf.
    unfold readAt. rewrite Hbuf. osimpl. split; [done|].
    unfold elemsOfColor. rewrite <- He in *. clear -Hcol.
    induction Hcol as [|x l Hx _ IH]; [done|]. cbn [List.filter].
    unfold hasColor at 1. destruct (Z.eqb_spec (CPrimalGrid.Color x)
                                      (Z.of_nat 0)); [|lia].
    by rewrite IH.
Qed.

Lemma sequential_first_exchange_witness :
  (CGeometry.elem two_quads = [] →
   firstExchange_sequential two_quads two_quads_bound = Undefined)
  ∧ (CGeometry.elem two_quads ≠ [] →
     firstExchange_sequential two_quads two_quads_bound
     = Ok [sentBuf two_quads two_quads_bound 0 0]
     ∧ elemsOfColor 0 (CGeometry.elem two_quads) = CGeometry.elem two_quads).
Proof.
  apply (sequential_first_exchange two_quads two_quads_bound).
  - split; [by vm_compute|repeat constructor; by vm_compute..
            |by vm_compute|by vm_compute
            |repeat constructor; by vm_compute
            |repeat constructor; by eexists
            |repeat constructor; by vm_compute].
  - unfold nodesKnown. apply (bool_decide_unpack _). by vm_compute.
Defined.

(** ** The order in which the buffers arrive *)

Lemma elemBufOf_bufferFor {T} r (p : meshPart T) :
  elemBufOf (bufferFor r p) = recvBufOf (senderOf r p).
Proof. done. Qed.

Lemma length_le_packedLong es :
  (length es ≤ length (flat_map packElemLong es))%nat.
Proof.
  induction es as [|e es IH]; [done|]. cbn [flat_map length].
  rewrite length_app, length_packElemLong. lia.
Qed.

Lemma receivable_sender {T} r nDim nMarker (p : meshPart T) :
  receivable r nDim nMarker p → wf_sender (senderOf r p).
Proof.
  intros [Hwf Hsize _ _ _ _ _ _]. split; [done|].
  pose proof (length_le_packedLong (elemsFor r p)). simpl. lia.
Qed.

Lemma flat_map_sentElems {T} r (parts : list (meshPart T)) :
  flat_map sentElems (map (senderOf r) parts) = flat_map (elemsFor r) parts.
Proof. by rewrite flat_map_fmap. Qed.

(** The sorted global IDs of the owned elements. *)
Lemma ownedIDs_of_parts {T} r nDim nMarker (parts : list (meshPart T)) :
  Forall (receivable r nDim nMarker) parts →
  ownedGlobalElemID (map elemBufOf (map (bufferFor r) parts))
  = Ok (sort Z.ltb (map CPrimalGrid.GlobalElemID
                      (flat_map (elemsFor r) parts))).
Proof.
  intros Hrecv. rewrite <- flat_map_sentElems.
  rewrite <- (ownedGlobalElemID_packed (map (senderOf r) parts)).
  - f_equal. rewrite !map_map. apply map_ext. intros p.
    apply elemBufOf_bufferFor.
  - apply Forall_forall. intros s Hs.
    apply list_elem_of_fmap in Hs as (p & -> & Hp).
    rewrite Forall_forall in Hrecv.
    by eapply receivable_sender, Hrecv.
Qed.

Lemma sort_strict (l : list Z) :
  NoDup l → StronglySorted (lt_true Z.ltb) (sort Z.ltb l).
Proof.
  intros Hnd. rewrite <- (sort_Permutation Z.ltb l) in Hnd.
  pose proof (sort_StronglySorted Z.ltb l) as Hs.
  induction Hs as [|x s Hs IH Hx]; constructor.
  - apply IH. by apply NoDup_cons in Hnd as [_ ?].
  - apply NoDup_cons in Hnd as [Hx' _]. apply Forall_forall. intros y Hy.
    rewrite Forall_forall in Hx. specialize (Hx y Hy).
    unfold not_gt in Hx. unfold lt_true.
    assert (x ≠ y) by (by intros ->). lia.
Qed.

(** The sorted IDs do not depend on the order of the buffers. *)
Lemma sort_perm (l l' : list Z) :
  NoDup l → l' ≡ₚ l → sort Z.ltb l' = sort Z.ltb l.
Proof.
  intros Hnd Hp. apply (strict_sorted_perm_eq Z.ltb).
  - by apply sort_strict.
  - by rewrite !(sort_Permutation Z.ltb).
  - apply (sort_StronglySorted Z.ltb).
Qed.

(** The copy of the owned elements keeps the local offsets, which the
    constructor does not set. *)
Lemma storeOwned_loop_offsets rank m S L c :
  ∀ n indS indL v indS' indL' v',
  storeOwned_loop rank m S L n indS indL v = Ok (indS', indL', v') →
  Forall (λ x, CVolumeElementFEM.offsetDOFsSolLocal x = c) v →
  Forall (λ x, CVolumeElementFEM.offsetDOFsSolLocal x = c) v'.
Proof.
  induction n as [|n IH]; intros indS indL v indS' indL' v' Hrun Hv.
  { simpl in Hrun. by injection Hrun as _ _ <-. }
  cbn [storeOwned_loop] in Hrun. peel Hrun.
  eapply IH; [exact Hrun|].
  match goal with
  | Hw : writeAt v ?i ?new = Ok ?v1, Hr : readAt v ?i = Ok ?old |- _ =>
      unfold writeAt in Hw; destruct (decide (i < length v)%nat); [|done];
      injection Hw as <-; unfold readAt in Hr;
      destruct (v !! i) as [old'|] eqn:Hold; [|done]; injection Hr as ->
  end.
  apply Forall_insert; [done|]. simpl.
  rewrite Forall_forall in Hv. apply Hv. by eapply list_elem_of_lookup_2.
Qed.

Lemma storeBuffer_offsets {T} rank m nDim (coor0 : list T) c v pts bnd b
    v' pts' bnd' :
  storeBuffer rank m nDim coor0 (v, pts, bnd) b = Ok (v', pts', bnd') →
  Forall (λ x, CVolumeElementFEM.offsetDOFsSolLocal x = c) v →
  Forall (λ x, CVolumeElementFEM.offsetDOFsSolLocal x = c) v'.
Proof.
  unfold storeBuffer. intros Hrun Hv.
  destruct (elemCount (bufLong b)) as [n| |]; [|done..]. cbn [obind] in Hrun.
  destruct (storeOwned_loop rank m (bufShort b) (bufLong b) n 0 1 v)
    as [[[indS indL] v1]| |] eqn:Hloop; [|done..].
  cbn [obind] in Hrun.
  destruct (readAt (bufLong b) indL) as [nn| |]; [|done..].
  cbn [obind] in Hrun.
  destruct (storePoints_loop _ _ _ _ _ _ _ _) as [[indL' pts1]| |];
    [|done..].
  cbn [obind] in Hrun.
  destruct (storeMarkers _ _ _ _ _) as [[[? ?] bnd1]| |]; [|done..].
  cbn [obind] in Hrun. injection Hrun as <- _ _.
  by eapply storeOwned_loop_offsets.
Qed.

Lemma length_addPart {T} r bnd (p : meshPart T) :
  length (boundFor r p) = length bnd → length (addPart r bnd p) = length bnd.
Proof. intros H. unfold addPart. rewrite length_zip_with. lia. Qed.

(** The copy of the buffers of all parts, in the order of the list. *)
Lemma copy_all {T} r nDim rank m (coor0 : list T) c parts :
  ∀ v0 pts0 bnd0,
  Forall (receivable r nDim (length bnd0)) parts →
  (∀ e, e ∈ flat_map (elemsFor r) parts →
        ∃ i, m !! CPrimalGrid.GlobalElemID e = Some i
             ∧ (i < length v0)%nat) →
  Forall (λ x, CVolumeElementFEM.offsetDOFsSolLocal x = c) v0 →
  ∃ v1,
    forEachBuf (storeBuffer rank m nDim coor0) (map (bufferFor r) parts)
      (v0, pts0, bnd0)
    = Ok (v1, pts0 ++ flat_map (pointsFor r coor0) parts,
          foldl (addPart r) bnd0 parts)
    ∧ stored_from rank m (flat_map (elemsFor r) parts) v0 v1
    ∧ Forall (λ x, CVolumeElementFEM.offsetDOFsSolLocal x = c) v1.
Proof.
  induction parts as [|p parts IH]; intros v0 pts0 bnd0 Hrecv Hm Hoff.
  { exists v0. simpl. rewrite app_nil_r.
    split_and!; [done|apply stored_from_nil|done]. }
  apply Forall_cons in Hrecv as [Hp Hrecv].
  pose proof Hp as [Hwf Hsize HnDim Hcoor Hnodes Hbwf Hbcnt Hmark].
  pose proof (length_le_packedLong (elemsFor r p)) as Hle.
  pose proof (length_nodeIDsOf_le (elemsFor r p)) as Hln.
  cbn [map forEachBuf flat_map foldl].
  destruct (storeBuffer_sent (partGeometry p) (partBound p) (partRank p) r
              rank m coor0 v0 pts0 bnd0) as (v1 & Hrun & Hst1);
    [done|unfold elemsFor in *; lia|unfold elemsFor in *; lia
    |by rewrite HnDim|by apply nodeIDsOf_known|done|done|done| |].
  { intros e He. apply Hm. cbn [flat_map]. apply elem_of_app. by left. }
  rewrite HnDim in Hrun. unfold bufferFor at 1. rewrite Hrun. osimpl.
  pose proof (storeBuffer_offsets _ _ _ _ c _ _ _ _ _ _ _ Hrun Hoff) as Hoff1.
  destruct (IH v1 (pts0 ++ map (sentPoint (partGeometry p) coor0)
                          (nodeIDsOf (elemsOfColor r
                                        (CGeometry.elem (partGeometry p)))))
              (zip_with withSurfElems bnd0
                 (map (boundOfColor (partGeometry p) (partRank p) r)
                      (partBound p))))
    as (v2 & Hrun2 & Hst2 & Hoff2).
  - rewrite length_zip_with, length_map, Hmark, Nat.min_id. done.
  - intros e He. destruct (Hm e) as (i & Hi & Hlt).
    + cbn [flat_map]. apply elem_of_app. by right.
    + exists i. split; [done|]. destruct Hst1 as [-> _]. done.
  - done.
  - exists v2. split_and!; [|by eapply stored_from_app|done].
    rewrite Hrun2. unfold pointsFor at 2, elemsFor, addPart, boundFor.
    by rewrite <- app_assoc.
Qed.

(** With pairwise different global IDs, the array that the copy fills
    is fixed by the set of elements. *)
Lemma stored_unique rank ids es es' v0 v1 v1' c :
  NoDup (map CPrimalGrid.GlobalElemID es) → es' ≡ₚ es →
  stored_from rank (mapGlobalElemIDToInd ids) es v0 v1 →
  stored_from rank (mapGlobalElemIDToInd ids) es' v0 v1' →
  Forall (λ x, CVolumeElementFEM.offsetDOFsSolLocal x = c) v1 →
  Forall (λ x, CVolumeElementFEM.offsetDOFsSolLocal x = c) v1' →
  v1 = v1'.
Proof.
  intros Hnd Hp [Hl1 Hs1] [Hl2 Hs2] Ho1 Ho2.
  assert (∀ g i, mapGlobalElemIDToInd ids !! g = Some i → ids !! i = Some g)
    as Hback.
  { intros g i Hi. apply fillIndexMap_inv in Hi as [(j & Hj & ->)|Hi]; done. }
  assert (∀ e e' i, e ∈ es → e' ∈ es →
            mapGlobalElemIDToInd ids !! CPrimalGrid.GlobalElemID e = Some i →
            mapGlobalElemIDToInd ids !! CPrimalGrid.GlobalElemID e' = Some i →
            e = e') as Hsame.
  { intros e e' i He He' Hi Hi'.
    apply Hback in Hi, Hi'. rewrite Hi in Hi'. injection Hi' as Hid.
    apply list_elem_of_lookup in He as [a Ha].
    apply list_elem_of_lookup in He' as [b Hb].
    assert (a = b) as ->; [|congruence].
    apply (NoDup_lookup _ a b (CPrimalGrid.GlobalElemID e) Hnd).
    - by rewrite list_lookup_fmap, Ha.
    - rewrite list_lookup_fmap, Hb. simpl. congruence. }
  rewrite Forall_forall in Ho1. rewrite Forall_forall in Ho2.
  apply list_eq. intros i.
  destruct (v1 !! i) as [v|] eqn:Hv.
  - destruct (lookup_lt_is_Some_2 v1' i) as [v' Hv'].
    { rewrite Hl2, <- Hl1. by eapply lookup_lt_Some. }
    rewrite Hv'. f_equal.
    pose proof (Ho1 v (list_elem_of_lookup_2 _ _ _ Hv)) as Hov.
    pose proof (Ho2 v' (list_elem_of_lookup_2 _ _ _ Hv')) as Hov'.
    destruct (Hs1 i v Hv) as [(e & old & He & Hi & ->)|[Hno Hv0]];
      destruct (Hs2 i v' Hv') as [(e' & old' & He' & Hi' & ->)|[Hno' Hv0']].
    + rewrite Hp in He'. rewrite (Hsame e e' i He He' Hi Hi').
      unfold ownedElem in *. simpl in Hov, Hov'. by rewrite Hov, Hov'.
    + exfalso. apply (Hno' e); [by rewrite Hp|done].
    + exfalso. rewrite Hp in He'. by apply (Hno e').
    + congruence.
  - symmetry. apply lookup_ge_None. rewrite Hl2, <- Hl1.
    by apply lookup_ge_None.
Qed.

Lemma elem_of_dedup_points {T} (l : list (CPointFEM.t T)) x :
  (∀ p q, p ∈ l → q ∈ l → pointFEM_eqb p q = true → p = q) →
  x ∈ dedup pointFEM_lt pointFEM_eqb l ↔ x ∈ l.
Proof.
  intros Hc. split; [apply (dedup_sub pointFEM_lt pointFEM_eqb)|].
  intros Hx. destruct (dedup_cover pointFEM_lt pointFEM_eqb l x Hx)
    as (z & Hz & E).
  pose proof (dedup_sub pointFEM_lt pointFEM_eqb l z Hz) as Hzl.
  by rewrite <- (Hc z x Hzl Hx E).
Qed.

(** Sort and unique give the same points for every order of arrival
    when equal points are the same point. *)
Lemma dedup_points_perm {T} (l l' : list (CPointFEM.t T)) :
  (∀ p q, p ∈ l → q ∈ l → pointFEM_eqb p q = true → p = q) → l' ≡ₚ l →
  dedup pointFEM_lt pointFEM_eqb l' = dedup pointFEM_lt pointFEM_eqb l.
Proof.
  intros Hc Hp. apply (strict_sorted_perm_eq pointFEM_lt).
  - apply (dedup_StronglySorted pointFEM_lt pointFEM_eqb).
  - apply NoDup_Permutation.
    + apply (dedup_NoDup pointFEM_lt pointFEM_eqb).
    + apply (dedup_NoDup pointFEM_lt pointFEM_eqb).
    + intros x. rewrite !elem_of_dedup_points; [by rewrite Hp|done|].
      intros p q Hp' Hq'. rewrite Hp in Hp', Hq'. by apply Hc.
  - apply (lt_true_not_gt_sorted pointFEM_lt),
      (dedup_StronglySorted pointFEM_lt pointFEM_eqb).
Qed.

Lemma to_ulong_inj_long a b :
  is_long a → is_long b → to_ulong a = to_ulong b → a = b.
Proof.
  unfold is_long. intros Ha Hb E.
  rewrite !to_ulong_near_zero in E by lia. unfold ULONG_MOD in E.
  destruct (a <? 0) eqn:E1, (b <? 0) eqn:E2; lia.
Qed.

Lemma nodeIDsOf_long es nd : nd ∈ nodeIDsOf es → is_long nd.
Proof.
  unfold nodeIDsOf. rewrite elem_of_dedup_Z. intros Hnd.
  apply elem_of_flat_map in Hnd as (e & _ & Hnd).
  apply list_elem_of_fmap in Hnd as (x & -> & _). apply to_long_range.
Qed.

(** Parts that agree on their nodes send equal points for equal IDs. *)
Lemma points_consistent {T} r nDim nMarker (coor0 : list T) parts :
  Forall (receivable r nDim nMarker) parts → nodesAgree r parts →
  ∀ p q, p ∈ flat_map (pointsFor r coor0) parts →
         q ∈ flat_map (pointsFor r coor0) parts →
         pointFEM_eqb p q = true → p = q.
Proof.
  intros Hrecv Hagree p q Hp Hq E. rewrite Forall_forall in Hrecv.
  apply elem_of_flat_map in Hp as (a & Ha & Hp).
  apply elem_of_flat_map in Hq as (b & Hb & Hq).
  unfold pointsFor in Hp, Hq.
  apply list_elem_of_fmap in Hp as (nd & -> & Hnd).
  apply list_elem_of_fmap in Hq as (nd' & -> & Hnd').
  unfold pointFEM_eqb, sentPoint in E. simpl in E.
  apply andb_true_iff in E as [E _]. apply Z.eqb_eq in E.
  apply to_ulong_inj_long in E; [|by eapply nodeIDsOf_long..]. subst nd'.
  unfold sentPoint. rewrite (Hagree a b nd Ha Hb Hnd Hnd').
  by rewrite (recv_nDim _ _ _ _ (Hrecv a Ha)), (recv_nDim _ _ _ _ (Hrecv b Hb)).
Qed.

Lemma sameBoundaries_refl b : sameBoundaries b b.
Proof. unfold sameBoundaries. induction b; constructor; done. Qed.

Lemma sameBoundaries_trans b1 b2 b3 :
  sameBoundaries b1 b2 → sameBoundaries b2 b3 → sameBoundaries b1 b3.
Proof.
  unfold sameBoundaries. intros H12. revert b3.
  induction H12 as [|x y l1 l2 [Ht Hs] _ IH]; intros b3 H23.
  { by inversion H23. }
  inversion H23 as [|y' z l2' l3 [Ht' Hs'] H23']; subst.
  constructor; [|by apply IH]. split; [congruence|by etrans].
Qed.

Lemma addPart_proper {T} r (p : meshPart T) b1 b2 :
  sameBoundaries b1 b2 → sameBoundaries (addPart r b1 p) (addPart r b2 p).
Proof.
  unfold addPart. generalize (boundFor r p). intros X H. revert X.
  induction H as [|x y l1 l2 [Ht Hs] _ IH]; intros [|bs X]; cbn [zip_with];
    try constructor.
  - unfold withSurfElems. simpl. split; [done|by rewrite Hs].
  - apply IH.
Qed.

Lemma addPart_swap {T} r (p q : meshPart T) b :
  sameBoundaries (addPart r (addPart r b p) q) (addPart r (addPart r b q) p).
Proof.
  unfold addPart. generalize (boundFor r p) (boundFor r q). intros X Y.
  revert X Y. induction b as [|x b IH]; intros [|xs X] [|ys Y];
    cbn [zip_with]; try constructor.
  - unfold withSurfElems. simpl. split; [done|].
    rewrite <- !app_assoc. apply Permutation_app_head, Permutation_app_comm.
  - apply IH.
Qed.

(** The boundaries get the same surface elements for every order of
    arrival, in an order that follows the arrival. *)
Lemma addParts_perm {T} r (parts parts' : list (meshPart T)) :
  parts' ≡ₚ parts →
  ∀ b b', sameBoundaries b b' →
  sameBoundaries (foldl (addPart r) b parts') (foldl (addPart r) b' parts).
Proof.
  induction 1 as [|p l l' _ IH|p q l|l1 l2 l3 _ IH1 _ IH2]; intros b b' Hb.
  - done.
  - cbn [foldl]. by apply IH, addPart_proper.
  - cbn [foldl].
    assert (∀ (l0 : list (meshPart T)) c c', sameBoundaries c c' →
              sameBoundaries (foldl (addPart r) c l0)
                             (foldl (addPart r) c' l0)) as Hsame.
    { induction l0 as [|x l0 IHl]; intros c c' Hc; [done|].
      cbn [foldl]. by apply IHl, addPart_proper. }
    apply Hsame. eapply sameBoundaries_trans; [apply addPart_swap|].
    by do 2 apply addPart_proper.
  - eapply sameBoundaries_trans; [by apply IH1, sameBoundaries_refl|].
    by apply IH2.
Qed.

(** The local mesh from the buffers of the parts, in the order of the
    list. *)
Lemma receiveMesh_parts {T} r nDim rank fresh nHalo (coor0 : list T)
    boundaries parts :
  Forall (receivable r nDim (length boundaries)) parts →
  NoDup (map CPrimalGrid.GlobalElemID (flat_map (elemsFor r) parts)) →
  ∃ v,
    receiveMesh rank fresh nHalo nDim coor0 boundaries
      (map (bufferFor r) parts)
    = Ok (v,
          dedup pointFEM_lt pointFEM_eqb (flat_map (pointsFor r coor0) parts),
          foldl (addPart r) boundaries parts)
    ∧ stored_from rank
        (mapGlobalElemIDToInd
           (sort Z.ltb (map CPrimalGrid.GlobalElemID
                          (flat_map (elemsFor r) parts))))
        (flat_map (elemsFor r) parts)
        (allocVolElem fresh
           (length (sort Z.ltb (map CPrimalGrid.GlobalElemID
                                  (flat_map (elemsFor r) parts))))
           nHalo) v
    ∧ Forall (λ x, CVolumeElementFEM.offsetDOFsSolLocal x
                   = CVolumeElementFEM.offsetDOFsSolLocal fresh) v.
Proof.
  intros Hrecv Hnd. unfold receiveMesh.
  rewrite (ownedIDs_of_parts r nDim (length boundaries)) by done. osimpl.
  set (ids := sort Z.ltb (map CPrimalGrid.GlobalElemID
                            (flat_map (elemsFor r) parts))).
  assert (ids ≡ₚ map CPrimalGrid.GlobalElemID (flat_map (elemsFor r) parts))
    as Hperm by apply (sort_Permutation Z.ltb).
  assert (NoDup ids) as Hndi by (by rewrite Hperm).
  destruct (copy_all r nDim rank (mapGlobalElemIDToInd ids) coor0
              (CVolumeElementFEM.offsetDOFsSolLocal fresh) parts
              (allocVolElem fresh (length ids) nHalo) [] boundaries Hrecv)
    as (v & Hrun & Hst & Hoff).
  - intros e He.
    assert (CPrimalGrid.GlobalElemID e ∈ ids) as Hin.
    { rewrite Hperm. apply list_elem_of_fmap. by exists e. }
    apply list_elem_of_lookup in Hin as [j Hj]. exists j. split.
    + unfold mapGlobalElemIDToInd.
      by rewrite (fillIndexMap_lookup _ _ _ _ j _ Hndi Hj).
    + apply lookup_lt_Some in Hj. unfold allocVolElem.
      rewrite length_replicate. lia.
  - unfold allocVolElem. by apply Forall_replicate.
  - rewrite Hrun. osimpl. by exists v.
Qed.

(** X28 -- The local mesh does not depend on the order in which the
    messages of the first exchange arrive: the receive buffers are
    filled in the order of arrival from any source, and for every
    order the copy yields the same array of owned elements and, after
    the sort and unique, the same vector of points, while every marker
    gets the same surface elements in a possibly different order. The
    parts must have pairwise different global element IDs and agree on
    the coordinates of shared nodes. *)
Theorem arrival_order_irrelevant {T} (r nDim : nat) (coor0 : list T)
    (rank : Z) (fresh : CVolumeElementFEM.t) (nHalo : nat)
    (boundaries : list CBoundaryFEM.t) (parts parts' : list (meshPart T)) :
  Forall (receivable r nDim (length boundaries)) parts →
  NoDup (map CPrimalGrid.GlobalElemID (flat_map (elemsFor r) parts)) →
  nodesAgree r parts →
  parts' ≡ₚ parts →
  ∃ volElem meshPoints bnd bnd',
    receiveMesh rank fresh nHalo nDim coor0 boundaries
      (map (bufferFor r) parts) = Ok (volElem, meshPoints, bnd)
    ∧ receiveMesh rank fresh nHalo nDim coor0 boundaries
        (map (bufferFor r) parts') = Ok (volElem, meshPoints, bnd')
    ∧ sameBoundaries bnd' bnd.
Proof.
  intros Hrecv Hnd Hagree Hp.
  assert (flat_map (elemsFor r) parts' ≡ₚ flat_map (elemsFor r) parts)
    as Hpe by (by apply Permutation_flat_map).
  assert (Forall (receivable r nDim (length boundaries)) parts') as Hrecv'
    by (by rewrite Hp).
  assert (NoDup (map CPrimalGrid.GlobalElemID (flat_map (elemsFor r) parts')))
    as Hnd' by (by rewrite Hpe).
  destruct (receiveMesh_parts r nDim rank fresh nHalo coor0 boundaries parts
              Hrecv Hnd) as (v & Hrun & Hst & Hoff).
  destruct (receiveMesh_parts r nDim rank fresh nHalo coor0 boundaries parts'
              Hrecv' Hnd') as (v' & Hrun' & Hst' & Hoff').
  rewrite (sort_perm (map CPrimalGrid.GlobalElemID
                        (flat_map (elemsFor r) parts))) in Hst'
    by (done || by rewrite Hpe).
  exists v, (dedup pointFEM_lt pointFEM_eqb
               (flat_map (pointsFor r coor0) parts)),
    (foldl (addPart r) boundaries parts),
    (foldl (addPart r) boundaries parts').
  split_and!; [done| |].
  - rewrite Hrun'. do 3 f_equal.
    + symmetry. eapply stored_unique; [exact Hnd|exact Hpe|eassumption..].
    + apply dedup_points_perm.
      * by eapply points_consistent.
      * by apply Permutation_flat_map.
  - apply addParts_perm; [done|apply sameBoundaries_refl].
Qed.

Lemma arrival_order_irrelevant_witness :
  ∃ volElem meshPoints bnd bnd',
    receiveMesh 0 unset_elem 2 2 [0; 0; 0]%float two_markers
      (map (bufferFor 0) [left_part; right_part])
    = Ok (volElem, meshPoints, bnd)
    ∧ receiveMesh 0 unset_elem 2 2 [0; 0; 0]%float two_markers
        (map (bufferFor 0) [right_part; left_part])
      = Ok (volElem, meshPoints, bnd')
    ∧ sameBoundaries bnd' bnd.
Proof.
  apply (arrival_order_irrelevant 0 2 [0; 0; 0]%float 0 unset_elem 2
           two_markers [left_part; right_part] [right_part; left_part]).
  - constructor; [|constructor; [|constructor]];
      (split;
       [unfold elemsFor, elemsOfColor; simpl; solve_ranges
       |by vm_compute
       |done
       |repeat constructor; by vm_compute
       |apply (bool_decide_unpack _); by vm_compute
       |simpl; solve_ranges
       |repeat constructor; by vm_compute
       |done]).
  - apply (bool_decide_unpack _). by vm_compute.
  - intros p q nd Hp Hq Hnd Hnd'.
    apply list_elem_of_In in Hp, Hq. simpl in Hp, Hq.
    destruct Hp as [<-|[<-|[]]], Hq as [<-|[<-|[]]]; try done;
      vm_compute in Hnd;
      repeat (apply elem_of_cons in Hnd as [->|Hnd]);
      try (by apply elem_of_nil in Hnd);
      first [by vm_compute
            |exfalso; revert Hnd'; apply (bool_decide_unpack _);
             by vm_compute].
  - apply perm_swap.
Defined.

(** ** The halo exchange in the sequential build *)

Lemma haloRequests_length {T} (geometry : CGeometry.t T) nRank haloMap hs
    reqs :
  haloRequests geometry nRank haloMap hs = Ok reqs →
  (length reqs ≤ nRank)%nat ∧ (hs = [] → reqs = []).
Proof.
  unfold haloRequests.
  destruct (nElemPerRankOr geometry nRank) as [table| |]; osimpl; try done.
  destruct (markRanks table hs (replicate nRank false)) as [st| |] eqn:Hst;
    osimpl; try done.
  intros Hfill.
  destruct (markRanks_spec _ _ _ _ Hst) as [Hlen Hmark].
  rewrite length_replicate in Hlen.
  destruct (fillRequests_routing table (rankToIndCommBuf st) haloMap hs
              (rankToIndCommBuf_inj st) _ _ Hfill) as [Hl _].
  rewrite length_replicate, rankToIndCommBuf_size in Hl.
  pose proof (length_filter Is_true st) as Hf. split; [lia|].
  intros ->. cbn [markRanks] in Hst. injection Hst as <-.
  apply nil_length_inv. rewrite Hl. clear.
  induction nRank as [|n IH]; [done|]. cbn [replicate].
  rewrite filter_cons_False by (by intros []). exact IH.
Qed.

(** X29 -- The halo exchange of the sequential build copies the buffers
    of index 0. Without halo elements, as for a mesh without periodic
    faces, there is no rank to send to, the buffers are resized to
    length 0 and the copy indexes empty vectors, which is undefined
    behaviour. When the exchange runs through there is exactly one
    request buffer, and what is received is the answer of rank 0 to
    it. *)
Theorem sequential_halo_exchange {T} (geometry : CGeometry.t T)
    (haloMap : gmap unsignedLong2T nat) (haloElements : list unsignedLong2T) :
  haloExchange_sequential geometry haloMap [] = Undefined
  ∧ ∀ received,
      haloExchange_sequential geometry haloMap haloElements = Ok received →
      haloElements ≠ []
      ∧ ∃ req ans,
          haloRequests geometry 1 haloMap haloElements = Ok [req]
          ∧ answerRequests geometry 0 req = Ok ans
          ∧ received = [ans].
Proof.
  split.
  - unfold haloExchange_sequential.
    destruct (haloRequests geometry 1 haloMap []) as [reqs| |] eqn:Hreqs;
      osimpl.
    + apply haloRequests_length in Hreqs as [_ Hnil].
      by rewrite (Hnil eq_refl).
    + exfalso. revert Hreqs.
      unfold haloRequests, nElemPerRankOr, readRange.
      cbn [readRange_gen]. unfold readAt.
      destruct (CGeometry.starting_node geometry !! 0%nat); osimpl;
        [|done].
      by destruct (CGeometry.ending_node geometry !! (1 - 1)%nat).
    + done.
  - intros received Hrun. unfold haloExchange_sequential in Hrun.
    destruct (haloRequests geometry 1 haloMap haloElements)
      as [reqs| |] eqn:Hreqs; [|done..]. cbn [obind] in Hrun.
    apply haloRequests_length in Hreqs as Hlen. destruct Hlen as [Hle Hnil].
    destruct reqs as [|req [|? ?]]; [done| |simpl in Hle; lia].
    cbn [readAt lookup list_lookup obind length replicate] in Hrun.
    unfold writeAt at 1 in Hrun. cbn [decide] in Hrun.
    rewrite decide_True in Hrun by (simpl; lia). cbn [obind] in Hrun.
    cbn [insert list_insert answerAll] in Hrun.
    destruct (answerRequests geometry 0 req) as [ans| |] eqn:Hans;
      [|done..].
    cbn [obind readAt lookup list_lookup] in Hrun.
    unfold writeAt in Hrun. rewrite decide_True in Hrun by (simpl; lia).
    injection Hrun as <-. split.
    + intros ->. by specialize (Hnil eq_refl).
    + by exists req, ans.
Qed.
